(** * spatial-build: the geometric inference and ranking engine

    A shallow embedding of [src/services/spatialService.ts] and of the
    tower-center inference of [src/services/fileService.ts].

    Conventions of the embedding.
    - A JavaScript number is a [num]: a finite value (an exact rational, so
      rounding is not modelled), one of the two infinities, or NaN.
      Coordinates and the results of the turf library are finite and are
      kept in [Q]; they enter [num] through [Fin].
    - A thrown exception is the [Throw] outcome of a [result].
    - The turf functions [bearing], [distance] and [booleanPointInPolygon],
      [Math.sqrt] and [Math.cos] are parameters of the development (class
      [Env]).  [coordAll], [centroid] and [point] are structural and follow
      turf: [coordAll] lists every position, [centroid] is the mean of the
      positions (the last position of each polygon ring left out) and
      throws when the mean is not a number, [point] rejects a position
      with fewer than two numbers.
    - [parseFloat], [toFixed], regular expressions, [Array.prototype.sort]
      and array indexing follow ECMAScript, on exact numbers: a literal
      is read without rounding and never overflows to an infinity, and a
      character is a code unit below 256.  The sort is a stable insertion
      sort; it gives the order of every conforming sort when the
      comparator is consistent, and ECMAScript leaves the order to the
      implementation when it is not (a NaN among the keys).
    - The property object of a feature is its string entries, in the order
      of [Object.keys], together with the [_center] annotation; the other
      annotations ([_id], [_sourceId], [_sourceName]) and the timestamp of
      a result play no part in the inference and are left out. *)

From Stdlib Require Import QArith Qabs Qround ZArith List String Ascii Bool.
From Stdlib Require Import Lia Lqa Permutation Sorted PeanoNat DecimalString.
From Stdlib Require DecimalFacts DecimalPos DecimalN.
Import ListNotations.
Open Scope Q_scope.

(** ** JavaScript numbers *)

Module JsNum.

Inductive num : Type :=
| Fin (q : Q)
| Inf (negative : bool)
| NaN.

Definition Qltb (a b : Q) : bool := negb (Qle_bool b a).

(** Truncation toward zero, and the remainder [a % m] of two finite
    numbers ([m] not zero): the sign of the result is the sign of [a]. *)
Definition Qtrunc (x : Q) : Z :=
  if Qle_bool 0 x then Qfloor x else Qceiling x.

Definition Qrem (a m : Q) : Q := a - m * inject_Z (Qtrunc (a / m)).

Definition isNaN (x : num) : bool :=
  match x with NaN => true | _ => false end.

Definition neg (x : num) : num :=
  match x with
  | Fin q => Fin (- q)
  | Inf s => Inf (negb s)
  | NaN => NaN
  end.

Definition add (x y : num) : num :=
  match x, y with
  | Fin a, Fin b => Fin (a + b)
  | Fin _, Inf s => Inf s
  | Inf s, Fin _ => Inf s
  | Inf s, Inf t => if Bool.eqb s t then Inf s else NaN
  | _, _ => NaN
  end.

Definition sub (x y : num) : num := add x (neg y).

Definition abs (x : num) : num :=
  match x with
  | Fin q => Fin (Qabs q)
  | Inf _ => Inf false
  | NaN => NaN
  end.

Definition rem (x m : num) : num :=
  match x, m with
  | Fin a, Fin b => if Qeq_bool b 0 then NaN else Fin (Qrem a b)
  | Fin a, Inf _ => Fin a
  | _, _ => NaN
  end.

Definition div (x y : num) : num :=
  match x, y with
  | Fin a, Fin b =>
      if Qeq_bool b 0
      then (if Qeq_bool a 0 then NaN else Inf (Qltb a 0))
      else Fin (a / b)
  | Fin _, Inf _ => Fin 0
  | Inf s, Fin b => Inf (xorb s (Qltb b 0))
  | _, _ => NaN
  end.

(** Comparisons; every comparison with NaN is false. *)
Definition ltb (x y : num) : bool :=
  match x, y with
  | Fin a, Fin b => Qltb a b
  | Fin _, Inf s => negb s
  | Inf s, Fin _ => s
  | Inf s, Inf t => s && negb t
  | _, _ => false
  end.

Definition eqb (x y : num) : bool :=
  match x, y with
  | Fin a, Fin b => Qeq_bool a b
  | Inf s, Inf t => Bool.eqb s t
  | _, _ => false
  end.

Definition leb (x y : num) : bool := ltb x y || eqb x y.
Definition gtb (x y : num) : bool := ltb y x.
Definition geb (x y : num) : bool := leb y x.

(** The same number (unlike [eqb], NaN is the same number as NaN). *)
Definition same (x y : num) : Prop :=
  match x, y with
  | Fin a, Fin b => a == b
  | Inf s, Inf t => s = t
  | NaN, NaN => True
  | _, _ => False
  end.

(** [x] is a finite number of [lo, hi]. *)
Definition within (lo hi : Q) (x : num) : Prop :=
  match x with
  | Fin q => lo <= q /\ q <= hi
  | _ => False
  end.

(** [x] is a finite number of [lo, hi). *)
Definition within_ro (lo hi : Q) (x : num) : Prop :=
  match x with
  | Fin q => lo <= q /\ q < hi
  | _ => False
  end.

(** [x] is a finite number of (lo, hi]. *)
Definition within_lo (lo hi : Q) (x : num) : Prop :=
  match x with
  | Fin q => lo < q /\ q <= hi
  | _ => False
  end.

Definition Math_max (a b : Q) : Q := if Qle_bool a b then b else a.
Definition Math_min (a b : Q) : Q := if Qle_bool a b then a else b.

End JsNum.

Import JsNum.

(** ** Exceptions *)

Inductive result (A : Type) : Type :=
| Return (a : A)
| Throw (msg : string).

Arguments Return {A} a.
Arguments Throw {A} msg.

Definition bind {A B : Type} (r : result A) (k : A -> result B) : result B :=
  match r with
  | Return a => k a
  | Throw msg => Throw msg
  end.

Notation "x <- r ;; k" := (bind r (fun x => k))
  (at level 61, r at next level, right associativity).

(** [try { body } catch (e) { handler }] *)
Definition try_catch {A : Type} (body : result A) (handler : A) : A :=
  match body with
  | Return a => a
  | Throw _ => handler
  end.

Definition throws {A : Type} (r : result A) : bool :=
  match r with Throw _ => true | Return _ => false end.

Fixpoint filterM {A : Type} (p : A -> result bool) (l : list A)
  : result (list A) :=
  match l with
  | [] => Return []
  | x :: l' =>
      keep <- p x ;;
      rest <- filterM p l' ;;
      Return (if keep then x :: rest else rest)
  end.

Fixpoint mapM {A B : Type} (f : A -> result B) (l : list A)
  : result (list B) :=
  match l with
  | [] => Return []
  | x :: l' =>
      y <- f x ;;
      rest <- mapM f l' ;;
      Return (y :: rest)
  end.

Fixpoint foldM {A S : Type} (step : S -> A -> result S) (l : list A) (s : S)
  : result S :=
  match l with
  | [] => Return s
  | x :: l' => s' <- step s x ;; foldM step l' s'
  end.

(** ** ECMAScript library functions *)

(** [Array.prototype.sort(comparefn)]: a stable sort; of two elements [x]
    before [y], [y] moves ahead only when [comparefn(x, y) > 0]. *)
Section Sort.
Context {A : Type} (comparefn : A -> A -> num).

Fixpoint sort_insert (x : A) (l : list A) : list A :=
  match l with
  | [] => [x]
  | y :: l' =>
      if gtb (comparefn x y) (Fin 0) then y :: sort_insert x l'
      else x :: y :: l'
  end.

Fixpoint sort (l : list A) : list A :=
  match l with
  | [] => []
  | x :: l' => sort_insert x (sort l')
  end.

End Sort.

(** [array[k]] for a number [k]: an element when [k] is an integer index
    within the array, [undefined] otherwise. *)
Definition array_get {A : Type} (l : list A) (k : Q) : option A :=
  if Qeq_bool k (inject_Z (Qfloor k)) && (0 <=? Qfloor k)%Z
  then nth_error l (Z.to_nat (Qfloor k))
  else None.

(** [x.toFixed(digits)] for a finite [x] below 10^21: the sign, then the
    integer [n] nearest to [|x| * 10^digits] (the larger one on a tie)
    printed with a decimal point before its last [digits] digits. *)
Definition pad_left (width : nat) (s : string) : string :=
  let fix zeros (k : nat) : string :=
    match k with O => EmptyString | S k' => String "0" (zeros k') end in
  append (zeros (width - String.length s)%nat) s.

Definition toFixed (x : Q) (digits : nat) : string :=
  let scale := (10 ^ Z.of_nat digits)%Z in
  let n := Qfloor (Qabs x * inject_Z scale + (1 # 2)) in
  let int_part := NilZero.string_of_uint (N.to_uint (Z.to_N (n / scale))) in
  let frac_part :=
    pad_left digits (NilZero.string_of_uint (N.to_uint (Z.to_N (n mod scale)))) in
  let sign := if Qltb x 0 then "-"%string else EmptyString in
  append sign
    (match digits with
     | O => int_part
     | _ => append int_part (append "." frac_part)
     end).

(** Regular expressions without repetition, which is all the source uses;
    [Chr] compares case-insensitively (the [i] flag). *)
Inductive regex : Type :=
| Eps
| Chr (c : ascii)
| Seq (r1 r2 : regex)
| Alt (r1 r2 : regex)
| Opt (r : regex)
| Bol
| Eol.

Definition lower (c : ascii) : ascii :=
  let n := nat_of_ascii c in
  if ((65 <=? n) && (n <=? 90))%nat then ascii_of_nat (n + 32) else c.

(** [rmatch r start s k]: [r] matches a prefix of [s] and [k] accepts the
    rest; [start] tells whether [s] is the whole input. *)
Fixpoint rmatch (r : regex) (start : bool) (s : list ascii)
  (k : bool -> list ascii -> bool) : bool :=
  match r with
  | Eps => k start s
  | Chr c =>
      match s with
      | a :: s' => Ascii.eqb (lower a) (lower c) && k false s'
      | [] => false
      end
  | Seq r1 r2 => rmatch r1 start s (fun st s' => rmatch r2 st s' k)
  | Alt r1 r2 => rmatch r1 start s k || rmatch r2 start s k
  | Opt r1 => rmatch r1 start s k || k start s
  | Bol => start && k start s
  | Eol => match s with [] => k start s | _ :: _ => false end
  end.

Fixpoint rsearch (r : regex) (start : bool) (s : list ascii) : bool :=
  rmatch r start s (fun _ _ => true)
  || match s with
     | [] => false
     | _ :: s' => rsearch r false s'
     end.

(** [r.test(s)] *)
Definition regex_test (r : regex) (s : string) : bool :=
  rsearch r true (list_ascii_of_string s).

Fixpoint lit (s : string) : regex :=
  match s with
  | EmptyString => Eps
  | String c EmptyString => Chr c
  | String c s' => Seq (Chr c) (lit s')
  end.

(** [parseFloat(s)]: leading white space, a sign, then [Infinity] or the
    longest decimal literal; NaN when there is none. *)
Definition is_space (c : ascii) : bool :=
  let n := nat_of_ascii c in
  ((n =? 32) || ((9 <=? n) && (n <=? 13)) || (n =? 160))%nat.

Definition digit_of (c : ascii) : option Z :=
  let n := nat_of_ascii c in
  if ((48 <=? n) && (n <=? 57))%nat then Some (Z.of_nat (n - 48)) else None.

Fixpoint skip_spaces (s : list ascii) : list ascii :=
  match s with
  | c :: s' => if is_space c then skip_spaces s' else s
  | [] => []
  end.

(** The digits at the head of [s]: how many, their value after [acc], and
    the rest of [s]. *)
Fixpoint take_digits (s : list ascii) (count : nat) (acc : Z)
  : nat * Z * list ascii :=
  match s with
  | c :: s' =>
      match digit_of c with
      | Some d => take_digits s' (S count) (acc * 10 + d)%Z
      | None => (count, acc, s)
      end
  | [] => (count, acc, [])
  end.

Fixpoint starts_with (p s : list ascii) : bool :=
  match p, s with
  | [], _ => true
  | a :: p', b :: s' => Ascii.eqb a b && starts_with p' s'
  | _ :: _, [] => false
  end.

Definition take_sign (s : list ascii) : bool * list ascii :=
  match s with
  | "-"%char :: s' => (true, s')
  | "+"%char :: s' => (false, s')
  | _ => (false, s)
  end.

Definition take_exponent (s : list ascii) : Z :=
  match s with
  | c :: s' =>
      if Ascii.eqb (lower c) "e"
      then let '(negative, s'') := take_sign s' in
           let '(count, e, _) := take_digits s'' 0 0%Z in
           match count with
           | O => 0%Z
           | _ => if negative then (- e)%Z else e
           end
      else 0%Z
  | [] => 0%Z
  end.

Definition parseFloat (input : string) : num :=
  let s := skip_spaces (list_ascii_of_string input) in
  let '(negative, s) := take_sign s in
  if starts_with (list_ascii_of_string "Infinity") s then Inf negative
  else
    let '(int_count, int_value, s) := take_digits s 0 0%Z in
    let '(frac_count, mantissa, s) :=
      match s with
      | "."%char :: s' => take_digits s' 0 int_value
      | _ => (O, int_value, s)
      end in
    match (int_count + frac_count)%nat with
    | O => NaN
    | _ =>
        let e := (take_exponent s - Z.of_nat frac_count)%Z in
        let magnitude := inject_Z mantissa * Qpower 10 e in
        Fin (if negative then - magnitude else magnitude)
    end.


(** Patterns with character classes, repetition of a class and capture
    groups, for the expression of [parseCoordinateString].  A character
    is a code unit below 256. *)
Inductive pattern : Type :=
| PSet (p : ascii -> bool)
| PSeq (r1 r2 : pattern)
| POpt (r : pattern)
| PPlus (p : ascii -> bool)
| PGroup (n : nat) (r : pattern)
| PBol
| PEol.

(** The groups that took part in a match, the latest first. *)
Definition captures : Type := list (nat * list ascii).

(** [p+]: as many characters of the class as there are, then fewer. *)
Fixpoint plus_loop (p : ascii -> bool) (s : list ascii)
  (k : list ascii -> option captures) : option captures :=
  match s with
  | c :: s' =>
      if p c
      then match plus_loop p s' k with
           | Some caps => Some caps
           | None => k s'
           end
      else None
  | [] => None
  end.

Fixpoint pmatch (r : pattern) (start : bool) (s : list ascii)
  (caps : captures)
  (k : bool -> list ascii -> captures -> option captures)
  : option captures :=
  match r with
  | PSet p =>
      match s with
      | c :: s' => if p c then k false s' caps else None
      | [] => None
      end
  | PSeq r1 r2 =>
      pmatch r1 start s caps (fun st s' caps' => pmatch r2 st s' caps' k)
  | POpt r1 =>
      match pmatch r1 start s caps k with
      | Some caps' => Some caps'
      | None => k start s caps
      end
  | PPlus p => plus_loop p s (fun s' => k false s' caps)
  | PGroup n r1 =>
      pmatch r1 start s caps
        (fun st s' caps' =>
           k st s'
             ((n, firstn (List.length s - List.length s') s) :: caps'))
  | PBol => if start then k start s caps else None
  | PEol => match s with [] => k start s caps | _ :: _ => None end
  end.

(** [s.match(r)] for an expression without the [g] flag. *)
Fixpoint psearch (r : pattern) (start : bool) (s : list ascii)
  : option captures :=
  match pmatch r start s [] (fun _ _ caps => Some caps) with
  | Some caps => Some caps
  | None =>
      match s with
      | [] => None
      | _ :: s' => psearch r false s'
      end
  end.

(** [match[n]] *)
Fixpoint capture (n : nat) (caps : captures) : option (list ascii) :=
  match caps with
  | [] => None
  | (m, text) :: caps' => if (m =? n)%nat then Some text else capture n caps'
  end.

(** White space and line terminators, among the code units below 256. *)
Definition is_white (c : ascii) : bool :=
  let n := nat_of_ascii c in
  ((n =? 32) || ((9 <=? n) && (n <=? 13)) || (n =? 160))%nat.

Definition is_digit (c : ascii) : bool :=
  let n := nat_of_ascii c in
  ((48 <=? n) && (n <=? 57))%nat.

Fixpoint trimStart (s : list ascii) : list ascii :=
  match s with
  | c :: s' => if is_white c then trimStart s' else s
  | [] => []
  end.

(** [s.trim()] *)
Definition trim (s : list ascii) : list ascii :=
  rev (trimStart (rev (trimStart s))).

(** ** GeoJSON *)

(** A position: longitude, latitude and, when present, altitude. *)
Definition Position : Type := list Q.

(** The geometries with coordinates; a geometry collection, which the
    inference treats like a line, is not modelled. *)
Inductive Geometry : Type :=
| Point (coordinates : Position)
| MultiPoint (coordinates : list Position)
| LineString (coordinates : list Position)
| MultiLineString (coordinates : list (list Position))
| Polygon (coordinates : list (list Position))
| MultiPolygon (coordinates : list (list (list Position))).

(** [properties]: the entries that came with the feature, and the anchor
    that [parseGeoFile] stores under [_center]. *)
Record Properties : Type := mkProperties {
  entries : list (string * string);
  _center : option Position
}.

Record Feature : Type := mkFeature {
  geometry : option Geometry;
  properties : option Properties
}.

Definition Object_keys (props : Properties) : list string :=
  map fst (entries props).

(** [props[key]] *)
Fixpoint get_entry (l : list (string * string)) (key : string)
  : option string :=
  match l with
  | [] => None
  | (k, v) :: l' => if String.eqb k key then Some v else get_entry l' key
  end.

(** [parseFloat(props[key])]; [parseFloat(undefined)] is NaN. *)
Definition parseFloat_entry (props : Properties) (key : string) : num :=
  match get_entry (entries props) key with
  | Some v => parseFloat v
  | None => NaN
  end.

(** [f.properties && f.properties._center] *)
Definition feature_center (f : Feature) : option Position :=
  match properties f with
  | Some props => _center props
  | None => None
  end.

(** [feature.properties._center = c] *)
Definition set_center (f : Feature) (c : Position) : Feature :=
  mkFeature (geometry f)
    (Some (mkProperties
             (match properties f with Some p => entries p | None => [] end)
             (Some c))).

Definition is_polygonal (g : Geometry) : bool :=
  match g with
  | Polygon _ | MultiPolygon _ => true
  | _ => false
  end.

(** ** turf *)

Inductive Units : Type := kilometers | meters.

Class Env : Type := {
  (* bearing(from, to): degrees from north, between -180 and 180 *)
  turfBearing : Position -> Position -> Q;
  (* distance(from, to, { units }) *)
  turfDistance : Position -> Position -> Units -> Q;
  (* booleanPointInPolygon(point, polygon); throws on invalid geometry *)
  booleanPointInPolygon : Position -> Feature -> result bool;
  (* Math.sqrt *)
  Math_sqrt : Q -> Q;
  (* Math.cos(degrees * Math.PI / 180) *)
  Math_cos_deg : Q -> Q
}.

(** [point(coordinates)] *)
Definition point (coordinates : Position) : result Position :=
  if (List.length coordinates <? 2)%nat
  then Throw "coordinates must be at least 2 numbers long"
  else Return coordinates.

Definition geometry_coords (wrapShrink : nat) (g : Geometry)
  : list Position :=
  let ring (r : list Position) := firstn (List.length r - wrapShrink) r in
  match g with
  | Point c => [c]
  | MultiPoint cs | LineString cs => cs
  | MultiLineString ls => List.concat ls
  | Polygon rings => List.concat (map ring rings)
  | MultiPolygon polys =>
      List.concat (map (fun p => List.concat (map ring p)) polys)
  end.

(** The positions [coordEach(geojson, callback, excludeWrapCoord)] visits. *)
Definition coordEach (f : Feature) (excludeWrapCoord : bool)
  : list Position :=
  match geometry f with
  | None => []
  | Some g =>
      geometry_coords
        (if excludeWrapCoord && is_polygonal g then 1 else 0)%nat g
  end.

Definition coordAll (f : Feature) : list Position := coordEach f false.

Definition Qsum (l : list Q) : Q := fold_left Qplus l 0.

(** [centroid(geojson)]: the mean of the positions; with no position, or
    with a position short of two numbers, the mean is NaN and [point]
    throws. *)
Definition centroid (f : Feature) : result Position :=
  let cs := coordEach f true in
  let len := inject_Z (Z.of_nat (List.length cs)) in
  if (List.length cs =? 0)%nat
     || existsb (fun c => (List.length c <? 2)%nat) cs
  then Throw "coordinates must contain numbers"
  else Return [Qsum (map (fun c => nth 0 c 0) cs) / len;
               Qsum (map (fun c => nth 1 c 0) cs) / len].

(** ** spatialService.ts *)

Definition site_prefix : regex := Opt (Seq (lit "site") (Opt (Chr "_"))).

(* /^(site_?)?(azimuth|bearing|heading|dir(ection)?|orient(ation)?)$/i *)
Definition azimuth_regex : regex :=
  Seq Bol
    (Seq site_prefix
       (Seq (Alt (lit "azimuth")
               (Alt (lit "bearing")
                  (Alt (lit "heading")
                     (Alt (Seq (lit "dir") (Opt (lit "ection")))
                        (Seq (lit "orient") (Opt (lit "ation")))))))
          Eol)).

(* Normalize any angle to 0 <= angle < 360 *)
Definition normalizeAngle (angle : num) : num :=
  let result := rem (add (rem angle (Fin 360)) (Fin 360)) (Fin 360) in
  if eqb result (Fin 360) then Fin 0 else result.

(* Calculate shortest angular difference (0-180) *)
Definition calculateDeviation (angle1 angle2 : num) : num :=
  let diff := abs (sub angle1 angle2) in
  if gtb diff (Fin 180) then sub (Fin 360) diff else diff.

(* Check explicit properties for Azimuth using extended regex;
   [None] is the source's null *)
Definition getExplicitAzimuth (props : option Properties) : option num :=
  match props with
  | None => None
  | Some props =>
      match find (regex_test azimuth_regex) (Object_keys props) with
      | Some key =>
          let val := parseFloat_entry props key in
          if negb (isNaN val) then Some (normalizeAngle val) else None
      | None => None
      end
  end.

Record SectorMetrics : Type := mkSectorMetrics {
  azimuth : num;
  beamwidth : num;
  isOmni : bool;
  startAngle : num;
  endAngle : num
}.

(** The state of the gap loop: [maxGap], [gapStart], [gapEnd]. *)
Definition GapState : Type := (num * num * num)%type.

(** One iteration of [for (let i = 0; i < bearings.length; i++)]; an
    index outside the array reads [undefined], NaN in arithmetic. *)
Definition gap_step (bearings : list num) (st : GapState) (i : nat)
  : GapState :=
  let '(maxGap, gapStart, gapEnd) := st in
  let current := nth i bearings NaN in
  let next := nth ((i + 1) mod List.length bearings) bearings NaN in
  let diff := sub next current in
  let diff := if ltb diff (Fin 0) then add diff (Fin 360) else diff in
  if gtb diff maxGap then (diff, current, next) else st.

Definition gap_loop (bearings : list num) : GapState :=
  fold_left (gap_step bearings) (seq 0 (List.length bearings))
    (Fin 0, Fin 0, Fin 0).

Definition omni_metrics : SectorMetrics :=
  mkSectorMetrics (Fin 0) (Fin 360) true (Fin 0) (Fin 360).

Definition explicit_metrics (explicitAzimuth : num) : SectorMetrics :=
  mkSectorMetrics explicitAzimuth (Fin 65) false
    (normalizeAngle (sub explicitAzimuth (Fin 32.5)))
    (normalizeAngle (add explicitAzimuth (Fin 32.5))).

Section SpatialService.
Context `{Env}.

(* Calculate Azimuth, Beamwidth, and Coverage Edges using Angular Gap Logic *)
Definition analyzeSectorGeometry (geoFeature : Feature)
  (towerCenter : Position) : result SectorMetrics :=
  let explicitAzimuth := getExplicitAzimuth (properties geoFeature) in
  let degenerate :=
    match explicitAzimuth with
    | Some a => explicit_metrics a
    | None => omni_metrics
    end in
  match geometry geoFeature with
  | None | Some (Point _) => Return degenerate
  | Some _ =>
      centerPoint <- centroid geoFeature ;;
      let distToCentroid := turfDistance towerCenter centerPoint meters in
      if Qltb distToCentroid 2 then Return degenerate
      else
        let coords := coordAll geoFeature in
        outerCoords <-
          filterM (fun c =>
                     pc <- point c ;;
                     let d := turfDistance pc towerCenter meters in
                     Return (Qltb 2 d)) coords ;;
        if (List.length outerCoords =? 0)%nat
        then
          let azimuth :=
            normalizeAngle (Fin (turfBearing towerCenter centerPoint)) in
          Return (mkSectorMetrics azimuth (Fin 360) true (Fin 0) (Fin 360))
        else
          bearings <-
            mapM (fun c =>
                    pc <- point c ;;
                    Return (normalizeAngle (Fin (turfBearing towerCenter pc))))
              outerCoords ;;
          let bearings := sort (fun a b => sub a b) bearings in
          let '(maxGap, gapStart, gapEnd) := gap_loop bearings in
          if ltb maxGap (Fin 60) then Return omni_metrics
          else
            let startAngle := gapEnd in
            let endAngle := gapStart in
            let beamwidth := sub (Fin 360) maxGap in
            let geoAzimuth :=
              normalizeAngle (add startAngle (div beamwidth (Fin 2))) in
            let azimuth :=
              match explicitAzimuth with
              | Some a => a
              | None => geoAzimuth
              end in
            Return (mkSectorMetrics azimuth beamwidth false startAngle endAngle)
  end.

Record SiteGroup : Type := mkSiteGroup {
  id : string;
  referencePoint : Position;
  distance : Q;
  candidates : list Feature
}.

Record Evaluated : Type := mkEvaluated {
  feature : Feature;
  ev_azimuth : num;
  ev_beamwidth : num;
  deviation : num;
  isInside : bool;
  (* a local variable of the source, kept for the statements about it *)
  isInBeam : bool;
  score : num
}.

Record LatLng : Type := mkLatLng { lat : Q; lng : Q }.

Record AnalysisResult : Type := mkAnalysisResult {
  nearestFeature : Feature;
  res_distance : Q;
  res_bearing : num;
  sectorAzimuth : num;
  sectorBeamwidth : num;
  deviationAngle : num;
  res_isInside : bool;
  searchPoint : LatLng;
  nearestPoint : LatLng;
  res_rank : Q;
  totalFeatures : nat
}.

(** [lat >= minLat && lat <= maxLat && lng >= minLng && lng <= maxLng]
    after [[lng, lat] = coordinates]; a missing number is [undefined] and
    compares false. *)
Definition in_window (minLat maxLat minLng maxLng : Q) (c : Position)
  : bool :=
  match nth_error c 0, nth_error c 1 with
  | Some lng, Some lat =>
      Qle_bool minLat lat && Qle_bool lat maxLat
      && Qle_bool minLng lng && Qle_bool lng maxLng
  | _, _ => false
  end.

(** The callback of [geoData.features.filter]. *)
Definition prefilter (minLat maxLat minLng maxLng : Q) (f : Feature)
  : bool :=
  match feature_center f with
  | Some c => in_window minLat maxLat minLng maxLng c
  | None =>
      try_catch
        (centr <- centroid f ;;
         Return (in_window minLat maxLat minLng maxLng centr))
        false
  end.

(** [centerCoords] of the clustering loop. *)
Definition center_coords (f : Feature) : result Position :=
  match feature_center f with
  | Some c => Return c
  | None =>
      match coordAll f with
      | c :: _ => Return c
      | [] => centroid f
      end
  end.

(** [centerCoords[i].toFixed(4)]; a missing number is [undefined], whose
    method call throws. *)
Definition toFixed_at (c : Position) (i : nat) : result string :=
  match nth_error c i with
  | Some x => Return (toFixed x 4)
  | None => Throw "TypeError"
  end.

Definition site_key (centerCoords : Position) : result string :=
  latKey <- toFixed_at centerCoords 1 ;;
  lngKey <- toFixed_at centerCoords 0 ;;
  Return (append latKey (append "," lngKey)).

(** [siteGroups] is the [Map] in insertion order. *)
Definition has_site (key : string) (siteGroups : list SiteGroup) : bool :=
  existsb (fun g => String.eqb (id g) key) siteGroups.

(** [siteGroups.get(key)!.candidates.push(f)] *)
Definition push_candidate (key : string) (f : Feature)
  (siteGroups : list SiteGroup) : list SiteGroup :=
  map (fun g =>
         if String.eqb (id g) key
         then mkSiteGroup (id g) (referencePoint g) (distance g)
                (candidates g ++ [f])
         else g) siteGroups.

(** The callback of [featuresToAnalyze.forEach]. *)
Definition cluster_step (targetPoint : Position)
  (siteGroups : list SiteGroup) (f : Feature) : result (list SiteGroup) :=
  centerCoords <- center_coords f ;;
  key <- site_key centerCoords ;;
  siteGroups <-
    (if negb (has_site key siteGroups)
     then
       refPoint <- point centerCoords ;;
       let dist := turfDistance targetPoint refPoint kilometers in
       Return (siteGroups ++ [mkSiteGroup key refPoint dist []])
     else Return siteGroups) ;;
  Return (push_candidate key f siteGroups).

Definition cluster (targetPoint : Position) (features : list Feature)
  : result (list SiteGroup) :=
  foldM (cluster_step targetPoint) features [].

(* E. Weighted Scoring Algorithm (Lower is Better) *)
Definition weighted_score (f : Feature) (deviation : num)
  (isInside isNearField isInBeam : bool) : num :=
  let score := deviation in
  let score :=
    if isInside then sub score (Fin 10000)
    else if isNearField then sub score (Fin 5000)
    else if isInBeam then sub score (Fin 2000)
    else score in
  match getExplicitAzimuth (properties f) with
  | Some _ => sub score (Fin 10)
  | None => score
  end.

(** The callback of [selectedSite.candidates.map]. *)
Definition evaluate (targetPoint : Position) (selectedSite : SiteGroup)
  (bearingTowerToUser : num) (isNearField : bool) (f : Feature)
  : result Evaluated :=
  (* A. Geometric Analysis *)
  m <- analyzeSectorGeometry f (referencePoint selectedSite) ;;
  (* B. Deviation from Boresight *)
  let deviation := calculateDeviation (azimuth m) bearingTowerToUser in
  let deviation := if isOmni m || isNearField then Fin 0 else deviation in
  (* C. Spatial Containment *)
  let isInside :=
    try_catch
      (match geometry f with
       | None => Throw "TypeError"
       | Some g =>
           if is_polygonal g then booleanPointInPolygon targetPoint f
           else Return false
       end)
      false in
  (* D. "In Beam" Check *)
  let isInBeam :=
    if negb (isOmni m) && negb isNearField
    then (if leb deviation (div (beamwidth m) (Fin 2)) then true else false)
    else true in
  let score := weighted_score f deviation isInside isNearField isInBeam in
  Return (mkEvaluated f (azimuth m) (beamwidth m) deviation isInside
            isInBeam score).

(** The features that go on to clustering: those the bounding box keeps,
    or all of them when it keeps none. *)
Definition features_to_analyze (searchLat searchLng : Q)
  (features : list Feature) : list Feature :=
  let LAT_THRESHOLD := 0.5 in
  let LNG_THRESHOLD := 0.5 / Math_max 0.1 (Math_cos_deg searchLat) in
  let minLat := searchLat - LAT_THRESHOLD in
  let maxLat := searchLat + LAT_THRESHOLD in
  let minLng := searchLng - LNG_THRESHOLD in
  let maxLng := searchLng + LNG_THRESHOLD in
  let filtered := filter (prefilter minLat maxLat minLng maxLng) features in
  if (0 <? List.length filtered)%nat then filtered else features.

(* 2. RANKING SITES *)
Definition rank_sites (siteGroups : list SiteGroup) : list SiteGroup :=
  sort (fun a b => Fin (distance a - distance b)) siteGroups.

Definition safe_rank (rank : Q) (totalSites : nat) : Q :=
  Math_max 1 (Math_min rank (inject_Z (Z.of_nat totalSites))).

(* 3. SECTOR SELECTION (Best Facing Logic) and 4. RESULT CONSTRUCTION *)
Definition select_sector (searchLat searchLng : Q) (selectedSite : SiteGroup)
  (safeRank : Q) (totalSites : nat) : result AnalysisResult :=
  let targetPoint : Position := [searchLng; searchLat] in
  let bearingTowerToUser :=
    normalizeAngle
      (Fin (turfBearing (referencePoint selectedSite) targetPoint)) in
  let isNearField := Qltb (distance selectedSite * 1000) 30 in
  evaluatedCandidates <-
    mapM (evaluate targetPoint selectedSite bearingTowerToUser isNearField)
      (candidates selectedSite) ;;
  let evaluatedCandidates :=
    sort (fun a b => sub (score a) (score b)) evaluatedCandidates in
  match evaluatedCandidates with
  | [] => Throw "TypeError"
  | bestMatch :: _ =>
      let bearingUserToTower :=
        normalizeAngle
          (Fin (turfBearing targetPoint (referencePoint selectedSite))) in
      Return
        (mkAnalysisResult (feature bestMatch) (distance selectedSite)
           bearingUserToTower (ev_azimuth bestMatch)
           (ev_beamwidth bestMatch) (deviation bestMatch)
           (isInside bestMatch)
           (mkLatLng searchLat searchLng)
           (mkLatLng (nth 1 (referencePoint selectedSite) 0)
              (nth 0 (referencePoint selectedSite) 0))
           safeRank totalSites)
  end.

Definition performSpatialAnalysis (searchLat searchLng : Q)
  (features : list Feature) (rank : Q) : result AnalysisResult :=
  let targetPoint : Position := [searchLng; searchLat] in
  if (List.length features =? 0)%nat
  then Throw "No features found in dataset to analyze."
  else
    let featuresToAnalyze :=
      features_to_analyze searchLat searchLng features in
    (* 1. GROUPING (Clustering) *)
    siteGroups <- cluster targetPoint featuresToAnalyze ;;
    let sites := rank_sites siteGroups in
    let totalSites := List.length sites in
    let safeRank := safe_rank rank totalSites in
    match array_get sites (safeRank - 1) with
    | None => Throw "No suitable site found."
    | Some selectedSite =>
        select_sector searchLat searchLng selectedSite safeRank totalSites
    end.

End SpatialService.

(* [,\s] *)
Definition is_separator (c : ascii) : bool :=
  Ascii.eqb c "," || is_white c.

(* -?\d+(\.\d+)? with the fraction as group [g] *)
Definition number_pattern (g : nat) : pattern :=
  PSeq (POpt (PSet (Ascii.eqb "-")))
    (PSeq (PPlus is_digit)
       (POpt (PGroup g (PSeq (PSet (Ascii.eqb ".")) (PPlus is_digit))))).

(* /^(-?\d+(\.\d+)?)[,\s]+(-?\d+(\.\d+)?)$/ *)
Definition coordinate_regex : pattern :=
  PSeq PBol
    (PSeq (PGroup 1 (number_pattern 2))
       (PSeq (PPlus is_separator)
          (PSeq (PGroup 3 (number_pattern 4)) PEol))).

(** [parseFloat(match[n])] *)
Definition parseFloat_capture (caps : captures) (n : nat) : num :=
  match capture n caps with
  | Some text => parseFloat (string_of_list_ascii text)
  | None => NaN
  end.

(* Matches: "12.34, 56.78" or "12.34 56.78" *)
Definition parseCoordinateString (input : string) : option (num * num) :=
  match psearch coordinate_regex true (trim (list_ascii_of_string input)) with
  | Some caps =>
      let lat := parseFloat_capture caps 1 in
      let lng := parseFloat_capture caps 3 in
      if leb (abs lat) (Fin 90) && leb (abs lng) (Fin 180)
      then Some (lat, lng)
      else None
  | None => None
  end.

(** ** fileService.ts *)

(* /^(site_?)?lat(itude)?$/i *)
Definition lat_regex : regex :=
  Seq Bol (Seq site_prefix (Seq (lit "lat") (Seq (Opt (lit "itude")) Eol))).

(* /^(site_?)?lon(gitude)?|lng$/i : the alternation splits the whole
   pattern, [^...] on the left and [...$] on the right *)
Definition lng_regex : regex :=
  Alt (Seq Bol (Seq site_prefix (Seq (lit "lon") (Opt (lit "gitude")))))
      (Seq (lit "lng") Eol).

(* Helper to check for explicit coordinates in properties *)
Definition getExplicitCenter (properties : option Properties)
  : option Position :=
  match properties with
  | None => None
  | Some props =>
      let pKeys := Object_keys props in
      match find (regex_test lat_regex) pKeys,
            find (regex_test lng_regex) pKeys with
      | Some latKey, Some lngKey =>
          let lat := parseFloat_entry props latKey in
          let lng := parseFloat_entry props lngKey in
          if negb (isNaN lat) && negb (isNaN lng)
             && leb (abs lat) (Fin 90) && leb (abs lng) (Fin 180)
          then
            (* the check leaves finite numbers only *)
            match lat, lng with
            | Fin lat, Fin lng => Some [lng; lat]
            | _, _ => None
            end
          else None
      | _, _ => None
      end
  end.

Definition type_name (g : Geometry) : string :=
  match g with
  | Point _ => "Point"
  | MultiPoint _ => "MultiPoint"
  | LineString _ => "LineString"
  | MultiLineString _ => "MultiLineString"
  | Polygon _ => "Polygon"
  | MultiPolygon _ => "MultiPolygon"
  end.

(** [x === y] for two numbers that may be [undefined]. *)
Definition strict_eq (x y : option Q) : bool :=
  match x, y with
  | Some a, Some b => Qeq_bool a b
  | None, None => true
  | _, _ => false
  end.

(** [a.join(',') === b.join(',')]: the same numbers in the same order. *)
Fixpoint same_key (a b : Position) : bool :=
  match a, b with
  | [], [] => true
  | x :: a', y :: b' => Qeq_bool x y && same_key a' b'
  | _, _ => false
  end.

(** [coordCounts], a [Map] from [c.join(',')] to a count. *)
Definition CoordCounts : Type := list (Position * nat).

Fixpoint counts_get (m : CoordCounts) (c : Position) : option nat :=
  match m with
  | [] => None
  | (k, n) :: m' => if same_key k c then Some n else counts_get m' c
  end.

Fixpoint counts_set (m : CoordCounts) (c : Position) (n : nat)
  : CoordCounts :=
  match m with
  | [] => [(c, n)]
  | (k, n') :: m' =>
      if same_key k c then (k, n) :: m' else (k, n') :: counts_set m' c n
  end.

(** [new Set(coords.map(c => c.join(',')))]: the first occurrence of every
    key, in order. *)
Fixpoint unique_keys (coords : list Position) (seen : list Position)
  : list Position :=
  match coords with
  | [] => []
  | c :: coords' =>
      if existsb (same_key c) seen then unique_keys coords' seen
      else c :: unique_keys coords' (c :: seen)
  end.

(** One iteration of the loop that fills [coordCounts]. *)
Definition count_feature (coordCounts : CoordCounts) (feature : Feature)
  : CoordCounts :=
  let coords := coordAll feature in
  let uniqueCoords := unique_keys coords [] in
  fold_left
    (fun m cStr =>
       counts_set m cStr
         (match counts_get m cStr with Some n => n | None => 0 end + 1)%nat)
    uniqueCoords coordCounts.

Definition build_coordCounts (features : list Feature) : CoordCounts :=
  fold_left count_feature features [].

(** The signature of the deduplication step. *)
Definition coord_signature (c : Position) : result string :=
  match nth_error c 0, nth_error c 1 with
  | Some x, Some y => Return (append (toFixed x 5) (append "," (toFixed y 5)))
  | _, _ => Throw "TypeError"
  end.

Definition feature_signature (g : Geometry) (coords : list Position)
  : result string :=
  sigs <- mapM coord_signature coords ;;
  Return (append (type_name g) (append "|" (String.concat ";" sigs))).

(** One iteration of the deduplication loop, on [uniqueFeatures] and
    [seenSignatures]. *)
Definition dedup_step (st : list Feature * list string) (feature : Feature)
  : result (list Feature * list string) :=
  let '(uniqueFeatures, seenSignatures) := st in
  match geometry feature with
  | None => Return st
  | Some g =>
      let coords := coordAll feature in
      if (List.length coords =? 0)%nat then Return st
      else
        signature <- feature_signature g coords ;;
        if negb (existsb (String.eqb signature) seenSignatures)
        then Return (uniqueFeatures ++ [feature], signature :: seenSignatures)
        else Return st
  end.

Section FileService.
Context `{Env}.

(* Helper to calculate angle at vertex B given neighbors A and C
   Returns angle in degrees (0-180) *)
Definition calculateAngle (curr prev next : Position) : Q :=
  try_catch
    (pCurr <- point curr ;;
     pPrev <- point prev ;;
     pNext <- point next ;;
     let b1 := turfBearing pCurr pPrev in
     let b2 := turfBearing pCurr pNext in
     let diff := Qabs (b1 - b2) in
     Return (if Qltb 180 diff then 360 - diff else diff))
    180.

(** The score of vertex [k] in STRATEGY 3. *)
Definition tip_score (coordCounts : CoordCounts) (ring : list Position)
  (angles : list Q) (k : nat) : Q :=
  let coord := nth k ring [] in
  let cStr := coord in
  let count :=
    match counts_get coordCounts cStr with
    | Some (S n) => S n
    | _ => 1%nat
    end in
  let scoreTopology := inject_Z (Z.of_nat count) * 50 in
  let scoreIndex := if (k =? 0)%nat then 80 else 0 in
  let angle := nth k angles 0 in
  let scoreGeometry := (180 - angle) * 2 in
  scoreTopology + scoreIndex + scoreGeometry.

(** One iteration of the loop of STRATEGY 3, on [bestScore] and
    [bestCenter]. *)
Definition tip_step (coordCounts : CoordCounts) (ring : list Position)
  (angles : list Q) (st : num * Position) (k : nat) : num * Position :=
  let '(bestScore, bestCenter) := st in
  let totalScore := tip_score coordCounts ring angles k in
  if gtb (Fin totalScore) bestScore
  then (Fin totalScore, nth k ring [])
  else st.

Definition ring_isClosed (ring : list Position) : bool :=
  let first := nth 0 ring [] in
  let last := nth (List.length ring - 1) ring [] in
  (0 <? List.length ring)%nat
  && strict_eq (nth_error first 0) (nth_error last 0)
  && strict_eq (nth_error first 1) (nth_error last 1).

Definition ring_analysisLength (ring : list Position) : nat :=
  if ring_isClosed ring then (List.length ring - 1)%nat else List.length ring.

(** The angles at the analysed vertices;
    [(j - 1 + analysisLength) % analysisLength] is written without the
    intermediate negative number. *)
Definition ring_angles (ring : list Position) : list Q :=
  let analysisLength := ring_analysisLength ring in
  map (fun j =>
         let coord := nth j ring [] in
         let prev := nth ((j + analysisLength - 1) mod analysisLength) ring [] in
         let next := nth ((j + 1) mod analysisLength) ring [] in
         calculateAngle coord prev next)
    (seq 0 analysisLength).

Definition ring_avgAngle (angles : list Q) : Q :=
  fold_left (fun a b => a + b) angles 0
  / inject_Z (Z.of_nat (List.length angles)).

Definition ring_stdDev (angles : list Q) : Q :=
  let avgAngle := ring_avgAngle angles in
  let variance :=
    fold_left (fun a b => a + (b - avgAngle) ^ 2) angles 0
    / inject_Z (Z.of_nat (List.length angles)) in
  Math_sqrt variance.

(* STRATEGY 2: Regular Polygon / Omni Antenna Detection; [None] when
   the feature goes on to STRATEGY 3 *)
Definition regular_center (feature : Feature) (ring : list Position)
  : option Position :=
  let analysisLength := ring_analysisLength ring in
  let angles := ring_angles ring in
  let avgAngle := ring_avgAngle angles in
  let stdDev := ring_stdDev angles in
  if (3 <? analysisLength)%nat && Qltb 90 avgAngle && Qltb stdDev 15
  then try_catch (center <- centroid feature ;; Return (Some center)) None
  else None.

(* STRATEGY 3: Sector Tip Identification (Weighted Scoring) *)
Definition tip_center (coordCounts : CoordCounts) (ring : list Position)
  : Position :=
  let '(_, bestCenter) :=
    fold_left (tip_step coordCounts ring (ring_angles ring))
      (seq 0 (ring_analysisLength ring)) (Inf true, nth 0 ring []) in
  bestCenter.

(** The heuristics on the main ring of a polygon. *)
Definition analyse_ring (coordCounts : CoordCounts) (feature : Feature)
  (ring : list Position) : Feature :=
  if (List.length ring <? 3)%nat
  then match ring with
       | c :: _ => set_center feature c
       | [] => feature
       end
  else
    match regular_center feature ring with
    | Some center => set_center feature center
    | None => set_center feature (tip_center coordCounts ring)
    end.

(** [if (!feature.properties) feature.properties = {}] *)
Definition ensure_properties (feature : Feature) : Feature :=
  mkFeature (geometry feature)
    (Some (match properties feature with
           | Some p => p
           | None => mkProperties [] None
           end)).

(** The body of the loop that injects [_center]. *)
Definition infer_center (coordCounts : CoordCounts) (feature : Feature)
  : result Feature :=
  let feature := ensure_properties feature in
  (* STRATEGY 1 *)
  match getExplicitCenter (properties feature) with
  | Some explicitCenter => Return (set_center feature explicitCenter)
  | None =>
      match geometry feature with
      | None => Throw "TypeError"
      | Some (Polygon coordinates) =>
          match nth_error coordinates 0 with
          | Some ring => Return (analyse_ring coordCounts feature ring)
          | None => Throw "TypeError"
          end
      | Some (MultiPolygon coordinates) =>
          match nth_error coordinates 0 with
          | Some polygon =>
              match nth_error polygon 0 with
              | Some ring => Return (analyse_ring coordCounts feature ring)
              | None => Throw "TypeError"
              end
          | None => Throw "TypeError"
          end
      | Some _ =>
          match coordAll feature with
          | c :: _ => Return (set_center feature c)
          | [] => Return feature
          end
      end
  end.

(** [parseGeoFile] from the converted feature list on: deduplication,
    coordinate counts, center inference.  Reading the file and parsing
    the KML come before and are not modelled. *)
Definition parseGeoFile (features : list Feature) : result (list Feature) :=
  st <- foldM dedup_step features ([], []) ;;
  let uniqueFeatures := fst st in
  let coordCounts := build_coordCounts uniqueFeatures in
  mapM (infer_center coordCounts) uniqueFeatures.

End FileService.

(** ** App.tsx *)

(* Limit initial render to prevent browser freeze with large datasets *)
#[warnings="-abstract-large-number"]
Definition MAX_RENDER_LIMIT : nat := 50000.
#[warnings="-abstract-large-number"]
Definition LOAD_MORE_BATCH : nat := 10000.

(** A data source: the features on the map, [data.features], and the
    features held back, [pendingFeatures].  The opacity and the per-layer
    settings play no part in the analysis and are left out. *)
Record DataSource : Type := mkDataSource {
  ds_id : string;
  ds_name : string;
  ds_features : list Feature;
  ds_isActive : bool;
  pendingFeatures : list Feature
}.

(** An analysis result with the source that [App] writes into it. *)
Record SourcedResult : Type := mkSourcedResult {
  analysis : AnalysisResult;
  sourceId : string;
  sourceName : string
}.

(* Implement Chunking / Caching: the source that [handleFileUpload] adds
   for the features of a parsed file *)
Definition newSource (id name : string) (features : list Feature)
  : DataSource :=
  let '(initialFeatures, pending) :=
    if (MAX_RENDER_LIMIT <? List.length features)%nat
    then (firstn MAX_RENDER_LIMIT features, skipn MAX_RENDER_LIMIT features)
    else (features, []) in
  mkDataSource id name initialFeatures true pending.

Definition handleLoadMore (sourceId : string) (dataSources : list DataSource)
  : list DataSource :=
  map (fun ds =>
         if String.eqb (ds_id ds) sourceId
            && (0 <? List.length (pendingFeatures ds))%nat
         then
           let nextBatch := firstn LOAD_MORE_BATCH (pendingFeatures ds) in
           let remaining := skipn LOAD_MORE_BATCH (pendingFeatures ds) in
           mkDataSource (ds_id ds) (ds_name ds) (ds_features ds ++ nextBatch)
             (ds_isActive ds) remaining
         else ds) dataSources.

(** [fullFeatures]; [pendingFeatures] is an array, and so truthy. *)
Definition fullFeatures (ds : DataSource) : list Feature :=
  ds_features ds ++ pendingFeatures ds.

(** [newResults[resultIndex] = newResult]; the handlers write at the
    index of an existing entry only. *)
Fixpoint array_set {A : Type} (l : list A) (i : nat) (x : A) : list A :=
  match l, i with
  | [], _ => []
  | _ :: l', O => x :: l'
  | y :: l', S i' => y :: array_set l' i' x
  end.

(** [a.distance || Infinity]: a distance of 0 is falsy. *)
Definition distance_or_Infinity (r : SourcedResult) : num :=
  if Qeq_bool (res_distance (analysis r)) 0 then Inf false
  else Fin (res_distance (analysis r)).

(** [s.split(',')] *)
Fixpoint split_comma (s : list ascii) : list (list ascii) :=
  match s with
  | [] => [[]]
  | c :: s' =>
      if Ascii.eqb c ","
      then [] :: split_comma s'
      else match split_comma s' with
           | part :: parts => (c :: part) :: parts
           | [] => [[c]]
           end
  end.

(** The coordinates that [handleSearch] reads off the query itself;
    [None] when it goes on to ask [resolveLocationWithGemini]. *)
Definition handleSearch_coords (query : string) : option (num * num) :=
  (* 1. Try standard parser (via regex) *)
  match parseCoordinateString query with
  | Some coords => Some coords
  | None =>
      (* 2. Fallback: Simple split parsing *)
      let q := list_ascii_of_string query in
      if existsb (Ascii.eqb ",") q
      then
        match map trim (split_comma q) with
        | [part0; part1] =>
            let lat := parseFloat (string_of_list_ascii part0) in
            let lng := parseFloat (string_of_list_ascii part1) in
            if negb (isNaN lat) && negb (isNaN lng)
            then Some (lat, lng)
            else None
        | _ => None
        end
      else None
  end.

(** The query that [handleMapLongPress] puts in the search box. *)
Definition handleMapLongPress_query (lat lng : Q) : string :=
  append (toFixed lat 6) (append ", " (toFixed lng 6)).

Section App.
Context `{Env}.

(** The results that [handleSearch] puts in front of [analysisResults]
    once the coordinates are known: one for every active source whose
    analysis does not throw, sorted by distance. *)
Definition handleSearch_results (coords : LatLng)
  (dataSources : list DataSource) : list SourcedResult :=
  let activeSources := filter ds_isActive dataSources in
  let newResults :=
    fold_left
      (fun newResults ds =>
         try_catch
           (result <-
              performSpatialAnalysis (lat coords) (lng coords)
                (fullFeatures ds) 1 ;;
            Return (newResults
                    ++ [mkSourcedResult result (ds_id ds) (ds_name ds)]))
           newResults)
      activeSources [] in
  sort (fun a b => sub (distance_or_Infinity a) (distance_or_Infinity b))
    newResults.

(** [handleFindNext] and [handleFindPrevious], as functions from
    [analysisResults] to the [analysisResults] they set. *)
Definition handleFindNext (dataSources : list DataSource)
  (analysisResults : list SourcedResult) (resultIndex : nat)
  : list SourcedResult :=
  match nth_error analysisResults resultIndex with
  | None => analysisResults
  | Some current =>
      match find (fun ds => String.eqb (ds_id ds) (sourceId current))
              dataSources with
      | None => analysisResults
      | Some source =>
          let nextRank := res_rank (analysis current) + 1 in
          if Qltb (inject_Z (Z.of_nat (totalFeatures (analysis current))))
               nextRank
          then analysisResults
          else
            try_catch
              (newResult <-
                 performSpatialAnalysis
                   (lat (searchPoint (analysis current)))
                   (lng (searchPoint (analysis current)))
                   (fullFeatures source) nextRank ;;
               Return (array_set analysisResults resultIndex
                         (mkSourcedResult newResult (ds_id source)
                            (ds_name source))))
              analysisResults
      end
  end.

Definition handleFindPrevious (dataSources : list DataSource)
  (analysisResults : list SourcedResult) (resultIndex : nat)
  : list SourcedResult :=
  match nth_error analysisResults resultIndex with
  | None => analysisResults
  | Some current =>
      match find (fun ds => String.eqb (ds_id ds) (sourceId current))
              dataSources with
      | None => analysisResults
      | Some source =>
          let prevRank := res_rank (analysis current) - 1 in
          if Qltb prevRank 1
          then analysisResults
          else
            try_catch
              (newResult <-
                 performSpatialAnalysis
                   (lat (searchPoint (analysis current)))
                   (lng (searchPoint (analysis current)))
                   (fullFeatures source) prevRank ;;
               Return (array_set analysisResults resultIndex
                         (mkSourcedResult newResult (ds_id source)
                            (ds_name source))))
              analysisResults
      end
  end.

End App.

(** ** A planar stand-in for turf

    Bearings are exact on the eight compass directions of the plane (any
    other direction is rounded to the quadrant diagonal), distances are
    Chebyshev distances at 111.195 km to the degree, containment is the
    bounding box of the positions.  It serves to run the definitions on
    concrete features. *)

Definition plane_bearing (a b : Position) : Q :=
  let dx := nth 0 b 0 - nth 0 a 0 in
  let dy := nth 1 b 0 - nth 1 a 0 in
  if Qeq_bool dx 0 then (if Qltb dy 0 then 180 else 0)
  else if Qeq_bool dy 0 then (if Qltb dx 0 then -90 else 90)
  else if Qltb 0 dx then (if Qltb 0 dy then 45 else 135)
  else (if Qltb 0 dy then -45 else -135).

Definition plane_distance (a b : Position) (units : Units) : Q :=
  let dx := Qabs (nth 0 b 0 - nth 0 a 0) in
  let dy := Qabs (nth 1 b 0 - nth 1 a 0) in
  let km := Math_max dx dy * 111.195 in
  match units with
  | kilometers => km
  | meters => km * 1000
  end.

Definition plane_contains (p : Position) (f : Feature) : result bool :=
  match coordAll f with
  | [] => Throw "invalid geometry"
  | c :: cs =>
      let xs := map (fun c => nth 0 c 0) (c :: cs) in
      let ys := map (fun c => nth 1 c 0) (c :: cs) in
      Return (existsb (fun x => Qle_bool x (nth 0 p 0)) xs
              && existsb (fun x => Qle_bool (nth 0 p 0) x) xs
              && existsb (fun y => Qle_bool y (nth 1 p 0)) ys
              && existsb (fun y => Qle_bool (nth 1 p 0) y) ys)
  end.

Definition plane_env : Env := {|
  turfBearing := plane_bearing;
  turfDistance := plane_distance;
  booleanPointInPolygon := plane_contains;
  Math_sqrt := fun q => inject_Z (Z.sqrt (Qfloor q));
  Math_cos_deg := fun _ => 1
|}.

(** * Properties *)

(** ** Numbers *)

Lemma Qltb_lt a b : Qltb a b = true <-> a < b.
Proof.
  unfold Qltb. rewrite negb_true_iff. split; intro H.
  - apply Qnot_le_lt. intro Hle. apply Qle_bool_iff in Hle. congruence.
  - destruct (Qle_bool b a) eqn:E; [|reflexivity].
    apply Qle_bool_iff in E. exfalso. apply (Qlt_not_le _ _ H E).
Qed.

Lemma Qltb_ge a b : Qltb a b = false <-> b <= a.
Proof.
  unfold Qltb. rewrite negb_false_iff. apply Qle_bool_iff.
Qed.

Lemma Qle_bool_gt a b : Qle_bool a b = false <-> b < a.
Proof.
  rewrite <- Qltb_lt. unfold Qltb. now rewrite negb_true_iff.
Qed.

Lemma Qrem_nonneg a m : 0 < m -> 0 <= a -> 0 <= Qrem a m /\ Qrem a m < m.
Proof.
  intros Hm Ha. unfold Qrem, Qtrunc.
  assert (Hx : 0 <= a / m).
  { apply Qle_shift_div_l; [assumption|]. lra. }
  destruct (Qle_bool 0 (a / m)) eqn:E.
  2:{ apply Qle_bool_gt in E. lra. }
  pose proof (Qfloor_le (a / m)) as Hlo.
  pose proof (Qlt_floor (a / m)) as Hhi.
  rewrite inject_Z_plus in Hhi. change (inject_Z 1) with 1 in Hhi.
  assert (Ha' : a == (a / m) * m).
  { field. lra. }
  set (x := a / m) in *. set (t := inject_Z (Qfloor x)) in *.
  assert (H1 : 0 <= (x - t) * m) by (apply Qmult_le_0_compat; lra).
  assert (H2 : 0 < (t + 1 - x) * m) by (apply Qmult_lt_0_compat; lra).
  split; lra.
Qed.

Lemma Qrem_bound a m : 0 < m -> - m < Qrem a m /\ Qrem a m < m.
Proof.
  intros Hm. destruct (Qlt_le_dec a 0) as [Ha|Ha].
  - unfold Qrem, Qtrunc.
    assert (Hx : a / m < 0).
    { apply Qlt_shift_div_r; [assumption|]. lra. }
    destruct (Qle_bool 0 (a / m)) eqn:E.
    { apply Qle_bool_iff in E. lra. }
    pose proof (Qle_ceiling (a / m)) as Hlo.
    pose proof (Qceiling_lt (a / m)) as Hhi.
    unfold Z.sub in Hhi. rewrite inject_Z_plus in Hhi.
    assert (Ha' : a == (a / m) * m).
    { field. lra. }
    assert (Ht : inject_Z (Qceiling (a / m)) <= 0).
    { change 0 with (inject_Z 0). rewrite <- Zle_Qle.
      change 0%Z with (Qceiling 0). apply Qceiling_resp_le. lra. }
    set (x := a / m) in *. set (t := inject_Z (Qceiling x)) in *.
    change (inject_Z (Z.opp 1)) with (-1) in Hhi.
    assert (H1 : 0 <= (t - x) * m) by (apply Qmult_le_0_compat; lra).
    assert (H2 : 0 < (x - (t - 1)) * m) by (apply Qmult_lt_0_compat; lra).
    split; lra.
  - destruct (Qrem_nonneg a m Hm Ha). split; lra.
Qed.

Lemma Qrem_shifted x :
  - (360) < x -> 0 <= Qrem (x + 360) 360 /\ Qrem (x + 360) 360 < 360.
Proof.
  intros Hx. apply Qrem_nonneg; lra.
Qed.

Lemma normalizeAngle_Fin q :
  exists r, normalizeAngle (Fin q) = Fin r /\ 0 <= r /\ r < 360.
Proof.
  assert (Hm : 0 < 360) by lra.
  pose proof (Qrem_shifted _ (proj1 (Qrem_bound q 360 Hm))) as Hr.
  set (r := Qrem (Qrem q 360 + 360) 360) in *.
  change (normalizeAngle (Fin q))
    with (if Qeq_bool r 360 then Fin 0 else Fin r).
  destruct (Qeq_bool r 360) eqn:E.
  - exists 0. split; [reflexivity|lra].
  - exists r. split; [reflexivity|exact Hr].
Qed.

Lemma normalizeAngle_within q : within_ro 0 360 (normalizeAngle (Fin q)).
Proof.
  destruct (normalizeAngle_Fin q) as (r & -> & Hr). exact Hr.
Qed.

(** Of an argument that is not finite, [normalizeAngle] makes NaN. *)
Lemma normalizeAngle_not_finite x :
  (forall q, x <> Fin q) -> normalizeAngle x = NaN.
Proof.
  destruct x as [q|s|]; intros Hx; [now destruct (Hx q)| |]; reflexivity.
Qed.

Lemma calculateDeviation_Fin a b :
  calculateDeviation (Fin a) (Fin b)
  = Fin (if Qltb 180 (Qabs (a + - b)) then 360 + - Qabs (a + - b)
         else Qabs (a + - b)).
Proof.
  unfold calculateDeviation, gtb, sub, abs, add, neg, ltb.
  now destruct (Qltb 180 (Qabs (a + - b))).
Qed.

Lemma leb_Fin a b : leb (Fin a) (Fin b) = true <-> a <= b.
Proof.
  unfold leb, ltb, eqb. rewrite orb_true_iff, Qltb_lt, Qeq_bool_iff.
  split; [intros [L|E]; lra|].
  intros L. destruct (Qlt_le_dec a b); [now left|right; lra].
Qed.

Lemma ltb_Fin a b : ltb (Fin a) (Fin b) = true <-> a < b.
Proof.
  apply Qltb_lt.
Qed.

Lemma ltb_Fin_false a b : ltb (Fin a) (Fin b) = false <-> b <= a.
Proof.
  apply Qltb_ge.
Qed.

Lemma Qfloor_unique x (t : Z) :
  inject_Z t <= x -> x < inject_Z t + 1 -> Qfloor x = t.
Proof.
  intros Hlo Hhi.
  pose proof (Qfloor_le x) as Flo. pose proof (Qlt_floor x) as Fhi.
  rewrite inject_Z_plus in Fhi. change (inject_Z 1) with 1 in Fhi.
  assert (H1 : inject_Z (Qfloor x) < inject_Z (t + 1)).
  { rewrite inject_Z_plus. change (inject_Z 1) with 1. lra. }
  assert (H2 : inject_Z t < inject_Z (Qfloor x + 1)).
  { rewrite inject_Z_plus. change (inject_Z 1) with 1. lra. }
  rewrite <- Zlt_Qlt in H1, H2. lia.
Qed.

Lemma Qrem_nonneg_eq a m (t : Z) :
  0 < m -> 0 <= a ->
  inject_Z t * m <= a -> a < (inject_Z t + 1) * m ->
  Qrem a m == a - m * inject_Z t.
Proof.
  intros Hm Ha Hlo Hhi. unfold Qrem, Qtrunc.
  assert (Hx : 0 <= a / m).
  { apply Qle_shift_div_l; [assumption|]. lra. }
  destruct (Qle_bool 0 (a / m)) eqn:E.
  2:{ apply Qle_bool_gt in E. lra. }
  rewrite (Qfloor_unique (a / m) t); [reflexivity| |].
  - apply Qle_shift_div_l; assumption.
  - apply Qlt_shift_div_r; assumption.
Qed.

Lemma Qrem_small x : - (360) < x -> x < 360 -> Qrem x 360 == x.
Proof.
  intros Hlo Hhi. destruct (Qlt_le_dec x 0) as [Hneg|Hpos].
  - unfold Qrem, Qtrunc.
    assert (Hx : x / 360 < 0).
    { apply Qlt_shift_div_r; lra. }
    destruct (Qle_bool 0 (x / 360)) eqn:E.
    { apply Qle_bool_iff in E. lra. }
    unfold Qceiling. rewrite (Qfloor_unique (- (x / 360)) 0).
    + change (inject_Z (- 0)) with 0. lra.
    + change (inject_Z 0) with 0. lra.
    + change (inject_Z 0) with 0.
      assert (- (1) < x / 360); [|lra].
      apply Qlt_shift_div_l; lra.
  - rewrite (Qrem_nonneg_eq x 360 0); change (inject_Z 0) with 0; lra.
Qed.

Lemma normalizeAngle_small x :
  - (360) < x -> x < 360 ->
  exists r, normalizeAngle (Fin x) = Fin r
            /\ r == (if Qltb x 0 then x + 360 else x).
Proof.
  intros Hlo Hhi.
  pose proof (Qrem_small x Hlo Hhi) as E1.
  set (r := Qrem (Qrem x 360 + 360) 360).
  change (normalizeAngle (Fin x))
    with (if Qeq_bool r 360 then Fin 0 else Fin r).
  assert (Er : r == (if Qltb x 0 then x + 360 else x)).
  { subst r. generalize dependent (Qrem x 360). intros y Ey.
    destruct (Qltb x 0) eqn:L.
    - apply Qltb_lt in L.
      rewrite (Qrem_nonneg_eq (y + 360) 360 0);
        change (inject_Z 0) with 0; lra.
    - apply Qltb_ge in L.
      rewrite (Qrem_nonneg_eq (y + 360) 360 1);
        change (inject_Z 1) with 1; lra. }
  destruct (Qeq_bool r 360) eqn:E.
  - apply Qeq_bool_iff in E. exfalso.
    destruct (Qltb x 0) eqn:L;
      [apply Qltb_lt in L|apply Qltb_ge in L]; lra.
  - exists r. split; [reflexivity|exact Er].
Qed.

(** ** Sorting *)

Section SortFacts.
Context {A : Type} (comparefn : A -> A -> num).

Lemma sort_insert_perm x l : Permutation (sort_insert comparefn x l) (x :: l).
Proof.
  induction l as [|y l IH]; cbn [sort sort_insert]; [reflexivity|].
  destruct (gtb (comparefn x y) (Fin 0)); [|reflexivity].
  rewrite IH. apply perm_swap.
Qed.

Lemma sort_perm l : Permutation (sort comparefn l) l.
Proof.
  induction l as [|x l IH]; cbn [sort sort_insert]; [reflexivity|].
  rewrite sort_insert_perm. now constructor.
Qed.

Lemma sort_length l : List.length (sort comparefn l) = List.length l.
Proof.
  apply Permutation_length, sort_perm.
Qed.

Lemma sort_Forall (P : A -> Prop) l : Forall P l -> Forall P (sort comparefn l).
Proof.
  intros Hl. eapply Permutation_Forall; [|exact Hl].
  symmetry. apply sort_perm.
Qed.

(** On elements that [comparefn] orders as [le] does, the result is
    sorted. *)
Context (P : A -> Prop) (le : A -> A -> Prop).
Hypothesis comparefn_le :
  forall x y, P x -> P y ->
    if gtb (comparefn x y) (Fin 0) then le y x else le x y.

Lemma sort_insert_HdRel x y l :
  P x -> P y -> Forall P l ->
  le y x -> HdRel le y l -> HdRel le y (sort_insert comparefn x l).
Proof.
  intros Px Py Pl Hyx Hhd. destruct l as [|z l]; cbn [sort_insert].
  - now constructor.
  - destruct (gtb (comparefn x z) (Fin 0)); constructor;
      [now inversion Hhd|assumption].
Qed.

Lemma sort_insert_sorted x l :
  P x -> Forall P l -> Sorted le l -> Sorted le (sort_insert comparefn x l).
Proof.
  intros Px Pl Hs. induction l as [|y l IH]; cbn [sort_insert].
  - repeat constructor.
  - inversion Pl as [|? ? Py Pl']; subst. inversion Hs as [|? ? Hs' Hhd]; subst.
    pose proof (comparefn_le x y Px Py) as Hc.
    destruct (gtb (comparefn x y) (Fin 0)).
    + constructor; [now apply IH|]. now apply sort_insert_HdRel.
    + constructor; [assumption|]. now constructor.
Qed.

Lemma sort_sorted l : Forall P l -> Sorted le (sort comparefn l).
Proof.
  induction l as [|x l IH]; cbn [sort]; intros Hl; [constructor|].
  inversion Hl; subst.
  apply sort_insert_sorted; [assumption| |now apply IH].
  now apply sort_Forall.
Qed.

End SortFacts.

Lemma StronglySorted_nth {A : Type} (R : A -> A -> Prop) l i j a b :
  StronglySorted R l -> (i < j)%nat ->
  nth_error l i = Some a -> nth_error l j = Some b -> R a b.
Proof.
  intros Hs. revert i j. induction Hs as [|x l Hs IH Hx]; intros i j Hij Ha Hb.
  - destruct i; discriminate.
  - destruct j as [|j]; [lia|]. cbn in Hb. destruct i as [|i]; cbn in Ha.
    + injection Ha as <-. rewrite Forall_forall in Hx.
      apply Hx. eapply nth_error_In, Hb.
    + apply (IH i j); [lia|assumption|assumption].
Qed.

Ltac qcompute := vm_compute; intuition (try discriminate; try lia).

(** ** C10: the angular deviation *)

Definition deviation_in_range (a b : Q) : Prop :=
  within 0 180 (calculateDeviation (Fin a) (Fin b)).

(** C10, as stated, fails: for angles more than a turn apart the result
    leaves [0,180]; [calculateDeviation(720, 0)] is -360. *)
Lemma calculateDeviation_out_of_range :
  same (calculateDeviation (Fin 720) (Fin 0)) (Fin (-360))
  /\ ~ deviation_in_range 720 0.
Proof.
  split; qcompute.
Qed.

(** C10, amended: for all finite angles [a] and [b] the deviation is
    symmetric, the deviation of an angle from itself is 0 and that of 0
    from 180 is 180; it lies in [0,180] whenever [a] and [b] are at most
    one turn apart, as normalized angles are. *)
Theorem calculateDeviation_properties (a b : Q) :
  calculateDeviation (Fin a) (Fin b) = calculateDeviation (Fin b) (Fin a)
  /\ same (calculateDeviation (Fin a) (Fin a)) (Fin 0)
  /\ same (calculateDeviation (Fin 0) (Fin 180)) (Fin 180)
  /\ (Qabs (a - b) <= 360 -> deviation_in_range a b).
Proof.
  split; [|split; [|split]].
  - rewrite !calculateDeviation_Fin.
    change (a + - b) with (a - b). change (b + - a) with (b - a).
    now rewrite (Qabs_Qminus a b).
  - rewrite calculateDeviation_Fin.
    assert (E : Qabs (a + - a) == 0).
    { apply (Qabs_case (a + - a) (fun y => y == 0)); intros; lra. }
    destruct (Qltb 180 (Qabs (a + - a))) eqn:L; unfold same.
    + apply Qltb_lt in L. lra.
    + exact E.
  - qcompute.
  - intros Hab. unfold deviation_in_range, Qminus in *.
    rewrite calculateDeviation_Fin.
    pose proof (Qabs_nonneg (a + - b)).
    destruct (Qltb 180 (Qabs (a + - b))) eqn:L; unfold within.
    + apply Qltb_lt in L. lra.
    + apply Qltb_ge in L. lra.
Qed.

Lemma calculateDeviation_properties_witness :
  Qabs (350 - 10) <= 360 /\ deviation_in_range 350 10.
Proof.
  split; [qcompute|].
  apply (calculateDeviation_properties 350 10). qcompute.
Defined.

(** ** C1: containment outranks the beam *)

(** Among candidates whose scores are numbers, the sort puts a strictly
    lower score ahead of a higher one. *)
Lemma lower_score_ranks_ahead (evaluated : list Evaluated) i j ea eb :
  Forall (fun e => exists q, score e = Fin q) evaluated ->
  nth_error (sort (fun a b => sub (score a) (score b)) evaluated) i = Some ea ->
  nth_error (sort (fun a b => sub (score a) (score b)) evaluated) j = Some eb ->
  ltb (score ea) (score eb) = true ->
  (i < j)%nat.
Proof.
  intros Hfin Ha Hb Hlt.
  set (le := fun a b : Evaluated =>
               exists x y, score a = Fin x /\ score b = Fin y /\ x <= y).
  assert (Hs : StronglySorted le
                 (sort (fun a b => sub (score a) (score b)) evaluated)).
  { apply Sorted_StronglySorted.
    - intros a b c (x & y & Hx & Hy & Hxy) (y' & z & Hy' & Hz & Hyz).
      rewrite Hy in Hy'. injection Hy' as <-.
      exists x, z. repeat split; try assumption. lra.
    - apply (sort_sorted _ (fun e => exists q, score e = Fin q) le);
        [|assumption].
      intros a b (x & Hx) (y & Hy). rewrite Hx, Hy.
      change (gtb (sub (Fin x) (Fin y)) (Fin 0)) with (Qltb 0 (x + - y)).
      destruct (Qltb 0 (x + - y)) eqn:L;
        [apply Qltb_lt in L; exists y, x|apply Qltb_ge in L; exists x, y];
        repeat split; try assumption; lra. }
  destruct (Nat.lt_trichotomy i j) as [Hij|[->|Hji]]; [assumption| |].
  - rewrite Ha in Hb. injection Hb as <-.
    destruct (score ea) as [x|[]|]; try discriminate.
    apply ltb_Fin in Hlt. lra.
  - destruct (StronglySorted_nth le _ j i eb ea Hs Hji Hb Ha)
      as (y & x & Hy & Hx & Hyx).
    rewrite Hx, Hy in Hlt. apply ltb_Fin in Hlt. lra.
Qed.

Section Scoring.
Context `{Env}.

Lemma evaluate_score targetPoint site bearing nearField f e :
  evaluate targetPoint site bearing nearField f = Return e ->
  feature e = f
  /\ score e
     = weighted_score f (deviation e) (isInside e) nearField (isInBeam e).
Proof.
  unfold evaluate.
  destruct (analyzeSectorGeometry f (referencePoint site)) as [m|msg];
    cbn [bind]; [|discriminate].
  intros E. injection E as <-. split; reflexivity.
Qed.

Lemma weighted_score_inside f d :
  0 <= d -> d <= 180 ->
  within (-10010) (-9820) (weighted_score f (Fin d) true false false)
  /\ forall nearField inBeam,
       weighted_score f (Fin d) true nearField inBeam
       = weighted_score f (Fin d) true false false.
Proof.
  intros H0 H180. unfold weighted_score.
  destruct (getExplicitAzimuth (properties f)); cbn; split;
    try reflexivity; lra.
Qed.

Lemma weighted_score_in_beam f d nearField :
  0 <= d -> d <= 180 ->
  within (-5010) (-1820) (weighted_score f (Fin d) false nearField true).
Proof.
  intros H0 H180. unfold weighted_score.
  destruct (getExplicitAzimuth (properties f)), nearField; cbn; lra.
Qed.

(** The scores as the claim has them: of two evaluated features of a
    site, one that contains the query point scores strictly lower than
    one that does not contain it but has it in its beam, whatever their
    deviations in [0,180] and whether or not either carries an explicit
    azimuth; sorted with candidates whose scores are all numbers, the
    first is ranked ahead of the second. *)
Theorem inside_scores_lower_than_in_beam
  targetPoint site bearing nearField A B ea eb :
  evaluate targetPoint site bearing nearField A = Return ea ->
  evaluate targetPoint site bearing nearField B = Return eb ->
  isInside ea = true ->
  isInside eb = false -> isInBeam eb = true ->
  within 0 180 (deviation ea) -> within 0 180 (deviation eb) ->
  ltb (score ea) (score eb) = true
  /\ forall evaluated i j,
       Forall (fun e => exists q, score e = Fin q) evaluated ->
       nth_error (sort (fun a b => sub (score a) (score b)) evaluated) i
       = Some ea ->
       nth_error (sort (fun a b => sub (score a) (score b)) evaluated) j
       = Some eb ->
       (i < j)%nat.
Proof.
  intros EA EB HinA HinB HbeamB HdA HdB.
  assert (Hlt : ltb (score ea) (score eb) = true).
  { apply evaluate_score in EA as [_ ->].
    apply evaluate_score in EB as [_ ->].
    rewrite HinA, HinB, HbeamB.
    destruct (deviation ea) as [da| |]; try contradiction.
    destruct (deviation eb) as [db| |]; try contradiction.
    destruct HdA as [A0 A1], HdB as [B0 B1].
    destruct (weighted_score_inside A da A0 A1) as [HA Hany]. rewrite Hany.
    pose proof (weighted_score_in_beam B db nearField B0 B1) as HB.
    destruct (weighted_score A (Fin da) true false false) as [sa| |];
      try contradiction.
    destruct (weighted_score B (Fin db) false nearField true) as [sb| |];
      try contradiction.
    cbn in *. apply Qltb_lt. lra. }
  split; [exact Hlt|].
  intros evaluated i j Hfin Hi Hj.
  exact (lower_score_ranks_ahead evaluated i j ea eb Hfin Hi Hj Hlt).
Qed.

(** A point member whose explicit azimuth is not a number, outside the
    near field, is evaluated with a score that is not a number. *)
Lemma evaluate_unreadable_azimuth targetPoint site bearing N p :
  geometry N = Some (Point p) ->
  getExplicitAzimuth (properties N) = Some NaN ->
  exists en,
    evaluate targetPoint site bearing false N = Return en
    /\ feature en = N /\ score en = NaN.
Proof.
  intros Hg Hexp. unfold evaluate, analyzeSectorGeometry, weighted_score.
  rewrite Hg, Hexp. cbn [bind]. eexists. split; [reflexivity|].
  split; reflexivity.
Qed.

(** C1 fails on the code: the order of the sort is the order of the
    scores only when every score is a number.  A member whose azimuth
    property reads [Infinity] has the score NaN, and the comparator gives
    NaN for every comparison with it, which a sort takes for equal.  In
    a site whose members are, in this order, an in-beam feature [B], such
    a point [N] and a feature [A] that contains the query point, [A]
    scores strictly lower than [B]; but each element compares as equal to
    its neighbour, the array counts as sorted as it stands, [B] stays
    first and [B] is reported. *)
Theorem in_beam_reported_before_inside
  searchLat searchLng site safeRank totalSites B N A p eb ea :
  let targetPoint := [searchLng; searchLat] in
  let bearing :=
    normalizeAngle (Fin (turfBearing (referencePoint site) targetPoint)) in
  candidates site = [B; N; A] ->
  Qltb (distance site * 1000) 30 = false ->
  geometry N = Some (Point p) ->
  getExplicitAzimuth (properties N) = Some NaN ->
  evaluate targetPoint site bearing false B = Return eb ->
  evaluate targetPoint site bearing false A = Return ea ->
  isInside ea = true ->
  isInside eb = false -> isInBeam eb = true ->
  within 0 180 (deviation ea) -> within 0 180 (deviation eb) ->
  ltb (score ea) (score eb) = true
  /\ exists en r,
       evaluate targetPoint site bearing false N = Return en
       /\ score en = NaN
       /\ sub (score eb) (score en) = NaN
       /\ sub (score en) (score ea) = NaN
       /\ sort (fun a b => sub (score a) (score b)) [eb; en; ea]
          = [eb; en; ea]
       /\ select_sector searchLat searchLng site safeRank totalSites
          = Return r
       /\ nearestFeature r = B /\ res_isInside r = false.
Proof.
  intros targetPoint bearing Hcand Hfar Hg Hexp EB EA HinA HinB HbeamB HdA HdB.
  split.
  { exact (proj1 (inside_scores_lower_than_in_beam targetPoint site bearing
                    false A B ea eb EA EB HinA HinB HbeamB HdA HdB)). }
  destruct (evaluate_unreadable_azimuth targetPoint site bearing N p Hg Hexp)
    as (en & EN & _ & Hnan).
  assert (Hsort : sort (fun a b => sub (score a) (score b)) [eb; en; ea]
                  = [eb; en; ea]).
  { cbn [sort sort_insert]. rewrite Hnan.
    assert (Hleft : forall x, gtb (sub NaN x) (Fin 0) = false)
      by (intros x; now destruct x).
    assert (Hright : forall x, gtb (sub x NaN) (Fin 0) = false)
      by (intros x; now destruct x).
    rewrite Hleft. cbn [sort_insert]. rewrite Hnan, Hright. reflexivity. }
  exists en. eexists. split; [exact EN|]. split; [exact Hnan|].
  split; [rewrite Hnan; now destruct (score eb)|].
  split; [rewrite Hnan; reflexivity|].
  split; [exact Hsort|].
  unfold select_sector. fold targetPoint. fold bearing.
  rewrite Hfar, Hcand. cbn [mapM]. rewrite EB, EN, EA. cbn [bind].
  rewrite Hsort. split; [reflexivity|]. cbn [nearestFeature res_isInside].
  split; [|exact HinB].
  exact (proj1 (evaluate_score _ _ _ _ _ _ EB)).
Qed.

End Scoring.

(** A site at the origin with two members: a wedge opening to the north
    and a point; the query point lies 0.001 degrees north, inside the
    wedge. *)
Definition demo_wedge : Feature :=
  mkFeature
    (Some (Polygon [[[0; 0]; [-0.002; 0.002]; [0.002; 0.002]; [0; 0]]]))
    (Some (mkProperties [("name", "north")]%string (Some [0; 0]))).

Definition demo_point : Feature :=
  mkFeature (Some (Point [0; 0]))
    (Some (mkProperties [("name", "omni")]%string (Some [0; 0]))).

Definition demo_site : SiteGroup :=
  mkSiteGroup "0.0000,0.0000" [0; 0] 0.111195 [demo_wedge; demo_point].

(** A point at the same anchor whose [azimuth] property reads
    [Infinity]. *)
Definition demo_unreadable : Feature :=
  mkFeature (Some (Point [0; 0]))
    (Some (mkProperties [("azimuth", "Infinity")]%string (Some [0; 0]))).

Lemma inside_scores_lower_than_in_beam_witness :
  exists ea eb,
    evaluate (H := plane_env) [0; 0.001] demo_site (Fin 0) false demo_wedge
    = Return ea
    /\ evaluate (H := plane_env) [0; 0.001] demo_site (Fin 0) false demo_point
       = Return eb
    /\ isInside ea = true /\ isInside eb = false /\ isInBeam eb = true
    /\ ltb (score ea) (score eb) = true.
Proof.
  eexists. eexists.
  split; [vm_compute; reflexivity|].
  split; [vm_compute; reflexivity|].
  split; [reflexivity|]. split; [reflexivity|]. split; [reflexivity|].
  eapply (inside_scores_lower_than_in_beam
            (H := plane_env) [0; 0.001] demo_site (Fin 0) false
            demo_wedge demo_point);
    vm_compute; try reflexivity; intuition discriminate.
Defined.

(** The dataset of the point, the unreadable point and the wedge, in
    this order, searched from 0.001 degrees north of their anchor: the
    wedge contains the query point and scores lower, and the analysis
    reports the point. *)
Lemma in_beam_reported_before_inside_witness :
  (exists eb ea,
      evaluate (H := plane_env) [0; 0.001]
        (mkSiteGroup "0.0000,0.0000" [0; 0] 0.111195
           [demo_point; demo_unreadable; demo_wedge])
        (Fin 0) false demo_point = Return eb
      /\ evaluate (H := plane_env) [0; 0.001]
           (mkSiteGroup "0.0000,0.0000" [0; 0] 0.111195
              [demo_point; demo_unreadable; demo_wedge])
           (Fin 0) false demo_wedge = Return ea
      /\ isInside ea = true /\ isInside eb = false /\ isInBeam eb = true
      /\ ltb (score ea) (score eb) = true)
  /\ exists r,
       performSpatialAnalysis (H := plane_env) 0.001 0
         [demo_point; demo_unreadable; demo_wedge] 1 = Return r
       /\ nearestFeature r = demo_point /\ res_isInside r = false.
Proof.
  set (site := mkSiteGroup "0.0000,0.0000" [0; 0] 0.111195
                 [demo_point; demo_unreadable; demo_wedge]).
  destruct (evaluate (H := plane_env) [0; 0.001] site (Fin 0) false demo_point)
    as [eb|] eqn:EB; [|vm_compute in EB; discriminate].
  destruct (evaluate (H := plane_env) [0; 0.001] site (Fin 0) false demo_wedge)
    as [ea|] eqn:EA; [|vm_compute in EA; discriminate].
  assert (Hb : isInside eb = false /\ isInBeam eb = true
               /\ within 0 180 (deviation eb)).
  { vm_compute in EB. injection EB as <-.
    vm_compute. intuition discriminate. }
  assert (Ha : isInside ea = true /\ within 0 180 (deviation ea)).
  { vm_compute in EA. injection EA as <-.
    vm_compute. intuition discriminate. }
  destruct Hb as (HinB & HbeamB & HdB). destruct Ha as (HinA & HdA).
  split.
  - exists eb, ea. repeat (split; [reflexivity || assumption|]).
    exact (proj1 (in_beam_reported_before_inside (H := plane_env) 0.001 0
                    site 1 1%nat demo_point demo_unreadable demo_wedge [0; 0]
                    eb ea eq_refl eq_refl eq_refl eq_refl EB EA
                    HinA HinB HbeamB HdA HdB)).
  - eexists. split; [vm_compute; reflexivity|]. split; reflexivity.
Defined.

(** ** Angles and circular gaps *)

Definition is_angle (x : num) : Prop := within_ro 0 360 x.

Definition num_le (x y : num) : Prop := leb x y = true.

(** The gap of the loop from a bearing to the next of the circular
    sequence: their difference, taken in [0,360), so that a full turn
    counts as 0. *)
Definition circular_gap (bearings : list num) (i : nat) : num :=
  normalizeAngle
    (sub (nth ((i + 1) mod List.length bearings) bearings NaN)
       (nth i bearings NaN)).

(** The difference the loop computes at index [i]. *)
Definition loop_diff (bearings : list num) (i : nat) : num :=
  let diff :=
    sub (nth ((i + 1) mod List.length bearings) bearings NaN)
      (nth i bearings NaN) in
  if ltb diff (Fin 0) then add diff (Fin 360) else diff.

Lemma nth_is_angle bs i :
  Forall is_angle bs -> (i < List.length bs)%nat -> is_angle (nth i bs NaN).
Proof.
  intros Hbs Hi. rewrite Forall_forall in Hbs. apply Hbs. now apply nth_In.
Qed.

Lemma is_angle_Fin x : is_angle x -> exists q, x = Fin q /\ 0 <= q /\ q < 360.
Proof.
  destruct x as [q| |]; cbn; try contradiction. intros Hq. now exists q.
Qed.

Lemma next_index_lt n i : (0 < n)%nat -> ((i + 1) mod n < n)%nat.
Proof.
  intros Hn. apply Nat.mod_upper_bound. lia.
Qed.

(** The difference of the loop is the circular gap. *)
Lemma loop_diff_gap bs i :
  Forall is_angle bs -> (i < List.length bs)%nat ->
  exists d g, loop_diff bs i = Fin d /\ circular_gap bs i = Fin g
              /\ d == g /\ 0 <= d /\ d < 360.
Proof.
  intros Hbs Hi. unfold loop_diff, circular_gap.
  destruct (is_angle_Fin _ (nth_is_angle bs i Hbs Hi)) as (a & -> & Ha).
  assert (Hn : ((i + 1) mod List.length bs < List.length bs)%nat)
    by (apply next_index_lt; lia).
  destruct (is_angle_Fin _ (nth_is_angle bs _ Hbs Hn)) as (b & -> & Hb).
  change (sub (Fin b) (Fin a)) with (Fin (b + - a)).
  destruct (normalizeAngle_small (b + - a)) as (g & -> & Hg); [lra|lra|].
  change (ltb (Fin (b + - a)) (Fin 0)) with (Qltb (b + - a) 0) in *.
  destruct (Qltb (b + - a) 0) eqn:L.
  - apply Qltb_lt in L. exists (b + - a + 360), g.
    cbn [add]. repeat split; lra.
  - apply Qltb_ge in L. exists (b + - a), g.
    repeat split; lra.
Qed.

Lemma gap_step_eq bs st i :
  gap_step bs st i
  = if gtb (loop_diff bs i) (fst (fst st))
    then (loop_diff bs i, nth i bs NaN,
          nth ((i + 1) mod List.length bs) bs NaN)
    else st.
Proof.
  destruct st as [[m gs] ge]. reflexivity.
Qed.

(** What the loop has established after [k] iterations. *)
Definition gap_inv (bs : list num) (k : nat) (st : GapState) : Prop :=
  exists q,
    fst (fst st) = Fin q /\ 0 <= q /\ q < 360
    /\ (forall j, (j < k)%nat -> leb (loop_diff bs j) (Fin q) = true)
    /\ (0 < q ->
        exists i, (i < k)%nat /\ loop_diff bs i = Fin q
                  /\ snd (fst st) = nth i bs NaN
                  /\ snd st = nth ((i + 1) mod List.length bs) bs NaN).

Lemma gap_inv_step bs k st :
  Forall is_angle bs -> (k < List.length bs)%nat ->
  gap_inv bs k st -> gap_inv bs (S k) (gap_step bs st k).
Proof.
  intros Hbs Hk (q & Hm & Hq0 & Hq1 & Hmax & Hwit).
  rewrite gap_step_eq, Hm.
  destruct (loop_diff_gap bs k Hbs Hk) as (d & g & Hd & _ & _ & Hd0 & Hd1).
  rewrite Hd. change (gtb (Fin d) (Fin q)) with (ltb (Fin q) (Fin d)).
  destruct (ltb (Fin q) (Fin d)) eqn:L.
  - apply ltb_Fin in L. exists d. cbn [fst snd].
    repeat split; try assumption.
    + intros j Hj. destruct (Nat.eq_dec j k) as [->|Hne].
      * rewrite Hd. apply leb_Fin. lra.
      * assert (Hjk : (j < k)%nat) by lia.
        assert (Hjn : (j < List.length bs)%nat) by lia.
        destruct (loop_diff_gap bs j Hbs Hjn) as (dj & ? & Hdj & _).
        specialize (Hmax j Hjk). rewrite Hdj in *.
        apply leb_Fin in Hmax. apply leb_Fin. lra.
    + intros _. exists k. repeat split; [lia|assumption].
  - apply ltb_Fin_false in L. exists q.
    repeat split; try assumption.
    + intros j Hj. destruct (Nat.eq_dec j k) as [->|Hne].
      * rewrite Hd. now apply leb_Fin.
      * apply Hmax. lia.
    + intros Hpos. destruct (Hwit Hpos) as (i & Hi & Hrest).
      exists i. split; [lia|assumption].
Qed.

Lemma gap_inv_fold bs k :
  Forall is_angle bs -> (k <= List.length bs)%nat ->
  gap_inv bs k (fold_left (gap_step bs) (seq 0 k) (Fin 0, Fin 0, Fin 0)).
Proof.
  intros Hbs. induction k as [|k IH]; intros Hk.
  - exists 0. cbn. repeat split; try lra; try lia.
  - rewrite seq_S, fold_left_app. cbn [fold_left Nat.add].
    apply gap_inv_step; [assumption|lia|]. apply IH. lia.
Qed.

(** The gap as the claim has it: from a bearing on to the next and, from
    the last bearing, through 360 round to the first. *)
Definition wrapped_gap (bearings : list num) (i : nat) : num :=
  if (i + 1 <? List.length bearings)%nat
  then sub (nth (i + 1) bearings NaN) (nth i bearings NaN)
  else sub (add (nth 0 bearings NaN) (Fin 360)) (nth i bearings NaN).

Lemma sorted_adjacent bs i :
  Sorted num_le bs -> (i + 1 < List.length bs)%nat ->
  num_le (nth i bs NaN) (nth (i + 1) bs NaN).
Proof.
  intros Hs. revert i. induction Hs as [|a l Hs IH Hd]; intros i Hi.
  - cbn in Hi. lia.
  - destruct i as [|i].
    + destruct l as [|b l]; [cbn in Hi; lia|]. now inversion Hd.
    + cbn [Nat.add nth]. apply IH. cbn in Hi. lia.
Qed.

Lemma sorted_angles_first bs j :
  Sorted num_le bs -> Forall is_angle bs -> (j < List.length bs)%nat ->
  num_le (nth 0 bs NaN) (nth j bs NaN).
Proof.
  intros Hs Hang Hj. induction j as [|j IH].
  - destruct (is_angle_Fin _ (nth_is_angle bs 0 Hang Hj)) as (a & -> & _).
    apply leb_Fin. lra.
  - assert (Hj' : (j < List.length bs)%nat) by lia.
    specialize (IH Hj').
    pose proof (sorted_adjacent bs j Hs) as Hadj.
    rewrite Nat.add_1_r in Hadj. specialize (Hadj Hj).
    assert (H0 : (0 < List.length bs)%nat) by lia.
    destruct (is_angle_Fin _ (nth_is_angle bs 0 Hang H0)) as (a & Ea & _).
    destruct (is_angle_Fin _ (nth_is_angle bs j Hang Hj')) as (b & Eb & _).
    destruct (is_angle_Fin _ (nth_is_angle bs (S j) Hang Hj)) as (c & Ec & _).
    unfold num_le in *. rewrite Ea, Eb, Ec in *.
    apply leb_Fin in IH, Hadj. apply leb_Fin. lra.
Qed.

(** On sorted bearings that are not all the same, the gap of the loop
    is the gap of the claim. *)
Lemma circular_gap_wrapped bs i :
  Forall is_angle bs -> Sorted num_le bs -> (i < List.length bs)%nat ->
  ~ same (nth 0 bs NaN) (nth (List.length bs - 1) bs NaN) ->
  same (circular_gap bs i) (wrapped_gap bs i).
Proof.
  intros Hang Hs Hi Hdiff. unfold circular_gap, wrapped_gap.
  destruct (is_angle_Fin _ (nth_is_angle bs i Hang Hi)) as (x & Ex & Hx).
  destruct (i + 1 <? List.length bs)%nat eqn:E.
  - apply Nat.ltb_lt in E. rewrite Nat.mod_small by exact E.
    pose proof (sorted_adjacent bs i Hs E) as Hadj.
    destruct (is_angle_Fin _ (nth_is_angle bs (i + 1) Hang E))
      as (y & Ey & Hy).
    unfold num_le in Hadj. rewrite Ex, Ey in *. apply leb_Fin in Hadj.
    change (sub (Fin y) (Fin x)) with (Fin (y + - x)).
    destruct (normalizeAngle_small (y + - x)) as (g & -> & Hg); [lra|lra|].
    destruct (Qltb (y + - x) 0) eqn:L; [apply Qltb_lt in L; lra|].
    cbn [same]. exact Hg.
  - apply Nat.ltb_ge in E.
    assert (Ei : i = (List.length bs - 1)%nat) by lia.
    assert (En : (i + 1)%nat = List.length bs) by lia.
    rewrite En, Nat.Div0.mod_same.
    assert (H0 : (0 < List.length bs)%nat) by lia.
    pose proof (sorted_angles_first bs i Hs Hang Hi) as Hfirst.
    destruct (is_angle_Fin _ (nth_is_angle bs 0 Hang H0)) as (a & Ea & Ha).
    rewrite <- Ei in Hdiff. unfold num_le in Hfirst.
    rewrite Ea, Ex in *. apply leb_Fin in Hfirst. cbn [same] in Hdiff.
    change (sub (Fin a) (Fin x)) with (Fin (a + - x)).
    change (sub (add (Fin a) (Fin 360)) (Fin x)) with (Fin (a + 360 + - x)).
    destruct (normalizeAngle_small (a + - x)) as (g & -> & Hg); [lra|lra|].
    destruct (Qltb (a + - x) 0) eqn:L.
    + cbn [same]. lra.
    + apply Qltb_ge in L. exfalso. apply Hdiff. lra.
Qed.

(** [maxGap] is a largest circular gap, found at index [i]. *)
Definition is_largest_gap (bs : list num) (i : nat) (maxGap : num) : Prop :=
  (i < List.length bs)%nat
  /\ same maxGap (circular_gap bs i)
  /\ forall j, (j < List.length bs)%nat ->
               num_le (circular_gap bs j) (circular_gap bs i).

Lemma gap_loop_spec bs :
  Forall is_angle bs -> (0 < List.length bs)%nat ->
  exists i q,
    fst (fst (gap_loop bs)) = Fin q /\ 0 <= q /\ q < 360
    /\ is_largest_gap bs i (Fin q)
    /\ (0 < q ->
        snd (fst (gap_loop bs)) = nth i bs NaN
        /\ snd (gap_loop bs) = nth ((i + 1) mod List.length bs) bs NaN).
Proof.
  intros Hbs Hn. unfold gap_loop.
  destruct (gap_inv_fold bs (List.length bs) Hbs (Nat.le_refl _))
    as (q & Hm & Hq0 & Hq1 & Hmax & Hwit).
  set (st := fold_left _ _ _) in *.
  assert (Hall : forall i d,
             (i < List.length bs)%nat -> loop_diff bs i = Fin d -> d == q ->
             is_largest_gap bs i (Fin q)).
  { intros i d Hi Hd Hdq. split; [assumption|].
    destruct (loop_diff_gap bs i Hbs Hi) as (d' & g & Hd' & Hg & Hdg & _).
    rewrite Hd in Hd'. injection Hd' as <-.
    split; [rewrite Hg; cbn; lra|].
    intros j Hj. unfold num_le.
    destruct (loop_diff_gap bs j Hbs Hj) as (dj & gj & Hdj & Hgj & Hdgj & _).
    specialize (Hmax j Hj). rewrite Hdj in Hmax. apply leb_Fin in Hmax.
    rewrite Hg, Hgj. apply leb_Fin. lra. }
  destruct (Qlt_le_dec 0 q) as [Hpos|Hzero].
  - destruct (Hwit Hpos) as (i & Hi & Hd & Hgs & Hge).
    exists i, q.
    pose proof (Hall i q Hi Hd (Qeq_refl q)) as HL.
    repeat (split; [assumption|]). assumption.
  - exists 0%nat, q.
    destruct (loop_diff_gap bs 0 Hbs Hn) as (d & g & Hd & _ & _ & Hd0 & _).
    pose proof (Hmax 0%nat Hn) as H0. rewrite Hd in H0. apply leb_Fin in H0.
    assert (Hdq : d == q) by lra.
    pose proof (Hall 0%nat d Hn Hd Hdq) as HL.
    repeat (split; [assumption|]). intros Hpos. lra.
Qed.

(** The loop on the bearings 10, 20, 200: the gaps are 10, 180 and 170,
    the largest runs from 20 to 200; and on 0, 90, 180, 270, where the
    first of the equal gaps of 90 is kept. *)
Example gap_loop_10_20_200 :
  gap_loop [Fin 10; Fin 20; Fin 200] = (Fin (200 + - 20), Fin 20, Fin 200).
Proof.
  reflexivity.
Qed.

Example gap_loop_quarters :
  gap_loop [Fin 0; Fin 90; Fin 180; Fin 270] = (Fin (90 + - 0), Fin 0, Fin 90).
Proof.
  reflexivity.
Qed.

Example circular_gap_wraps :
  same (circular_gap [Fin 10; Fin 20; Fin 200] 2) (Fin 170).
Proof.
  qcompute.
Qed.

(** ** C2: angular-gap analysis *)

Lemma point_valid c : (2 <= List.length c)%nat -> point c = Return c.
Proof.
  intros Hc. unfold point.
  destruct (List.length c <? 2)%nat eqn:E; [|reflexivity].
  apply Nat.ltb_lt in E. lia.
Qed.

Lemma filterM_point (p : Position -> bool) cs :
  Forall (fun c => (2 <= List.length c)%nat) cs ->
  filterM (fun c => pc <- point c ;; Return (p pc)) cs = Return (filter p cs).
Proof.
  induction 1 as [|c cs Hc _ IH]; cbn [filterM filter]; [reflexivity|].
  rewrite (point_valid c Hc), IH. cbn [bind]. now destruct (p c).
Qed.

Lemma mapM_point {B : Type} (g : Position -> B) cs :
  Forall (fun c => (2 <= List.length c)%nat) cs ->
  mapM (fun c => pc <- point c ;; Return (g pc)) cs = Return (map g cs).
Proof.
  induction 1 as [|c cs Hc _ IH]; cbn [mapM map]; [reflexivity|].
  now rewrite (point_valid c Hc), IH.
Qed.

Lemma sub_orders_angles x y :
  is_angle x -> is_angle y ->
  if gtb (sub x y) (Fin 0) then num_le y x else num_le x y.
Proof.
  intros Hx Hy.
  destruct (is_angle_Fin x Hx) as (a & -> & _).
  destruct (is_angle_Fin y Hy) as (b & -> & _).
  change (gtb (sub (Fin a) (Fin b)) (Fin 0)) with (Qltb 0 (a + - b)).
  unfold num_le. destruct (Qltb 0 (a + - b)) eqn:L.
  - apply Qltb_lt in L. apply leb_Fin. lra.
  - apply Qltb_ge in L. apply leb_Fin. lra.
Qed.

Section SectorGeometry.
Context `{Env}.

(** Every position of the feature has a longitude and a latitude. *)
Definition well_formed (f : Feature) : Prop :=
  Forall (fun c => (2 <= List.length c)%nat) (coordAll f).

(** The vertices farther than 2 meters from the anchor, and the
    bearings from the anchor to them. *)
Definition far_vertices (f : Feature) (towerCenter : Position)
  : list Position :=
  filter (fun c => Qltb 2 (turfDistance c towerCenter meters)) (coordAll f).

Definition vertex_bearings (f : Feature) (towerCenter : Position)
  : list num :=
  map (fun c => normalizeAngle (Fin (turfBearing towerCenter c)))
    (far_vertices f towerCenter).

(** The sector that the claim derives from the sorted bearings [bs] and a
    largest gap [maxGap], from [bs[i]] to the next bearing. *)
Definition gap_metrics (explicitAzimuth : option num) (bs : list num)
  (i : nat) (maxGap : num) : SectorMetrics :=
  if ltb maxGap (Fin 60) then omni_metrics
  else
    let startAngle := nth ((i + 1) mod List.length bs) bs NaN in
    let endAngle := nth i bs NaN in
    let beamwidth := sub (Fin 360) maxGap in
    let midpoint := normalizeAngle (add startAngle (div beamwidth (Fin 2))) in
    mkSectorMetrics
      (match explicitAzimuth with Some a => a | None => midpoint end)
      beamwidth false startAngle endAngle.

Lemma vertex_bearings_angles f tc : Forall is_angle (vertex_bearings f tc).
Proof.
  unfold vertex_bearings. apply Forall_map, Forall_forall.
  intros c _. apply normalizeAngle_within.
Qed.

Lemma far_vertices_well_formed f tc :
  well_formed f ->
  Forall (fun c => (2 <= List.length c)%nat) (far_vertices f tc).
Proof.
  unfold well_formed, far_vertices. rewrite !Forall_forall.
  intros Hf c Hc. apply filter_In in Hc. now apply Hf.
Qed.

(** The geometry is present and is not a point. *)
Definition has_extent (f : Feature) : Prop :=
  match geometry f with
  | None | Some (Point _) => False
  | Some _ => True
  end.

(** What the code does in the gap analysis: for a feature that is not a
    point, whose centroid is at least 2 meters from the anchor and that
    has a vertex farther than 2 meters from it, [analyzeSectorGeometry]
    sorts the bearings of those vertices ascending and finds a largest
    gap of the loop (a difference taken in [0,360)); below 60 degrees the
    result is omnidirectional with azimuth 0 and beamwidth 360, otherwise
    the wedge starts at the bearing after the gap and ends at the bearing
    before it, the beamwidth is 360 minus the gap and the azimuth is the
    explicit one when present, otherwise the midpoint of the wedge.  By
    [circular_gap_wrapped] the gap of the loop is the gap of the claim
    unless all the bearings are the same. *)
Theorem analyzeSectorGeometry_gap_analysis f towerCenter c :
  has_extent f -> well_formed f ->
  centroid f = Return c -> 2 <= turfDistance towerCenter c meters ->
  far_vertices f towerCenter <> [] ->
  exists bs i maxGap,
    Permutation bs (vertex_bearings f towerCenter)
    /\ Sorted num_le bs
    /\ is_largest_gap bs i maxGap
    /\ analyzeSectorGeometry f towerCenter
       = Return (gap_metrics (getExplicitAzimuth (properties f)) bs i maxGap).
Proof.
  intros Hext Hwf Hc Hdist Hfar.
  set (bs := sort (fun a b => sub a b) (vertex_bearings f towerCenter)).
  assert (Hang : Forall is_angle bs)
    by (apply sort_Forall, vertex_bearings_angles).
  assert (Hlen : (0 < List.length bs)%nat).
  { unfold bs. rewrite sort_length. unfold vertex_bearings.
    rewrite length_map.
    destruct (far_vertices f towerCenter); [congruence|cbn; lia]. }
  destruct (gap_loop_spec bs Hang Hlen) as (i & q & Hm & Hq0 & Hq1 & HL & Hse).
  exists bs, i, (Fin q).
  split; [apply sort_perm|].
  split; [apply (sort_sorted _ is_angle num_le sub_orders_angles),
            vertex_bearings_angles|].
  split; [assumption|].
  assert (E2 : Qltb (turfDistance towerCenter c meters) 2 = false)
    by now apply Qltb_ge.
  unfold analyzeSectorGeometry, has_extent in *.
  destruct (geometry f) as [[]|]; try contradiction.
  all: rewrite Hc; cbn [bind]; rewrite E2;
    rewrite (filterM_point
               (fun pc => Qltb 2 (turfDistance pc towerCenter meters)) _ Hwf);
    cbn [bind]; fold (far_vertices f towerCenter);
    (destruct (List.length (far_vertices f towerCenter) =? 0)%nat eqn:E0;
     [apply Nat.eqb_eq in E0;
      destruct (far_vertices f towerCenter); [congruence|discriminate]|]);
    rewrite (mapM_point
               (fun pc => normalizeAngle (Fin (turfBearing towerCenter pc))) _
               (far_vertices_well_formed f towerCenter Hwf));
    cbn [bind]; fold (vertex_bearings f towerCenter); fold bs;
    destruct (gap_loop bs) as [[m gs] ge]; cbn [fst snd] in *; subst m;
    unfold gap_metrics;
    (destruct (ltb (Fin q) (Fin 60)) eqn:L60; [reflexivity|]);
    apply ltb_Fin_false in L60;
    (destruct Hse as [-> ->]; [lra|]); reflexivity.
Qed.

(** C2 fails on the code: when every vertex farther than 2 meters lies
    on one bearing (a line drawn from the tower outwards, say), the gap
    from the last bearing through 360 round to the first is a full turn,
    the largest there is; by the claim the sector is the ray on that
    bearing, with beamwidth 0, and is not omnidirectional.  The loop adds
    360 only to a negative difference, takes this gap for 0 and returns
    the omnidirectional sector with azimuth 0. *)
Theorem analyzeSectorGeometry_one_bearing f towerCenter c b :
  has_extent f -> well_formed f ->
  centroid f = Return c -> 2 <= turfDistance towerCenter c meters ->
  far_vertices f towerCenter <> [] ->
  Forall (same b) (vertex_bearings f towerCenter) ->
  let bs := sort (fun a b => sub a b) (vertex_bearings f towerCenter) in
  let last := (List.length bs - 1)%nat in
  let claimed :=
    gap_metrics (getExplicitAzimuth (properties f)) bs last
      (wrapped_gap bs last) in
  analyzeSectorGeometry f towerCenter = Return omni_metrics
  /\ Sorted num_le bs
  /\ same (wrapped_gap bs last) (Fin 360)
  /\ (forall j, (j < List.length bs)%nat ->
        num_le (wrapped_gap bs j) (wrapped_gap bs last))
  /\ isOmni claimed = false
  /\ same (beamwidth claimed) (Fin 0)
  /\ same (startAngle claimed) b /\ same (endAngle claimed) b
  /\ (getExplicitAzimuth (properties f) = None -> same (azimuth claimed) b).
Proof.
  intros Hext Hwf Hc Hdist Hfar Hone bs last claimed.
  assert (Hang : Forall is_angle bs)
    by (apply sort_Forall, vertex_bearings_angles).
  assert (Hsame : Forall (same b) bs) by now apply sort_Forall.
  assert (Hlen : (0 < List.length bs)%nat).
  { unfold bs. rewrite sort_length. unfold vertex_bearings.
    rewrite length_map.
    destruct (far_vertices f towerCenter); [congruence|cbn; lia]. }
  assert (Hnth : forall l j, Forall (same b) l -> Forall is_angle l ->
             (j < List.length l)%nat ->
             exists q x, b = Fin q /\ nth j l NaN = Fin x /\ q == x
                         /\ 0 <= x /\ x < 360).
  { intros l j Hl Ha Hj.
    destruct (is_angle_Fin _ (nth_is_angle l j Ha Hj)) as (x & Ex & Hx).
    rewrite Forall_forall in Hl.
    specialize (Hl _ (nth_In l NaN Hj)). rewrite Ex in Hl.
    destruct b as [q| |]; cbn in Hl; try contradiction.
    now exists q, x. }
  split; [|split; [|split; [|split]]].
  - destruct (analyzeSectorGeometry_gap_analysis f towerCenter c
                Hext Hwf Hc Hdist Hfar)
      as (bs' & i & maxGap & Hperm & _ & (Hi & Hmax & _) & ->).
    assert (Hang' : Forall is_angle bs').
    { eapply Permutation_Forall; [symmetry; exact Hperm|].
      apply vertex_bearings_angles. }
    assert (Hsame' : Forall (same b) bs').
    { eapply Permutation_Forall; [symmetry; exact Hperm|exact Hone]. }
    assert (Hi' : ((i + 1) mod List.length bs' < List.length bs')%nat)
      by (apply next_index_lt; lia).
    destruct (Hnth bs' i Hsame' Hang' Hi) as (q & x & -> & Ex & Hqx & Hx).
    destruct (Hnth bs' _ Hsame' Hang' Hi') as (q' & y & Eq & Ey & Hqy & Hy).
    injection Eq as <-.
    unfold circular_gap in Hmax. rewrite Ex, Ey in Hmax.
    change (sub (Fin y) (Fin x)) with (Fin (y + - x)) in Hmax.
    destruct (normalizeAngle_small (y + - x)) as (g & Eg & Hg); [lra|lra|].
    rewrite Eg in Hmax.
    destruct (Qltb (y + - x) 0) eqn:L; [apply Qltb_lt in L; lra|].
    destruct maxGap as [m| |]; cbn [same] in Hmax; try contradiction.
    unfold gap_metrics.
    assert (E60 : ltb (Fin m) (Fin 60) = true) by (apply Qltb_lt; lra).
    now rewrite E60.
  - apply (sort_sorted _ is_angle num_le sub_orders_angles),
      vertex_bearings_angles.
  - assert (Hl : (last < List.length bs)%nat) by (unfold last; lia).
    destruct (Hnth bs 0%nat Hsame Hang Hlen) as (q & a & -> & Ea & Hqa & Ha).
    destruct (Hnth bs last Hsame Hang Hl) as (q' & x & Eq & Ex & Hqx & Hx).
    injection Eq as <-.
    unfold wrapped_gap.
    replace (last + 1 <? List.length bs)%nat with false
      by (symmetry; apply Nat.ltb_ge; unfold last; lia).
    rewrite Ea, Ex. cbn [add sub neg same]. lra.
  - intros j Hj.
    assert (Hl : (last < List.length bs)%nat) by (unfold last; lia).
    destruct (Hnth bs 0%nat Hsame Hang Hlen) as (q & a & -> & Ea & Hqa & Ha).
    destruct (Hnth bs last Hsame Hang Hl) as (q' & x & Eq & Ex & Hqx & Hx).
    injection Eq as <-.
    destruct (Hnth bs j Hsame Hang Hj) as (q' & y & Eq & Ey & Hqy & Hy).
    injection Eq as <-.
    unfold num_le, wrapped_gap.
    replace (last + 1 <? List.length bs)%nat with false
      by (symmetry; apply Nat.ltb_ge; unfold last; lia).
    rewrite Ea, Ex, Ey.
    destruct (j + 1 <? List.length bs)%nat eqn:E.
    + apply Nat.ltb_lt in E.
      destruct (Hnth bs (j + 1)%nat Hsame Hang E)
        as (q' & z & Eq & Ez & Hqz & Hz).
      injection Eq as <-. rewrite Ez. cbn [add sub neg].
      apply leb_Fin. lra.
    + cbn [add sub neg]. apply leb_Fin. lra.
  - assert (Hl : (last < List.length bs)%nat) by (unfold last; lia).
    destruct (Hnth bs 0%nat Hsame Hang Hlen) as (q & a & -> & Ea & Hqa & Ha).
    destruct (Hnth bs last Hsame Hang Hl) as (q' & x & Eq & Ex & Hqx & Hx).
    injection Eq as <-.
    assert (Hnext : nth ((last + 1) mod List.length bs) bs NaN = Fin a).
    { replace (last + 1)%nat with (List.length bs) by (unfold last; lia).
      now rewrite Nat.Div0.mod_same. }
    subst claimed. unfold gap_metrics, wrapped_gap.
    replace (last + 1 <? List.length bs)%nat with false
      by (symmetry; apply Nat.ltb_ge; unfold last; lia).
    rewrite Hnext, Ea, Ex. cbn [add sub neg].
    assert (E60 : ltb (Fin (a + 360 + - x)) (Fin 60) = false).
    { apply not_true_is_false. intros L. apply Qltb_lt in L. lra. }
    rewrite E60. cbn [isOmni beamwidth startAngle endAngle azimuth same].
    split; [reflexivity|]. split; [lra|]. split; [lra|]. split; [lra|].
    intros ->. change (div (Fin (360 + - (a + 360 + - x))) (Fin 2))
      with (Fin ((360 + - (a + 360 + - x)) / 2)).
    cbn [add].
    assert (Hhalf : (360 + - (a + 360 + - x)) / 2
                    == (360 + - (a + 360 + - x)) * (1 # 2))
      by (unfold Qdiv; reflexivity).
    destruct (normalizeAngle_small (a + (360 + - (a + 360 + - x)) / 2))
      as (g & -> & Hg); [lra|lra|].
    destruct (Qltb _ 0) eqn:L; [apply Qltb_lt in L; lra|].
    cbn [same]. lra.
Qed.

End SectorGeometry.

(** A line drawn from the tower at the origin to the east. *)
Definition demo_line : Feature :=
  mkFeature (Some (LineString [[0; 0]; [0.001; 0]]))
    (Some (mkProperties [("name", "east")]%string (Some [0; 0]))).

Lemma analyzeSectorGeometry_one_bearing_witness :
  let bs :=
    sort (fun a b => sub a b)
      (vertex_bearings (H := plane_env) demo_line [0; 0]) in
  let claimed := gap_metrics None bs 0 (wrapped_gap bs 0) in
  analyzeSectorGeometry (H := plane_env) demo_line [0; 0]
  = Return omni_metrics
  /\ same (wrapped_gap bs 0) (Fin 360)
  /\ isOmni claimed = false
  /\ same (beamwidth claimed) (Fin 0)
  /\ same (azimuth claimed) (Fin 90).
Proof.
  destruct (analyzeSectorGeometry_one_bearing (H := plane_env)
              demo_line [0; 0] [1 # 2000; 0 # 2] (Fin 90))
    as (Hcode & _ & Hgap & _ & Homni & Hwidth & _ & _ & Haz).
  - exact I.
  - unfold well_formed. cbn. repeat constructor.
  - vm_compute. reflexivity.
  - vm_compute. discriminate.
  - vm_compute. discriminate.
  - vm_compute. repeat constructor.
  - split; [exact Hcode|]. split; [exact Hgap|]. split; [exact Homni|].
    split; [exact Hwidth|exact (Haz eq_refl)].
Defined.

Lemma analyzeSectorGeometry_gap_analysis_witness :
  has_extent demo_wedge
  /\ far_vertices (H := plane_env) demo_wedge [0; 0] <> []
  /\ exists bs i maxGap,
       Permutation bs (vertex_bearings (H := plane_env) demo_wedge [0; 0])
       /\ Sorted num_le bs
       /\ is_largest_gap bs i maxGap
       /\ analyzeSectorGeometry (H := plane_env) demo_wedge [0; 0]
          = Return (gap_metrics (getExplicitAzimuth (properties demo_wedge))
                      bs i maxGap).
Proof.
  split; [exact I|]. split; [vm_compute; discriminate|].
  eapply (analyzeSectorGeometry_gap_analysis (H := plane_env) demo_wedge [0; 0]).
  - exact I.
  - unfold well_formed. cbn. repeat constructor.
  - vm_compute. reflexivity.
  - vm_compute. discriminate.
  - vm_compute. discriminate.
Defined.

(** ** C9: the ranges of the sector metrics *)

Lemma filterM_point_inv (p : Position -> bool) cs l :
  filterM (fun c => pc <- point c ;; Return (p pc)) cs = Return l ->
  l = filter p cs.
Proof.
  revert l. induction cs as [|c cs IH]; cbn [filterM filter]; intros l E.
  - now injection E as <-.
  - unfold point in E at 1.
    destruct (List.length c <? 2)%nat; [discriminate|]. cbn [bind] in E.
    destruct (filterM _ cs) as [rest|]; [|discriminate]. cbn [bind] in E.
    rewrite <- (IH rest eq_refl). injection E as <-. reflexivity.
Qed.

Lemma mapM_point_inv {B : Type} (g : Position -> B) cs l :
  mapM (fun c => pc <- point c ;; Return (g pc)) cs = Return l ->
  l = map g cs.
Proof.
  revert l. induction cs as [|c cs IH]; cbn [mapM map]; intros l E.
  - now injection E as <-.
  - unfold point in E at 1.
    destruct (List.length c <? 2)%nat; [discriminate|]. cbn [bind] in E.
    destruct (mapM _ cs) as [rest|]; [|discriminate]. cbn [bind] in E.
    rewrite <- (IH rest eq_refl). injection E as <-. reflexivity.
Qed.

(** An explicit azimuth is a normalized angle, or NaN when the property
    reads as an infinity. *)
Lemma getExplicitAzimuth_value props a :
  getExplicitAzimuth props = Some a -> is_angle a \/ a = NaN.
Proof.
  unfold getExplicitAzimuth. destruct props as [props|]; [|discriminate].
  destruct (find _ _) as [key|]; [|discriminate].
  destruct (parseFloat_entry props key) as [q|sg|]; cbn [isNaN negb];
    intros E; try discriminate; injection E as <-.
  - left. apply normalizeAngle_within.
  - right. reflexivity.
Qed.

Definition metrics_in_range (m : SectorMetrics) : Prop :=
  is_angle (azimuth m)
  /\ within_lo 0 360 (beamwidth m)
  /\ (isOmni m = true -> beamwidth m = Fin 360).

(** The explicit azimuth of the feature, when there is one, is a number. *)
Definition explicit_azimuth_is_number (f : Feature) : Prop :=
  getExplicitAzimuth (properties f) <> Some NaN.

Lemma omni_metrics_in_range : metrics_in_range omni_metrics.
Proof.
  unfold metrics_in_range, omni_metrics, is_angle. cbn.
  repeat split; lra.
Qed.

Lemma degenerate_in_range explicitAzimuth :
  explicitAzimuth <> Some NaN ->
  (forall a, explicitAzimuth = Some a -> is_angle a \/ a = NaN) ->
  metrics_in_range
    (match explicitAzimuth with
     | Some a => explicit_metrics a
     | None => omni_metrics
     end).
Proof.
  intros Hnan Hval. destruct explicitAzimuth as [a|].
  - destruct (Hval a eq_refl) as [Ha| ->]; [|congruence].
    unfold metrics_in_range, explicit_metrics. cbn.
    repeat split; try assumption; try lra; try discriminate.
  - apply omni_metrics_in_range.
Qed.

Section SectorRanges.
Context `{Env}.

(** Short of an explicit azimuth that reads as an infinity, the metrics
    that [analyzeSectorGeometry] returns are in range. *)
Lemma analyzeSectorGeometry_in_range f towerCenter m :
  explicit_azimuth_is_number f ->
  analyzeSectorGeometry f towerCenter = Return m ->
  metrics_in_range m.
Proof.
  intros Hnum.
  pose proof (getExplicitAzimuth_value (properties f)) as Hval.
  pose proof (degenerate_in_range _ Hnum Hval) as Hdeg.
  unfold analyzeSectorGeometry, explicit_azimuth_is_number in *.
  destruct (geometry f) as [[]|].
  1, 7: intros E; injection E as <-; exact Hdeg.
  all: destruct (centroid f) as [c|]; cbn [bind]; [|discriminate];
    (destruct (Qltb _ 2); [intros E; injection E as <-; exact Hdeg|]);
    destruct (filterM _ _) as [outer|] eqn:EF; cbn [bind]; [|discriminate];
    (destruct (List.length outer =? 0)%nat eqn:E0;
     [intros E; injection E as <-;
      split; [apply normalizeAngle_within|split; [cbn; lra|reflexivity]]|]);
    destruct (mapM _ outer) as [bearings|] eqn:EM; cbn [bind]; [|discriminate];
    apply mapM_point_inv in EM; subst bearings;
    set (bs := sort _ _);
    assert (Hang : Forall is_angle bs)
      by (apply sort_Forall, Forall_map, Forall_forall;
          intros ? _; apply normalizeAngle_within);
    assert (Hlen : (0 < List.length bs)%nat)
      by (unfold bs; rewrite sort_length, length_map;
          apply Nat.eqb_neq in E0; lia);
    destruct (gap_loop_spec bs Hang Hlen)
      as (i & q & Hm & Hq0 & Hq1 & HL & Hse);
    destruct (gap_loop bs) as [[mg gs] ge]; cbn [fst snd] in *; subst mg;
    (destruct (ltb (Fin q) (Fin 60)) eqn:L60;
     [intros E; injection E as <-; apply omni_metrics_in_range|]);
    apply ltb_Fin_false in L60;
    (destruct Hse as [-> ->]; [lra|]);
    intros E; injection E as <-;
    assert (Hnext : ((i + 1) mod List.length bs < List.length bs)%nat)
      by (apply next_index_lt; lia);
    destruct (is_angle_Fin _ (nth_is_angle bs _ Hang Hnext)) as (b & -> & Hb);
    unfold metrics_in_range; cbn [azimuth beamwidth isOmni];
    (split; [|split; [cbn; lra|discriminate]]);
    (destruct (getExplicitAzimuth (properties f)) as [a|];
     [destruct (Hval a eq_refl) as [Ha| ->]; [exact Ha|congruence]
     |apply normalizeAngle_within]).
Qed.

End SectorRanges.

(** A point whose [azimuth] property reads [Infinity]. *)
Definition infinite_azimuth_point : Feature :=
  mkFeature (Some (Point [0; 0]))
    (Some (mkProperties [("azimuth", "Infinity")]%string None)).

(** C9 fails on the code: [parseFloat] reads [Infinity], which is not
    NaN, and [normalizeAngle(Infinity)] is NaN; the azimuth returned is
    NaN, outside [0,360). *)
Theorem analyzeSectorGeometry_infinite_azimuth `{Env} towerCenter :
  analyzeSectorGeometry infinite_azimuth_point towerCenter
  = Return (mkSectorMetrics NaN (Fin 65) false NaN NaN)
  /\ ~ metrics_in_range (mkSectorMetrics NaN (Fin 65) false NaN NaN).
Proof.
  split; [reflexivity|]. intros [Haz _]. exact Haz.
Qed.

(** ** C3: explicit coordinates come first *)

(** The keys of the annotations, which [Object_keys] leaves out, match
    none of the three patterns. *)
Lemma annotation_keys_match_nothing :
  forallb (fun k => negb (regex_test lat_regex k)
                    && negb (regex_test lng_regex k)
                    && negb (regex_test azimuth_regex k))
    ["_id"; "_center"; "_sourceId"; "_sourceName"]%string = true.
Proof.
  vm_compute. reflexivity.
Qed.

(** The patterns as the claim writes them, matched against the entire
    key: [(site_)?lat(itude)?] and [(site_)?lon(gitude)?|lng]. *)
Definition claimed_lat_regex : regex :=
  Seq Bol
    (Seq (Opt (lit "site_")) (Seq (lit "lat") (Seq (Opt (lit "itude")) Eol))).

Definition claimed_lng_regex : regex :=
  Seq Bol
    (Seq (Alt (Seq (Opt (lit "site_")) (Seq (lit "lon") (Opt (lit "gitude"))))
            (lit "lng"))
       Eol).

(** The longitude pattern with the alternation grouped and anchored at
    both ends, as the latitude pattern is. *)
Definition anchored_lng_regex : regex :=
  Seq Bol
    (Seq site_prefix
       (Seq (Alt (Seq (lit "lon") (Opt (lit "gitude"))) (lit "lng")) Eol)).

Definition no_underscore_props : Properties :=
  mkProperties [("sitelat", "10"); ("sitelon", "20")]%string None.

Definition two_latitudes_props : Properties :=
  mkProperties [("lat", "north"); ("latitude", "10"); ("lon", "20")]%string
    None.

(** C3, as stated, fails in two ways.  The source makes the underscore
    after [site] optional, so [sitelat] and [sitelon], which the claimed
    patterns do not match, give the anchor; and the source reads the first
    matching key only, so a feature with a valid [latitude] and [lon] gets
    no explicit anchor when an unreadable [lat] comes first. *)
Lemma getExplicitCenter_not_as_claimed :
  (forallb (fun k => negb (regex_test claimed_lat_regex k)
                     && negb (regex_test claimed_lng_regex k))
     (Object_keys no_underscore_props) = true
   /\ getExplicitCenter (Some no_underscore_props) = Some [20; 10])
  /\ (regex_test claimed_lat_regex "latitude" = true
      /\ regex_test claimed_lng_regex "lon" = true
      /\ parseFloat_entry two_latitudes_props "latitude" = Fin 10
      /\ parseFloat_entry two_latitudes_props "lon" = Fin 20
      /\ getExplicitCenter (Some two_latitudes_props) = None).
Proof.
  repeat split; vm_compute; reflexivity.
Qed.

(** The longitude pattern of the source accepts any key that begins with
    [lon] or ends with [lng]: such a key gives the longitude, or hides a
    valid [lon] that comes after it. *)
Lemma lng_regex_accepts_prefix :
  regex_test lng_regex "london" = true
  /\ regex_test anchored_lng_regex "london" = false
  /\ getExplicitCenter
       (Some (mkProperties [("lat", "10"); ("london", "20")]%string None))
     = Some [20; 10]
  /\ getExplicitCenter
       (Some (mkProperties
                [("long_name", "x"); ("lat", "10"); ("lon", "20")]%string None))
     = None.
Proof.
  repeat split; vm_compute; reflexivity.
Qed.

Lemma set_center_eta f props c :
  properties f = Some props ->
  set_center (mkFeature (geometry f) (Some props)) c = set_center f c.
Proof.
  intros E. unfold set_center. cbn. now rewrite E.
Qed.

(** C3, amended: when the first key matching [(site_?)?lat(itude)?] in
    full and the first key that the longitude test of the source accepts,
    itself a full match of [(site_?)?(lon(gitude)?|lng)], carry numbers
    with |lat| <= 90 and |lng| <= 180, the anchor is [lng, lat] whatever
    the geometry and the coordinate counts: the feature returned is the
    input with [_center] set, and its anchor reads [lng, lat]; and a
    feature with no key matching [(site_?)?lat(itude)?] in full has no
    explicit anchor. *)
Theorem explicit_center_is_anchor `{Env} f props :
  properties f = Some props ->
  (forall latKey lngKey la lo,
      find (regex_test lat_regex) (Object_keys props) = Some latKey ->
      find (regex_test lng_regex) (Object_keys props) = Some lngKey ->
      regex_test anchored_lng_regex lngKey = true ->
      parseFloat_entry props latKey = Fin la ->
      parseFloat_entry props lngKey = Fin lo ->
      Qabs la <= 90 -> Qabs lo <= 180 ->
      getExplicitCenter (properties f) = Some [lo; la]
      /\ forall coordCounts,
           exists f',
             infer_center coordCounts f = Return f'
             /\ f' = set_center f [lo; la]
             /\ feature_center f' = Some [lo; la]
             /\ geometry f' = geometry f)
  /\ ((forall k, In k (Object_keys props) -> regex_test lat_regex k = false) ->
      getExplicitCenter (properties f) = None).
Proof.
  intros Hp. split.
  - intros latKey lngKey la lo Hlat Hlng _ Hla Hlo Rla Rlo.
    assert (E : getExplicitCenter (Some props) = Some [lo; la]).
    { unfold getExplicitCenter. rewrite Hlat, Hlng, Hla, Hlo.
      cbn [isNaN negb andb abs].
      apply leb_Fin in Rla, Rlo. now rewrite Rla, Rlo. }
    rewrite Hp. split; [exact E|].
    intros coordCounts. exists (set_center f [lo; la]).
    split; [|repeat split].
    unfold infer_center, ensure_properties. rewrite Hp.
    cbn [properties]. rewrite E. now rewrite (set_center_eta f props).
  - intros Hnone. rewrite Hp. unfold getExplicitCenter.
    destruct (find (regex_test lat_regex) (Object_keys props)) as [k|] eqn:F;
      [|reflexivity].
    apply find_some in F as [Hin Hk]. rewrite (Hnone k Hin) in Hk.
    discriminate.
Qed.

Definition demo_tower : Feature :=
  mkFeature
    (Some (Polygon [[[77.5; 12.5]; [77.498; 12.502]; [77.502; 12.502];
                     [77.5; 12.5]]]))
    (Some (mkProperties
             [("name", "tower"); ("Site_Lat", "12.4"); ("LON", "77.6")]%string
             None)).

Lemma explicit_center_is_anchor_witness :
  getExplicitCenter (properties demo_tower) = Some [77.6; 12.4]
  /\ forall coordCounts,
       exists f',
         infer_center (H := plane_env) coordCounts demo_tower = Return f'
         /\ f' = set_center demo_tower [77.6; 12.4]
         /\ feature_center f' = Some [77.6; 12.4]
         /\ geometry f' = geometry demo_tower.
Proof.
  refine (proj1 (explicit_center_is_anchor (H := plane_env) demo_tower _
                   eq_refl)
            "Site_Lat"%string "LON"%string 12.4 77.6 _ _ _ _ _ _ _);
    vm_compute; try reflexivity; discriminate.
Defined.

(** ** C7: regular polygons take their centroid *)

(** The outer ring of a polygon, or of the first polygon of a
    multi-polygon. *)
Definition main_ring (g : Geometry) : option (list Position) :=
  match g with
  | Polygon coordinates => nth_error coordinates 0
  | MultiPolygon coordinates =>
      match nth_error coordinates 0 with
      | Some polygon => nth_error polygon 0
      | None => None
      end
  | _ => None
  end.

Lemma getExplicitCenter_ensure f :
  getExplicitCenter (properties (ensure_properties f))
  = getExplicitCenter (properties f).
Proof.
  unfold ensure_properties. cbn [properties].
  now destruct (properties f).
Qed.

Lemma set_center_ensure f c :
  set_center (ensure_properties f) c = set_center f c.
Proof.
  unfold set_center, ensure_properties. cbn [properties geometry].
  now destruct (properties f).
Qed.

Section CenterInference.
Context `{Env}.

Lemma infer_center_ring coordCounts f g ring :
  getExplicitCenter (properties f) = None ->
  geometry f = Some g -> main_ring g = Some ring ->
  infer_center coordCounts f
  = Return (analyse_ring coordCounts (ensure_properties f) ring).
Proof.
  intros Hexp Hg Hring. unfold infer_center.
  rewrite getExplicitCenter_ensure, Hexp.
  cbn [ensure_properties geometry]. rewrite Hg.
  destruct g as [| | | |rings|polys]; try discriminate; cbn [main_ring] in Hring.
  - now rewrite Hring.
  - destruct (nth_error polys 0) as [polygon|]; [|discriminate].
    now rewrite Hring.
Qed.

(** The turning angle at an analysed vertex is the wrapped difference of
    the bearings to its two neighbours on the ring. *)
Lemma ring_angles_nth ring j :
  (j < ring_analysisLength ring)%nat ->
  nth j (ring_angles ring) 0
  = calculateAngle (nth j ring [])
      (nth ((j + ring_analysisLength ring - 1) mod ring_analysisLength ring)
         ring [])
      (nth ((j + 1) mod ring_analysisLength ring) ring []).
Proof.
  intros Hj. unfold ring_angles.
  set (angle := fun j => calculateAngle _ _ _).
  rewrite (nth_indep _ 0 (angle 0%nat)) by now rewrite length_map, length_seq.
  rewrite (map_nth angle), seq_nth by assumption. reflexivity.
Qed.

Lemma ring_angles_length ring :
  List.length (ring_angles ring) = ring_analysisLength ring.
Proof.
  unfold ring_angles. now rewrite length_map, length_seq.
Qed.

(** With bearings between -180 and 180, as turf gives them, a turning
    angle lies in [0,180]. *)
Lemma calculateAngle_range curr prev next :
  (forall a b, - (180) <= turfBearing a b /\ turfBearing a b <= 180) ->
  0 <= calculateAngle curr prev next /\ calculateAngle curr prev next <= 180.
Proof.
  intros Hb. unfold calculateAngle.
  destruct (point curr) as [pc|]; cbn [bind try_catch]; [|lra].
  destruct (point prev) as [pp|]; cbn [bind try_catch]; [|lra].
  destruct (point next) as [pn|]; cbn [bind try_catch]; [|lra].
  pose proof (Hb pc pp) as H1. pose proof (Hb pc pn) as H2.
  revert H1 H2. generalize (turfBearing pc pp), (turfBearing pc pn).
  intros b1 b2 H1 H2.
  assert (Habs : 0 <= Qabs (b1 - b2) /\ Qabs (b1 - b2) <= 360).
  { split; [apply Qabs_nonneg|]. apply Qabs_Qle_condition. lra. }
  destruct (Qltb 180 (Qabs (b1 - b2))) eqn:L;
    [apply Qltb_lt in L|apply Qltb_ge in L]; lra.
Qed.

Lemma analysisLength_le ring :
  (ring_analysisLength ring <= List.length ring)%nat.
Proof.
  unfold ring_analysisLength. destruct (ring_isClosed ring); lia.
Qed.

Lemma coordEach_wrap_subset f c :
  In c (coordEach f true) -> In c (coordAll f).
Proof.
  unfold coordAll, coordEach. destruct (geometry f) as [g|]; [|easy].
  assert (Hring : forall r : list Position,
             In c (firstn (List.length r - 1) r) ->
             In c (firstn (List.length r - 0) r)).
  { intros r Hc. rewrite Nat.sub_0_r, firstn_all.
    rewrite <- (firstn_skipn (List.length r - 1) r).
    apply in_or_app. now left. }
  destruct g as [| | | |rings|polys]; cbn [andb is_polygonal geometry_coords];
    try easy.
  - rewrite !in_concat. intros (l & Hl & Hc).
    apply in_map_iff in Hl as (r & <- & Hr).
    exists (firstn (List.length r - 0) r). split; [|now apply Hring].
    apply in_map_iff. now exists r.
  - rewrite !in_concat. intros (l & Hl & Hc).
    apply in_map_iff in Hl as (poly & <- & Hp).
    exists (List.concat (map (fun r => firstn (List.length r - 0) r) poly)).
    split; [apply in_map_iff; now exists poly|].
    rewrite in_concat in Hc |- *. destruct Hc as (l & Hl & Hc).
    apply in_map_iff in Hl as (r & <- & Hr).
    exists (firstn (List.length r - 0) r). split; [|now apply Hring].
    apply in_map_iff. now exists r.
Qed.

Lemma coordEach_main_ring f g ring c :
  geometry f = Some g -> main_ring g = Some ring ->
  In c (firstn (List.length ring - 1) ring) -> In c (coordEach f true).
Proof.
  intros Hg Hring Hc. unfold coordEach. rewrite Hg.
  destruct g as [| | | |rings|polys]; try discriminate;
    cbn [main_ring andb is_polygonal geometry_coords] in *.
  - apply in_concat. exists (firstn (List.length ring - 1) ring).
    split; [|assumption]. apply in_map_iff. exists ring.
    split; [reflexivity|]. eapply nth_error_In, Hring.
  - destruct (nth_error polys 0) as [poly|] eqn:Hp; [|discriminate].
    apply in_concat.
    exists (List.concat (map (fun r => firstn (List.length r - 1) r) poly)).
    split; [apply in_map_iff; exists poly; split;
            [reflexivity|eapply nth_error_In, Hp]|].
    apply in_concat. exists (firstn (List.length ring - 1) ring).
    split; [|assumption]. apply in_map_iff. exists ring.
    split; [reflexivity|]. eapply nth_error_In, Hring.
Qed.

(** A polygon with well-formed positions and two of them or more on its
    main ring has a centroid. *)
Lemma polygon_has_centroid f g ring :
  geometry f = Some g -> main_ring g = Some ring ->
  (2 <= List.length ring)%nat ->
  Forall (fun c => (2 <= List.length c)%nat) (coordAll f) ->
  exists center, centroid f = Return center.
Proof.
  intros Hg Hring Hlen Hwf. unfold centroid.
  assert (Hne : (List.length (coordEach f true) =? 0)%nat = false).
  { apply Nat.eqb_neq. intros E0.
    destruct ring as [|c ring']; [cbn in Hlen; lia|].
    assert (Hin : In c (coordEach f true)).
    { apply (coordEach_main_ring f g (c :: ring')); try assumption.
      cbn [List.length]. rewrite Nat.sub_succ, Nat.sub_0_r.
      destruct ring'; [cbn in Hlen; lia|]. now left. }
    destruct (coordEach f true); [contradiction|discriminate]. }
  assert (Hshort : existsb (fun c => (List.length c <? 2)%nat)
                     (coordEach f true) = false).
  { apply not_true_is_false. intros Ex.
    apply existsb_exists in Ex as (c & Hc & Hs). apply Nat.ltb_lt in Hs.
    rewrite Forall_forall in Hwf.
    specialize (Hwf c (coordEach_wrap_subset f c Hc)). lia. }
  rewrite Hne, Hshort. cbn [orb]. eexists. reflexivity.
Qed.

(** C7: a polygon without explicit coordinates whose analysed ring has
    more than 3 vertices, whose turning angles have a mean above 90 and
    a population standard deviation below 15, is taken for a regular
    polygon and its centroid becomes the anchor: the feature returned is
    the input with [_center] set, and its anchor reads the centroid. *)
Theorem regular_polygon_takes_centroid coordCounts f g ring :
  getExplicitCenter (properties f) = None ->
  geometry f = Some g -> main_ring g = Some ring ->
  Forall (fun c => (2 <= List.length c)%nat) (coordAll f) ->
  (3 < ring_analysisLength ring)%nat ->
  90 < ring_avgAngle (ring_angles ring) ->
  ring_stdDev (ring_angles ring) < 15 ->
  exists center f',
    centroid f = Return center
    /\ regular_center (ensure_properties f) ring = Some center
    /\ infer_center coordCounts f = Return f'
    /\ f' = set_center f center
    /\ feature_center f' = Some center
    /\ geometry f' = geometry f.
Proof.
  intros Hexp Hg Hring Hwf Hlen Havg Hdev.
  pose proof (analysisLength_le ring) as Hle.
  destruct (polygon_has_centroid f g ring Hg Hring) as (center & Hc);
    [lia|assumption|].
  exists center, (set_center f center). split; [exact Hc|].
  assert (R : regular_center (ensure_properties f) ring = Some center).
  { unfold regular_center.
    apply Nat.ltb_lt in Hlen. apply Qltb_lt in Havg, Hdev.
    rewrite Hlen, Havg, Hdev. cbn [andb].
    change (centroid (ensure_properties f)) with (centroid f).
    now rewrite Hc. }
  split; [exact R|]. split; [|repeat split].
  rewrite (infer_center_ring coordCounts f g ring Hexp Hg Hring).
  unfold analyse_ring. rewrite R.
  destruct (List.length ring <? 3)%nat eqn:E.
  - apply Nat.ltb_lt in E. lia.
  - now rewrite set_center_ensure.
Qed.

End CenterInference.

(** An octagon whose sides run along the axes and the diagonals: every
    turning angle is 135 degrees. *)
Definition demo_octagon : Feature :=
  mkFeature
    (Some (Polygon [[[1; 0]; [2; 0]; [3; 1]; [3; 2]; [2; 3]; [1; 3];
                     [0; 2]; [0; 1]; [1; 0]]]))
    None.

Lemma regular_polygon_takes_centroid_witness :
  exists center f',
    centroid demo_octagon = Return center
    /\ regular_center (H := plane_env) (ensure_properties demo_octagon)
         [[1; 0]; [2; 0]; [3; 1]; [3; 2]; [2; 3]; [1; 3]; [0; 2]; [0; 1];
          [1; 0]]
       = Some center
    /\ infer_center (H := plane_env) [] demo_octagon = Return f'
    /\ f' = set_center demo_octagon center
    /\ feature_center f' = Some center
    /\ geometry f' = geometry demo_octagon.
Proof.
  eapply (regular_polygon_takes_centroid (H := plane_env) [] demo_octagon);
    try reflexivity.
  - cbn. repeat constructor.
  - vm_compute. lia.
Defined.

(** ** C4: sector-tip scoring *)

Lemma same_key_refl a : same_key a a = true.
Proof.
  induction a as [|x a IH]; cbn; [reflexivity|].
  now rewrite Qeq_bool_refl, IH.
Qed.

Lemma same_key_sym a b : same_key a b = same_key b a.
Proof.
  revert b. induction a as [|x a IH]; intros [|y b]; cbn; try reflexivity.
  now rewrite Qeq_bool_comm, IH.
Qed.

Lemma same_key_trans a b c :
  same_key a b = true -> same_key b c = true -> same_key a c = true.
Proof.
  revert b c. induction a as [|x a IH]; intros [|y b] [|z c]; cbn;
    try discriminate; try reflexivity.
  rewrite !andb_true_iff. intros [Hxy Hab] [Hyz Hbc]. split.
  - apply (Qeq_bool_trans x y z); assumption.
  - apply (IH b c); assumption.
Qed.

Lemma same_key_congr a b c :
  same_key a b = true -> same_key a c = same_key b c.
Proof.
  intros Hab. destruct (same_key b c) eqn:Hbc.
  - apply (same_key_trans a b c); assumption.
  - destruct (same_key a c) eqn:Hac; [|reflexivity].
    rewrite <- Hbc. symmetry. apply (same_key_trans b a c); [|assumption].
    now rewrite same_key_sym.
Qed.

Lemma existsb_same_key_congr a b l :
  same_key a b = true ->
  existsb (same_key a) l = existsb (same_key b) l.
Proof.
  intros Hab. induction l as [|c l IH]; cbn; [reflexivity|].
  now rewrite (same_key_congr a b c Hab), IH.
Qed.

(** How many features refer to the coordinate [v]. *)
Definition occurrences (features : list Feature) (v : Position) : nat :=
  List.length (filter (fun f => existsb (same_key v) (coordAll f)) features).

Definition get_count (m : CoordCounts) (v : Position) : nat :=
  match counts_get m v with Some n => n | None => 0%nat end.

Lemma counts_get_congr m u v :
  same_key u v = true -> counts_get m u = counts_get m v.
Proof.
  intros Huv. induction m as [|[k n] m IH]; cbn; [reflexivity|].
  rewrite IH. rewrite (same_key_sym k u), (same_key_sym k v).
  now rewrite (same_key_congr u v k Huv).
Qed.

Lemma counts_get_set m c n v :
  counts_get (counts_set m c n) v
  = if same_key c v then Some n else counts_get m v.
Proof.
  induction m as [|[k n'] m IH]; cbn; [reflexivity|].
  destruct (same_key k c) eqn:Hkc; cbn.
  - rewrite (same_key_congr k c v Hkc). now destruct (same_key c v).
  - rewrite IH. destruct (same_key k v) eqn:Hkv; [|reflexivity].
    destruct (same_key c v) eqn:Hcv; [|reflexivity].
    rewrite same_key_sym in Hcv.
    now rewrite (same_key_trans k v c Hkv Hcv) in Hkc.
Qed.

Fixpoint distinct_keys (l : list Position) : Prop :=
  match l with
  | [] => True
  | c :: l' => existsb (same_key c) l' = false /\ distinct_keys l'
  end.

Lemma unique_keys_spec coords seen :
  (forall v, existsb (same_key v) (unique_keys coords seen)
             = existsb (same_key v) coords
               && negb (existsb (same_key v) seen))
  /\ distinct_keys (unique_keys coords seen).
Proof.
  revert seen. induction coords as [|c coords IH]; intros seen;
    cbn [unique_keys].
  - split; [reflexivity|exact I].
  - destruct (existsb (same_key c) seen) eqn:Hc.
    + destruct (IH seen) as [Hex Hd]. split; [|exact Hd].
      intros v. rewrite Hex. cbn [existsb].
      destruct (same_key v c) eqn:Hvc; [|reflexivity].
      rewrite (existsb_same_key_congr v c seen Hvc), Hc.
      cbn. apply andb_false_r.
    + destruct (IH (c :: seen)) as [Hex Hd]. split.
      * intros v. cbn [existsb]. rewrite Hex. cbn [existsb].
        destruct (same_key v c) eqn:Hvc; cbn.
        -- now rewrite (existsb_same_key_congr v c seen Hvc), Hc.
        -- reflexivity.
      * cbn [distinct_keys]. split; [|exact Hd].
        rewrite Hex. cbn [existsb]. rewrite same_key_refl.
        cbn. apply andb_false_r.
Qed.

Lemma fold_increment us m v :
  distinct_keys us ->
  counts_get
    (fold_left
       (fun m cStr =>
          counts_set m cStr
            (match counts_get m cStr with Some n => n | None => 0 end + 1)%nat)
       us m) v
  = if existsb (same_key v) us then Some (get_count m v + 1)%nat
    else counts_get m v.
Proof.
  revert m. induction us as [|u us IH]; intros m Hd; cbn [fold_left existsb];
    [reflexivity|].
  destruct Hd as [Hu Hd]. rewrite (IH _ Hd). unfold get_count.
  rewrite !counts_get_set. rewrite (same_key_sym u v).
  destruct (same_key v u) eqn:Hvu; cbn [orb].
  - rewrite (existsb_same_key_congr v u us Hvu), Hu.
    now rewrite (counts_get_congr m v u Hvu).
  - reflexivity.
Qed.

Lemma count_feature_spec m f v :
  get_count (count_feature m f) v
  = (get_count m v
     + if existsb (same_key v) (coordAll f) then 1 else 0)%nat.
Proof.
  unfold count_feature.
  destruct (unique_keys_spec (coordAll f) []) as [Hex Hd].
  unfold get_count at 1. rewrite (fold_increment _ m v Hd), Hex.
  cbn [existsb negb]. rewrite andb_true_r.
  destruct (existsb (same_key v) (coordAll f)); [reflexivity|].
  unfold get_count. lia.
Qed.

Lemma fold_count_feature features m v :
  get_count (fold_left count_feature features m) v
  = (get_count m v + occurrences features v)%nat.
Proof.
  revert m. induction features as [|f features IH]; intros m;
    cbn [fold_left]; unfold occurrences in *; cbn [filter].
  - cbn. lia.
  - rewrite IH, count_feature_spec.
    destruct (existsb (same_key v) (coordAll f)); cbn [List.length]; lia.
Qed.

(** The frequency index counts, for every coordinate, the features that
    refer to it, each once. *)
Lemma build_coordCounts_spec features v :
  get_count (build_coordCounts features) v = occurrences features v.
Proof.
  unfold build_coordCounts. now rewrite fold_count_feature.
Qed.

(** A loop that keeps the first strictly greater score ends on the first
    maximum. *)
Lemma first_maximum_fold (sc : nat -> Q) (pick : nat -> Position) init n :
  (0 < n)%nat ->
  exists k,
    (k < n)%nat
    /\ fold_left
         (fun (st : num * Position) j =>
            if gtb (Fin (sc j)) (fst st) then (Fin (sc j), pick j) else st)
         (seq 0 n) (Inf true, init)
       = (Fin (sc k), pick k)
    /\ (forall j, (j < n)%nat -> sc j <= sc k)
    /\ (forall j, (j < k)%nat -> sc j < sc k).
Proof.
  induction n as [|n IH]; intros Hn; [lia|].
  destruct (Nat.eq_dec n 0) as [->|Hpos].
  - exists 0%nat. cbn. repeat split; try lia.
    + intros j Hj. assert (j = 0%nat) as -> by lia. lra.
  - destruct IH as (k & Hk & Hfold & Hmax & Hfirst); [lia|].
    rewrite seq_S, fold_left_app, Hfold. cbn [fold_left Nat.add fst].
    change (gtb (Fin (sc n)) (Fin (sc k))) with (ltb (Fin (sc k)) (Fin (sc n))).
    destruct (ltb (Fin (sc k)) (Fin (sc n))) eqn:L.
    + apply ltb_Fin in L. exists n. repeat split; try lia.
      * intros j Hj. destruct (Nat.eq_dec j n) as [->|Hne]; [lra|].
        assert (Hjn : (j < n)%nat) by lia. specialize (Hmax j Hjn). lra.
      * intros j Hj. specialize (Hmax j Hj). lra.
    + apply ltb_Fin_false in L. exists k. repeat split; try lia;
        try assumption.
      intros j Hj. destruct (Nat.eq_dec j n) as [->|Hne]; [assumption|].
      apply Hmax. lia.
Qed.

Lemma coordAll_main_ring f g ring v :
  geometry f = Some g -> main_ring g = Some ring ->
  In v ring -> In v (coordAll f).
Proof.
  intros Hg Hring Hv. unfold coordAll, coordEach. rewrite Hg.
  cbn [andb]. unfold geometry_coords.
  assert (Hfull : forall r : list Position, firstn (List.length r - 0) r = r).
  { intros r. rewrite Nat.sub_0_r. apply firstn_all. }
  destruct g as [| | | |rings|polys]; try discriminate; cbn [main_ring] in Hring.
  - apply in_concat. exists ring. split; [|assumption].
    apply in_map_iff. exists ring. split; [apply Hfull|].
    eapply nth_error_In, Hring.
  - destruct (nth_error polys 0) as [polygon|] eqn:Hp; [|discriminate].
    apply in_concat.
    exists (List.concat
              (map (fun r => firstn (List.length r - 0) r) polygon)).
    split.
    + apply in_map_iff. exists polygon. split; [reflexivity|].
      eapply nth_error_In, Hp.
    + apply in_concat. exists ring. split; [|assumption].
      apply in_map_iff. exists ring. split; [apply Hfull|].
      eapply nth_error_In, Hring.
Qed.

Lemma occurrences_pos features f v :
  In f features -> In v (coordAll f) -> (0 < occurrences features v)%nat.
Proof.
  intros Hf Hv. unfold occurrences.
  assert (Hin : In f (filter (fun f => existsb (same_key v) (coordAll f))
                        features)).
  { apply filter_In. split; [assumption|].
    apply existsb_exists. exists v. split; [assumption|apply same_key_refl]. }
  destruct (filter _ features); [contradiction|cbn; lia].
Qed.

Lemma fold_left_pointwise {S A : Type} (f g : S -> A -> S) l s :
  (forall st j, f st j = g st j) -> fold_left f l s = fold_left g l s.
Proof.
  intros Hfg. revert s. induction l as [|x l IH]; intros s; cbn;
    [reflexivity|].
  now rewrite Hfg, IH.
Qed.

Section TipScoring.
Context `{Env}.

(** The score of the claim: the number of features that refer to the
    vertex times 50, plus 80 for the first vertex of the ring, plus twice
    what the turning angle lacks to 180. *)
Definition claimed_tip_score (features : list Feature)
  (ring : list Position) (k : nat) : Q :=
  inject_Z (Z.of_nat (occurrences features (nth k ring []))) * 50
  + (if (k =? 0)%nat then 80 else 0)
  + (180 - nth k (ring_angles ring) 0) * 2.

Lemma tip_score_claimed features f g ring k :
  In f features -> geometry f = Some g -> main_ring g = Some ring ->
  (k < ring_analysisLength ring)%nat ->
  tip_score (build_coordCounts features) ring (ring_angles ring) k
  = claimed_tip_score features ring k.
Proof.
  intros Hf Hg Hring Hk. unfold tip_score, claimed_tip_score.
  pose proof (analysisLength_le ring) as Hle.
  assert (Hv : In (nth k ring []) (coordAll f)).
  { apply (coordAll_main_ring f g ring); try assumption.
    apply nth_In. lia. }
  pose proof (occurrences_pos features f _ Hf Hv) as Hpos.
  rewrite <- build_coordCounts_spec in *. unfold get_count in *.
  destruct (counts_get (build_coordCounts features) (nth k ring []))
    as [[|n]|]; try lia.
  reflexivity.
Qed.

Lemma tip_step_eq coordCounts ring angles st k :
  tip_step coordCounts ring angles st k
  = if gtb (Fin (tip_score coordCounts ring angles k)) (fst st)
    then (Fin (tip_score coordCounts ring angles k), nth k ring [])
    else st.
Proof.
  now destruct st.
Qed.

(** C4: a feature that reaches the sector-tip scoring takes as anchor the
    first vertex of its analysed ring with the greatest score, the score
    of a vertex being the number of features of the dataset that refer
    to its exact coordinate (each feature counted once) times 50, plus 80
    for the first vertex, plus (180 - turning angle) times 2; the feature
    returned is the input with [_center] set, and its anchor reads that
    vertex. *)
Theorem tip_scoring_takes_first_maximum features f g ring :
  In f features ->
  getExplicitCenter (properties f) = None ->
  geometry f = Some g -> main_ring g = Some ring ->
  (3 <= List.length ring)%nat ->
  regular_center (ensure_properties f) ring = None ->
  exists k f',
    (k < ring_analysisLength ring)%nat
    /\ (infer_center (build_coordCounts features) f = Return f'
        /\ f' = set_center f (nth k ring [])
        /\ feature_center f' = Some (nth k ring [])
        /\ geometry f' = geometry f)
    /\ (forall j, (j < ring_analysisLength ring)%nat ->
          tip_score (build_coordCounts features) ring (ring_angles ring) j
          = claimed_tip_score features ring j)
    /\ (forall j, (j < ring_analysisLength ring)%nat ->
          claimed_tip_score features ring j
          <= claimed_tip_score features ring k)
    /\ (forall j, (j < k)%nat ->
          claimed_tip_score features ring j
          < claimed_tip_score features ring k).
Proof.
  intros Hf Hexp Hg Hring Hlen Hreg.
  set (counts := build_coordCounts features).
  assert (Hn : (0 < ring_analysisLength ring)%nat).
  { unfold ring_analysisLength. destruct (ring_isClosed ring); lia. }
  destruct (first_maximum_fold
              (tip_score counts ring (ring_angles ring))
              (fun k => nth k ring []) (nth 0 ring []) _ Hn)
    as (k & Hk & Hfold & Hmax & Hfirst).
  assert (Hscore : forall j, (j < ring_analysisLength ring)%nat ->
             tip_score counts ring (ring_angles ring) j
             = claimed_tip_score features ring j).
  { intros j Hj. now apply (tip_score_claimed features f g ring j). }
  exists k, (set_center f (nth k ring [])).
  split; [assumption|]. split; [|split; [exact Hscore|split]].
  - split; [|repeat split].
    rewrite (infer_center_ring counts f g ring Hexp Hg Hring).
    unfold analyse_ring. rewrite Hreg.
    destruct (List.length ring <? 3)%nat eqn:E.
    { apply Nat.ltb_lt in E. lia. }
    rewrite set_center_ensure. unfold tip_center.
    rewrite (fold_left_pointwise _ _ _ _
               (tip_step_eq counts ring (ring_angles ring))).
    now rewrite Hfold.
  - intros j Hj. rewrite <- !Hscore by assumption. now apply Hmax.
  - intros j Hj. rewrite <- !Hscore by lia. now apply Hfirst.
Qed.

End TipScoring.

Lemma tip_scoring_takes_first_maximum_witness :
  exists k f',
    (k < 3)%nat
    /\ infer_center (H := plane_env)
         (build_coordCounts [demo_wedge; demo_point]) demo_wedge
       = Return f'
    /\ feature_center f'
       = Some (nth k [[0; 0]; [-0.002; 0.002]; [0.002; 0.002]; [0; 0]] []).
Proof.
  destruct (tip_scoring_takes_first_maximum (H := plane_env)
              [demo_wedge; demo_point] demo_wedge
              (Polygon [[[0; 0]; [-0.002; 0.002]; [0.002; 0.002]; [0; 0]]])
              [[0; 0]; [-0.002; 0.002]; [0.002; 0.002]; [0; 0]])
    as (k & f' & Hk & (Hcenter & _ & Hanchor & _) & _).
  - left. reflexivity.
  - reflexivity.
  - reflexivity.
  - reflexivity.
  - cbn. lia.
  - vm_compute. reflexivity.
  - exists k, f'. split; [exact Hk|]. split; [exact Hcenter|exact Hanchor].
Defined.

(** ** C8: site clustering *)

Section Clustering.
Context `{Env}.

(** The rounding key of a feature. *)
Definition feature_key (f : Feature) : result string :=
  centerCoords <- center_coords f ;; site_key centerCoords.

Definition has_key (key : string) (f : Feature) : bool :=
  match feature_key f with
  | Return k => String.eqb k key
  | Throw _ => false
  end.

(** A site after the features [done]: its members are the features with
    its key, in order, and the first of them gave the reference point
    and the distance. *)
Definition site_ok (targetPoint : Position) (done : list Feature)
  (g : SiteGroup) : Prop :=
  candidates g = filter (has_key (id g)) done
  /\ exists f0 rest c0,
       candidates g = f0 :: rest
       /\ center_coords f0 = Return c0
       /\ referencePoint g = c0
       /\ distance g = turfDistance targetPoint c0 kilometers.

Definition clustered (targetPoint : Position) (done : list Feature)
  (siteGroups : list SiteGroup) : Prop :=
  NoDup (map id siteGroups)
  /\ Forall (site_ok targetPoint done) siteGroups
  /\ Forall (fun f => exists g, In g siteGroups
                                /\ feature_key f = Return (id g)) done.

Lemma has_site_iff key siteGroups :
  has_site key siteGroups = true <-> In key (map id siteGroups).
Proof.
  unfold has_site. rewrite existsb_exists, in_map_iff.
  split; intros (g & H1 & H2).
  - exists g. apply String.eqb_eq in H2. now split.
  - exists g. split; [assumption|]. apply String.eqb_eq. assumption.
Qed.

Lemma push_candidate_ids key f siteGroups :
  map id (push_candidate key f siteGroups) = map id siteGroups.
Proof.
  unfold push_candidate. rewrite map_map. apply map_ext.
  intros g. now destruct (String.eqb (id g) key).
Qed.

Lemma site_key_point c key :
  site_key c = Return key -> point c = Return c.
Proof.
  unfold site_key, toFixed_at. intros E. apply point_valid.
  destruct c as [|x [|y c]]; cbn in *; try discriminate. lia.
Qed.

Lemma has_key_last key f done :
  filter (has_key key) (done ++ [f])
  = filter (has_key key) done ++ (if has_key key f then [f] else []).
Proof.
  rewrite filter_app. reflexivity.
Qed.

Lemma cluster_step_clustered targetPoint done siteGroups f siteGroups' :
  clustered targetPoint done siteGroups ->
  cluster_step targetPoint siteGroups f = Return siteGroups' ->
  clustered targetPoint (done ++ [f]) siteGroups'.
Proof.
  intros (Hnd & Hsites & Hdone). unfold cluster_step.
  destruct (center_coords f) as [c|] eqn:Ec; cbn [bind]; [|discriminate].
  destruct (site_key c) as [key|] eqn:Ek; cbn [bind]; [|discriminate].
  assert (Hfk : feature_key f = Return key).
  { unfold feature_key. now rewrite Ec. }
  assert (Hself : has_key key f = true).
  { unfold has_key. rewrite Hfk. apply String.eqb_refl. }
  assert (Hother : forall k, k <> key -> has_key k f = false).
  { intros k Hk. unfold has_key. rewrite Hfk.
    apply String.eqb_neq. congruence. }
  rewrite Forall_forall in Hsites, Hdone.
  destruct (has_site key siteGroups) eqn:Ehas; cbn [negb bind].
  - intros E. injection E as <-. apply has_site_iff in Ehas.
    split; [now rewrite push_candidate_ids|]. split.
    + apply Forall_forall. intros g' Hg'.
      apply in_map_iff in Hg' as (g & <- & Hg).
      destruct (Hsites g Hg) as (Hc & f0 & rest & c0 & Hhd & Hrest).
      destruct (String.eqb (id g) key) eqn:Eid.
      * apply String.eqb_eq in Eid. split; cbn [id candidates].
        -- rewrite has_key_last, Eid, Hself, <- Eid. now rewrite <- Hc.
        -- exists f0, (rest ++ [f]), c0. cbn [candidates referencePoint distance].
           rewrite Hhd. now split.
      * apply String.eqb_neq in Eid. split.
        -- rewrite has_key_last, (Hother _ Eid), app_nil_r. exact Hc.
        -- exists f0, rest, c0. now split.
    + apply Forall_forall. intros f' Hf'. apply in_app_or in Hf' as [Hf'|[<-|[]]].
      * destruct (Hdone f' Hf') as (g & Hg & Hk).
        exists (if String.eqb (id g) key
                then mkSiteGroup (id g) (referencePoint g) (distance g)
                       (candidates g ++ [f])
                else g).
        split; [|now destruct (String.eqb (id g) key)].
        apply in_map_iff. now exists g.
      * apply in_map_iff in Ehas as (g & Hid & Hg).
        exists (mkSiteGroup (id g) (referencePoint g) (distance g)
                  (candidates g ++ [f])).
        split; [|cbn [id]; now rewrite Hid].
        apply in_map_iff. exists g. split; [|assumption].
        rewrite Hid, String.eqb_refl. reflexivity.
  - rewrite (site_key_point c key Ek). cbn [bind].
    intros E. injection E as <-.
    assert (Hfresh : ~ In key (map id siteGroups)).
    { intros Hin. apply has_site_iff in Hin. congruence. }
    assert (Hnone : filter (has_key key) done = []).
    { destruct (filter (has_key key) done) as [|f' l] eqn:Ef; [reflexivity|].
      assert (Hin : In f' (filter (has_key key) done))
        by (rewrite Ef; now left).
      apply filter_In in Hin as [Hin Hk].
      destruct (Hdone f' Hin) as (g & Hg & Hgk).
      unfold has_key in Hk. rewrite Hgk in Hk. apply String.eqb_eq in Hk.
      exfalso. apply Hfresh. rewrite <- Hk. now apply in_map. }
    unfold push_candidate. rewrite map_app. cbn [map id].
    rewrite String.eqb_refl.
    assert (Hsame : map (fun g =>
                if String.eqb (id g) key
                then mkSiteGroup (id g) (referencePoint g) (distance g)
                       (candidates g ++ [f])
                else g) siteGroups = siteGroups).
    { rewrite <- (map_id siteGroups) at 2. apply map_ext_in.
      intros g Hg. destruct (String.eqb (id g) key) eqn:Eid; [|reflexivity].
      apply String.eqb_eq in Eid. exfalso. apply Hfresh.
      rewrite <- Eid. now apply in_map. }
    rewrite Hsame. split; [|split].
    + rewrite map_app. cbn [map id]. apply NoDup_app; [assumption| |].
      * repeat constructor. intros [].
      * intros k Hk [<-|[]]. contradiction.
    + apply Forall_app. split.
      * apply Forall_forall. intros g Hg.
        destruct (Hsites g Hg) as (Hc & Hrest). split; [|exact Hrest].
        rewrite has_key_last, Hother, app_nil_r; [exact Hc|].
        intros Eid. apply Hfresh. rewrite <- Eid. now apply in_map.
      * constructor; [|constructor]. split; cbn [id candidates].
        -- now rewrite has_key_last, Hnone, Hself.
        -- exists f, [], c. repeat split. assumption.
    + apply Forall_forall. intros f' Hf'. apply in_app_or in Hf' as [Hf'|[<-|[]]].
      * destruct (Hdone f' Hf') as (g & Hg & Hk).
        exists g. split; [|assumption]. apply in_or_app. now left.
      * exists (mkSiteGroup key c (turfDistance targetPoint c kilometers) [f]).
        split; [|exact Hfk]. apply in_or_app. right. now left.
Qed.

Lemma foldM_cluster_clustered targetPoint rest done siteGroups siteGroups' :
  clustered targetPoint done siteGroups ->
  foldM (cluster_step targetPoint) rest siteGroups = Return siteGroups' ->
  clustered targetPoint (done ++ rest) siteGroups'.
Proof.
  revert done siteGroups. induction rest as [|f rest IH];
    intros done siteGroups Hinv; cbn [foldM].
  - intros E. injection E as <-. now rewrite app_nil_r.
  - destruct (cluster_step targetPoint siteGroups f) as [next|] eqn:Es;
      cbn [bind]; [|discriminate].
    intros E. replace (done ++ f :: rest) with ((done ++ [f]) ++ rest)
      by now rewrite <- app_assoc.
    apply (IH _ next); [|assumption].
    now apply (cluster_step_clustered targetPoint done siteGroups).
Qed.

(** C8: after clustering, a feature that carries a precomputed anchor is
    a member of the site whose key is the anchor's latitude and longitude
    to 4 decimal places; the members of a site are the features with its
    key, in input order, so that all share it; and the first of them gave
    the site its reference point (its anchor) and its distance in
    kilometers to the query point. *)
Theorem cluster_groups_by_rounded_anchor targetPoint features siteGroups :
  cluster targetPoint features = Return siteGroups ->
  (forall f lng lat rest,
      In f features -> feature_center f = Some (lng :: lat :: rest) ->
      exists g,
        In g siteGroups
        /\ id g = append (toFixed lat 4) (append "," (toFixed lng 4))
        /\ In f (candidates g))
  /\ (forall g, In g siteGroups ->
        candidates g = filter (has_key (id g)) features
        /\ (forall f, In f (candidates g) -> feature_key f = Return (id g))
        /\ exists f0 rest c0,
             candidates g = f0 :: rest
             /\ center_coords f0 = Return c0
             /\ referencePoint g = c0
             /\ distance g = turfDistance targetPoint c0 kilometers)
  /\ NoDup (map id siteGroups).
Proof.
  intros E.
  assert (Hinit : clustered targetPoint [] []).
  { repeat split; constructor. }
  destruct (foldM_cluster_clustered targetPoint features [] [] siteGroups
              Hinit E) as (Hnd & Hsites & Hall).
  cbn [app] in *. rewrite Forall_forall in Hsites, Hall.
  assert (Hmember : forall g f, In g siteGroups -> In f (candidates g) ->
                      feature_key f = Return (id g)).
  { intros g f Hg Hf. destruct (Hsites g Hg) as (Hc & _).
    rewrite Hc in Hf. apply filter_In in Hf as [_ Hk]. unfold has_key in Hk.
    destruct (feature_key f) as [k|]; [|discriminate].
    apply String.eqb_eq in Hk. now subst. }
  split; [|split; [|exact Hnd]].
  - intros f lng lat rest Hf Hcenter.
    destruct (Hall f Hf) as (g & Hg & Hk). exists g.
    assert (Hkey : feature_key f
                   = Return (append (toFixed lat 4)
                               (append "," (toFixed lng 4)))).
    { unfold feature_key, center_coords. now rewrite Hcenter. }
    rewrite Hkey in Hk. injection Hk as Hid.
    split; [assumption|]. split; [now symmetry|].
    destruct (Hsites g Hg) as (Hc & _). rewrite Hc.
    apply filter_In. split; [assumption|].
    unfold has_key. rewrite Hkey. apply String.eqb_eq. exact Hid.
  - intros g Hg. destruct (Hsites g Hg) as (Hc & Hfirst).
    split; [exact Hc|]. split; [|exact Hfirst].
    intros f Hf. now apply Hmember.
Qed.

(** Clustering returns when every feature carries an anchor with a
    longitude and a latitude. *)
Lemma cluster_returns targetPoint features :
  Forall (fun f => exists lng lat rest,
                     feature_center f = Some (lng :: lat :: rest)) features ->
  exists siteGroups, cluster targetPoint features = Return siteGroups.
Proof.
  intros Hall. unfold cluster. generalize (@nil SiteGroup).
  induction Hall as [|f features (lng & lat & rest & Hc) _ IH];
    intros siteGroups; cbn [foldM].
  - now exists siteGroups.
  - unfold cluster_step at 1. unfold center_coords. rewrite Hc.
    cbn [bind site_key toFixed_at nth_error].
    destruct (negb (has_site _ siteGroups));
      cbn [bind point List.length Nat.ltb Nat.leb]; apply IH.
Qed.

End Clustering.

Lemma cluster_groups_by_rounded_anchor_witness :
  exists siteGroups,
    cluster (H := plane_env) [0; 0.001] [demo_wedge; demo_point]
    = Return siteGroups
    /\ forall g, In g siteGroups ->
         candidates g
         = filter (has_key (id g)) [demo_wedge; demo_point].
Proof.
  eexists. split; [vm_compute; reflexivity|].
  apply (cluster_groups_by_rounded_anchor (H := plane_env) [0; 0.001]
           [demo_wedge; demo_point]).
  vm_compute. reflexivity.
Defined.

(** ** C6: rank clamping *)

Lemma array_get_integer {A : Type} (l : list A) (k : Q) (z : Z) :
  k == inject_Z z -> (0 <= z)%Z ->
  array_get l k = nth_error l (Z.to_nat z).
Proof.
  intros Hk Hz. unfold array_get.
  assert (Hfloor : Qfloor k = z) by (rewrite Hk; apply Qfloor_Z).
  rewrite Hfloor.
  assert (E : Qeq_bool k (inject_Z z) = true) by now apply Qeq_bool_iff.
  rewrite E. apply Z.leb_le in Hz. now rewrite Hz.
Qed.

(** The clamped rank is a whole number of [1, totalSites] when the rank
    is whole or outside that interval. *)
Lemma safe_rank_whole rank totalSites :
  (0 < totalSites)%nat ->
  rank <= 1 \/ inject_Z (Z.of_nat totalSites) <= rank
  \/ (exists z, rank == inject_Z z) ->
  exists z,
    safe_rank rank totalSites == inject_Z z
    /\ (1 <= z <= Z.of_nat totalSites)%Z
    /\ (rank <= 1 -> z = 1%Z)
    /\ (inject_Z (Z.of_nat totalSites) <= rank -> z = Z.of_nat totalSites)
    /\ (forall z', rank == inject_Z z' ->
          (1 <= z' <= Z.of_nat totalSites)%Z -> z = z').
Proof.
  intros Hn Hrank. set (n := Z.of_nat totalSites) in *.
  assert (Hn1 : 1 <= inject_Z n).
  { change 1 with (inject_Z 1). rewrite <- Zle_Qle. lia. }
  assert (Hclamp : forall z, (1 <= z <= n)%Z ->
            safe_rank rank totalSites == inject_Z z ->
            (rank <= 1 -> z = 1%Z) /\ (inject_Z n <= rank -> z = n)
            /\ (forall z', rank == inject_Z z' -> (1 <= z' <= n)%Z -> z = z')).
  { intros z Hz Hs. unfold safe_rank, Math_max, Math_min in Hs. fold n in Hs.
    assert (Hz1 : 1 <= inject_Z z /\ inject_Z z <= inject_Z n).
    { change 1 with (inject_Z 1). rewrite <- !Zle_Qle. lia. }
    destruct (Qle_bool rank (inject_Z n)) eqn:E1;
      [apply Qle_bool_iff in E1|apply Qle_bool_gt in E1];
      (destruct (Qle_bool 1 _) eqn:E2;
       [apply Qle_bool_iff in E2|apply Qle_bool_gt in E2]).
    all: repeat split.
    all: try (intros Hr; apply (inject_Z_injective z 1);
              change (inject_Z 1) with 1; lra).
    all: try (intros Hr; apply (inject_Z_injective z n); lra).
    all: try (intros z' Hz' Hb; apply (inject_Z_injective z z');
              assert (1 <= inject_Z z' /\ inject_Z z' <= inject_Z n)
                by (change 1 with (inject_Z 1); rewrite <- !Zle_Qle; lia);
              lra). }
  unfold safe_rank, Math_max, Math_min in *. fold n in Hclamp |- *.
  destruct (Qle_bool rank (inject_Z n)) eqn:E1;
    [apply Qle_bool_iff in E1|apply Qle_bool_gt in E1].
  - destruct (Qle_bool 1 rank) eqn:E2;
      [apply Qle_bool_iff in E2|apply Qle_bool_gt in E2].
    + destruct Hrank as [Hr|[Hr|[z Hz]]].
      * exists 1%Z. assert (Hs : rank == inject_Z 1)
          by (change (inject_Z 1) with 1; lra).
        split; [exact Hs|]. split; [lia|]. apply Hclamp; [lia|exact Hs].
      * exists n. assert (Hs : rank == inject_Z n) by lra.
        split; [exact Hs|]. split; [lia|]. apply Hclamp; [lia|exact Hs].
      * exists z. split; [exact Hz|].
        assert (Hzr : (1 <= z <= n)%Z).
        { rewrite Hz in E1, E2. change 1 with (inject_Z 1) in E2.
          rewrite <- Zle_Qle in E1, E2. lia. }
        split; [exact Hzr|]. apply Hclamp; assumption.
    + exists 1%Z. split; [reflexivity|]. split; [lia|].
      apply Hclamp; [lia|reflexivity].
  - assert (E2 : Qle_bool 1 (inject_Z n) = true) by now apply Qle_bool_iff.
    rewrite E2 in *. exists n. split; [reflexivity|]. split; [lia|].
    apply Hclamp; [lia|reflexivity].
Qed.

Definition nearer (a b : SiteGroup) : Prop := distance a <= distance b.

Lemma rank_sites_sorted siteGroups : StronglySorted nearer (rank_sites siteGroups).
Proof.
  apply Sorted_StronglySorted.
  { intros a b c Hab Hbc. unfold nearer in *. lra. }
  unfold rank_sites.
  apply (sort_sorted _ (fun _ => True) nearer); [|now apply Forall_forall].
  intros a b _ _. unfold nearer.
  change (gtb (Fin (distance a - distance b)) (Fin 0))
    with (Qltb 0 (distance a - distance b)).
  destruct (Qltb 0 (distance a - distance b)) eqn:L;
    [apply Qltb_lt in L|apply Qltb_ge in L]; lra.
Qed.

Section Ranking.
Context `{Env}.

Lemma select_sector_reports searchLat searchLng selectedSite safeRank total r :
  select_sector searchLat searchLng selectedSite safeRank total = Return r ->
  res_rank r = safeRank /\ totalFeatures r = total
  /\ res_distance r = distance selectedSite.
Proof.
  unfold select_sector.
  destruct (mapM _ (candidates selectedSite)) as [evaluated|];
    cbn [bind]; [|discriminate].
  destruct (sort _ evaluated) as [|bestMatch rest]; [discriminate|].
  intros E. injection E as <-. repeat split.
Qed.

(** The rank is whole, or at most 1, or at least the number of sites. *)
Definition whole_or_outside (rank : Q) (totalSites : nat) : Prop :=
  rank <= 1 \/ inject_Z (Z.of_nat totalSites) <= rank
  \/ exists z, rank == inject_Z z.

(** C6, amended: when clustering yields at least one site, a rank that
    is a whole number, or at most 1, or at least the number of sites,
    never raises the rank error: the sites are ordered by ascending
    distance to the query point, the site analysed is the one at the rank
    clamped to [1, totalSites], the nearest for a rank of 1 or below and
    the farthest for a rank of totalSites or above, and the result
    reports the clamped rank. *)
Theorem performSpatialAnalysis_clamps_rank
  searchLat searchLng features rank siteGroups :
  features <> [] ->
  cluster [searchLng; searchLat]
    (features_to_analyze searchLat searchLng features) = Return siteGroups ->
  siteGroups <> [] ->
  whole_or_outside rank (List.length siteGroups) ->
  let sites := rank_sites siteGroups in
  let total := List.length siteGroups in
  Permutation sites siteGroups
  /\ (forall i j a b, (i < j)%nat -> nth_error sites i = Some a ->
        nth_error sites j = Some b -> distance a <= distance b)
  /\ exists k selectedSite,
       nth_error sites k = Some selectedSite
       /\ safe_rank rank total == inject_Z (Z.of_nat (S k))
       /\ performSpatialAnalysis searchLat searchLng features rank
          = select_sector searchLat searchLng selectedSite
              (safe_rank rank total) total
       /\ (forall r,
             performSpatialAnalysis searchLat searchLng features rank
             = Return r ->
             res_rank r == inject_Z (Z.of_nat (S k))
             /\ totalFeatures r = total
             /\ res_distance r = distance selectedSite)
       /\ (rank <= 1 -> k = 0%nat)
       /\ (inject_Z (Z.of_nat total) <= rank -> S k = total)
       /\ (forall z, rank == inject_Z z -> (1 <= z <= Z.of_nat total)%Z ->
             Z.of_nat (S k) = z).
Proof.
  intros Hne Hcluster Hsites Hrank sites total.
  assert (Hlen : List.length sites = total) by apply sort_length.
  assert (Hpos : (0 < total)%nat).
  { unfold total. destruct siteGroups; [congruence|cbn; lia]. }
  split; [apply sort_perm|].
  split.
  { intros i j a b Hij Ha Hb.
    exact (StronglySorted_nth nearer sites i j a b
             (rank_sites_sorted siteGroups) Hij Ha Hb). }
  destruct (safe_rank_whole rank total Hpos Hrank)
    as (z & Hz & Hzr & Hlow & Hhigh & Hmid).
  set (k := Z.to_nat (z - 1)).
  assert (Hk : Z.of_nat (S k) = z) by (unfold k; lia).
  assert (Hkn : (k < List.length sites)%nat) by (rewrite Hlen; unfold k; lia).
  destruct (nth_error sites k) as [selectedSite|] eqn:Hnth;
    [|apply nth_error_None in Hnth; lia].
  exists k, selectedSite.
  assert (Hrun : performSpatialAnalysis searchLat searchLng features rank
                 = select_sector searchLat searchLng selectedSite
                     (safe_rank rank total) total).
  { unfold performSpatialAnalysis.
    destruct (List.length features =? 0)%nat eqn:E0.
    { apply Nat.eqb_eq in E0. destruct features; [congruence|discriminate]. }
    rewrite Hcluster. cbn [bind]. fold sites. rewrite Hlen.
    rewrite (array_get_integer sites _ (z - 1)); [|rewrite Hz|lia].
    - fold k. now rewrite Hnth.
    - unfold Z.sub. rewrite inject_Z_plus. reflexivity. }
  split; [exact Hnth|]. split; [now rewrite Hk|]. split; [exact Hrun|].
  split; [|split; [|split]].
  - intros r Hr. rewrite Hrun in Hr.
    apply select_sector_reports in Hr as (-> & -> & ->).
    split; [now rewrite Hk|]. split; reflexivity.
  - intros Hr. specialize (Hlow Hr). lia.
  - intros Hr. specialize (Hhigh Hr). lia.
  - intros z' Hz' Hzr'. rewrite Hk. now apply Hmid.
Qed.

End Ranking.

Definition demo_far_point : Feature :=
  mkFeature (Some (Point [0.2; 0.2]))
    (Some (mkProperties [("name", "far")]%string (Some [0.2; 0.2]))).

(** C6, as stated, fails for a rank that is not whole: with two sites,
    rank 1 is served and rank 1.5 raises the rank error, since
    [sites[0.5]] is undefined. *)
Lemma fractional_rank_errors :
  throws (performSpatialAnalysis (H := plane_env) 0.001 0
            [demo_point; demo_far_point] 1) = false
  /\ performSpatialAnalysis (H := plane_env) 0.001 0
       [demo_point; demo_far_point] (3 # 2)
     = Throw "No suitable site found.".
Proof.
  split; vm_compute; reflexivity.
Qed.

Lemma performSpatialAnalysis_clamps_rank_witness :
  exists r,
    performSpatialAnalysis (H := plane_env) 0.001 0
      [demo_point; demo_far_point] 0 = Return r
    /\ res_rank r == 1 /\ totalFeatures r = 2%nat.
Proof.
  assert (Hc : exists siteGroups,
             cluster (H := plane_env) [0; 0.001]
               (features_to_analyze (H := plane_env) 0.001 0
                  [demo_point; demo_far_point]) = Return siteGroups
             /\ List.length siteGroups = 2%nat).
  { eexists. split; [vm_compute; reflexivity|reflexivity]. }
  destruct Hc as (siteGroups & Hc & Hlen).
  destruct (performSpatialAnalysis_clamps_rank (H := plane_env) 0.001 0
              [demo_point; demo_far_point] 0 siteGroups)
    as (_ & _ & k & site & _ & _ & _ & Hreport & Hlow & _).
  - discriminate.
  - exact Hc.
  - destruct siteGroups; discriminate.
  - left. vm_compute. discriminate.
  - destruct (performSpatialAnalysis 0.001 0 [demo_point; demo_far_point] 0)
      as [r|msg] eqn:Er.
    2:{ vm_compute in Er. discriminate. }
    exists r. split; [reflexivity|].
    destruct (Hreport r eq_refl) as (Hr & Ht & _).
    rewrite Hlow in Hr by (vm_compute; discriminate).
    split; [exact Hr|now rewrite Ht].
Defined.

(** Two points without annotations, some 5 km and 50 km north of the
    query point: the nearer one is served, with no deviation. *)
Example nearest_of_two_points :
  let near := mkFeature (Some (Point [0; 0.045])) None in
  let far := mkFeature (Some (Point [0; 0.45])) None in
  exists r,
    performSpatialAnalysis (H := plane_env) 0 0 [far; near] 1 = Return r
    /\ nearestFeature r = near /\ deviationAngle r = Fin 0
    /\ sectorBeamwidth r = Fin 360 /\ totalFeatures r = 2%nat.
Proof.
  eexists. split; [vm_compute; reflexivity|]. repeat split.
Qed.

(** ** C5: which errors escape *)

(** A polygon whose ring has a single position, as [parseGeoFile]
    annotates it, and a polygon without any ring. *)
Definition one_position_polygon : Feature :=
  mkFeature (Some (Polygon [[[0; 0]]])) None.

Definition annotated_one_position_polygon : Feature :=
  mkFeature (Some (Polygon [[[0; 0]]]))
    (Some (mkProperties [] (Some [0; 0]))).

Definition empty_polygon : Feature :=
  mkFeature (Some (Polygon [])) (Some (mkProperties [] None)).

Section Errors.
Context `{Env}.

Lemma performSpatialAnalysis_no_features searchLat searchLng rank :
  performSpatialAnalysis searchLat searchLng [] rank
  = Throw "No features found in dataset to analyze.".
Proof.
  reflexivity.
Qed.

Lemma features_to_analyze_single searchLat searchLng f :
  features_to_analyze searchLat searchLng [f] = [f].
Proof.
  unfold features_to_analyze. cbn [filter].
  now destruct (prefilter _ _ _ _ f).
Qed.

(** The bounding-box filter recovers from a centroid that throws. *)
Lemma prefilter_recovers minLat maxLat minLng maxLng f :
  feature_center f = None -> throws (centroid f) = true ->
  prefilter minLat maxLat minLng maxLng f = false.
Proof.
  unfold prefilter. intros -> Hc.
  now destruct (centroid f).
Qed.

(** C5 fails on the code: the centroid of a feature without a position
    to average throws, and while the bounding-box filter catches that,
    the clustering loop and [analyzeSectorGeometry] call [centroid]
    outside any [try]; the exception escapes [performSpatialAnalysis]
    with a message that is neither of the two dataset-level ones. *)
Theorem performSpatialAnalysis_centroid_escapes searchLat searchLng :
  parseGeoFile [one_position_polygon]
  = Return [annotated_one_position_polygon]
  /\ performSpatialAnalysis searchLat searchLng
       [annotated_one_position_polygon] 1
     = Throw "coordinates must contain numbers"
  /\ (forall minLat maxLat minLng maxLng,
        prefilter minLat maxLat minLng maxLng empty_polygon = false)
  /\ performSpatialAnalysis searchLat searchLng [empty_polygon] 1
     = Throw "coordinates must contain numbers".
Proof.
  split; [reflexivity|]. split; [|split].
  - unfold performSpatialAnalysis. cbn [List.length Nat.eqb].
    rewrite features_to_analyze_single. reflexivity.
  - intros. now apply prefilter_recovers.
  - unfold performSpatialAnalysis. cbn [List.length Nat.eqb].
    rewrite features_to_analyze_single. reflexivity.
Qed.

End Errors.

(** * Further properties of the services *)

(** ** normalizeAngle *)

Lemma normalizeAngle_quotient a :
  exists r (t : Z),
    normalizeAngle (Fin a) = Fin r /\ 0 <= r /\ r < 360
    /\ r == a - 360 * inject_Z t.
Proof.
  assert (Hm : 0 < 360) by lra.
  pose proof (Qrem_shifted _ (proj1 (Qrem_bound a 360 Hm))) as Hr.
  set (r := Qrem (Qrem a 360 + 360) 360) in *.
  change (normalizeAngle (Fin a))
    with (if Qeq_bool r 360 then Fin 0 else Fin r).
  destruct (Qeq_bool r 360) eqn:E.
  { apply Qeq_bool_iff in E. lra. }
  exists r, (Qtrunc (a / 360) + Qtrunc ((Qrem a 360 + 360) / 360) - 1)%Z.
  split; [reflexivity|]. split; [tauto|]. split; [tauto|].
  unfold r, Qrem, Z.sub. rewrite !inject_Z_plus.
  change (inject_Z (- (1))) with (- (1)). ring.
Qed.

Lemma Qfloor_of_quotient a r (t : Z) :
  0 <= r -> r < 360 -> r == a - 360 * inject_Z t -> Qfloor (a / 360) = t.
Proof.
  intros H0 H1 Hr. apply Qfloor_unique.
  - apply Qle_shift_div_l; lra.
  - apply Qlt_shift_div_r; lra.
Qed.

(** X1: on a finite angle [normalizeAngle] is the remainder of the floored
    division by 360, a number of [0,360); on an infinity and on NaN it is
    NaN. *)
Theorem normalizeAngle_is_modulo :
  (forall a, exists r,
      normalizeAngle (Fin a) = Fin r /\ 0 <= r /\ r < 360
      /\ r == a - 360 * inject_Z (Qfloor (a / 360)))
  /\ (forall negative, normalizeAngle (Inf negative) = NaN)
  /\ normalizeAngle NaN = NaN.
Proof.
  split; [|split; reflexivity].
  intros a. destruct (normalizeAngle_quotient a) as (r & t & E & H0 & H1 & Hr).
  exists r. repeat (split; [assumption|]).
  now rewrite (Qfloor_of_quotient a r t H0 H1 Hr).
Qed.

(** ** The property keys the regular expressions accept *)

Definition chars (s : string) : list ascii := list_ascii_of_string s.

(** [s] without case: what the [i] flag compares. *)
Definition lowercase (s : string) : list ascii := map lower (chars s).

(** [s] without a leading [w], compared without case. *)
Fixpoint strip_ci (w s : list ascii) : option (list ascii) :=
  match w, s with
  | [], _ => Some s
  | c :: w', a :: s' =>
      if Ascii.eqb (lower a) (lower c) then strip_ci w' s' else None
  | _ :: _, [] => None
  end.

Definition equals_ci (w s : list ascii) : bool :=
  match strip_ci w s with
  | Some [] => true
  | _ => false
  end.

Definition at_end (s : list ascii) : bool :=
  match s with [] => true | _ :: _ => false end.

Lemma strip_ci_app w1 w2 s :
  strip_ci (w1 ++ w2) s
  = match strip_ci w1 s with
    | Some rest => strip_ci w2 rest
    | None => None
    end.
Proof.
  revert s. induction w1 as [|c w1 IH]; intros s; cbn [app strip_ci].
  - now destruct w2, s.
  - destruct s as [|a s]; [reflexivity|].
    now destruct (Ascii.eqb (lower a) (lower c)).
Qed.

Lemma equals_ci_app w1 w2 s :
  equals_ci (w1 ++ w2) s
  = match strip_ci w1 s with
    | Some rest => equals_ci w2 rest
    | None => false
    end.
Proof.
  unfold equals_ci. rewrite strip_ci_app. now destruct (strip_ci w1 s).
Qed.

Lemma lower_lower a : lower (lower a) = lower a.
Proof.
  destruct a as [[] [] [] [] [] [] [] []]; reflexivity.
Qed.

Lemma strip_ci_spec w s rest :
  strip_ci w s = Some rest <->
  exists p, s = p ++ rest /\ map lower p = map lower w.
Proof.
  revert s. induction w as [|c w IH]; intros s; cbn [strip_ci].
  - split.
    + intros E. injection E as <-. now exists [].
    + intros (p & -> & Hp). destruct p; [reflexivity|discriminate].
  - destruct s as [|a s].
    + split; [discriminate|]. intros (p & Hs & Hp).
      destruct p; [discriminate|]. destruct rest; discriminate.
    + destruct (Ascii.eqb (lower a) (lower c)) eqn:E.
      * apply Ascii.eqb_eq in E. rewrite IH. split.
        -- intros (p & -> & Hp). exists (a :: p). split; [reflexivity|].
           cbn. now rewrite E, Hp.
        -- intros (p & Hs & Hp). destruct p as [|b p]; [discriminate|].
           injection Hs as <- ->. injection Hp as _ Hp. now exists p.
      * apply Ascii.eqb_neq in E. split; [discriminate|].
        intros (p & Hs & Hp). destruct p as [|b p]; [discriminate|].
        injection Hs as <- ->. injection Hp as Hb _. contradiction.
Qed.

Lemma equals_ci_spec w s :
  equals_ci w s = true <-> map lower s = map lower w.
Proof.
  unfold equals_ci. split.
  - destruct (strip_ci w s) as [[|]|] eqn:E; try discriminate. intros _.
    apply strip_ci_spec in E as (p & -> & Hp). now rewrite app_nil_r.
  - intros Hs.
    assert (E : strip_ci w s = Some []).
    { apply strip_ci_spec. exists s. now rewrite app_nil_r. }
    now rewrite E.
Qed.

Lemma rmatch_lit (w : string) st s k :
  w <> EmptyString ->
  rmatch (lit w) st s k
  = match strip_ci (chars w) s with
    | Some rest => k false rest
    | None => false
    end.
Proof.
  revert st s. induction w as [|c w IH]; intros st s Hw; [congruence|].
  destruct w as [|d w].
  - cbn. destruct s as [|a s]; [reflexivity|].
    now destruct (Ascii.eqb (lower a) (lower c)).
  - change (lit (String c (String d w)))
      with (Seq (Chr c) (lit (String d w))).
    cbn [rmatch]. change (chars (String c (String d w)))
      with (c :: chars (String d w)).
    cbn [strip_ci]. destruct s as [|a s]; [reflexivity|].
    destruct (Ascii.eqb (lower a) (lower c)); [|reflexivity].
    cbn [andb]. apply IH. discriminate.
Qed.

(** A pattern that begins with [^] matches at the start of the input
    only. *)
Lemma rsearch_Bol r s : rsearch (Seq Bol r) false s = false.
Proof.
  induction s as [|a s IH]; cbn; [reflexivity|exact IH].
Qed.

Lemma regex_test_Bol r k :
  regex_test (Seq Bol r) k = rmatch r true (chars k) (fun _ _ => true).
Proof.
  unfold regex_test. fold (chars k).
  destruct (chars k) as [|a s]; cbn [rsearch rmatch andb].
  - apply orb_false_r.
  - rewrite rsearch_Bol. apply orb_false_r.
Qed.

(** [(site_?)?] followed by a pattern that does not look at the start
    flag: the pattern is tried after [site_], after [site] and at once. *)
Lemma rmatch_site_prefix st s (k : list ascii -> bool) :
  rmatch site_prefix st s (fun _ => k)
  = match strip_ci (chars "site") s with
    | Some r1 =>
        match strip_ci (chars "_") r1 with
        | Some r2 => k r2
        | None => false
        end || k r1
    | None => false
    end || k s.
Proof.
  unfold site_prefix. cbn [rmatch].
  rewrite rmatch_lit by discriminate.
  destruct (strip_ci (chars "site") s) as [r1|]; [|reflexivity].
  cbn [rmatch]. destruct r1 as [|a r1]; [reflexivity|].
  cbn [strip_ci chars list_ascii_of_string].
  now destruct (Ascii.eqb (lower a) (lower "_")).
Qed.

Lemma existsb_pointwise {A : Type} (f g : A -> bool) l :
  (forall x, f x = g x) -> existsb f l = existsb g l.
Proof.
  intros Hfg. induction l as [|x l IH]; cbn; [reflexivity|].
  now rewrite Hfg, IH.
Qed.

Lemma existsb_never {A : Type} (l : list A) :
  existsb (fun _ => false) l = false.
Proof.
  induction l; [reflexivity|assumption].
Qed.

(** The keys made of an optional [site] or [site_] and one of [stems]. *)
Definition site_words (stems : list string) (s : list ascii) : bool :=
  existsb (fun p => existsb (fun w => equals_ci (chars p ++ chars w) s) stems)
    [""; "site"; "site_"]%string.

Lemma site_words_spec stems s :
  site_words stems s
  = match strip_ci (chars "site") s with
    | Some r1 =>
        match strip_ci (chars "_") r1 with
        | Some r2 => existsb (fun w => equals_ci (chars w) r2) stems
        | None => false
        end || existsb (fun w => equals_ci (chars w) r1) stems
    | None => false
    end || existsb (fun w => equals_ci (chars w) s) stems.
Proof.
  unfold site_words. cbn [existsb]. rewrite orb_false_r.
  set (here := existsb (fun w => equals_ci (chars w) s) stems).
  assert (E0 : existsb (fun w => equals_ci (chars "" ++ chars w) s) stems = here)
    by reflexivity.
  rewrite E0.
  assert (E1 : existsb (fun w => equals_ci (chars "site" ++ chars w) s) stems
               = match strip_ci (chars "site") s with
                 | Some r1 => existsb (fun w => equals_ci (chars w) r1) stems
                 | None => false
                 end).
  { rewrite (existsb_pointwise _ _ stems
               (fun w => equals_ci_app (chars "site") (chars w) s)).
    destruct (strip_ci (chars "site") s); [reflexivity|apply existsb_never]. }
  assert (E2 : existsb (fun w => equals_ci (chars "site_" ++ chars w) s) stems
               = match strip_ci (chars "site") s with
                 | Some r1 =>
                     match strip_ci (chars "_") r1 with
                     | Some r2 =>
                         existsb (fun w => equals_ci (chars w) r2) stems
                     | None => false
                     end
                 | None => false
                 end).
  { change (chars "site_") with (chars "site" ++ chars "_").
    rewrite (existsb_pointwise _
               (fun w => match strip_ci (chars "site") s with
                         | Some r1 => equals_ci (chars "_" ++ chars w) r1
                         | None => false
                         end) stems)
      by (intros w; rewrite <- app_assoc; apply equals_ci_app).
    destruct (strip_ci (chars "site") s) as [r1|]; [|apply existsb_never].
    rewrite (existsb_pointwise _ _ stems
               (fun w => equals_ci_app (chars "_") (chars w) r1)).
    destruct (strip_ci (chars "_") r1); [reflexivity|apply existsb_never]. }
  rewrite E1, E2.
  destruct (strip_ci (chars "site") s) as [r1|]; [|now destruct here].
  set (a := existsb (fun w => equals_ci (chars w) r1) stems).
  destruct (strip_ci (chars "_") r1) as [r2|].
  - set (b := existsb (fun w => equals_ci (chars w) r2) stems).
    destruct here, a, b; reflexivity.
  - destruct here, a; reflexivity.
Qed.

Lemma rmatch_ext r st s k1 k2 :
  (forall st' s', k1 st' s' = k2 st' s') ->
  rmatch r st s k1 = rmatch r st s k2.
Proof.
  revert st s k1 k2.
  induction r as [|c|r1 IH1 r2 IH2|r1 IH1 r2 IH2|r IH| |];
    intros st s k1 k2 Hk; cbn [rmatch].
  - apply Hk.
  - destruct s; [reflexivity|]. now rewrite Hk.
  - apply IH1. intros st' s'. now apply IH2.
  - now rewrite (IH1 st s k1 k2 Hk), (IH2 st s k1 k2 Hk).
  - now rewrite (IH st s k1 k2 Hk), Hk.
  - now rewrite Hk.
  - destruct s; [apply Hk|reflexivity].
Qed.

Lemma site_words_iff stems k :
  site_words stems (chars k) = true <->
  exists p w,
    In p [""; "site"; "site_"]%string /\ In w stems
    /\ lowercase k = map lower (chars p ++ chars w).
Proof.
  unfold site_words. rewrite existsb_exists. split.
  - intros (p & Hp & Hw). apply existsb_exists in Hw as (w & Hw & E).
    apply equals_ci_spec in E. now exists p, w.
  - intros (p & w & Hp & Hw & E). exists p. split; [assumption|].
    apply existsb_exists. exists w. split; [assumption|].
    now apply equals_ci_spec.
Qed.

Lemma lat_stem st s :
  rmatch (Seq (lit "lat") (Seq (Opt (lit "itude")) Eol)) st s
    (fun _ _ => true)
  = existsb (fun w => equals_ci (chars w) s) ["lat"; "latitude"]%string.
Proof.
  cbn [rmatch existsb]. rewrite rmatch_lit by discriminate.
  change (chars "latitude") with (chars "lat" ++ chars "itude").
  rewrite equals_ci_app. unfold equals_ci at 1.
  destruct (strip_ci (chars "lat") s) as [r|]; [|reflexivity].
  cbn [rmatch]. rewrite rmatch_lit by discriminate. unfold equals_ci.
  destruct (strip_ci (chars "itude") r) as [[|]|], r; reflexivity.
Qed.

(** X3: the latitude key test of [getExplicitCenter] accepts a key if and
    only if, case aside, it is [lat] or [latitude] with nothing, [site]
    or [site_] in front. *)
Theorem lat_regex_accepts k :
  regex_test lat_regex k = true <->
  exists p w,
    In p [""; "site"; "site_"]%string /\ In w ["lat"; "latitude"]%string
    /\ lowercase k = chars p ++ chars w.
Proof.
  unfold lat_regex. rewrite regex_test_Bol. cbn [rmatch].
  rewrite (rmatch_ext site_prefix true (chars k) _
             (fun _ s' =>
                existsb (fun w => equals_ci (chars w) s')
                  ["lat"; "latitude"]%string))
    by (intros st' s'; exact (lat_stem st' s')).
  rewrite rmatch_site_prefix, <- site_words_spec, site_words_iff.
  split; intros (p & w & Hp & Hw & E); exists p, w;
    (split; [assumption|]); (split; [assumption|]);
    cbn [In] in Hp, Hw; intuition (subst; exact E).
Qed.

Lemma azimuth_stem st s :
  rmatch
    (Seq (Alt (lit "azimuth")
            (Alt (lit "bearing")
               (Alt (lit "heading")
                  (Alt (Seq (lit "dir") (Opt (lit "ection")))
                     (Seq (lit "orient") (Opt (lit "ation")))))))
       Eol) st s (fun _ _ => true)
  = existsb (fun w => equals_ci (chars w) s)
      ["azimuth"; "bearing"; "heading"; "dir"; "direction"; "orient";
       "orientation"]%string.
Proof.
  cbn [rmatch existsb]. rewrite !rmatch_lit by discriminate.
  change (chars "direction") with (chars "dir" ++ chars "ection").
  change (chars "orientation") with (chars "orient" ++ chars "ation").
  rewrite !equals_ci_app. unfold equals_ci.
  destruct (strip_ci (chars "azimuth") s) as [[|]|],
           (strip_ci (chars "bearing") s) as [[|]|],
           (strip_ci (chars "heading") s) as [[|]|]; cbn [rmatch orb].
  all: destruct (strip_ci (chars "dir") s) as [r1|];
    [cbn [rmatch]; rewrite ?rmatch_lit by discriminate;
     destruct (strip_ci (chars "ection") r1) as [[|]|], r1|];
    cbn [rmatch orb].
  all: destruct (strip_ci (chars "orient") s) as [r2|];
    [cbn [rmatch]; rewrite ?rmatch_lit by discriminate;
     destruct (strip_ci (chars "ation") r2) as [[|]|], r2|];
    reflexivity.
Qed.

(** X4: the key test of [getExplicitAzimuth] accepts a key if and only
    if, case aside, it is one of azimuth, bearing, heading, dir,
    direction, orient and orientation with nothing, [site] or [site_] in
    front. *)
Theorem azimuth_regex_accepts k :
  regex_test azimuth_regex k = true <->
  exists p w,
    In p [""; "site"; "site_"]%string
    /\ In w ["azimuth"; "bearing"; "heading"; "dir"; "direction"; "orient";
             "orientation"]%string
    /\ lowercase k = chars p ++ chars w.
Proof.
  unfold azimuth_regex. rewrite regex_test_Bol. cbn [rmatch].
  rewrite (rmatch_ext site_prefix true (chars k) _
             (fun _ s' =>
                existsb (fun w => equals_ci (chars w) s')
                  ["azimuth"; "bearing"; "heading"; "dir"; "direction";
                   "orient"; "orientation"]%string))
    by (intros st' s'; exact (azimuth_stem st' s')).
  rewrite rmatch_site_prefix, <- site_words_spec, site_words_iff.
  split; intros (p & w & Hp & Hw & E); exists p, w;
    (split; [assumption|]); (split; [assumption|]);
    cbn [In] in Hp, Hw; intuition (subst; exact E).
Qed.

Definition starts_ci (w s : list ascii) : bool :=
  match strip_ci w s with Some _ => true | None => false end.

Fixpoint ends_ci (w s : list ascii) : bool :=
  equals_ci w s
  || match s with
     | [] => false
     | _ :: s' => ends_ci w s'
     end.

Lemma starts_ci_spec w s :
  starts_ci w s = true <-> exists rest, map lower s = map lower w ++ rest.
Proof.
  unfold starts_ci. split.
  - destruct (strip_ci w s) as [rest|] eqn:E; [|discriminate]. intros _.
    apply strip_ci_spec in E as (p & -> & Hp).
    exists (map lower rest). now rewrite map_app, Hp.
  - intros (rest & E). apply map_eq_app in E as (p & r & -> & Hp & _).
    assert (Hs : strip_ci w (p ++ r) = Some r)
      by (apply strip_ci_spec; now exists p).
    now rewrite Hs.
Qed.

Lemma ends_ci_spec w s :
  ends_ci w s = true <-> exists front, map lower s = front ++ map lower w.
Proof.
  induction s as [|a s IH]; cbn [ends_ci].
  - rewrite orb_false_r, equals_ci_spec. split.
    + intros E. now exists [].
    + intros (front & E). destruct front; [exact E|discriminate].
  - rewrite orb_true_iff, equals_ci_spec, IH. split.
    + intros [E|(front & E)]; [now exists []|].
      exists (lower a :: front). cbn. now rewrite E.
    + intros (front & E). destruct front as [|b front]; [now left|].
      right. exists front. cbn in E. now injection E.
Qed.

Lemma rsearch_Alt r1 r2 st s :
  rsearch (Alt r1 r2) st s = rsearch r1 st s || rsearch r2 st s.
Proof.
  revert st. induction s as [|a s IH]; intros st; cbn [rsearch rmatch].
  - now rewrite !orb_false_r.
  - rewrite IH.
    destruct (rmatch r1 st (a :: s) _), (rmatch r2 st (a :: s) _),
      (rsearch r1 false s), (rsearch r2 false s); reflexivity.
Qed.

Lemma rsearch_lng st s :
  rsearch (Seq (lit "lng") Eol) st s = ends_ci (chars "lng") s.
Proof.
  revert st.
  induction s as [|a s IH]; intros st; cbn [rsearch rmatch ends_ci];
    rewrite rmatch_lit by discriminate; unfold equals_ci;
    [|rewrite IH]; destruct (strip_ci (chars "lng") _) as [[|]|]; reflexivity.
Qed.

Lemma lon_stem st s :
  rmatch (Seq (lit "lon") (Opt (lit "gitude"))) st s (fun _ _ => true)
  = existsb (fun w => starts_ci (chars w) s) ["lon"]%string.
Proof.
  cbn [rmatch existsb]. rewrite rmatch_lit by discriminate.
  unfold starts_ci. rewrite orb_false_r.
  destruct (strip_ci (chars "lon") s) as [r|]; [|reflexivity].
  cbn [rmatch]. apply orb_true_r.
Qed.

(** X5: the longitude key test of [getExplicitCenter], whose alternation
    splits the whole pattern, accepts a key if and only if, case aside,
    it begins with [lon], [sitelon] or [site_lon], or ends with [lng]. *)
Theorem lng_regex_accepts k :
  regex_test lng_regex k = true <->
  (exists p rest,
      In p [""; "site"; "site_"]%string
      /\ lowercase k = chars p ++ chars "lon" ++ rest)
  \/ (exists front, lowercase k = front ++ chars "lng").
Proof.
  assert (E : regex_test lng_regex k
              = (starts_ci (chars "site_lon") (chars k)
                 || starts_ci (chars "sitelon") (chars k)
                 || starts_ci (chars "lon") (chars k))
                || ends_ci (chars "lng") (chars k)).
  { unfold regex_test, lng_regex. fold (chars k).
    rewrite rsearch_Alt, rsearch_lng. f_equal.
    change (rsearch ?r true (chars k)) with (regex_test r k).
    rewrite regex_test_Bol. cbn [rmatch].
    rewrite (rmatch_ext site_prefix true (chars k) _
               (fun _ s' => existsb (fun w => starts_ci (chars w) s')
                              ["lon"]%string))
      by (intros st' s'; exact (lon_stem st' s')).
    rewrite rmatch_site_prefix.
    cbn [existsb]. rewrite !orb_false_r.
    change (chars "site_lon") with (chars "site" ++ chars "_" ++ chars "lon").
    change (chars "sitelon") with (chars "site" ++ chars "lon").
    unfold starts_ci. rewrite !strip_ci_app.
    destruct (strip_ci (chars "site") (chars k)) as [r1|];
      rewrite ?strip_ci_app;
      [destruct (strip_ci (chars "_") r1) as [r2|];
       [destruct (strip_ci (chars "lon") r2)|];
       destruct (strip_ci (chars "lon") r1)|];
      destruct (strip_ci (chars "lon") (chars k)); reflexivity. }
  rewrite E, !orb_true_iff, !starts_ci_spec, ends_ci_spec.
  fold (lowercase k). split.
  - intros [[[(r & Hr)|(r & Hr)]|(r & Hr)]|Hend].
    + left. exists "site_"%string, r. split; [cbn; tauto|exact Hr].
    + left. exists "site"%string, r. split; [cbn; tauto|exact Hr].
    + left. exists ""%string, r. split; [cbn; tauto|exact Hr].
    + right. exact Hend.
  - intros [(p & r & Hp & Hr)|Hend]; [|right; exact Hend].
    left. cbn [In] in Hp. destruct Hp as [<-|[<-|[<-|[]]]].
    + right. now exists r.
    + left. right. now exists r.
    + left. left. now exists r.
Qed.

(** ** Explicit annotations *)

Lemma leb_abs_Fin x b : leb (abs (Fin x)) (Fin b) = true <-> - b <= x /\ x <= b.
Proof.
  cbn [abs]. rewrite leb_Fin. split.
  - intros Hx. apply Qabs_Qle_condition. exact Hx.
  - intros Hx. apply Qabs_Qle_condition. exact Hx.
Qed.

(** X6: [getExplicitCenter] answers with a position exactly when the first
    key accepted as a latitude and the first key accepted as a longitude
    both read as finite numbers, the latitude within 90 degrees and the
    longitude within 180 degrees of zero; the position is then the
    longitude followed by the latitude. *)
Theorem getExplicitCenter_in_range props c :
  getExplicitCenter props = Some c <->
  exists p latKey lngKey lat lng,
    props = Some p
    /\ find (regex_test lat_regex) (Object_keys p) = Some latKey
    /\ find (regex_test lng_regex) (Object_keys p) = Some lngKey
    /\ parseFloat_entry p latKey = Fin lat
    /\ parseFloat_entry p lngKey = Fin lng
    /\ (- (90) <= lat /\ lat <= 90)
    /\ (- (180) <= lng /\ lng <= 180)
    /\ c = [lng; lat].
Proof.
  unfold getExplicitCenter. split.
  - destruct props as [p|]; [|discriminate].
    destruct (find (regex_test lat_regex) (Object_keys p)) as [latKey|]
      eqn:Flat; [|discriminate].
    destruct (find (regex_test lng_regex) (Object_keys p)) as [lngKey|]
      eqn:Flng; [|discriminate].
    destruct (parseFloat_entry p latKey) as [lat| |] eqn:Elat;
      [|destruct (_ && _); discriminate..].
    destruct (parseFloat_entry p lngKey) as [lng| |] eqn:Elng;
      [|destruct (_ && _); discriminate..].
    cbn [isNaN negb andb].
    destruct (leb (abs (Fin lat)) (Fin 90)) eqn:Hlat; [|discriminate].
    destruct (leb (abs (Fin lng)) (Fin 180)) eqn:Hlng; [|discriminate].
    cbn [andb]. intros E. injection E as <-.
    apply leb_abs_Fin in Hlat, Hlng.
    exists p, latKey, lngKey, lat, lng.
    repeat (split; [reflexivity || assumption|]). reflexivity.
  - intros (p & latKey & lngKey & lat & lng
            & -> & -> & -> & Elat & Elng & Hlat & Hlng & ->).
    rewrite Elat, Elng. cbn [isNaN negb andb].
    apply leb_abs_Fin in Hlat, Hlng. now rewrite Hlat, Hlng.
Qed.

(** X7: [getExplicitAzimuth] looks at the first accepted key only.  With
    no accepted key, or with a first accepted key whose value does not
    read as a number, there is no explicit azimuth, whatever the later
    keys hold; a finite value is brought into [0,360) by whole turns. *)
Theorem getExplicitAzimuth_first_key p :
  (getExplicitAzimuth None = None)
  /\ (find (regex_test azimuth_regex) (Object_keys p) = None ->
      getExplicitAzimuth (Some p) = None)
  /\ (forall key,
        find (regex_test azimuth_regex) (Object_keys p) = Some key ->
        parseFloat_entry p key = NaN ->
        getExplicitAzimuth (Some p) = None)
  /\ (forall key q,
        find (regex_test azimuth_regex) (Object_keys p) = Some key ->
        parseFloat_entry p key = Fin q ->
        exists r,
          getExplicitAzimuth (Some p) = Some (Fin r)
          /\ 0 <= r /\ r < 360
          /\ r == q - 360 * inject_Z (Qfloor (q / 360))).
Proof.
  unfold getExplicitAzimuth. split; [reflexivity|]. split; [|split].
  - now intros ->.
  - now intros key -> ->.
  - intros key q -> ->. cbn [isNaN negb].
    destruct (normalizeAngle_quotient q) as (r & t & E & H0 & H1 & Hr).
    exists r. rewrite E. repeat (split; [try assumption; reflexivity|]).
    now rewrite (Qfloor_of_quotient q r t H0 H1 Hr).
Qed.

Definition demo_annotations : Properties :=
  mkProperties
    [("name", "mast"); ("Site_Azimuth", "-90"); ("heading", "10")]%string
    None.

Lemma getExplicitAzimuth_first_key_witness :
  exists r,
    getExplicitAzimuth (Some demo_annotations) = Some (Fin r) /\ r == 270.
Proof.
  destruct (getExplicitAzimuth_first_key demo_annotations)
    as (_ & _ & _ & Hfin).
  destruct (Hfin "Site_Azimuth"%string (- (90))) as (r & E & _ & _ & Hr).
  - vm_compute. reflexivity.
  - vm_compute. reflexivity.
  - exists r. split; [exact E|]. rewrite Hr. vm_compute. reflexivity.
Defined.

(** ** The wedge of a sector *)

Lemma normalizeAngle_congruent a r (t : Z) :
  0 <= r -> r < 360 -> r == a - 360 * inject_Z t ->
  exists r', normalizeAngle (Fin a) = Fin r' /\ r' == r.
Proof.
  intros H0 H1 Hr.
  destruct (normalizeAngle_quotient a) as (r' & t' & E & H0' & H1' & Hr').
  exists r'. split; [exact E|].
  assert (Ht : t' = t).
  { rewrite <- (Qfloor_of_quotient a r' t' H0' H1' Hr').
    exact (Qfloor_of_quotient a r t H0 H1 Hr). }
  subst t'. lra.
Qed.

(** Below two turns, normalizing takes off at most one. *)
Lemma normalizeAngle_two_turns z :
  0 <= z -> z < 720 ->
  exists r, normalizeAngle (Fin z) = Fin r
            /\ 0 <= r /\ r < 360 /\ (r == z \/ r == z - 360).
Proof.
  intros H0 H1. destruct (Qlt_le_dec z 360) as [Hlt|Hge].
  - destruct (normalizeAngle_congruent z z 0) as (r & E & Hr);
      [assumption|assumption|change (inject_Z 0) with 0; lra|].
    exists r. split; [exact E|]. lra.
  - destruct (normalizeAngle_congruent z (z - 360) 1) as (r & E & Hr);
      [lra|lra|change (inject_Z 1) with 1; lra|].
    exists r. split; [exact E|]. lra.
Qed.

(** Two angles that differ by [d], at most half a turn, up to a whole
    turn and in either direction, deviate by [d]. *)
Lemma calculateDeviation_offset x y d :
  0 <= d -> d <= 180 ->
  x - y == d \/ x - y == - d \/ x - y == 360 - d \/ x - y == d - 360 ->
  same (calculateDeviation (Fin x) (Fin y)) (Fin d).
Proof.
  intros H0 H1 Hd. rewrite calculateDeviation_Fin. cbn [same].
  change (x + - y) with (x - y). generalize dependent (x - y). intros u Hd.
  destruct (Qltb 180 (Qabs u)) eqn:L;
    [apply Qltb_lt in L|apply Qltb_ge in L]; revert L;
    apply (Qabs_case u); intros Hu L; lra.
Qed.

(** The sector from [s] clockwise over [w] degrees to [e], with the
    azimuth at its middle. *)
Definition wedge_of (m : SectorMetrics) (s e w : Q) : Prop :=
  startAngle m = Fin s /\ endAngle m = Fin e /\ beamwidth m = Fin w
  /\ (0 <= s /\ s < 360) /\ (0 <= e /\ e < 360)
  /\ same (normalizeAngle (Fin (e - s))) (Fin w).

Definition azimuth_bisects (m : SectorMetrics) (s e w : Q) : Prop :=
  is_angle (azimuth m)
  /\ same (calculateDeviation (azimuth m) (Fin s)) (Fin (w / 2))
  /\ same (calculateDeviation (azimuth m) (Fin e)) (Fin (w / 2)).

Lemma bisector_of_wedge s e w :
  0 <= s -> s < 360 -> 0 <= e -> e < 360 -> 0 < w -> w < 360 ->
  e - s == w \/ e - s == w - 360 ->
  exists az,
    normalizeAngle (Fin (s + w / 2)) = Fin az
    /\ 0 <= az /\ az < 360
    /\ same (calculateDeviation (Fin az) (Fin s)) (Fin (w / 2))
    /\ same (calculateDeviation (Fin az) (Fin e)) (Fin (w / 2)).
Proof.
  intros Hs0 Hs1 He0 He1 Hw0 Hw1 Hes.
  assert (Hhalf : w / 2 == w * (1 # 2)) by (unfold Qdiv; reflexivity).
  destruct (normalizeAngle_two_turns (s + w / 2)) as (az & E & A0 & A1 & Haz);
    [lra|lra|].
  exists az. split; [exact E|]. split; [exact A0|]. split; [exact A1|].
  split; apply calculateDeviation_offset; lra.
Qed.

Lemma explicit_metrics_wedge a :
  0 <= a -> a < 360 ->
  exists s e,
    wedge_of (explicit_metrics (Fin a)) s e 65
    /\ azimuth_bisects (explicit_metrics (Fin a)) s e 65.
Proof.
  intros A0 A1. unfold explicit_metrics, wedge_of, azimuth_bisects.
  cbn [startAngle endAngle beamwidth azimuth sub add neg].
  assert (Hs : exists s, normalizeAngle (Fin (a + - (32.5))) = Fin s
                         /\ 0 <= s /\ s < 360
                         /\ (s == a - 32.5 \/ s == a - 32.5 + 360)).
  { destruct (Qlt_le_dec a 32.5) as [Hlt|Hge].
    - destruct (normalizeAngle_congruent (a + - (32.5)) (a - 32.5 + 360) (-1))
        as (s & E & Hs);
        [lra|lra|change (inject_Z (-1)) with (- (1)); lra|].
      exists s. split; [exact E|]. lra.
    - destruct (normalizeAngle_congruent (a + - (32.5)) (a - 32.5) 0)
        as (s & E & Hs);
        [lra|lra|change (inject_Z 0) with 0; lra|].
      exists s. split; [exact E|]. lra. }
  destruct Hs as (s & Es & S0 & S1 & Hs).
  destruct (normalizeAngle_two_turns (a + 32.5)) as (e & Ee & E0 & E1 & He);
    [lra|lra|].
  exists s, e. rewrite Es, Ee.
  assert (Hes : e - s == 65 \/ e - s == 65 - 360).
  { destruct Hs as [Hs|Hs], He as [He|He]; lra. }
  split.
  - do 3 (split; [reflexivity|]). do 2 (split; [split; assumption|]).
    destruct Hes as [Hes|Hes].
    + destruct (normalizeAngle_congruent (e - s) 65 0) as (r & -> & Hr);
        [lra|lra|change (inject_Z 0) with 0; lra|]. exact Hr.
    + destruct (normalizeAngle_congruent (e - s) 65 (-1)) as (r & -> & Hr);
        [lra|lra|change (inject_Z (-1)) with (- (1)); lra|]. exact Hr.
  - split; [cbn; lra|].
    assert (Hhalf : 65 / 2 == 32.5) by reflexivity.
    split; apply calculateDeviation_offset; lra.
Qed.

Section Wedge.
Context `{Env}.

Lemma analyzeSectorGeometry_directional f towerCenter m :
  analyzeSectorGeometry f towerCenter = Return m ->
  isOmni m = false ->
  explicit_azimuth_is_number f ->
  exists s e w,
    wedge_of m s e w
    /\ (0 < w /\ w <= 300)
    /\ (getExplicitAzimuth (properties f) = None ->
        azimuth m = normalizeAngle (Fin (s + w / 2))).
Proof.
  intros Hrun Hdir Hnum.
  pose proof (getExplicitAzimuth_value (properties f)) as Hval.
  assert (Hdeg : forall d,
             d = match getExplicitAzimuth (properties f) with
                 | Some a => explicit_metrics a
                 | None => omni_metrics
                 end ->
             isOmni d = false ->
             exists s e w, wedge_of d s e w /\ (0 < w /\ w <= 300)
               /\ (getExplicitAzimuth (properties f) = None ->
                   azimuth d = normalizeAngle (Fin (s + w / 2)))).
  { intros d -> Hd. unfold explicit_azimuth_is_number in Hnum.
    destruct (getExplicitAzimuth (properties f)) as [a|]; [|discriminate].
    destruct (Hval a eq_refl) as [Ha| ->]; [|congruence].
    destruct (is_angle_Fin a Ha) as (q & -> & Q0 & Q1).
    destruct (explicit_metrics_wedge q Q0 Q1) as (s & e & Hw & _).
    exists s, e, 65. split; [exact Hw|]. split; [lra|discriminate]. }
  revert Hrun. unfold analyzeSectorGeometry.
  destruct (geometry f) as [[]|].
  1, 7: intros E; injection E as E; exact (Hdeg m (eq_sym E) Hdir).
  all: destruct (centroid f) as [c|]; cbn [bind]; [|discriminate];
    (destruct (Qltb _ 2);
     [intros E; injection E as E; exact (Hdeg m (eq_sym E) Hdir)|]);
    destruct (filterM _ _) as [outer|] eqn:EF; cbn [bind]; [|discriminate];
    (destruct (List.length outer =? 0)%nat eqn:E0;
     [intros E; injection E as <-; discriminate|]);
    destruct (mapM _ outer) as [bearings|] eqn:EM; cbn [bind]; [|discriminate];
    apply mapM_point_inv in EM; subst bearings;
    set (bs := sort _ _);
    assert (Hang : Forall is_angle bs)
      by (apply sort_Forall, Forall_map, Forall_forall;
          intros ? _; apply normalizeAngle_within);
    assert (Hlen : (0 < List.length bs)%nat)
      by (unfold bs; rewrite sort_length, length_map;
          apply Nat.eqb_neq in E0; lia);
    destruct (gap_loop_spec bs Hang Hlen)
      as (i & q & Hm & Hq0 & Hq1 & (Hi & Hgap & _) & Hse);
    destruct (gap_loop bs) as [[mg gs] ge]; cbn [fst snd] in *; subst mg;
    (destruct (ltb (Fin q) (Fin 60)) eqn:L60;
     [intros E; injection E as <-; discriminate|]);
    apply ltb_Fin_false in L60;
    (destruct Hse as [-> ->]; [lra|]);
    intros E; injection E as <-;
    assert (Hnext : ((i + 1) mod List.length bs < List.length bs)%nat)
      by (apply next_index_lt; lia);
    unfold circular_gap in Hgap;
    destruct (is_angle_Fin _ (nth_is_angle bs _ Hang Hnext))
      as (b & Eb & B0 & B1);
    destruct (is_angle_Fin _ (nth_is_angle bs _ Hang Hi))
      as (a & Ea & A0 & A1);
    rewrite Ea, Eb in *;
    change (sub (Fin b) (Fin a)) with (Fin (b + - a)) in Hgap;
    (destruct (normalizeAngle_small (b + - a)) as (g & Eg & Hg); [lra|lra|]);
    rewrite Eg in Hgap; cbn [same] in Hgap;
    assert (Hes : a - b == (360 + - q) \/ a - b == (360 + - q) - 360)
      by (destruct (Qltb (b + - a) 0) eqn:L;
          [apply Qltb_lt in L|apply Qltb_ge in L]; lra);
    exists b, a, (360 + - q);
    unfold wedge_of, azimuth_bisects;
    cbn [startAngle endAngle beamwidth azimuth sub add neg];
    (split;
     [do 3 (split; [reflexivity|]); do 2 (split; [split; assumption|]);
      destruct Hes as [Hes|Hes];
      [destruct (normalizeAngle_congruent (a - b) (360 + - q) 0)
         as (r & -> & Hr);
       [lra|lra|change (inject_Z 0) with 0; lra|exact Hr]
      |destruct (normalizeAngle_congruent (a - b) (360 + - q) (-1))
         as (r & -> & Hr);
       [lra|lra|change (inject_Z (-1)) with (- (1)); lra|exact Hr]]
     |]);
    (split; [lra|]);
    intros ->; reflexivity.
Qed.

(** The edges of a wedge differ by the beamwidth, up to a turn. *)
Lemma wedge_of_span m s e w :
  wedge_of m s e w -> e - s == w \/ e - s == w - 360.
Proof.
  intros (_ & _ & _ & (S0 & S1) & (E0 & E1) & Hspan).
  destruct (normalizeAngle_small (e - s)) as (r & Er & Hr); [lra|lra|].
  rewrite Er in Hspan. cbn [same] in Hspan.
  destruct (Qltb (e - s) 0); lra.
Qed.

(** X8: a sector that [analyzeSectorGeometry] reports as directional is a
    proper wedge: its edges are angles of [0,360), its beamwidth is the
    clockwise span from the start edge to the end edge and is at most 300
    degrees; and unless an explicit azimuth overrides the geometry, the
    azimuth is the bisector, half a beamwidth from either edge. *)
Theorem analyzeSectorGeometry_wedge f towerCenter m :
  analyzeSectorGeometry f towerCenter = Return m ->
  isOmni m = false ->
  explicit_azimuth_is_number f ->
  exists s e w,
    wedge_of m s e w
    /\ (0 < w /\ w <= 300)
    /\ (getExplicitAzimuth (properties f) = None -> azimuth_bisects m s e w).
Proof.
  intros Hrun Hdir Hnum.
  destruct (analyzeSectorGeometry_directional f towerCenter m Hrun Hdir Hnum)
    as (s & e & w & Hw & Hr & Haz).
  exists s, e, w. split; [exact Hw|]. split; [exact Hr|].
  intros Hnone. specialize (Haz Hnone).
  pose proof (wedge_of_span m s e w Hw) as Hes.
  destruct Hw as (_ & _ & _ & (S0 & S1) & (E0 & E1) & _).
  destruct (bisector_of_wedge s e w) as (az & Eaz & Z0 & Z1 & Hb); try lra.
  unfold azimuth_bisects. rewrite Haz, Eaz. split; [cbn; lra|exact Hb].
Qed.


End Wedge.

Lemma analyzeSectorGeometry_wedge_witness :
  exists m s e w,
    analyzeSectorGeometry (H := plane_env) demo_wedge [0; 0] = Return m
    /\ wedge_of m s e w /\ (0 < w /\ w <= 300).
Proof.
  destruct (analyzeSectorGeometry (H := plane_env) demo_wedge [0; 0])
    as [m|msg] eqn:E; [|vm_compute in E; discriminate].
  destruct (analyzeSectorGeometry_wedge (H := plane_env) demo_wedge [0; 0] m)
    as (s & e & w & Hw & Hr & _).
  - exact E.
  - vm_compute in E. injection E as <-. reflexivity.
  - vm_compute. discriminate.
  - exists m, s, e, w. split; [reflexivity|]. split; assumption.
Defined.

(** ** The beam test *)

(** The bearing [u] lies in the wedge: going clockwise from the start
    edge it is reached within the beamwidth. *)
Definition in_wedge (m : SectorMetrics) (u : num) : Prop :=
  exists r w,
    normalizeAngle (sub u (startAngle m)) = Fin r
    /\ beamwidth m = Fin w /\ r <= w.

Lemma half_width_is_wedge s w az u r :
  0 <= s -> s < 360 -> 0 <= u -> u < 360 -> 0 < w -> w < 360 ->
  az == s + w / 2 \/ az == s + w / 2 - 360 ->
  0 <= az -> az < 360 ->
  r == u - s \/ r == u - s + 360 ->
  0 <= r -> r < 360 ->
  leb (calculateDeviation (Fin az) (Fin u)) (Fin (w / 2)) = true <-> r <= w.
Proof.
  intros S0 S1 U0 U1 W0 W1 Haz A0 A1 Hr R0 R1.
  assert (Hhalf : w / 2 == w * (1 # 2)) by (unfold Qdiv; reflexivity).
  rewrite calculateDeviation_Fin, leb_Fin.
  assert (Hd : az + - u == w / 2 - r \/ az + - u == w / 2 - r - 360
               \/ az + - u == w / 2 - r + 360)
    by (destruct Haz, Hr; lra).
  assert (Hb : - (360) < az + - u /\ az + - u < 360) by lra.
  generalize dependent (az + - u). intros d Hd Hb.
  destruct (Qltb 180 (Qabs d)) eqn:L;
    [apply Qltb_lt in L|apply Qltb_ge in L]; revert L;
    apply (Qabs_case d); intros Hsign L;
    destruct Hd as [Hd|[Hd|Hd]];
    (split; [intros Hle|intros Hle]); lra.
Qed.

Section Beam.
Context `{Env}.

(** What [evaluate] returns, field by field. *)
Lemma evaluate_inv targetPoint site bearing nearField f ev :
  evaluate targetPoint site bearing nearField f = Return ev ->
  exists m,
    analyzeSectorGeometry f (referencePoint site) = Return m
    /\ feature ev = f
    /\ ev_azimuth ev = azimuth m
    /\ ev_beamwidth ev = beamwidth m
    /\ deviation ev
       = (if isOmni m || nearField then Fin 0
          else calculateDeviation (azimuth m) bearing)
    /\ isInBeam ev
       = (if negb (isOmni m) && negb nearField
          then leb (deviation ev) (div (beamwidth m) (Fin 2))
          else true)
    /\ isInside ev
       = try_catch
           (match geometry f with
            | None => Throw "TypeError"
            | Some g =>
                if is_polygonal g then booleanPointInPolygon targetPoint f
                else Return false
            end) false
    /\ score ev
       = weighted_score f (deviation ev) (isInside ev) nearField (isInBeam ev).
Proof.
  unfold evaluate.
  destruct (analyzeSectorGeometry f (referencePoint site)) as [m|msg];
    cbn [bind]; [|discriminate].
  intros E. injection E as <-. exists m.
  cbn [feature ev_azimuth ev_beamwidth deviation isInBeam isInside score].
  repeat (split; [reflexivity|]).
  split; [|split; reflexivity].
  destruct (negb (isOmni m) && negb nearField); [|reflexivity].
  now destruct (leb _ _).
Qed.

(** X9: for a directional sector whose azimuth comes from the geometry,
    outside the near field, the half-width test that [evaluate] applies
    (deviation from the azimuth at most half the beamwidth) holds exactly
    when the bearing to the user lies in the wedge, between the start edge
    and the end edge going clockwise. *)
Theorem in_beam_is_in_wedge targetPoint site u f ev m :
  evaluate targetPoint site (Fin u) false f = Return ev ->
  analyzeSectorGeometry f (referencePoint site) = Return m ->
  isOmni m = false ->
  getExplicitAzimuth (properties f) = None ->
  0 <= u -> u < 360 ->
  isInBeam ev = true <-> in_wedge m (Fin u).
Proof.
  intros Hev Hrun Hdir Hnone U0 U1.
  apply evaluate_inv in Hev as (m' & Hrun' & _ & _ & _ & Hdev & Hbeam & _).
  rewrite Hrun in Hrun'. injection Hrun' as <-.
  rewrite Hdir in Hdev, Hbeam. cbn [orb negb andb] in Hdev, Hbeam.
  rewrite Hbeam, Hdev. clear Hbeam Hdev.
  assert (Hnum : explicit_azimuth_is_number f)
    by (unfold explicit_azimuth_is_number; rewrite Hnone; discriminate).
  destruct (analyzeSectorGeometry_directional f _ m Hrun Hdir Hnum)
    as (s & e & w & Hw & (W0 & W1) & Haz).
  rewrite (Haz Hnone).
  destruct Hw as (Es & _ & Ew & (S0 & S1) & _).
  assert (Hhalf : w / 2 == w * (1 # 2)) by (unfold Qdiv; reflexivity).
  destruct (normalizeAngle_two_turns (s + w / 2))
    as (az & -> & A0 & A1 & Haz'); [lra|lra|].
  destruct (normalizeAngle_small (u - s)) as (r & Er & Hr); [lra|lra|].
  assert (R : 0 <= r /\ r < 360 /\ (r == u - s \/ r == u - s + 360)).
  { destruct (Qltb (u - s) 0) eqn:L;
      [apply Qltb_lt in L|apply Qltb_ge in L]; lra. }
  destruct R as (R0 & R1 & Hr').
  unfold in_wedge. rewrite Es, Ew.
  change (sub (Fin u) (Fin s)) with (Fin (u - s)).
  change (div (Fin w) (Fin 2)) with (Fin (w / 2)).
  rewrite (half_width_is_wedge s w az u r); try assumption; try lra.
  split.
  - intros Hle. exists r, w. now split.
  - intros (r' & w' & Er' & Ew' & Hle).
    rewrite Er in Er'. injection Er' as <-. injection Ew' as <-. exact Hle.
Qed.

End Beam.

Lemma in_beam_is_in_wedge_witness :
  exists ev m,
    evaluate (H := plane_env) [0; 0.001] demo_site (Fin 0) false demo_wedge
    = Return ev
    /\ analyzeSectorGeometry (H := plane_env) demo_wedge [0; 0] = Return m
    /\ (isInBeam ev = true <-> in_wedge m (Fin 0)).
Proof.
  eexists. eexists.
  split; [vm_compute; reflexivity|].
  split; [vm_compute; reflexivity|].
  eapply (in_beam_is_in_wedge (H := plane_env) [0; 0.001] demo_site 0
            demo_wedge).
  - vm_compute. reflexivity.
  - vm_compute. reflexivity.
  - reflexivity.
  - vm_compute. reflexivity.
  - vm_compute. discriminate.
  - vm_compute. reflexivity.
Defined.

(** ** Evaluating a candidate *)

Lemma calculateDeviation_angles x y :
  is_angle x -> is_angle y -> within 0 180 (calculateDeviation x y).
Proof.
  intros Hx Hy.
  destruct (is_angle_Fin x Hx) as (a & -> & A0 & A1).
  destruct (is_angle_Fin y Hy) as (b & -> & B0 & B1).
  rewrite calculateDeviation_Fin. cbn [within].
  assert (Hb : - (360) < a + - b /\ a + - b < 360) by lra.
  generalize dependent (a + - b). intros d Hb.
  destruct (Qltb 180 (Qabs d)) eqn:L;
    [apply Qltb_lt in L|apply Qltb_ge in L]; revert L;
    apply (Qabs_case d); intros Hsign L; lra.
Qed.

Section Evaluation.
Context `{Env}.

(** X10: [evaluate] fails only when [analyzeSectorGeometry] fails, and
    with the same error: an exception of the containment test is caught
    and counts as not inside; and only a polygon or multi-polygon that the
    containment test accepts is ever reported as containing the point. *)
Theorem evaluate_catches_containment targetPoint site bearing nearField f :
  (forall msg,
      evaluate targetPoint site bearing nearField f = Throw msg <->
      analyzeSectorGeometry f (referencePoint site) = Throw msg)
  /\ (forall ev,
        evaluate targetPoint site bearing nearField f = Return ev ->
        isInside ev = true <->
        exists g, geometry f = Some g /\ is_polygonal g = true
                  /\ booleanPointInPolygon targetPoint f = Return true).
Proof.
  split.
  - intros msg. unfold evaluate.
    destruct (analyzeSectorGeometry f (referencePoint site)) as [m|msg'];
      cbn [bind]; split; intros E; try discriminate;
      injection E as ->; reflexivity.
  - intros ev Hev.
    apply evaluate_inv in Hev as (m & _ & _ & _ & _ & _ & _ & -> & _).
    destruct (geometry f) as [g|]; cbn [try_catch].
    + destruct (is_polygonal g) eqn:Hg; cbn [try_catch].
      * destruct (booleanPointInPolygon targetPoint f) as [b|msg];
          cbn [try_catch].
        -- split.
           ++ intros ->. exists g. now repeat split.
           ++ intros (g' & _ & _ & E). now injection E.
        -- split; [discriminate|]. intros (g' & _ & _ & E). discriminate.
      * split; [discriminate|]. intros (g' & E & Hg' & _).
        injection E as <-. congruence.
    + split; [discriminate|]. intros (g & E & _). discriminate.
Qed.

(** X11: near the site (within 30 m) and for an omnidirectional sector the
    direction plays no part: the deviation is 0 and the candidate counts
    as in beam.  In the near field the score is therefore -10000 when the
    feature contains the point and -5000 otherwise, less 10 with an
    explicit azimuth, whatever the geometry of the sector. *)
Theorem evaluate_near_field_or_omni targetPoint site bearing nearField f ev :
  evaluate targetPoint site bearing nearField f = Return ev ->
  (nearField = true ->
   deviation ev = Fin 0 /\ isInBeam ev = true
   /\ same (score ev)
        (Fin ((if isInside ev then - (10000) else - (5000))
              - (match getExplicitAzimuth (properties f) with
                 | Some _ => 10
                 | None => 0
                 end))))
  /\ (forall m,
        analyzeSectorGeometry f (referencePoint site) = Return m ->
        isOmni m = true ->
        deviation ev = Fin 0 /\ isInBeam ev = true).
Proof.
  intros Hev.
  apply evaluate_inv in Hev as (m & Hrun & _ & _ & _ & Hdev & Hbeam & _ & Hs).
  split.
  - intros ->. rewrite orb_true_r in Hdev. rewrite andb_false_r in Hbeam.
    split; [exact Hdev|]. split; [exact Hbeam|].
    rewrite Hs, Hdev, Hbeam. unfold weighted_score.
    destruct (isInside ev), (getExplicitAzimuth (properties f));
      cbn; lra.
  - intros m' Hrun' Homni. rewrite Hrun in Hrun'. injection Hrun' as <-.
    rewrite Homni in Hdev, Hbeam. split; assumption.
Qed.

(** X12: the scores fall into four disjoint bands, in the order of the
    priorities: a feature that contains the point scores in
    [-10010,-9820]; otherwise in the near field in [-5010,-5000];
    otherwise in beam in [-2010,-1820]; otherwise, out of beam, in
    [-10,180].  This holds for a bearing in [0,360) and a feature whose
    explicit azimuth, if any, is a number; the deviation is then in
    [0,180]. *)
Theorem score_tiers targetPoint site bearing nearField f ev :
  evaluate targetPoint site bearing nearField f = Return ev ->
  is_angle bearing ->
  explicit_azimuth_is_number f ->
  within 0 180 (deviation ev)
  /\ (isInside ev = true -> within (- (10010)) (- (9820)) (score ev))
  /\ (isInside ev = false -> nearField = true ->
      within (- (5010)) (- (5000)) (score ev))
  /\ (isInside ev = false -> nearField = false -> isInBeam ev = true ->
      within (- (2010)) (- (1820)) (score ev))
  /\ (isInside ev = false -> nearField = false -> isInBeam ev = false ->
      within (- (10)) 180 (score ev)).
Proof.
  intros Hev Hbearing Hnum.
  apply evaluate_inv in Hev as (m & Hrun & _ & _ & _ & Hdev & Hbeam & _ & Hs).
  destruct (analyzeSectorGeometry_in_range f _ m Hnum Hrun)
    as (Haz & Hbw & _).
  assert (Hd : within 0 180 (deviation ev)).
  { rewrite Hdev. destruct (isOmni m || nearField); [cbn; lra|].
    now apply calculateDeviation_angles. }
  split; [exact Hd|].
  destruct (deviation ev) as [d| |]; try contradiction.
  destruct Hd as [D0 D1]. rewrite Hs. unfold weighted_score.
  split; [|split; [|split]].
  - intros ->. destruct (getExplicitAzimuth (properties f)); cbn; lra.
  - intros -> ->. rewrite orb_true_r in Hdev. injection Hdev as ->.
    destruct (getExplicitAzimuth (properties f)); cbn; lra.
  - intros -> -> ->. destruct (getExplicitAzimuth (properties f)); cbn; lra.
  - intros -> -> Hout. rewrite Hout in *.
    destruct (negb (isOmni m) && negb false); [|discriminate].
    destruct (beamwidth m) as [w| |]; try contradiction.
    destruct Hbw as [W0 W1].
    change (div (Fin w) (Fin 2)) with (Fin (w / 2)) in Hbeam.
    symmetry in Hbeam. unfold leb in Hbeam. apply orb_false_elim in Hbeam.
    destruct Hbeam as [Hlt _]. apply ltb_Fin_false in Hlt.
    assert (Hhalf : w / 2 == w * (1 # 2)) by (unfold Qdiv; reflexivity).
    destruct (getExplicitAzimuth (properties f)); cbn; lra.
Qed.

End Evaluation.

Lemma evaluate_catches_containment_witness :
  exists ev,
    evaluate (H := plane_env) [0; 0.001] demo_site (Fin 0) false demo_wedge
    = Return ev
    /\ (isInside ev = true <->
        exists g, geometry demo_wedge = Some g /\ is_polygonal g = true
                  /\ booleanPointInPolygon (Env := plane_env) [0; 0.001]
                       demo_wedge = Return true).
Proof.
  eexists. split; [vm_compute; reflexivity|].
  apply (evaluate_catches_containment (H := plane_env) [0; 0.001] demo_site
           (Fin 0) false demo_wedge).
  vm_compute. reflexivity.
Defined.

Lemma evaluate_near_field_or_omni_witness :
  exists ev,
    evaluate (H := plane_env) [0; 0.0001] demo_site (Fin 0) true demo_wedge
    = Return ev
    /\ deviation ev = Fin 0 /\ isInBeam ev = true.
Proof.
  eexists. split; [vm_compute; reflexivity|].
  destruct (evaluate_near_field_or_omni (H := plane_env) [0; 0.0001]
              demo_site (Fin 0) true demo_wedge _ eq_refl) as [Hnear _].
  destruct (Hnear eq_refl) as (Hd & Hb & _). split; assumption.
Defined.

Lemma score_tiers_witness :
  exists ev,
    evaluate (H := plane_env) [0; 0.001] demo_site (Fin 0) false demo_wedge
    = Return ev
    /\ within 0 180 (deviation ev)
    /\ within (- (10010)) (- (9820)) (score ev).
Proof.
  eexists. split; [vm_compute; reflexivity|].
  destruct (score_tiers (H := plane_env) [0; 0.001] demo_site (Fin 0) false
              demo_wedge _ eq_refl) as (Hd & Hin & _).
  - vm_compute. intuition discriminate.
  - vm_compute. discriminate.
  - split; [exact Hd|]. apply Hin. reflexivity.
Defined.

(** ** The winner of a site *)

Lemma mapM_nth {A B : Type} (f : A -> result B) l l' :
  mapM f l = Return l' ->
  List.length l' = List.length l
  /\ forall i y, nth_error l' i = Some y ->
       exists x, nth_error l i = Some x /\ f x = Return y.
Proof.
  revert l'. induction l as [|a l IH]; intros l'; cbn [mapM].
  - intros E. injection E as <-. split; [reflexivity|].
    intros [|i] y; discriminate.
  - destruct (f a) as [b|] eqn:Ea; cbn [bind]; [|discriminate].
    destruct (mapM f l) as [rest|]; cbn [bind]; [|discriminate].
    intros E. injection E as <-. destruct (IH rest eq_refl) as [Hlen Hnth].
    split; [cbn; now rewrite Hlen|].
    intros [|i] y; cbn [nth_error].
    + intros E. injection E as <-. now exists a.
    + apply Hnth.
Qed.

Section SortHead.
Context {A : Type} (key : A -> num).

(** The head of a list sorted by [key] is the first element of the
    original list with the least key. *)
Lemma sort_head_first_minimum l best :
  Forall (fun e => exists q, key e = Fin q) l ->
  hd_error (sort (fun a b => sub (key a) (key b)) l) = Some best ->
  exists i,
    nth_error l i = Some best
    /\ forall j e, nth_error l j = Some e ->
         leb (key best) (key e) = true
         /\ ((j < i)%nat -> ltb (key best) (key e) = true).
Proof.
  intros Hfin. revert best.
  induction Hfin as [|a l (x & Hx) Hall IH]; intros best; cbn [sort].
  - discriminate.
  - destruct (sort (fun a b => sub (key a) (key b)) l) as [|y rest] eqn:Es.
    + assert (Hl : l = []).
      { apply (f_equal (@List.length A)) in Es. rewrite sort_length in Es.
        now destruct l. }
      subst l. cbn. intros E. injection E as <-. exists 0%nat.
      split; [reflexivity|].
      intros [|[|j]] e; cbn; try discriminate. intros E. injection E as <-.
      rewrite Hx. split; [apply leb_Fin; lra|lia].
    + destruct (IH y eq_refl) as (i & Hi & Hmin).
      assert (Hy : exists q, key y = Fin q).
      { rewrite Forall_forall in Hall. apply Hall.
        now apply nth_error_In in Hi. }
      destruct Hy as (q & Hy). cbn [sort_insert]. rewrite Hx, Hy.
      change (gtb (sub (Fin x) (Fin q)) (Fin 0)) with (Qltb 0 (x + - q)).
      destruct (Qltb 0 (x + - q)) eqn:L;
        [apply Qltb_lt in L|apply Qltb_ge in L];
        cbn [hd_error]; intros E; injection E as <-.
      * exists (S i). split; [exact Hi|].
        intros [|j] e; cbn [nth_error].
        -- intros E. injection E as <-. rewrite Hx, Hy.
           split; [apply leb_Fin; lra|intros _; apply ltb_Fin; lra].
        -- intros He. destruct (Hmin j e He) as [Hle Hlt].
           split; [exact Hle|]. intros Hj. apply Hlt. lia.
      * exists 0%nat. split; [reflexivity|].
        intros [|j] e; cbn [nth_error].
        -- intros E. injection E as <-. rewrite Hx.
           split; [apply leb_Fin; lra|lia].
        -- intros He. destruct (Hmin j e He) as [Hle _].
           split; [|lia]. rewrite Hx. rewrite Hy in Hle.
           assert (Hz : exists z, key e = Fin z).
           { rewrite Forall_forall in Hall. apply Hall.
             now apply nth_error_In in He. }
           destruct Hz as (z & Hz). rewrite Hz in *.
           apply leb_Fin in Hle. apply leb_Fin. lra.
Qed.

End SortHead.

Lemma weighted_score_Fin f d inside nearField inBeam :
  exists q, weighted_score f (Fin d) inside nearField inBeam = Fin q.
Proof.
  unfold weighted_score.
  destruct inside, nearField, inBeam, (getExplicitAzimuth (properties f));
    cbn; eexists; reflexivity.
Qed.

Section Winner.
Context `{Env}.

Lemma evaluate_score_Fin targetPoint site bearing nearField f ev :
  evaluate targetPoint site bearing nearField f = Return ev ->
  is_angle bearing -> explicit_azimuth_is_number f ->
  exists q, score ev = Fin q.
Proof.
  intros Hev Hbearing Hnum.
  apply evaluate_inv in Hev as (m & Hrun & _ & _ & _ & Hdev & _ & _ & ->).
  destruct (analyzeSectorGeometry_in_range f _ m Hnum Hrun) as (Haz & _).
  assert (Hd : within 0 180 (deviation ev)).
  { rewrite Hdev. destruct (isOmni m || nearField); [cbn; lra|].
    now apply calculateDeviation_angles. }
  destruct (deviation ev) as [d| |]; try contradiction.
  apply weighted_score_Fin.
Qed.

(** X13: for a site none of whose members has an explicit azimuth that
    is not a number (as [azimuth: Infinity] gives), so that every score
    is a number, the sector that [select_sector] reports is a candidate
    of the selected site, the one with the least score, and among
    candidates of equal score the first in the site's order; the azimuth,
    beamwidth, deviation and containment reported are those of its
    evaluation. *)
Theorem select_sector_takes_least_score
  searchLat searchLng selectedSite safeRank totalSites r :
  select_sector searchLat searchLng selectedSite safeRank totalSites
  = Return r ->
  Forall explicit_azimuth_is_number (candidates selectedSite) ->
  exists evaluated i best,
    mapM (evaluate [searchLng; searchLat] selectedSite
            (normalizeAngle
               (Fin (turfBearing (referencePoint selectedSite)
                       [searchLng; searchLat])))
            (Qltb (distance selectedSite * 1000) 30))
      (candidates selectedSite) = Return evaluated
    /\ nth_error evaluated i = Some best
    /\ nth_error (candidates selectedSite) i = Some (nearestFeature r)
    /\ feature best = nearestFeature r
    /\ sectorAzimuth r = ev_azimuth best
    /\ sectorBeamwidth r = ev_beamwidth best
    /\ deviationAngle r = deviation best
    /\ res_isInside r = isInside best
    /\ forall j e, nth_error evaluated j = Some e ->
         leb (score best) (score e) = true
         /\ ((j < i)%nat -> ltb (score best) (score e) = true).
Proof.
  unfold select_sector. intros Hrun Hnum.
  destruct (mapM _ (candidates selectedSite)) as [evaluated|] eqn:Hmap;
    cbn [bind] in Hrun; [|discriminate].
  destruct (mapM_nth _ _ _ Hmap) as [Hlen Hnth].
  assert (Hfin : Forall (fun e => exists q, score e = Fin q) evaluated).
  { apply Forall_forall. intros e He.
    apply In_nth_error in He as (j & Hj).
    destruct (Hnth j e Hj) as (f & Hf & Hev).
    apply (evaluate_score_Fin _ _ _ _ f e Hev).
    - apply normalizeAngle_within.
    - rewrite Forall_forall in Hnum. apply Hnum.
      now apply nth_error_In in Hf. }
  destruct (sort _ evaluated) as [|bestMatch rest] eqn:Hsort; [discriminate|].
  injection Hrun as <-.
  destruct (sort_head_first_minimum score evaluated bestMatch Hfin)
    as (i & Hi & Hmin).
  { now rewrite Hsort. }
  destruct (Hnth i bestMatch Hi) as (f & Hf & Hev).
  apply evaluate_inv in Hev as (_ & _ & Hfeat & _).
  exists evaluated, i, bestMatch.
  cbn [nearestFeature sectorAzimuth sectorBeamwidth deviationAngle
         res_isInside].
  split; [reflexivity|]. split; [exact Hi|].
  split; [now rewrite Hfeat|].
  repeat (split; [reflexivity|]). exact Hmin.
Qed.

End Winner.

Lemma select_sector_takes_least_score_witness :
  exists r,
    select_sector (H := plane_env) 0.001 0 demo_site 1 1 = Return r
    /\ nearestFeature r = demo_wedge.
Proof.
  destruct (select_sector (H := plane_env) 0.001 0 demo_site 1 1)
    as [r|msg] eqn:E; [|vm_compute in E; discriminate].
  exists r. split; [reflexivity|].
  destruct (select_sector_takes_least_score (H := plane_env) 0.001 0
              demo_site 1 1 r E)
    as (evaluated & i & best & _ & _ & Hc & _).
  - repeat constructor; vm_compute; discriminate.
  - vm_compute in E. injection E as <-. reflexivity.
Defined.

(** ** The bounding-box filter *)

Lemma Math_max_lower a b : a <= Math_max a b /\ b <= Math_max a b.
Proof.
  unfold Math_max. destruct (Qle_bool a b) eqn:E;
    [apply Qle_bool_iff in E|apply Qle_bool_gt in E]; lra.
Qed.

Lemma in_window_iff minLat maxLat minLng maxLng x y rest :
  in_window minLat maxLat minLng maxLng (x :: y :: rest) = true <->
  (minLat <= y /\ y <= maxLat) /\ (minLng <= x /\ x <= maxLng).
Proof.
  unfold in_window. cbn [nth_error].
  rewrite !andb_true_iff, !Qle_bool_iff. tauto.
Qed.

Section Window.
Context `{Env}.

(** Half the width of the window in longitude. *)
Definition lng_threshold (searchLat : Q) : Q :=
  0.5 / Math_max 0.1 (Math_cos_deg searchLat).

(** The anchor of [f] lies in the window around the search point. *)
Definition anchored_in_window (searchLat searchLng : Q) (f : Feature)
  : Prop :=
  exists x y rest,
    feature_center f = Some (x :: y :: rest)
    /\ Qabs (y - searchLat) <= 0.5
    /\ Qabs (x - searchLng) <= lng_threshold searchLat.

Lemma prefilter_anchored searchLat searchLng f x y rest :
  feature_center f = Some (x :: y :: rest) ->
  prefilter (searchLat - 0.5) (searchLat + 0.5)
    (searchLng - lng_threshold searchLat)
    (searchLng + lng_threshold searchLat) f = true
  <-> Qabs (y - searchLat) <= 0.5
      /\ Qabs (x - searchLng) <= lng_threshold searchLat.
Proof.
  intros Hc. unfold prefilter. rewrite Hc, in_window_iff.
  rewrite !Qabs_Qle_condition. split; intros Hw; lra.
Qed.

(** X14: the window of the bounding-box filter reaches half a degree in
    latitude and, whatever the cosine, between 0 and 5 degrees in
    longitude.  The features that go on to clustering are features of the
    dataset, and there are some whenever the dataset has any; as soon as
    one anchored feature lies in the window, every anchored feature that
    goes on lies in the window, and every anchored feature in the window
    goes on. *)
Theorem features_to_analyze_window searchLat searchLng features :
  (0 < lng_threshold searchLat /\ lng_threshold searchLat <= 5)
  /\ (forall f, In f (features_to_analyze searchLat searchLng features) ->
        In f features)
  /\ (features <> [] ->
      features_to_analyze searchLat searchLng features <> [])
  /\ (forall f0,
        In f0 features -> anchored_in_window searchLat searchLng f0 ->
        forall f, feature_center f <> None ->
          In f (features_to_analyze searchLat searchLng features)
          <-> In f features /\ anchored_in_window searchLat searchLng f).
Proof.
  assert (HT : 0 < lng_threshold searchLat /\ lng_threshold searchLat <= 5).
  { unfold lng_threshold.
    destruct (Math_max_lower 0.1 (Math_cos_deg searchLat)) as [Hm _].
    set (c := Math_max 0.1 (Math_cos_deg searchLat)) in *.
    split.
    - apply Qlt_shift_div_l; lra.
    - apply Qle_shift_div_r; lra. }
  split; [exact HT|].
  unfold features_to_analyze. fold (lng_threshold searchLat).
  set (keep := prefilter _ _ _ _).
  split; [|split].
  - intros f. destruct (0 <? List.length (filter keep features))%nat;
      [|tauto].
    intros Hf. now apply filter_In in Hf.
  - intros Hne. destruct (0 <? List.length (filter keep features))%nat eqn:E.
    + apply Nat.ltb_lt in E. destruct (filter keep features);
        [cbn in E; lia|discriminate].
    + exact Hne.
  - intros f0 Hf0 (x0 & y0 & rest0 & Hc0 & Hw0) f Hf.
    assert (Hk0 : keep f0 = true).
    { unfold keep. apply (prefilter_anchored _ _ f0 x0 y0 rest0 Hc0).
      exact Hw0. }
    assert (Hin0 : In f0 (filter keep features)) by now apply filter_In.
    destruct (0 <? List.length (filter keep features))%nat eqn:E.
    2:{ apply Nat.ltb_ge in E. destruct (filter keep features);
          [contradiction|cbn in E; lia]. }
    rewrite filter_In. split.
    + intros [Hin Hk]. split; [exact Hin|].
      unfold keep, prefilter in Hk.
      destruct (feature_center f) as [c|] eqn:Hc; [|congruence].
      destruct c as [|x [|y rest]];
        try (unfold in_window in Hk; cbn in Hk; discriminate).
      exists x, y, rest. split; [exact Hc|].
      apply (prefilter_anchored searchLat searchLng f x y rest Hc).
      unfold prefilter. now rewrite Hc.
    + intros [Hin (x & y & rest & Hc & Hw)]. split; [exact Hin|].
      unfold keep. now apply (prefilter_anchored _ _ f x y rest Hc).
Qed.

End Window.

Lemma features_to_analyze_window_witness :
  In demo_point
    (features_to_analyze (H := plane_env) 0.001 0
       [demo_far_point; demo_point])
  <-> In demo_point [demo_far_point; demo_point]
      /\ anchored_in_window (H := plane_env) 0.001 0 demo_point.
Proof.
  destruct (features_to_analyze_window (H := plane_env) 0.001 0
              [demo_far_point; demo_point]) as (_ & _ & _ & Hw).
  apply (Hw demo_point).
  - right. left. reflexivity.
  - exists 0, 0, []. split; [reflexivity|]. split; vm_compute; discriminate.
  - discriminate.
Defined.

(** ** Clustering as a partition *)

Lemma push_candidate_absent key f siteGroups :
  ~ In key (map id siteGroups) -> push_candidate key f siteGroups = siteGroups.
Proof.
  intros Hfresh. unfold push_candidate.
  rewrite <- (map_id siteGroups) at 2. apply map_ext_in.
  intros g Hg. destruct (String.eqb (id g) key) eqn:Eid; [|reflexivity].
  apply String.eqb_eq in Eid. exfalso. apply Hfresh.
  rewrite <- Eid. now apply in_map.
Qed.

Lemma push_candidate_perm key f siteGroups :
  NoDup (map id siteGroups) -> In key (map id siteGroups) ->
  Permutation
    (List.concat (map candidates (push_candidate key f siteGroups)))
    (f :: List.concat (map candidates siteGroups)).
Proof.
  induction siteGroups as [|g siteGroups IH]; cbn [map]; [contradiction|].
  intros Hnd Hin. apply NoDup_cons_iff in Hnd as [Hg Hnd].
  change (push_candidate key f (g :: siteGroups))
    with ((if String.eqb (id g) key
           then mkSiteGroup (id g) (referencePoint g) (distance g)
                  (candidates g ++ [f])
           else g) :: push_candidate key f siteGroups).
  cbn [map List.concat].
  destruct (String.eqb (id g) key) eqn:Eid.
  - apply String.eqb_eq in Eid. rewrite <- Eid in *.
    rewrite (push_candidate_absent _ f siteGroups Hg).
    cbn [candidates]. rewrite <- app_assoc. cbn [app].
    symmetry. apply Permutation_middle.
  - apply String.eqb_neq in Eid. destruct Hin as [Hin|Hin]; [contradiction|].
    rewrite (IH Hnd Hin). symmetry. apply Permutation_middle.
Qed.

Lemma concat_length_nonempty {A : Type} (l : list (list A)) :
  Forall (fun x => x <> []) l ->
  (List.length l <= List.length (List.concat l))%nat.
Proof.
  induction 1 as [|x l Hx _ IH]; cbn [List.concat List.length]; [lia|].
  rewrite length_app. destruct x; [congruence|cbn; lia].
Qed.

Section Partition.
Context `{Env}.

Lemma cluster_step_perm targetPoint done siteGroups f siteGroups' :
  clustered targetPoint done siteGroups ->
  cluster_step targetPoint siteGroups f = Return siteGroups' ->
  Permutation (List.concat (map candidates siteGroups'))
    (f :: List.concat (map candidates siteGroups)).
Proof.
  intros (Hnd & _ & _). unfold cluster_step.
  destruct (center_coords f) as [c|]; cbn [bind]; [|discriminate].
  destruct (site_key c) as [key|] eqn:Ek; cbn [bind]; [|discriminate].
  destruct (has_site key siteGroups) eqn:Ehas; cbn [negb bind].
  - intros E. injection E as <-. apply has_site_iff in Ehas.
    now apply push_candidate_perm.
  - rewrite (site_key_point c key Ek). cbn [bind].
    intros E. injection E as <-.
    assert (Hfresh : ~ In key (map id siteGroups)).
    { intros Hin. apply has_site_iff in Hin. congruence. }
    rewrite push_candidate_perm.
    + rewrite map_app, concat_app. cbn. now rewrite !app_nil_r.
    + rewrite map_app. cbn [map id]. apply NoDup_app; [assumption| |].
      * repeat constructor. intros [].
      * intros k Hk [<-|[]]. contradiction.
    + rewrite map_app. apply in_or_app. right. now left.
Qed.

Lemma foldM_cluster_perm targetPoint rest done siteGroups siteGroups' :
  clustered targetPoint done siteGroups ->
  Permutation (List.concat (map candidates siteGroups)) done ->
  foldM (cluster_step targetPoint) rest siteGroups = Return siteGroups' ->
  Permutation (List.concat (map candidates siteGroups')) (done ++ rest).
Proof.
  revert done siteGroups. induction rest as [|f rest IH];
    intros done siteGroups Hinv Hperm; cbn [foldM].
  - intros E. injection E as <-. now rewrite app_nil_r.
  - destruct (cluster_step targetPoint siteGroups f) as [next|] eqn:Es;
      cbn [bind]; [|discriminate].
    intros E. replace (done ++ f :: rest) with ((done ++ [f]) ++ rest)
      by now rewrite <- app_assoc.
    apply (IH _ next); [| |assumption].
    + now apply (cluster_step_clustered targetPoint done siteGroups).
    + rewrite (cluster_step_perm targetPoint done siteGroups f next Hinv Es).
      rewrite Hperm. apply Permutation_cons_append.
Qed.

(** X15: clustering partitions its input: taken together, the members of
    the sites are the input features, each one in exactly one site; no
    site is empty, so there are at most as many sites as features, and at
    least one when there is a feature. *)
Theorem cluster_partitions targetPoint features siteGroups :
  cluster targetPoint features = Return siteGroups ->
  Permutation (List.concat (map candidates siteGroups)) features
  /\ Forall (fun g => candidates g <> []) siteGroups
  /\ (List.length siteGroups <= List.length features)%nat
  /\ (features <> [] -> siteGroups <> []).
Proof.
  intros E.
  assert (Hinit : clustered targetPoint [] []).
  { repeat split; constructor. }
  pose proof (foldM_cluster_perm targetPoint features [] [] siteGroups
                Hinit (Permutation_refl _) E) as Hperm.
  destruct (foldM_cluster_clustered targetPoint features [] [] siteGroups
              Hinit E) as (_ & Hsites & _).
  cbn [app] in *.
  assert (Hne : Forall (fun g => candidates g <> []) siteGroups).
  { apply Forall_forall. intros g Hg. rewrite Forall_forall in Hsites.
    destruct (Hsites g Hg) as (_ & f0 & rest & c0 & -> & _). discriminate. }
  split; [exact Hperm|]. split; [exact Hne|]. split.
  - rewrite <- (Permutation_length Hperm).
    rewrite <- (length_map candidates siteGroups).
    apply concat_length_nonempty. now apply Forall_map.
  - intros Hf ->. cbn in Hperm. apply Permutation_nil in Hperm. congruence.
Qed.

End Partition.

Lemma cluster_partitions_witness :
  exists siteGroups,
    cluster (H := plane_env) [0; 0.001] [demo_wedge; demo_far_point; demo_point]
    = Return siteGroups
    /\ Permutation (List.concat (map candidates siteGroups))
         [demo_wedge; demo_far_point; demo_point]
    /\ List.length siteGroups = 2%nat.
Proof.
  eexists. split; [vm_compute; reflexivity|].
  split; [|reflexivity].
  apply (cluster_partitions (H := plane_env) [0; 0.001]
           [demo_wedge; demo_far_point; demo_point]).
  vm_compute. reflexivity.
Defined.

(** ** The result of an analysis *)

Lemma array_get_Some {A : Type} (l : list A) (k : Q) a :
  array_get l k = Some a ->
  exists n, k == inject_Z (Z.of_nat n) /\ nth_error l n = Some a.
Proof.
  unfold array_get.
  destruct (Qeq_bool k (inject_Z (Qfloor k))) eqn:Ek; [|discriminate].
  destruct (0 <=? Qfloor k)%Z eqn:E0; [|discriminate].
  cbn [andb]. intros Hn. exists (Z.to_nat (Qfloor k)). split; [|exact Hn].
  apply Qeq_bool_iff in Ek. apply Z.leb_le in E0.
  rewrite Z2Nat.id by assumption. exact Ek.
Qed.

Section Result.
Context `{Env}.

Lemma features_to_analyze_incl searchLat searchLng features f :
  In f (features_to_analyze searchLat searchLng features) -> In f features.
Proof.
  unfold features_to_analyze.
  destruct (0 <? List.length (filter _ features))%nat; [|tauto].
  intros Hf. now apply filter_In in Hf.
Qed.

Lemma features_to_analyze_length searchLat searchLng features :
  (List.length (features_to_analyze searchLat searchLng features)
   <= List.length features)%nat.
Proof.
  unfold features_to_analyze.
  destruct (0 <? List.length (filter _ features))%nat; [|lia].
  apply filter_length_le.
Qed.

(** How [performSpatialAnalysis] arrives at a result. *)
Lemma performSpatialAnalysis_inv searchLat searchLng features rank r :
  performSpatialAnalysis searchLat searchLng features rank = Return r ->
  exists siteGroups k selectedSite,
    features <> []
    /\ cluster [searchLng; searchLat]
         (features_to_analyze searchLat searchLng features)
       = Return siteGroups
    /\ nth_error (rank_sites siteGroups) k = Some selectedSite
    /\ safe_rank rank (List.length siteGroups) == inject_Z (Z.of_nat (S k))
    /\ select_sector searchLat searchLng selectedSite
         (safe_rank rank (List.length siteGroups)) (List.length siteGroups)
       = Return r.
Proof.
  unfold performSpatialAnalysis.
  destruct (List.length features =? 0)%nat eqn:E0; [discriminate|].
  destruct (cluster _ _) as [siteGroups|] eqn:Ec; cbn [bind]; [|discriminate].
  unfold rank_sites at 2 3 4. rewrite sort_length.
  destruct (array_get _ _) as [selectedSite|] eqn:Eg; [|discriminate].
  intros Hr. apply array_get_Some in Eg as (k & Hk & Hnth).
  exists siteGroups, k, selectedSite.
  split; [intros ->; discriminate|]. split; [reflexivity|].
  split; [exact Hnth|]. split; [|exact Hr].
  rewrite Nat2Z.inj_succ. unfold Z.succ. rewrite inject_Z_plus.
  change (inject_Z 1) with 1. lra.
Qed.

(** What [select_sector] copies into the result. *)
Lemma select_sector_inv searchLat searchLng selectedSite safeRank total r :
  select_sector searchLat searchLng selectedSite safeRank total = Return r ->
  In (nearestFeature r) (candidates selectedSite)
  /\ res_rank r = safeRank /\ totalFeatures r = total
  /\ res_distance r = distance selectedSite
  /\ searchPoint r = mkLatLng searchLat searchLng
  /\ nearestPoint r
     = mkLatLng (nth 1 (referencePoint selectedSite) 0)
         (nth 0 (referencePoint selectedSite) 0)
  /\ is_angle (res_bearing r).
Proof.
  unfold select_sector.
  destruct (mapM _ (candidates selectedSite)) as [evaluated|] eqn:Hmap;
    cbn [bind]; [|discriminate].
  destruct (sort _ evaluated) as [|bestMatch rest] eqn:Hsort; [discriminate|].
  intros E. injection E as <-.
  cbn [nearestFeature res_rank totalFeatures res_distance searchPoint
         nearestPoint res_bearing].
  split; [|repeat (split; [reflexivity|]); apply normalizeAngle_within].
  assert (Hin : In bestMatch evaluated).
  { apply (Permutation_in _
             (sort_perm (fun a b => sub (score a) (score b)) evaluated)).
    rewrite Hsort. now left. }
  apply In_nth_error in Hin as (i & Hi).
  destruct (mapM_nth _ _ _ Hmap) as [_ Hnth].
  destruct (Hnth i bestMatch Hi) as (f & Hf & Hev).
  apply evaluate_inv in Hev as (_ & _ & -> & _).
  now apply nth_error_In in Hf.
Qed.

(** X16: a result of [performSpatialAnalysis] is well formed: the feature
    it names is a feature of the dataset; the number of sites it reports
    is at least 1 and at most the number of features; the rank it reports
    is a whole number between 1 and that number of sites; the search
    point is the one given; the bearing is an angle of [0,360); and the
    distance and the nearest point are those of the anchor of a feature
    of the dataset, the first member of the selected site. *)
Theorem performSpatialAnalysis_result
  searchLat searchLng features rank r :
  performSpatialAnalysis searchLat searchLng features rank = Return r ->
  In (nearestFeature r) features
  /\ (1 <= totalFeatures r <= List.length features)%nat
  /\ (exists k, res_rank r == inject_Z (Z.of_nat k)
                /\ (1 <= k <= totalFeatures r)%nat)
  /\ searchPoint r = mkLatLng searchLat searchLng
  /\ is_angle (res_bearing r)
  /\ exists f0 c0,
       In f0 features /\ center_coords f0 = Return c0
       /\ res_distance r
          = turfDistance [searchLng; searchLat] c0 kilometers
       /\ nearestPoint r = mkLatLng (nth 1 c0 0) (nth 0 c0 0).
Proof.
  intros Hr.
  apply performSpatialAnalysis_inv in Hr
    as (siteGroups & k & site & Hne & Hc & Hk & Hrank & Hsel).
  apply select_sector_inv in Hsel
    as (Hin & Hrk & Htot & Hdist & Hsp & Hnp & Hb).
  assert (Hinit : clustered [searchLng; searchLat] [] []).
  { repeat split; constructor. }
  pose proof (foldM_cluster_perm _ _ [] [] siteGroups Hinit
                (Permutation_refl _) Hc) as Hperm.
  destruct (foldM_cluster_clustered _ _ [] [] siteGroups Hinit Hc)
    as (_ & Hsites & _).
  cbn [app] in *. rewrite Forall_forall in Hsites.
  assert (Hsite : In site siteGroups).
  { apply (Permutation_in _
             (sort_perm (fun a b => Fin (distance a - distance b))
                siteGroups)).
    now apply nth_error_In in Hk. }
  assert (Hsub : forall f, In f (candidates site) -> In f features).
  { intros f Hf. apply (features_to_analyze_incl searchLat searchLng).
    apply (Permutation_in _ Hperm). apply in_concat.
    exists (candidates site). split; [now apply in_map|exact Hf]. }
  assert (Hklen : (k < List.length siteGroups)%nat).
  { rewrite <- (sort_length (fun a b => Fin (distance a - distance b))).
    apply nth_error_Some. unfold rank_sites in Hk. congruence. }
  assert (Hlen : (List.length siteGroups <= List.length features)%nat).
  { etransitivity; [|apply (features_to_analyze_length searchLat searchLng)].
    rewrite <- (Permutation_length Hperm).
    rewrite <- (length_map candidates siteGroups).
    apply concat_length_nonempty, Forall_map, Forall_forall.
    intros g Hg. destruct (Hsites g Hg) as (_ & f0 & rest & c0 & -> & _).
    discriminate. }
  split; [now apply Hsub|]. split; [lia|]. split.
  { exists (S k). rewrite Hrk, Htot. split; [exact Hrank|lia]. }
  split; [exact Hsp|]. split; [exact Hb|].
  destruct (Hsites site Hsite) as (_ & f0 & rest & c0 & Hcs & Hc0 & Href & Hd).
  exists f0, c0. split; [apply Hsub; rewrite Hcs; now left|].
  split; [exact Hc0|]. split; [now rewrite Hdist|].
  now rewrite Hnp, Href.
Qed.

End Result.

Lemma performSpatialAnalysis_result_witness :
  exists r,
    performSpatialAnalysis (H := plane_env) 0.001 0
      [demo_point; demo_far_point] 2 = Return r
    /\ In (nearestFeature r) [demo_point; demo_far_point]
    /\ (1 <= totalFeatures r <= 2)%nat.
Proof.
  destruct (performSpatialAnalysis (H := plane_env) 0.001 0
              [demo_point; demo_far_point] 2) as [r|msg] eqn:E;
    [|vm_compute in E; discriminate].
  exists r. split; [reflexivity|].
  destruct (performSpatialAnalysis_result (H := plane_env) 0.001 0
              [demo_point; demo_far_point] 2 r E) as (Hin & Htot & _).
  split; assumption.
Defined.

(** ** Chunking of large files *)

Lemma handleLoadMore_one sourceId ds :
  let ds' :=
    if String.eqb (ds_id ds) sourceId
       && (0 <? List.length (pendingFeatures ds))%nat
    then mkDataSource (ds_id ds) (ds_name ds)
           (ds_features ds ++ firstn LOAD_MORE_BATCH (pendingFeatures ds))
           (ds_isActive ds) (skipn LOAD_MORE_BATCH (pendingFeatures ds))
    else ds in
  fullFeatures ds' = fullFeatures ds
  /\ ds_id ds' = ds_id ds /\ ds_name ds' = ds_name ds
  /\ ds_isActive ds' = ds_isActive ds
  /\ (ds_id ds = sourceId ->
      List.length (pendingFeatures ds')
      = (List.length (pendingFeatures ds) - LOAD_MORE_BATCH)%nat
      /\ List.length (ds_features ds')
         = (List.length (ds_features ds)
            + Nat.min LOAD_MORE_BATCH (List.length (pendingFeatures ds)))%nat).
Proof.
  cbv zeta.
  destruct (String.eqb (ds_id ds) sourceId
            && (0 <? List.length (pendingFeatures ds))%nat) eqn:E.
  - unfold fullFeatures. cbn [ds_features pendingFeatures ds_id ds_name
                                ds_isActive].
    rewrite <- app_assoc, firstn_skipn.
    repeat (split; [reflexivity|]). intros _.
    now rewrite length_skipn, length_app, length_firstn.
  - repeat (split; [reflexivity|]). intros Hid.
    apply andb_false_iff in E as [E|E].
    + apply String.eqb_neq in E. contradiction.
    + apply Nat.ltb_ge in E.
      assert (E0 : List.length (pendingFeatures ds) = 0%nat) by lia.
      rewrite E0, Nat.min_0_r. split; [reflexivity|lia].
Qed.

(** X17: a large file is cut into the features drawn at once, at most
    50000, and the features held back, and nothing is lost: drawn and
    held back together are the features of the file, in order.
    [handleLoadMore] keeps it so for every source, moves up to 10000
    features of the named source from the held back to the drawn, and
    leaves the identifiers, names and activation of the sources alone. *)
Theorem chunking_keeps_every_feature :
  (forall id name features,
      fullFeatures (newSource id name features) = features
      /\ ds_features (newSource id name features)
         = firstn MAX_RENDER_LIMIT features
      /\ pendingFeatures (newSource id name features)
         = skipn MAX_RENDER_LIMIT features)
  /\ (forall sourceId dataSources,
        map fullFeatures (handleLoadMore sourceId dataSources)
        = map fullFeatures dataSources
        /\ map ds_id (handleLoadMore sourceId dataSources)
           = map ds_id dataSources
        /\ map ds_isActive (handleLoadMore sourceId dataSources)
           = map ds_isActive dataSources
        /\ forall i ds,
             nth_error dataSources i = Some ds -> ds_id ds = sourceId ->
             exists ds',
               nth_error (handleLoadMore sourceId dataSources) i = Some ds'
               /\ List.length (pendingFeatures ds')
                  = (List.length (pendingFeatures ds) - LOAD_MORE_BATCH)%nat
               /\ List.length (ds_features ds')
                  = (List.length (ds_features ds)
                     + Nat.min LOAD_MORE_BATCH
                         (List.length (pendingFeatures ds)))%nat).
Proof.
  split.
  - intros id name features. unfold newSource, fullFeatures.
    destruct (MAX_RENDER_LIMIT <? List.length features)%nat eqn:E;
      cbn [ds_features pendingFeatures].
    + now rewrite firstn_skipn.
    + apply Nat.ltb_ge in E.
      rewrite app_nil_r, (firstn_all2 features E), (skipn_all2 features E).
      repeat split.
  - intros sourceId dataSources. unfold handleLoadMore.
    rewrite !map_map. split; [|split; [|split]].
    + apply map_ext. intros ds. apply (handleLoadMore_one sourceId ds).
    + apply map_ext. intros ds. apply (handleLoadMore_one sourceId ds).
    + apply map_ext. intros ds. apply (handleLoadMore_one sourceId ds).
    + intros i ds Hi Hid. rewrite nth_error_map, Hi. cbn [option_map].
      eexists. split; [reflexivity|].
      apply (handleLoadMore_one sourceId ds). exact Hid.
Qed.

(** ** The results of a search *)

(** The order of the results: ascending distance, a distance of 0 last. *)
Definition listed_before (a b : SourcedResult) : Prop :=
  res_distance (analysis b) == 0
  \/ (~ res_distance (analysis a) == 0
      /\ res_distance (analysis a) <= res_distance (analysis b)).

Lemma distance_or_Infinity_order a b :
  if gtb (sub (distance_or_Infinity a) (distance_or_Infinity b)) (Fin 0)
  then listed_before b a else listed_before a b.
Proof.
  unfold distance_or_Infinity, listed_before.
  destruct (Qeq_bool (res_distance (analysis a)) 0) eqn:Ea;
    destruct (Qeq_bool (res_distance (analysis b)) 0) eqn:Eb.
  - apply Qeq_bool_iff in Eb.
    cbv [sub add neg gtb ltb Bool.eqb negb]. left. exact Eb.
  - apply Qeq_bool_iff in Ea.
    cbv [sub add neg gtb ltb Bool.eqb negb]. left. exact Ea.
  - apply Qeq_bool_iff in Eb.
    cbv [sub add neg gtb ltb Bool.eqb negb]. left. exact Eb.
  - apply Qeq_bool_neq in Ea. apply Qeq_bool_neq in Eb.
    change (gtb (sub (Fin ?x) (Fin ?y)) (Fin 0)) with (Qltb 0 (x + - y)).
    destruct (Qltb 0 (_ + - _)) eqn:L;
      [apply Qltb_lt in L|apply Qltb_ge in L]; right; split;
      try assumption; lra.
Qed.

Section Search.
Context `{Env}.

(** The result of one source, when its analysis returns. *)
Definition source_result (coords : LatLng) (ds : DataSource)
  (sr : SourcedResult) : Prop :=
  performSpatialAnalysis (lat coords) (lng coords) (fullFeatures ds) 1
  = Return (analysis sr)
  /\ sourceId sr = ds_id ds /\ sourceName sr = ds_name ds.

Lemma newResults_In coords sources acc sr :
  In sr
    (fold_left
       (fun newResults ds =>
          try_catch
            (result <-
               performSpatialAnalysis (lat coords) (lng coords)
                 (fullFeatures ds) 1 ;;
             Return (newResults
                     ++ [mkSourcedResult result (ds_id ds) (ds_name ds)]))
            newResults)
       sources acc)
  <-> In sr acc
      \/ exists ds, In ds sources /\ source_result coords ds sr.
Proof.
  revert acc. induction sources as [|ds sources IH]; intros acc;
    cbn [fold_left].
  - split; [now left|]. intros [Hin|(ds & [] & _)]. exact Hin.
  - rewrite IH. unfold source_result at 2.
    destruct (performSpatialAnalysis (lat coords) (lng coords)
                (fullFeatures ds) 1) as [r|msg] eqn:Er;
      cbn [bind try_catch].
    + rewrite in_app_iff. cbn [In]. split.
      * intros [[Hin|[<-|[]]]|(ds' & Hds' & Hsr)].
        -- now left.
        -- right. exists ds. split; [now left|]. now repeat split.
        -- right. exists ds'. split; [now right|exact Hsr].
      * intros [Hin|(ds' & [<-|Hds'] & Hsr)].
        -- left. now left.
        -- left. right. left. destruct Hsr as (Ha & Hi & Hn).
           rewrite Er in Ha. injection Ha as ->.
           destruct sr as [a i n]. cbn in *. now subst.
        -- right. exists ds'. now split.
    + split.
      * intros [Hin|(ds' & Hds' & Hsr)]; [now left|].
        right. exists ds'. split; [now right|exact Hsr].
      * intros [Hin|(ds' & [<-|Hds'] & Hsr)].
        -- now left.
        -- destruct Hsr as (Ha & _). congruence.
        -- right. exists ds'. now split.
Qed.

(** X18: a search returns one result for every active source whose
    analysis at rank 1 returns, and for no other: a source whose analysis
    throws is passed over without disturbing the rest.  The results are
    listed by ascending distance, except that a result at distance 0 is
    listed after every result at a positive distance.  The features held
    back by the chunking take part: loading more of them onto the map
    changes no result. *)
Theorem handleSearch_results_spec coords dataSources :
  (forall sr,
      In sr (handleSearch_results coords dataSources) <->
      exists ds, In ds dataSources /\ ds_isActive ds = true
                 /\ source_result coords ds sr)
  /\ (forall i j a b,
        (i < j)%nat ->
        nth_error (handleSearch_results coords dataSources) i = Some a ->
        nth_error (handleSearch_results coords dataSources) j = Some b ->
        listed_before a b)
  /\ (forall sourceId,
        handleSearch_results coords (handleLoadMore sourceId dataSources)
        = handleSearch_results coords dataSources).
Proof.
  split; [|split].
  - intros sr. unfold handleSearch_results.
    set (cmp := fun a b => sub (distance_or_Infinity a) (distance_or_Infinity b)).
    split.
    + intros Hin. apply (Permutation_in _ (sort_perm cmp _)) in Hin.
      apply newResults_In in Hin as [[]|(ds & Hds & Hsr)].
      apply filter_In in Hds as [Hds Hact]. now exists ds.
    + intros (ds & Hds & Hact & Hsr).
      apply (Permutation_in _ (Permutation_sym (sort_perm cmp _))).
      apply newResults_In. right. exists ds. split; [|exact Hsr].
      now apply filter_In.
  - intros i j a b Hij Ha Hb. unfold handleSearch_results in Ha, Hb.
    refine (StronglySorted_nth listed_before _ i j a b _ Hij Ha Hb).
    apply Sorted_StronglySorted.
    { intros x y z Hxy Hyz. unfold listed_before in *.
      destruct Hyz as [Hz|[Hy Hyz]]; [now left|].
      destruct Hxy as [Hy'|[Hx Hxy]]; [contradiction|].
      right. split; [assumption|lra]. }
    apply (sort_sorted _ (fun _ => True) listed_before);
      [|now apply Forall_forall].
    intros x y _ _. apply distance_or_Infinity_order.
  - intros sourceId. unfold handleSearch_results. f_equal.
    unfold handleLoadMore.
    induction dataSources as [|ds dataSources IH] using rev_ind;
      [reflexivity|].
    rewrite map_app, !filter_app, !fold_left_app. cbn [map filter].
    destruct (handleLoadMore_one sourceId ds) as (Hfull & Hid & Hname & Hact & _).
    cbv zeta in Hfull, Hid, Hname, Hact.
    rewrite Hact. destruct (ds_isActive ds); cbn [fold_left].
    + now rewrite IH, Hfull, Hid, Hname.
    + exact IH.
Qed.

End Search.

(** ** Stepping through the sites *)

Lemma array_set_length {A : Type} (l : list A) i x :
  List.length (array_set l i x) = List.length l.
Proof.
  revert i. induction l as [|y l IH]; intros [|i]; cbn; congruence.
Qed.

Lemma array_set_other {A : Type} (l : list A) i j x :
  j <> i -> nth_error (array_set l i x) j = nth_error l j.
Proof.
  revert i j. induction l as [|y l IH]; intros [|i] [|j] Hij;
    cbn [array_set nth_error]; try reflexivity; try congruence.
  apply IH. congruence.
Qed.

Lemma array_set_same {A : Type} (l : list A) i x y :
  nth_error l i = Some y -> nth_error (array_set l i x) i = Some x.
Proof.
  revert i. induction l as [|z l IH]; intros [|i]; cbn [array_set nth_error];
    try discriminate; [reflexivity|apply IH].
Qed.

Lemma array_set_twice {A : Type} (l : list A) i x y :
  array_set (array_set l i x) i y = array_set l i y.
Proof.
  revert i. induction l as [|z l IH]; intros [|i]; cbn [array_set];
    try reflexivity. now rewrite IH.
Qed.

Lemma safe_rank_in_range x n :
  1 <= x -> x <= inject_Z (Z.of_nat n) -> safe_rank x n = x.
Proof.
  intros H1 Hn. unfold safe_rank, Math_max, Math_min.
  apply Qle_bool_iff in Hn. rewrite Hn.
  apply Qle_bool_iff in H1. now rewrite H1.
Qed.

Lemma array_get_compat {A : Type} (l : list A) k1 k2 :
  k1 == k2 -> array_get l k1 = array_get l k2.
Proof.
  intros Hk. unfold array_get.
  assert (Hf : Qfloor k1 = Qfloor k2) by now apply Qfloor_comp.
  rewrite Hf.
  destruct (Qeq_bool k1 _) eqn:E1, (Qeq_bool k2 _) eqn:E2; try reflexivity.
  - apply Qeq_bool_iff in E1. apply Qeq_bool_neq in E2.
    exfalso. apply E2. lra.
  - apply Qeq_bool_iff in E2. apply Qeq_bool_neq in E1.
    exfalso. apply E1. lra.
Qed.

(** [r] with another rank. *)
Definition set_rank (r : AnalysisResult) (rank : Q) : AnalysisResult :=
  mkAnalysisResult (nearestFeature r) (res_distance r) (res_bearing r)
    (sectorAzimuth r) (sectorBeamwidth r) (deviationAngle r)
    (res_isInside r) (searchPoint r) (nearestPoint r) rank
    (totalFeatures r).

Section Navigation.
Context `{Env}.

Lemma select_sector_rank searchLat searchLng site rank1 rank2 total r :
  select_sector searchLat searchLng site rank1 total = Return r ->
  select_sector searchLat searchLng site rank2 total
  = Return (set_rank r rank2).
Proof.
  unfold select_sector.
  destruct (mapM _ (candidates site)) as [evaluated|]; cbn [bind];
    [|discriminate].
  destruct (sort _ evaluated) as [|bestMatch rest]; [discriminate|].
  intros E. injection E as <-. reflexivity.
Qed.

(** Two ranks that clamp to the same number select the same site. *)
Lemma performSpatialAnalysis_rank_compat
  searchLat searchLng features rank1 rank2 r :
  performSpatialAnalysis searchLat searchLng features rank1 = Return r ->
  safe_rank rank2 (totalFeatures r) == res_rank r ->
  performSpatialAnalysis searchLat searchLng features rank2
  = Return (set_rank r (safe_rank rank2 (totalFeatures r))).
Proof.
  unfold performSpatialAnalysis.
  destruct (List.length features =? 0)%nat; [discriminate|].
  destruct (cluster _ _) as [siteGroups|]; cbn [bind]; [|discriminate].
  set (sites := rank_sites siteGroups).
  destruct (array_get sites (safe_rank rank1 (List.length sites) - 1))
    as [site|] eqn:Eg; [|discriminate].
  intros Hsel Hrank.
  pose proof (select_sector_inv _ _ _ _ _ _ Hsel) as (_ & Hrk & Htot & _).
  rewrite Htot, Hrk in *.
  rewrite (array_get_compat sites _ (safe_rank rank1 (List.length sites) - 1)),
    Eg by lra.
  exact (select_sector_rank _ _ _ _ _ _ _ Hsel).
Qed.

(** What the handlers rely on: an entry of [analysisResults] that an
    analysis of its source produced. *)
Definition entry_of (dataSources : list DataSource) (source : DataSource)
  (current : SourcedResult) : Prop :=
  find (fun ds => String.eqb (ds_id ds) (sourceId current)) dataSources
  = Some source
  /\ exists rank,
       performSpatialAnalysis (lat (searchPoint (analysis current)))
         (lng (searchPoint (analysis current))) (fullFeatures source) rank
       = Return (analysis current).

(** The site at a rank and the site at the next rank. *)
Lemma next_rank_not_nearer searchLat searchLng features rank r r' :
  performSpatialAnalysis searchLat searchLng features rank = Return r ->
  performSpatialAnalysis searchLat searchLng features (res_rank r + 1)
  = Return r' ->
  res_rank r + 1 <= inject_Z (Z.of_nat (totalFeatures r)) ->
  res_rank r' = res_rank r + 1
  /\ totalFeatures r' = totalFeatures r
  /\ searchPoint r' = searchPoint r
  /\ res_distance r <= res_distance r'.
Proof.
  intros Hr Hr' Hle.
  apply performSpatialAnalysis_inv in Hr
    as (sg & k & site & _ & Hc & Hk & Hrank & Hsel).
  apply performSpatialAnalysis_inv in Hr'
    as (sg' & k' & site' & _ & Hc' & Hk' & Hrank' & Hsel').
  rewrite Hc in Hc'. injection Hc' as <-.
  apply select_sector_inv in Hsel as (_ & Hrk & Htot & Hd & Hsp & _).
  apply select_sector_inv in Hsel' as (_ & Hrk' & Htot' & Hd' & Hsp' & _).
  rewrite Htot in Hle.
  assert (H1 : 1 <= res_rank r + 1).
  { rewrite Hrk, Hrank, Nat2Z.inj_succ. unfold Z.succ.
    rewrite inject_Z_plus. change (inject_Z 1) with 1.
    assert (0 <= inject_Z (Z.of_nat k)); [|lra].
    change 0 with (inject_Z 0). rewrite <- Zle_Qle. lia. }
  rewrite (safe_rank_in_range _ _ H1 Hle) in Hrank', Hrk'.
  split; [exact Hrk'|]. split; [congruence|]. split; [congruence|].
  assert (Hkk : k' = S k).
  { rewrite Hrk, Hrank in Hrank'.
    change 1 with (inject_Z 1) in Hrank'.
    rewrite <- inject_Z_plus in Hrank'.
    apply (proj1 (inject_Z_injective _ _)) in Hrank'. lia. }
  subst k'. rewrite Hd, Hd'.
  exact (StronglySorted_nth nearer _ k (S k) site site'
           (rank_sites_sorted sg) (Nat.lt_succ_diag_r k) Hk Hk').
Qed.

(** X19: [handleFindNext] touches the entry at the given index only.  For
    an entry that an analysis of its source produced, that entry stays as
    it is when its rank is the number of sites, and also when the
    analysis at the next rank throws; otherwise it becomes the result of
    that analysis, for the same source and search point, with the rank
    increased by exactly 1, the same number of sites, and a site that is
    not nearer than the previous one. *)
Theorem handleFindNext_steps
  dataSources analysisResults resultIndex current source :
  nth_error analysisResults resultIndex = Some current ->
  entry_of dataSources source current ->
  let results := handleFindNext dataSources analysisResults resultIndex in
  List.length results = List.length analysisResults
  /\ (forall j, j <> resultIndex ->
        nth_error results j = nth_error analysisResults j)
  /\ exists next,
       nth_error results resultIndex = Some next
       /\ sourceId next = sourceId current
       /\ searchPoint (analysis next) = searchPoint (analysis current)
       /\ totalFeatures (analysis next) = totalFeatures (analysis current)
       /\ res_distance (analysis current) <= res_distance (analysis next)
       /\ (next = current
           \/ res_rank (analysis next) = res_rank (analysis current) + 1)
       /\ (inject_Z (Z.of_nat (totalFeatures (analysis current)))
           <= res_rank (analysis current) -> next = current)
       /\ (forall r,
             res_rank (analysis current) + 1
             <= inject_Z (Z.of_nat (totalFeatures (analysis current))) ->
             performSpatialAnalysis (lat (searchPoint (analysis current)))
               (lng (searchPoint (analysis current))) (fullFeatures source)
               (res_rank (analysis current) + 1) = Return r ->
             next = mkSourcedResult r (ds_id source) (ds_name source))
       /\ (forall message,
             performSpatialAnalysis (lat (searchPoint (analysis current)))
               (lng (searchPoint (analysis current))) (fullFeatures source)
               (res_rank (analysis current) + 1) = Throw message ->
             next = current).
Proof.
  intros Hcur (Hsrc & rank & Hpsa) results. subst results.
  unfold handleFindNext. rewrite Hcur, Hsrc.
  assert (Hstay : List.length analysisResults = List.length analysisResults
    /\ (forall j, j <> resultIndex ->
          nth_error analysisResults j = nth_error analysisResults j)
    /\ exists next,
         nth_error analysisResults resultIndex = Some next
         /\ sourceId next = sourceId current
         /\ searchPoint (analysis next) = searchPoint (analysis current)
         /\ totalFeatures (analysis next) = totalFeatures (analysis current)
         /\ res_distance (analysis current) <= res_distance (analysis next)
         /\ (next = current
             \/ res_rank (analysis next) = res_rank (analysis current) + 1)
         /\ next = current).
  { split; [reflexivity|]. split; [reflexivity|]. exists current.
    repeat (split; [reflexivity || assumption|]).
    split; [lra|]. split; [now left|reflexivity]. }
  destruct Hstay as (Hlen & Hoth & next & Hn & Hid & Hsp & Htot & Hd & Hrk & He).
  destruct (Qltb _ (res_rank (analysis current) + 1)) eqn:Hguard.
  { apply Qltb_lt in Hguard.
    split; [exact Hlen|]. split; [exact Hoth|]. exists next.
    repeat (split; [assumption|]). split; [intros _; exact He|].
    split; [intros r Hle _; lra|intros message _; exact He]. }
  apply Qltb_ge in Hguard.
  destruct (performSpatialAnalysis _ _ (fullFeatures source)
              (res_rank (analysis current) + 1)) as [r'|msg] eqn:Hnext;
    cbn [bind try_catch].
  2:{ split; [exact Hlen|]. split; [exact Hoth|]. exists next.
      repeat (split; [assumption|]). split; [intros _; exact He|].
      split; [intros r _ Hr; discriminate|intros message _; exact He]. }
  destruct (next_rank_not_nearer _ _ _ _ _ _ Hpsa Hnext Hguard)
    as (Hr1 & Hr2 & Hr3 & Hr4).
  split; [apply array_set_length|].
  split; [intros j Hj; now apply array_set_other|].
  eexists. split; [apply (array_set_same _ _ _ current Hcur)|].
  cbn [analysis sourceId sourceName].
  split.
  { apply find_some in Hsrc as [_ Hsrc]. apply String.eqb_eq in Hsrc.
    exact Hsrc. }
  split; [exact Hr3|]. split; [exact Hr2|]. split; [exact Hr4|].
  split; [right; exact Hr1|]. split; [|split].
  - intros Hlast. exfalso.
    assert (Hpos : 0 < 1) by lra. lra.
  - intros r _ Hr. injection Hr as <-. reflexivity.
  - intros message Hm. discriminate.
Qed.

Lemma performSpatialAnalysis_rank_range
  searchLat searchLng features rank r :
  performSpatialAnalysis searchLat searchLng features rank = Return r ->
  1 <= res_rank r /\ res_rank r <= inject_Z (Z.of_nat (totalFeatures r)).
Proof.
  intros Hr.
  apply performSpatialAnalysis_inv in Hr
    as (sg & k & site & _ & _ & Hk & Hrank & Hsel).
  apply select_sector_inv in Hsel as (_ & -> & -> & _).
  assert (Hlt : (k < List.length sg)%nat).
  { rewrite <- (sort_length (fun a b => Fin (distance a - distance b))).
    apply nth_error_Some. unfold rank_sites in Hk. congruence. }
  rewrite Hrank. change 1 with (inject_Z 1). rewrite <- !Zle_Qle. lia.
Qed.

(** The site at a rank and the site at the rank before. *)
Lemma previous_rank_not_farther searchLat searchLng features rank r r' :
  performSpatialAnalysis searchLat searchLng features rank = Return r ->
  performSpatialAnalysis searchLat searchLng features (res_rank r - 1)
  = Return r' ->
  1 <= res_rank r - 1 ->
  res_rank r' = res_rank r - 1
  /\ totalFeatures r' = totalFeatures r
  /\ searchPoint r' = searchPoint r
  /\ res_distance r' <= res_distance r.
Proof.
  intros Hr Hr' Hge.
  pose proof (performSpatialAnalysis_rank_range _ _ _ _ _ Hr) as [_ Hle].
  apply performSpatialAnalysis_inv in Hr
    as (sg & k & site & _ & Hc & Hk & Hrank & Hsel).
  apply performSpatialAnalysis_inv in Hr'
    as (sg' & k' & site' & _ & Hc' & Hk' & Hrank' & Hsel').
  rewrite Hc in Hc'. injection Hc' as <-.
  apply select_sector_inv in Hsel as (_ & Hrk & Htot & Hd & Hsp & _).
  apply select_sector_inv in Hsel' as (_ & Hrk' & Htot' & Hd' & Hsp' & _).
  rewrite Htot in Hle.
  assert (Hle' : res_rank r - 1 <= inject_Z (Z.of_nat (List.length sg)))
    by lra.
  rewrite (safe_rank_in_range _ _ Hge Hle') in Hrank', Hrk'.
  split; [exact Hrk'|]. split; [congruence|]. split; [congruence|].
  assert (Hkk : k = S k').
  { rewrite Hrk, Hrank in Hrank'.
    assert (E : inject_Z (Z.of_nat (S k))
                == inject_Z (Z.of_nat (S k') + 1)).
    { rewrite inject_Z_plus. change (inject_Z 1) with 1. lra. }
    apply (proj1 (inject_Z_injective _ _)) in E. lia. }
  subst k. rewrite Hd, Hd'.
  exact (StronglySorted_nth nearer _ k' (S k') site' site
           (rank_sites_sorted sg) (Nat.lt_succ_diag_r k') Hk' Hk).
Qed.

(** X20: [handleFindPrevious] touches the entry at the given index only.
    For an entry that an analysis of its source produced, that entry
    stays as it is when its rank is 1 or when the analysis at the rank
    before throws; otherwise it becomes the result of that analysis, for
    the same source and search point, with the rank decreased by exactly
    1, the same number of sites, and a site that is not farther than the
    one left. *)
Theorem handleFindPrevious_steps
  dataSources analysisResults resultIndex current source :
  nth_error analysisResults resultIndex = Some current ->
  entry_of dataSources source current ->
  let results := handleFindPrevious dataSources analysisResults resultIndex in
  List.length results = List.length analysisResults
  /\ (forall j, j <> resultIndex ->
        nth_error results j = nth_error analysisResults j)
  /\ exists prev,
       nth_error results resultIndex = Some prev
       /\ sourceId prev = sourceId current
       /\ searchPoint (analysis prev) = searchPoint (analysis current)
       /\ totalFeatures (analysis prev) = totalFeatures (analysis current)
       /\ res_distance (analysis prev) <= res_distance (analysis current)
       /\ (prev = current
           \/ res_rank (analysis prev) = res_rank (analysis current) - 1)
       /\ (res_rank (analysis current) < 2 -> prev = current)
       /\ (forall r,
             2 <= res_rank (analysis current) ->
             performSpatialAnalysis (lat (searchPoint (analysis current)))
               (lng (searchPoint (analysis current))) (fullFeatures source)
               (res_rank (analysis current) - 1) = Return r ->
             prev = mkSourcedResult r (ds_id source) (ds_name source))
       /\ (forall message,
             performSpatialAnalysis (lat (searchPoint (analysis current)))
               (lng (searchPoint (analysis current))) (fullFeatures source)
               (res_rank (analysis current) - 1) = Throw message ->
             prev = current).
Proof.
  intros Hcur (Hsrc & rank & Hpsa) results. subst results.
  unfold handleFindPrevious. rewrite Hcur, Hsrc.
  assert (Hstay : List.length analysisResults = List.length analysisResults
    /\ (forall j, j <> resultIndex ->
          nth_error analysisResults j = nth_error analysisResults j)
    /\ exists prev,
         nth_error analysisResults resultIndex = Some prev
         /\ sourceId prev = sourceId current
         /\ searchPoint (analysis prev) = searchPoint (analysis current)
         /\ totalFeatures (analysis prev) = totalFeatures (analysis current)
         /\ res_distance (analysis prev) <= res_distance (analysis current)
         /\ (prev = current
             \/ res_rank (analysis prev) = res_rank (analysis current) - 1)
         /\ prev = current).
  { split; [reflexivity|]. split; [reflexivity|]. exists current.
    repeat (split; [reflexivity || assumption|]).
    split; [lra|]. split; [now left|reflexivity]. }
  destruct Hstay as (Hlen & Hoth & prev & Hn & Hid & Hsp & Htot & Hd & Hrk & He).
  destruct (Qltb (res_rank (analysis current) - 1) 1) eqn:Hguard.
  { apply Qltb_lt in Hguard.
    split; [exact Hlen|]. split; [exact Hoth|]. exists prev.
    repeat (split; [assumption|]). split; [intros _; exact He|].
    split; [intros r Hle _; lra|intros message _; exact He]. }
  apply Qltb_ge in Hguard.
  destruct (performSpatialAnalysis _ _ (fullFeatures source)
              (res_rank (analysis current) - 1)) as [r'|msg] eqn:Hprev;
    cbn [bind try_catch].
  2:{ split; [exact Hlen|]. split; [exact Hoth|]. exists prev.
      repeat (split; [assumption|]). split; [intros _; exact He|].
      split; [intros r _ Hr; discriminate|intros message _; exact He]. }
  destruct (previous_rank_not_farther _ _ _ _ _ _ Hpsa Hprev Hguard)
    as (Hr1 & Hr2 & Hr3 & Hr4).
  split; [apply array_set_length|].
  split; [intros j Hj; now apply array_set_other|].
  eexists. split; [apply (array_set_same _ _ _ current Hcur)|].
  cbn [analysis sourceId sourceName].
  split.
  { apply find_some in Hsrc as [_ Hsrc]. apply String.eqb_eq in Hsrc.
    exact Hsrc. }
  split; [exact Hr3|]. split; [exact Hr2|]. split; [exact Hr4|].
  split; [right; exact Hr1|]. split; [|split].
  - intros Hfirst. exfalso. lra.
  - intros r _ Hr. injection Hr as <-. reflexivity.
  - intros message Hm. discriminate.
Qed.

Lemma set_rank_back r q : set_rank (set_rank r q) (res_rank r) = r.
Proof.
  now destruct r.
Qed.

(** X21: after a [handleFindNext] that moved an entry on,
    [handleFindPrevious] brings it back to the site it came from: the
    rank is the same number again and every other field of the analysis
    is as before (the time stamp, which is not modelled, aside); the
    other entries are untouched throughout. *)
Theorem handleFindPrevious_undoes_handleFindNext
  dataSources analysisResults resultIndex current source :
  nth_error analysisResults resultIndex = Some current ->
  entry_of dataSources source current ->
  let moved := handleFindNext dataSources analysisResults resultIndex in
  let results := handleFindPrevious dataSources moved resultIndex in
  nth_error moved resultIndex <> Some current ->
  List.length results = List.length analysisResults
  /\ (forall j, j <> resultIndex ->
        nth_error results j = nth_error analysisResults j)
  /\ exists back,
       nth_error results resultIndex = Some back
       /\ sourceId back = sourceId current
       /\ res_rank (analysis back) == res_rank (analysis current)
       /\ set_rank (analysis back) (res_rank (analysis current))
          = analysis current.
Proof.
  intros Hcur (Hsrc & rank & Hpsa) moved results Hmoved.
  subst results moved. revert Hmoved.
  unfold handleFindNext. rewrite Hcur, Hsrc.
  destruct (Qltb _ (res_rank (analysis current) + 1)) eqn:Hguard;
    [congruence|].
  apply Qltb_ge in Hguard.
  destruct (performSpatialAnalysis _ _ (fullFeatures source)
              (res_rank (analysis current) + 1)) as [r'|msg] eqn:Hnext;
    cbn [bind try_catch]; [|congruence].
  intros _.
  destruct (next_rank_not_nearer _ _ _ _ _ _ Hpsa Hnext Hguard)
    as (Hr1 & Hr2 & Hr3 & _).
  pose proof (performSpatialAnalysis_rank_range _ _ _ _ _ Hpsa) as [Hlo Hhi].
  assert (Hid : sourceId current = ds_id source).
  { apply find_some in Hsrc as [_ Hid]. apply String.eqb_eq in Hid.
    now symmetry. }
  unfold handleFindPrevious.
  rewrite (array_set_same _ _ _ current Hcur).
  cbn [analysis sourceId sourceName]. rewrite <- Hid, Hsrc, Hr1, Hr3.
  assert (Hge : 1 <= res_rank (analysis current) + 1 - 1) by lra.
  destruct (Qltb (res_rank (analysis current) + 1 - 1) 1) eqn:Hguard';
    [apply Qltb_lt in Hguard'; lra|].
  assert (Hle : res_rank (analysis current) + 1 - 1
                <= inject_Z (Z.of_nat (totalFeatures (analysis current))))
    by lra.
  rewrite (performSpatialAnalysis_rank_compat _ _ _ rank
             (res_rank (analysis current) + 1 - 1) _ Hpsa)
    by (rewrite (safe_rank_in_range _ _ Hge Hle); lra).
  cbn [bind try_catch]. rewrite array_set_twice.
  rewrite (safe_rank_in_range _ _ Hge Hle).
  split; [apply array_set_length|].
  split; [intros j Hj; now apply array_set_other|].
  eexists. split; [apply (array_set_same _ _ _ current Hcur)|].
  cbn [analysis sourceId sourceName set_rank res_rank].
  split; [now symmetry|]. split; [lra|].
  apply set_rank_back.
Qed.

End Navigation.

(** A source with a tower at the search point and one some 22 km away,
    and the results of a search there. *)
Definition demo_source : DataSource :=
  mkDataSource "src-1" "towers" [demo_point] true [demo_far_point].

Definition demo_results : list SourcedResult :=
  handleSearch_results (H := plane_env) (mkLatLng 0.001 0) [demo_source].

Lemma demo_entry :
  exists current,
    nth_error demo_results 0 = Some current
    /\ entry_of (H := plane_env) [demo_source] demo_source current.
Proof.
  eexists. split; [vm_compute; reflexivity|].
  split; [vm_compute; reflexivity|].
  exists 1. vm_compute. reflexivity.
Qed.

Lemma handleFindNext_steps_witness :
  List.length (handleFindNext (H := plane_env) [demo_source] demo_results 0)
  = List.length demo_results.
Proof.
  destruct demo_entry as (current & Hcur & Hentry).
  apply (handleFindNext_steps (H := plane_env) [demo_source] demo_results 0
           current demo_source Hcur Hentry).
Defined.

Lemma handleFindPrevious_steps_witness :
  List.length
    (handleFindPrevious (H := plane_env) [demo_source] demo_results 0)
  = List.length demo_results.
Proof.
  destruct demo_entry as (current & Hcur & Hentry).
  apply (handleFindPrevious_steps (H := plane_env) [demo_source]
           demo_results 0 current demo_source Hcur Hentry).
Defined.

Lemma handleFindPrevious_undoes_handleFindNext_witness :
  List.length
    (handleFindPrevious (H := plane_env) [demo_source]
       (handleFindNext (H := plane_env) [demo_source] demo_results 0) 0)
  = List.length demo_results.
Proof.
  destruct demo_entry as (current & Hcur & Hentry).
  apply (handleFindPrevious_undoes_handleFindNext (H := plane_env)
           [demo_source] demo_results 0 current demo_source Hcur Hentry).
  vm_compute in Hcur. injection Hcur as <-. vm_compute. discriminate.
Defined.

(** ** The turning angle *)

Lemma plane_bearing_range a b :
  - (180) <= plane_bearing a b /\ plane_bearing a b <= 180.
Proof.
  unfold plane_bearing.
  repeat match goal with
         | |- context [if ?c then _ else _] => destruct c
         end; lra.
Qed.

Section TurningAngle.
Context `{Env}.

(** X22: with bearings between -180 and 180, as turf gives them, the
    angle that [calculateAngle] returns lies in [0,180]; it does not
    depend on the order of the two neighbours; it is 0 when the two
    neighbours are the same position; and it is 180, a straight line,
    when a position lacks a coordinate and [point] throws. *)
Theorem calculateAngle_turning_angle curr prev next :
  (forall a b, - (180) <= turfBearing a b /\ turfBearing a b <= 180) ->
  (0 <= calculateAngle curr prev next /\ calculateAngle curr prev next <= 180)
  /\ calculateAngle curr prev next == calculateAngle curr next prev
  /\ ((2 <= List.length curr)%nat -> (2 <= List.length prev)%nat ->
      calculateAngle curr prev prev == 0)
  /\ ((List.length curr < 2)%nat \/ (List.length prev < 2)%nat
      \/ (List.length next < 2)%nat ->
      calculateAngle curr prev next = 180).
Proof.
  intros Hb. split; [now apply calculateAngle_range|].
  unfold calculateAngle, point. split; [|split].
  - destruct (List.length curr <? 2)%nat; [reflexivity|].
    destruct (List.length prev <? 2)%nat, (List.length next <? 2)%nat;
      cbn [bind try_catch]; try reflexivity.
    rewrite (Qabs_Qminus (turfBearing curr prev) (turfBearing curr next)).
    reflexivity.
  - intros Hc Hp.
    apply Nat.ltb_ge in Hc, Hp. rewrite Hc, Hp. cbn [bind try_catch].
    assert (E : Qabs (turfBearing curr prev - turfBearing curr prev) == 0).
    { apply (Qabs_case (turfBearing curr prev - turfBearing curr prev)
               (fun y => y == 0)); intros; lra. }
    destruct (Qltb 180 _) eqn:L;
      [apply Qltb_lt in L; lra|exact E].
  - intros [Hs|[Hs|Hs]]; apply Nat.ltb_lt in Hs; rewrite Hs;
      destruct (List.length curr <? 2)%nat; cbn [bind try_catch];
      try reflexivity;
      destruct (List.length prev <? 2)%nat; reflexivity.
Qed.

End TurningAngle.

Lemma calculateAngle_turning_angle_witness :
  calculateAngle (H := plane_env) [0; 0] [1; 0] [0; 1]
  == calculateAngle (H := plane_env) [0; 0] [0; 1] [1; 0].
Proof.
  apply (calculateAngle_turning_angle (H := plane_env) [0; 0] [1; 0] [0; 1]).
  exact plane_bearing_range.
Defined.

(** ** The coordinate index *)

(** A coordinate on which [coordCounts.get] answers is counted at least
    once. *)
Definition counts_positive (m : CoordCounts) : Prop :=
  Forall (fun kn => (0 < snd kn)%nat) m.

Lemma counts_set_positive m c n :
  counts_positive m -> (0 < n)%nat -> counts_positive (counts_set m c n).
Proof.
  unfold counts_positive. intros Hm Hn.
  induction Hm as [|[k n'] m Hk Hm IH]; cbn [counts_set].
  - now repeat constructor.
  - destruct (same_key k c); constructor; assumption.
Qed.

Lemma build_coordCounts_positive features :
  counts_positive (build_coordCounts features).
Proof.
  unfold build_coordCounts.
  assert (Hgen : forall m, counts_positive m ->
                   counts_positive (fold_left count_feature features m)).
  { induction features as [|f features IH]; intros m Hm; [exact Hm|].
    cbn [fold_left]. apply IH. unfold count_feature.
    generalize (unique_keys (coordAll f) []). intros us. revert m Hm.
    induction us as [|u us IHu]; intros m Hm; [exact Hm|].
    cbn [fold_left]. apply IHu. apply counts_set_positive; [exact Hm|lia]. }
  apply Hgen. constructor.
Qed.

Lemma counts_get_positive m v n :
  counts_positive m -> counts_get m v = Some n -> (0 < n)%nat.
Proof.
  unfold counts_positive. intros Hm.
  induction Hm as [|[k n'] m Hk Hm IH]; cbn [counts_get]; [discriminate|].
  destruct (same_key k v); [|exact IH].
  intros E. injection E as <-. exact Hk.
Qed.

Lemma occurrences_perm features features' v :
  Permutation features features' ->
  occurrences features v = occurrences features' v.
Proof.
  intros Hp. unfold occurrences.
  induction Hp as [|f l l' _ IH|f g l|l l' l'' _ IH1 _ IH2];
    cbn [filter]; try reflexivity.
  - destruct (existsb _ (coordAll f)); cbn [List.length]; congruence.
  - destruct (existsb _ (coordAll f)), (existsb _ (coordAll g));
      reflexivity.
  - congruence.
Qed.

(** X23: the coordinate index maps a position to the number of features
    that have it among their coordinates, a feature that repeats the
    position counting once.  So a count is at most the number of
    features; the index answers on a position exactly when some feature
    has it, and then with a positive count; and the counts do not depend
    on the order of the features. *)
Theorem coordCounts_counts_features features v :
  get_count (build_coordCounts features) v = occurrences features v
  /\ (get_count (build_coordCounts features) v <= List.length features)%nat
  /\ (counts_get (build_coordCounts features) v = None <->
      forall f, In f features -> existsb (same_key v) (coordAll f) = false)
  /\ (forall n, counts_get (build_coordCounts features) v = Some n ->
        (0 < n)%nat)
  /\ (forall features',
        Permutation features features' ->
        get_count (build_coordCounts features') v
        = get_count (build_coordCounts features) v).
Proof.
  pose proof (build_coordCounts_spec features v) as Hspec.
  split; [exact Hspec|]. split; [|split; [|split]].
  - rewrite Hspec. unfold occurrences. apply filter_length_le.
  - split.
    + intros Hnone f Hf.
      destruct (existsb (same_key v) (coordAll f)) eqn:E; [|reflexivity].
      apply existsb_exists in E as (c & Hc & Hvc).
      assert (Hpos : (0 < occurrences features v)%nat).
      { unfold occurrences.
        assert (Hin : In f (filter (fun f => existsb (same_key v) (coordAll f))
                              features)).
        { apply filter_In. split; [assumption|].
          apply existsb_exists. now exists c. }
        destruct (filter _ features); [contradiction|cbn; lia]. }
      rewrite <- Hspec in Hpos. unfold get_count in Hpos.
      rewrite Hnone in Hpos. lia.
    + intros Hall.
      destruct (counts_get (build_coordCounts features) v) as [n|] eqn:E;
        [|reflexivity].
      pose proof (counts_get_positive _ _ _
                    (build_coordCounts_positive features) E) as Hn.
      unfold get_count in Hspec. rewrite E in Hspec.
      unfold occurrences in Hspec.
      assert (Hnil : filter (fun f => existsb (same_key v) (coordAll f))
                       features = []).
      { destruct (filter _ features) as [|f l] eqn:Ef; [reflexivity|].
        assert (Hin : In f (filter (fun f => existsb (same_key v) (coordAll f))
                              features)) by (rewrite Ef; now left).
        apply filter_In in Hin as [Hin Hex].
        rewrite (Hall f Hin) in Hex. discriminate. }
      rewrite Hnil in Hspec. cbn in Hspec. lia.
  - intros n E.
    exact (counts_get_positive _ _ _ (build_coordCounts_positive features) E).
  - intros features' Hp.
    rewrite Hspec, (build_coordCounts_spec features' v).
    symmetry. now apply occurrences_perm.
Qed.

(** ** Deduplication *)

(** [l1] is [l2] with some elements left out. *)
Inductive subseq {A : Type} : list A -> list A -> Prop :=
| subseq_nil : subseq [] []
| subseq_keep x l1 l2 : subseq l1 l2 -> subseq (x :: l1) (x :: l2)
| subseq_drop x l1 l2 : subseq l1 l2 -> subseq l1 (x :: l2).

Lemma subseq_refl {A : Type} (l : list A) : subseq l l.
Proof.
  induction l; constructor; assumption.
Qed.

Lemma subseq_app {A : Type} (a b c d : list A) :
  subseq a b -> subseq c d -> subseq (a ++ c) (b ++ d).
Proof.
  intros Hab Hcd. induction Hab; cbn [app]; try constructor; assumption.
Qed.

Lemma subseq_length {A : Type} (a b : list A) :
  subseq a b -> (List.length a <= List.length b)%nat.
Proof.
  induction 1; cbn [List.length]; lia.
Qed.

Lemma subseq_In {A : Type} (a b : list A) x : subseq a b -> In x a -> In x b.
Proof.
  induction 1; cbn [In]; tauto.
Qed.

(** The signature under which the deduplication knows a feature: its
    geometry type and its positions to 5 decimal places. *)
Definition has_signature (f : Feature) (s : string) : Prop :=
  exists g,
    geometry f = Some g /\ coordAll f <> []
    /\ feature_signature g (coordAll f) = Return s.

Lemma has_signature_unique f s1 s2 :
  has_signature f s1 -> has_signature f s2 -> s1 = s2.
Proof.
  intros (g1 & Hg1 & _ & H1) (g2 & Hg2 & _ & H2). congruence.
Qed.

Lemma existsb_eqb_In s l : existsb (String.eqb s) l = true <-> In s l.
Proof.
  rewrite existsb_exists. split.
  - intros (x & Hx & E). apply String.eqb_eq in E. now subst.
  - intros Hs. exists s. split; [assumption|apply String.eqb_refl].
Qed.

(** What the loop has established after the features [done]. *)
Definition dedup_inv (done : list Feature) (st : list Feature * list string)
  : Prop :=
  subseq (fst st) done
  /\ Forall2 has_signature (fst st) (rev (snd st))
  /\ NoDup (snd st)
  /\ (forall f s, In f done -> has_signature f s -> In s (snd st))
  /\ (forall before f after s,
        done = before ++ f :: after -> has_signature f s ->
        (forall f', In f' before -> ~ has_signature f' s) ->
        In f (fst st)).

Lemma dedup_step_inv done st f st' :
  dedup_inv done st -> dedup_step st f = Return st' ->
  dedup_inv (done ++ [f]) st'.
Proof.
  destruct st as [u seen]. intros (Hsub & Hsig & Hnd & Hall & Hfirst).
  cbn [fst snd] in *.
  assert (Hskip : (forall s, has_signature f s -> In s seen) ->
                  dedup_inv (done ++ [f]) (u, seen)).
  { intros Hf. repeat split; cbn [fst snd]; try assumption.
    - rewrite <- (app_nil_r u). apply subseq_app; [assumption|].
      repeat constructor.
    - intros f' s Hin Hs. apply in_app_or in Hin as [Hin|[<-|[]]];
        [now apply (Hall f' s)|now apply Hf].
    - intros before f' after s Hsplit Hs Hnone.
      destruct (rev after) as [|l ra] eqn:Er.
      + assert (after = []) by (now apply (f_equal (@rev _)) in Er;
                                rewrite rev_involutive in Er).
        subst after. apply app_inj_tail in Hsplit as [E1 E2].
        subst before f'. exfalso. specialize (Hf s Hs).
        assert (Hrep : exists f0, In f0 u /\ has_signature f0 s).
        { apply in_rev in Hf. clear - Hsig Hf.
          induction Hsig as [|x y l l' Hxy _ IH]; [contradiction|].
          destruct Hf as [<-|Hf]; [exists x; split; [now left|assumption]|].
          destruct (IH Hf) as (f0 & Hin & Hs). exists f0.
          split; [now right|assumption]. }
        destruct Hrep as (f0 & Hin0 & Hs0).
        apply (Hnone f0); [|exact Hs0]. now apply (subseq_In u done).
      + assert (Ha : after = rev ra ++ [l]).
        { apply (f_equal (@rev _)) in Er. rewrite rev_involutive in Er.
          exact Er. }
        subst after.
        replace (before ++ f' :: rev ra ++ [l])
          with ((before ++ f' :: rev ra) ++ [l]) in Hsplit
          by (rewrite <- app_assoc; reflexivity).
        apply app_inj_tail in Hsplit as [E1 _]. subst done.
        apply (Hfirst before f' (rev ra) s eq_refl Hs Hnone). }
  unfold dedup_step.
  destruct (geometry f) as [g|] eqn:Hg.
  2:{ intros E. injection E as <-. apply Hskip.
      intros s (g & Hg' & _). congruence. }
  destruct (List.length (coordAll f) =? 0)%nat eqn:E0.
  { intros E. injection E as <-. apply Hskip.
    intros s (g' & _ & Hne & _). apply Nat.eqb_eq in E0.
    destruct (coordAll f); [congruence|discriminate]. }
  destruct (feature_signature g (coordAll f)) as [sig|] eqn:Es;
    cbn [bind]; [|discriminate].
  assert (Hfs : has_signature f sig).
  { exists g. repeat split; try assumption. apply Nat.eqb_neq in E0.
    intros Hnil. rewrite Hnil in E0. now apply E0. }
  destruct (existsb (String.eqb sig) seen) eqn:Ex; cbn [negb].
  { intros E. injection E as <-. apply Hskip. intros s Hs.
    rewrite (has_signature_unique f s sig Hs Hfs).
    now apply existsb_eqb_In. }
  intros E. injection E as <-.
  assert (Hnew : ~ In sig seen).
  { intros Hin. apply existsb_eqb_In in Hin. congruence. }
  repeat split; cbn [fst snd].
  - apply subseq_app; [assumption|apply subseq_refl].
  - cbn [rev]. apply Forall2_app; [assumption|]. now repeat constructor.
  - now constructor.
  - intros f' s Hin Hs. apply in_app_or in Hin as [Hin|[<-|[]]].
    + right. now apply (Hall f' s).
    + left. exact (has_signature_unique f sig s Hfs Hs).
  - intros before f' after s Hsplit Hs Hnone.
    destruct (rev after) as [|l ra] eqn:Er.
    + assert (after = []) by (now apply (f_equal (@rev _)) in Er;
                              rewrite rev_involutive in Er).
      subst after. apply app_inj_tail in Hsplit as [_ E2]. subst f'.
      apply in_or_app. right. now left.
    + assert (Ha : after = rev ra ++ [l]).
      { apply (f_equal (@rev _)) in Er. rewrite rev_involutive in Er.
        exact Er. }
      subst after.
      replace (before ++ f' :: rev ra ++ [l])
        with ((before ++ f' :: rev ra) ++ [l]) in Hsplit
        by (rewrite <- app_assoc; reflexivity).
      apply app_inj_tail in Hsplit as [E1 _]. subst done.
      apply in_or_app. left.
      apply (Hfirst before f' (rev ra) s eq_refl Hs Hnone).
Qed.

Lemma foldM_dedup_inv rest done st st' :
  dedup_inv done st -> foldM dedup_step rest st = Return st' ->
  dedup_inv (done ++ rest) st'.
Proof.
  revert done st. induction rest as [|f rest IH]; intros done st Hinv;
    cbn [foldM].
  - intros E. injection E as <-. now rewrite app_nil_r.
  - destruct (dedup_step st f) as [next|] eqn:Es; cbn [bind]; [|discriminate].
    intros E. replace (done ++ f :: rest) with ((done ++ [f]) ++ rest)
      by now rewrite <- app_assoc.
    apply (IH _ next); [|assumption].
    now apply (dedup_step_inv done st).
Qed.

(** Features with signatures that are new and pairwise distinct are all
    kept. *)
Lemma foldM_dedup_distinct fs sigs u seen :
  Forall2 has_signature fs sigs -> NoDup (rev sigs ++ seen) ->
  foldM dedup_step fs (u, seen) = Return (u ++ fs, rev sigs ++ seen).
Proof.
  intros Hsig. revert u seen.
  induction Hsig as [|f s fs sigs (g & Hg & Hne & Hs) _ IH]; intros u seen Hnd;
    cbn [foldM rev app].
  - now rewrite app_nil_r.
  - unfold dedup_step at 1. rewrite Hg.
    destruct (List.length (coordAll f) =? 0)%nat eqn:E0.
    { apply Nat.eqb_eq in E0. destruct (coordAll f); [congruence|discriminate]. }
    rewrite Hs. cbn [bind rev] in *.
    rewrite <- app_assoc in Hnd. cbn [app] in Hnd.
    assert (Hnew : existsb (String.eqb s) seen = false).
    { apply not_true_is_false. intros Hin. apply existsb_eqb_In in Hin.
      apply NoDup_remove_2 in Hnd. apply Hnd. apply in_or_app. now right. }
    rewrite Hnew. cbn [negb bind].
    rewrite IH by exact Hnd.
    now rewrite <- !app_assoc.
Qed.

(** X24: the deduplication keeps, in order, the first feature of every
    signature (geometry type and positions to 5 decimal places) and drops
    the rest: the features kept are the input with some features left
    out, they have pairwise different signatures, every input feature
    with a signature has its signature among them, and features without
    geometry or without positions are dropped.  Deduplicating the result
    again changes nothing. *)
Theorem dedup_keeps_first_of_each_signature features unique seen :
  foldM dedup_step features ([], []) = Return (unique, seen) ->
  subseq unique features
  /\ Forall2 has_signature unique (rev seen) /\ NoDup seen
  /\ (forall f s, In f features -> has_signature f s ->
        exists f', In f' unique /\ has_signature f' s)
  /\ (forall before f after s,
        features = before ++ f :: after -> has_signature f s ->
        (forall f', In f' before -> ~ has_signature f' s) ->
        In f unique)
  /\ (forall f, In f unique -> geometry f <> None /\ coordAll f <> [])
  /\ foldM dedup_step unique ([], []) = Return (unique, seen).
Proof.
  intros E.
  assert (Hinit : dedup_inv [] ([], [])).
  { repeat split; cbn [fst snd]; try constructor; try contradiction.
    intros before f after s Hsplit. destruct before; discriminate. }
  destruct (foldM_dedup_inv features [] _ _ Hinit E)
    as (Hsub & Hsig & Hnd & Hall & Hfirst).
  cbn [fst snd app] in *.
  assert (Hrep : forall s, In s seen ->
                   exists f', In f' unique /\ has_signature f' s).
  { intros s Hs. apply in_rev in Hs. clear - Hsig Hs.
    induction Hsig as [|x y l l' Hxy _ IH]; [contradiction|].
    destruct Hs as [<-|Hs]; [exists x; split; [now left|assumption]|].
    destruct (IH Hs) as (f0 & Hin & Hf0). exists f0.
    split; [now right|assumption]. }
  split; [exact Hsub|]. split; [exact Hsig|]. split; [exact Hnd|].
  split; [|split; [exact Hfirst|split]].
  - intros f s Hf Hs. apply Hrep. now apply (Hall f s).
  - intros f Hf. clear - Hsig Hf.
    induction Hsig as [|x y l l' (g & Hg & Hne & _) _ IH]; [contradiction|].
    destruct Hf as [<-|Hf]; [|now apply IH].
    split; [congruence|assumption].
  - pose proof (foldM_dedup_distinct unique (rev seen) [] [] Hsig) as Hrun.
    rewrite rev_involutive, app_nil_r in Hrun. cbn [app] in Hrun.
    now apply Hrun.
Qed.

Lemma dedup_keeps_first_of_each_signature_witness :
  exists unique seen,
    foldM dedup_step [demo_point; demo_wedge; demo_point] ([], [])
    = Return (unique, seen)
    /\ subseq unique [demo_point; demo_wedge; demo_point]
    /\ List.length unique = 2%nat.
Proof.
  eexists. eexists. split; [vm_compute; reflexivity|].
  split; [|reflexivity].
  eapply (dedup_keeps_first_of_each_signature
            [demo_point; demo_wedge; demo_point]).
  vm_compute. reflexivity.
Defined.

(** ** Where an anchor comes from *)

Lemma fold_left_invariant {S A : Type} (P : S -> Prop) (f : S -> A -> S) l s :
  (forall st x, In x l -> P st -> P (f st x)) -> P s -> P (fold_left f l s).
Proof.
  revert s. induction l as [|x l IH]; intros s Hstep Hs; [exact Hs|].
  cbn [fold_left]. apply IH.
  - intros st y Hy. apply Hstep. now right.
  - apply Hstep; [now left|exact Hs].
Qed.

Lemma feature_center_set_center f c : feature_center (set_center f c) = Some c.
Proof.
  reflexivity.
Qed.

Section Provenance.
Context `{Env}.

Lemma tip_center_In coordCounts ring :
  ring <> [] -> In (tip_center coordCounts ring) ring.
Proof.
  intros Hne. unfold tip_center.
  set (step := tip_step coordCounts ring (ring_angles ring)).
  assert (Hinv : In (snd (fold_left step (seq 0 (ring_analysisLength ring))
                            (Inf true, nth 0 ring []))) ring).
  { apply fold_left_invariant.
    - intros [best center] k Hk Hin. apply in_seq in Hk.
      pose proof (analysisLength_le ring) as Hle.
      unfold step, tip_step. destruct (gtb _ best); [|exact Hin].
      cbn [snd]. apply nth_In. lia.
    - cbn [snd]. apply nth_In. destruct ring; [congruence|cbn; lia]. }
  now destruct (fold_left step _ _).
Qed.

Lemma regular_center_centroid f ring c :
  regular_center f ring = Some c -> centroid f = Return c.
Proof.
  unfold regular_center. destruct (_ && _); [|discriminate].
  destruct (centroid f) as [center|]; cbn [bind try_catch]; congruence.
Qed.

(** The heuristics on a ring leave the feature alone or give it an
    anchor: the first position of a short ring, the centroid, or a
    position of the ring. *)
Lemma analyse_ring_cases coordCounts f ring :
  (ring = [] /\ analyse_ring coordCounts f ring = f)
  \/ exists c,
       analyse_ring coordCounts f ring = set_center f c
       /\ (In c ring \/ centroid f = Return c)
       /\ ((List.length ring < 3)%nat -> nth_error ring 0 = Some c).
Proof.
  unfold analyse_ring. destruct (List.length ring <? 3)%nat eqn:E.
  - destruct ring as [|c ring]; [now left|].
    right. exists c. split; [reflexivity|]. split; [left; now left|].
    reflexivity.
  - apply Nat.ltb_ge in E. right.
    destruct (regular_center f ring) as [center|] eqn:R.
    + exists center. split; [reflexivity|].
      split; [right; now apply regular_center_centroid in R|lia].
    + exists (tip_center coordCounts ring). split; [reflexivity|].
      split; [left; apply tip_center_In; destruct ring; [cbn in E; lia|easy]|].
      lia.
Qed.

(** X25: [infer_center] changes nothing but the anchor: the geometry and
    the other properties stay.  An explicit center in the properties
    becomes the anchor.  Otherwise the anchor it leaves is a position of
    the feature or its centroid, or the anchor that was there when there
    is no position to take; a feature that is not a polygon takes its
    first position, and so does a polygon whose main ring has one or two
    positions. *)
Theorem infer_center_provenance coordCounts f f' :
  infer_center coordCounts f = Return f' ->
  geometry f' = geometry f
  /\ (exists props',
        properties f' = Some props'
        /\ entries props'
           = match properties f with Some p => entries p | None => [] end)
  /\ (forall c, getExplicitCenter (properties f) = Some c ->
        feature_center f' = Some c)
  /\ (forall c, feature_center f' = Some c ->
        getExplicitCenter (properties f) = Some c
        \/ In c (coordAll f) \/ centroid f = Return c
        \/ feature_center f = Some c)
  /\ (getExplicitCenter (properties f) = None ->
      forall g, geometry f = Some g ->
        match main_ring g with
        | None =>
            is_polygonal g = false
            /\ forall c rest, coordAll f = c :: rest ->
                 feature_center f' = Some c
        | Some ring =>
            forall c, (List.length ring < 3)%nat ->
              nth_error ring 0 = Some c -> feature_center f' = Some c
        end).
Proof.
  unfold infer_center. rewrite getExplicitCenter_ensure.
  assert (Hkeep : geometry (ensure_properties f) = geometry f
            /\ (exists props',
                  properties (ensure_properties f) = Some props'
                  /\ entries props'
                     = match properties f with
                       | Some p => entries p
                       | None => []
                       end)
            /\ feature_center (ensure_properties f) = feature_center f).
  { unfold ensure_properties, feature_center. cbn [geometry properties].
    destruct (properties f) as [p|]; repeat split; eexists; split;
      reflexivity. }
  assert (Hset : forall c,
             geometry (set_center (ensure_properties f) c) = geometry f
             /\ exists props',
                  properties (set_center (ensure_properties f) c)
                  = Some props'
                  /\ entries props'
                     = match properties f with
                       | Some p => entries p
                       | None => []
                       end).
  { intros c. rewrite set_center_ensure. unfold set_center.
    cbn [geometry properties]. split; [reflexivity|].
    eexists. split; reflexivity. }
  destruct Hkeep as (Hg0 & Hp0 & Hc0).
  destruct (getExplicitCenter (properties f)) as [explicitCenter|] eqn:Hexp.
  { intros E. injection E as <-.
    destruct (Hset explicitCenter) as [Hg Hp].
    split; [exact Hg|]. split; [exact Hp|]. split.
    - intros c E. injection E as <-. reflexivity.
    - split; [|discriminate].
      intros c E. rewrite feature_center_set_center in E. left. exact E. }
  rewrite Hg0.
  assert (Hring : forall g ring,
             geometry f = Some g -> main_ring g = Some ring ->
             forall f', analyse_ring coordCounts (ensure_properties f) ring = f' ->
             geometry f' = geometry f
             /\ (exists props',
                   properties f' = Some props'
                   /\ entries props'
                      = match properties f with
                        | Some p => entries p
                        | None => []
                        end)
             /\ (forall c, None = Some c -> feature_center f' = Some c)
             /\ (forall c, feature_center f' = Some c ->
                   None = Some c \/ In c (coordAll f) \/ centroid f = Return c
                   \/ feature_center f = Some c)
             /\ (forall c, (List.length ring < 3)%nat ->
                   nth_error ring 0 = Some c -> feature_center f' = Some c)).
  { intros g ring Hg Hmain f0 <-.
    destruct (analyse_ring_cases coordCounts (ensure_properties f) ring)
      as [[-> ->]|(c & -> & Hc & Hshort)].
    - split; [exact Hg0|]. split; [exact Hp0|]. split; [discriminate|].
      split; [|intros c _ Hc; destruct c; discriminate].
      intros c Hc. right. right. right. congruence.
    - destruct (Hset c) as [Hgs Hps].
      split; [exact Hgs|]. split; [exact Hps|]. split; [discriminate|].
      split.
      + intros c' E. rewrite feature_center_set_center in E.
        injection E as <-. right.
        destruct Hc as [Hc|Hc]; [left|right; left; exact Hc].
        now apply (coordAll_main_ring f g ring).
      + intros c' Hlen Hnth. rewrite feature_center_set_center.
        now rewrite <- (Hshort Hlen). }
  assert (Hline : forall g,
             geometry f = Some g -> main_ring g = None ->
             is_polygonal g = false ->
             forall f',
               match coordAll (ensure_properties f) with
               | c :: _ => Return (set_center (ensure_properties f) c)
               | [] => Return (ensure_properties f)
               end = Return f' ->
               geometry f' = geometry f
               /\ (exists props',
                     properties f' = Some props'
                     /\ entries props'
                        = match properties f with
                          | Some p => entries p
                          | None => []
                          end)
               /\ (forall c, None = Some c -> feature_center f' = Some c)
               /\ (forall c, feature_center f' = Some c ->
                     None = Some c \/ In c (coordAll f)
                     \/ centroid f = Return c \/ feature_center f = Some c)
               /\ (forall c rest, coordAll f = c :: rest ->
                     feature_center f' = Some c)).
  { intros g Hg Hmain Hpoly f0.
    change (coordAll (ensure_properties f)) with (coordAll f).
    destruct (coordAll f) as [|c rest] eqn:Hcs; intros E; injection E as <-.
    - split; [exact Hg0|]. split; [exact Hp0|]. split; [discriminate|].
      split; [|discriminate].
      intros c Hc. right. right. right. congruence.
    - destruct (Hset c) as [Hgs Hps].
      split; [exact Hgs|]. split; [exact Hps|]. split; [discriminate|].
      split.
      + intros c' E. rewrite feature_center_set_center in E.
        injection E as <-. right. left. now left.
      + intros c' rest' E. injection E as <- _. reflexivity. }
  destruct (geometry f) as [g|] eqn:Hg; [|discriminate].
  destruct g as [p|ps|ps|ls|rings|polys].
  1-4: intros E;
    match goal with
    | |- context [Some ?g0] =>
        destruct (Hline g0 eq_refl eq_refl eq_refl f' E)
          as (H1 & H2 & H3 & H4 & H5)
    end;
    (split; [exact H1|]); (split; [exact H2|]); (split; [exact H3|]);
    (split; [exact H4|]);
    intros _ g0 Eg; injection Eg as <-; cbn [main_ring];
    (split; [reflexivity|exact H5]).
  - destruct (nth_error rings 0) as [ring|] eqn:Hr; [|discriminate].
    intros E. injection E as E.
    destruct (Hring (Polygon rings) ring eq_refl Hr f' E)
      as (H1 & H2 & H3 & H4 & H5).
    split; [exact H1|]. split; [exact H2|]. split; [exact H3|].
    split; [exact H4|].
    intros _ g0 Eg. injection Eg as <-. cbn [main_ring]. rewrite Hr.
    exact H5.
  - destruct (nth_error polys 0) as [polygon|] eqn:Hp; [|discriminate].
    destruct (nth_error polygon 0) as [ring|] eqn:Hr; [|discriminate].
    intros E. injection E as E.
    assert (Hmain : main_ring (MultiPolygon polys) = Some ring)
      by (cbn [main_ring]; now rewrite Hp).
    destruct (Hring (MultiPolygon polys) ring eq_refl Hmain f' E)
      as (H1 & H2 & H3 & H4 & H5).
    split; [exact H1|]. split; [exact H2|]. split; [exact H3|].
    split; [exact H4|].
    intros _ g0 Eg. injection Eg as <-. rewrite Hmain. exact H5.
Qed.

End Provenance.

Lemma infer_center_provenance_witness :
  exists f',
    infer_center (H := plane_env) [] demo_point = Return f'
    /\ geometry f' = geometry demo_point.
Proof.
  eexists. split; [vm_compute; reflexivity|].
  apply (infer_center_provenance (H := plane_env) [] demo_point).
  vm_compute. reflexivity.
Defined.

(** ** When parseGeoFile returns *)

Lemma mapM_total {A B : Type} (f : A -> result B) l :
  Forall (fun x => exists y, f x = Return y) l ->
  exists l', mapM f l = Return l'.
Proof.
  induction 1 as [|x l (y & Hy) _ (l' & IH)]; cbn [mapM].
  - now exists [].
  - rewrite Hy, IH. cbn [bind]. now eexists.
Qed.

Lemma mapM_Forall2 {A B : Type} (f : A -> result B) l l' :
  mapM f l = Return l' -> Forall2 (fun x y => f x = Return y) l l'.
Proof.
  revert l'. induction l as [|a l IH]; intros l'; cbn [mapM].
  - intros E. injection E as <-. constructor.
  - destruct (f a) as [b|] eqn:Ea; cbn [bind]; [|discriminate].
    destruct (mapM f l) as [rest|]; cbn [bind]; [|discriminate].
    intros E. injection E as <-. constructor; [exact Ea|now apply IH].
Qed.

Lemma mapM_throws {A B : Type} (f : A -> result B) l x msg :
  In x l -> f x = Throw msg ->
  (forall y msg', f y = Throw msg' -> msg' = msg) ->
  mapM f l = Throw msg.
Proof.
  intros Hx Hf Hall. induction l as [|a l IH]; [contradiction|].
  cbn [mapM]. destruct (f a) as [b|msg'] eqn:Ea; cbn [bind].
  - destruct Hx as [->|Hx]; [congruence|]. now rewrite (IH Hx).
  - now rewrite (Hall a msg' Ea).
Qed.

Lemma coord_signature_total c :
  (2 <= List.length c)%nat -> exists s, coord_signature c = Return s.
Proof.
  intros Hc. destruct c as [|x [|y c]]; cbn in Hc; try lia.
  unfold coord_signature. cbn [nth_error]. now eexists.
Qed.

Lemma dedup_step_total st f :
  well_formed f -> exists st', dedup_step st f = Return st'.
Proof.
  intros Hwf. destruct st as [u seen]. unfold dedup_step.
  destruct (geometry f) as [g|]; [|now eexists].
  destruct (List.length (coordAll f) =? 0)%nat; [now eexists|].
  unfold feature_signature.
  destruct (mapM_total coord_signature (coordAll f)) as (sigs & ->).
  { unfold well_formed in Hwf. rewrite Forall_forall in Hwf |- *.
    intros c Hc. apply coord_signature_total. now apply Hwf. }
  cbn [bind]. destruct (negb _); now eexists.
Qed.

Lemma foldM_dedup_total features st :
  Forall well_formed features ->
  exists st', foldM dedup_step features st = Return st'.
Proof.
  intros Hwf. revert st.
  induction Hwf as [|f features Hf _ IH]; intros st; cbn [foldM].
  - now exists st.
  - destruct (dedup_step_total st f Hf) as (st' & ->). cbn [bind]. apply IH.
Qed.

(** The first polygon of a multi-polygon has a ring. *)
Definition first_polygon_has_ring (f : Feature) : Prop :=
  forall more, geometry f <> Some (MultiPolygon ([] :: more)).

Section ParseGeoFile.
Context `{Env}.

Lemma infer_center_errors coordCounts f msg :
  infer_center coordCounts f = Throw msg -> msg = "TypeError"%string.
Proof.
  unfold infer_center.
  destruct (getExplicitCenter _); [discriminate|].
  destruct (geometry (ensure_properties f)) as [[p|ps|ps|ls|rings|polys]|];
    try (destruct (coordAll (ensure_properties f)); discriminate).
  - destruct (nth_error rings 0); [discriminate|congruence].
  - destruct (nth_error polys 0) as [polygon|]; [|congruence].
    destruct (nth_error polygon 0); [discriminate|congruence].
  - congruence.
Qed.

Lemma infer_center_total coordCounts f :
  coordAll f <> [] -> first_polygon_has_ring f ->
  exists f', infer_center coordCounts f = Return f'.
Proof.
  intros Hne Hmp. unfold infer_center.
  destruct (getExplicitCenter _); [now eexists|].
  change (geometry (ensure_properties f)) with (geometry f).
  change (coordAll (ensure_properties f)) with (coordAll f).
  unfold coordAll, coordEach, first_polygon_has_ring in *.
  destruct (geometry f) as [[p|ps|ps|ls|rings|polys]|]; try congruence;
    try (destruct (geometry_coords _ _); now eexists).
  - destruct rings as [|ring rings]; [now cbn in Hne|]. now eexists.
  - destruct polys as [|[|ring polygon] polys]; [now cbn in Hne| |].
    + now destruct (Hmp polys).
    + now eexists.
Qed.

(** X26: [parseGeoFile] returns for every list of features whose
    positions have a longitude and a latitude and whose multi-polygons
    have a ring in their first polygon; what it returns is the
    deduplicated features with their anchors inferred, one for one and in
    order, so never more features than it was given.  A multi-polygon
    that survives the deduplication with a first polygon without rings,
    and without an explicit center, makes it throw a [TypeError]. *)
Theorem parseGeoFile_returns features :
  (Forall well_formed features ->
   Forall first_polygon_has_ring features ->
   exists unique seen out,
     foldM dedup_step features ([], []) = Return (unique, seen)
     /\ parseGeoFile features = Return out
     /\ Forall2 (fun f f' =>
                   infer_center (build_coordCounts unique) f = Return f')
          unique out
     /\ (List.length out <= List.length features)%nat)
  /\ (forall unique seen f more,
        foldM dedup_step features ([], []) = Return (unique, seen) ->
        In f unique ->
        geometry f = Some (MultiPolygon ([] :: more)) ->
        getExplicitCenter (properties f) = None ->
        parseGeoFile features = Throw "TypeError").
Proof.
  assert (Hinit : dedup_inv [] ([], [])).
  { repeat split; cbn [fst snd]; try constructor; try contradiction.
    intros before f after s Hsplit. destruct before; discriminate. }
  split.
  - intros Hwf Hmp.
    destruct (foldM_dedup_total features ([], []) Hwf) as ([unique seen] & Hd).
    destruct (foldM_dedup_inv features [] _ _ Hinit Hd)
      as (Hsub & Hsig & _).
    cbn [fst snd app] in *.
    assert (Hall : Forall (fun f => exists f',
                             infer_center (build_coordCounts unique) f
                             = Return f') unique).
    { apply Forall_forall. intros f Hf. apply infer_center_total.
      - clear - Hsig Hf.
        induction Hsig as [|x y l l' (g & _ & Hne & _) _ IH]; [contradiction|].
        destruct Hf as [<-|Hf]; [assumption|now apply IH].
      - rewrite Forall_forall in Hmp. apply Hmp.
        now apply (subseq_In unique features). }
    destruct (mapM_total _ _ Hall) as (out & Hout).
    exists unique, seen, out. split; [exact Hd|].
    unfold parseGeoFile. rewrite Hd. cbn [bind fst].
    split; [exact Hout|]. split; [now apply mapM_Forall2|].
    destruct (mapM_nth _ _ _ Hout) as [-> _]. now apply subseq_length.
  - intros unique seen f more Hd Hf Hg Hexp.
    unfold parseGeoFile. rewrite Hd. cbn [bind fst].
    apply (mapM_throws _ _ f); [exact Hf| |].
    + unfold infer_center. rewrite getExplicitCenter_ensure, Hexp.
      change (geometry (ensure_properties f)) with (geometry f).
      now rewrite Hg.
    + intros y msg'. apply infer_center_errors.
Qed.

End ParseGeoFile.

Lemma parseGeoFile_returns_witness :
  exists out,
    parseGeoFile (H := plane_env) [demo_point; demo_wedge; demo_point]
    = Return out
    /\ (List.length out <= 3)%nat.
Proof.
  destruct (parseGeoFile_returns (H := plane_env)
              [demo_point; demo_wedge; demo_point]) as [Hret _].
  destruct Hret as (unique & seen & out & _ & Hout & _ & Hlen).
  - repeat constructor; cbn; lia.
  - repeat constructor; intros more; discriminate.
  - exists out. split; [exact Hout|exact Hlen].
Defined.

(** ** From a parsed file to an analysis *)

(** What the analysis needs of a feature: positions with a longitude and
    a latitude, at least one of them, and an anchor, if there is one,
    with a longitude and a latitude. *)
Definition anchor_ok (f : Feature) : Prop :=
  well_formed f /\ coordAll f <> []
  /\ forall c, feature_center f = Some c -> (2 <= List.length c)%nat.

Lemma centroid_length f c : centroid f = Return c -> List.length c = 2%nat.
Proof.
  unfold centroid. destruct (_ || _); [discriminate|].
  intros E. injection E as <-. reflexivity.
Qed.

Lemma centroid_message f msg :
  centroid f = Throw msg -> msg = "coordinates must contain numbers"%string.
Proof.
  unfold centroid. destruct (_ || _); [|discriminate]. congruence.
Qed.

Lemma getExplicitCenter_length props c :
  getExplicitCenter props = Some c -> List.length c = 2%nat.
Proof.
  unfold getExplicitCenter. destruct props as [p|]; [|discriminate].
  destruct (find _ _); [|discriminate]. destruct (find _ _); [|discriminate].
  destruct (_ && _); [|discriminate].
  destruct (parseFloat_entry _ _); try discriminate.
  destruct (parseFloat_entry _ _); try discriminate.
  intros E. injection E as <-. reflexivity.
Qed.

Lemma anchor_ok_set_center f c :
  well_formed f -> coordAll f <> [] -> (2 <= List.length c)%nat ->
  anchor_ok (set_center f c).
Proof.
  intros Hwf Hne Hc. repeat split; try assumption.
  intros c' E. rewrite feature_center_set_center in E. now injection E as <-.
Qed.

Lemma mapM_throw_inv {A B : Type} (f : A -> result B) l msg :
  mapM f l = Throw msg -> exists x, In x l /\ f x = Throw msg.
Proof.
  induction l as [|a l IH]; cbn [mapM]; [discriminate|].
  destruct (f a) as [b|msg'] eqn:Ea; cbn [bind].
  - destruct (mapM f l) as [rest|msg'] eqn:El; cbn [bind]; [discriminate|].
    intros E. injection E as ->. destruct (IH eq_refl) as (x & Hx & Hf).
    exists x. split; [now right|exact Hf].
  - intros E. injection E as ->. exists a. split; [now left|exact Ea].
Qed.

Section Pipeline.
Context `{Env}.

Lemma infer_center_anchor_ok coordCounts f f' :
  well_formed f -> coordAll f <> [] -> feature_center f = None ->
  infer_center coordCounts f = Return f' -> anchor_ok f'.
Proof.
  intros Hwf Hne Hnone. unfold infer_center.
  rewrite getExplicitCenter_ensure.
  assert (Hsame : anchor_ok (ensure_properties f)).
  { repeat split; try assumption. intros c.
    unfold ensure_properties, feature_center in *. cbn [properties].
    destruct (properties f); [now rewrite Hnone|discriminate]. }
  assert (Hset : forall c, (2 <= List.length c)%nat ->
                   anchor_ok (set_center (ensure_properties f) c)).
  { intros c Hc. rewrite set_center_ensure.
    now apply anchor_ok_set_center. }
  assert (Hin : forall c, In c (coordAll f) -> (2 <= List.length c)%nat).
  { unfold well_formed in Hwf. rewrite Forall_forall in Hwf. exact Hwf. }
  destruct (getExplicitCenter (properties f)) as [c|] eqn:Hexp.
  { intros E. injection E as <-. apply Hset.
    rewrite (getExplicitCenter_length _ _ Hexp). lia. }
  change (geometry (ensure_properties f)) with (geometry f).
  change (coordAll (ensure_properties f)) with (coordAll f).
  assert (Hring : forall g ring,
             geometry f = Some g -> main_ring g = Some ring ->
             anchor_ok (analyse_ring coordCounts (ensure_properties f) ring)).
  { intros g ring Hg Hmain.
    destruct (analyse_ring_cases coordCounts (ensure_properties f) ring)
      as [[_ ->]|(c & -> & [Hc|Hc] & _)]; [exact Hsame| |].
    - apply Hset, Hin. now apply (coordAll_main_ring f g ring).
    - apply Hset. change (centroid (ensure_properties f)) with (centroid f) in Hc.
      rewrite (centroid_length _ _ Hc). lia. }
  destruct (geometry f) as [[p|ps|ps|ls|rings|polys]|] eqn:Hg;
    try discriminate.
  1-4: destruct (coordAll f) as [|c rest] eqn:Hcs; [congruence|];
    intros E; injection E as <-; apply Hset, Hin; now left.
  - destruct (nth_error rings 0) as [ring|] eqn:Hr; [|discriminate].
    intros E. injection E as <-.
    apply (Hring (Polygon rings) ring eq_refl). exact Hr.
  - destruct (nth_error polys 0) as [polygon|] eqn:Hp; [|discriminate].
    destruct (nth_error polygon 0) as [ring|] eqn:Hr; [|discriminate].
    intros E. injection E as <-.
    apply (Hring (MultiPolygon polys) ring eq_refl).
    cbn [main_ring]. now rewrite Hp.
Qed.

Lemma parseGeoFile_anchor_ok features out :
  Forall well_formed features ->
  Forall (fun f => feature_center f = None) features ->
  parseGeoFile features = Return out ->
  Forall anchor_ok out.
Proof.
  intros Hwf Hnone. unfold parseGeoFile.
  destruct (foldM dedup_step features ([], [])) as [[unique seen]|] eqn:Hd;
    cbn [bind fst]; [|discriminate].
  assert (Hinit : dedup_inv [] ([], [])).
  { repeat split; cbn [fst snd]; try constructor; try contradiction.
    intros before f after s Hsplit. destruct before; discriminate. }
  destruct (foldM_dedup_inv features [] _ _ Hinit Hd) as (Hsub & Hsig & _).
  cbn [fst snd app] in *. intros Hout.
  apply Forall_forall. intros f' Hf'.
  apply In_nth_error in Hf' as (i & Hi).
  destruct (mapM_nth _ _ _ Hout) as [_ Hnth].
  destruct (Hnth i f' Hi) as (f & Hf & Hinf).
  apply nth_error_In in Hf.
  rewrite Forall_forall in Hwf, Hnone.
  apply (infer_center_anchor_ok (build_coordCounts unique) f f');
    try assumption.
  - apply Hwf. now apply (subseq_In unique features).
  - clear - Hsig Hf.
    induction Hsig as [|x y l l' (g & _ & Hne & _) _ IH]; [contradiction|].
    destruct Hf as [<-|Hf]; [assumption|now apply IH].
  - apply Hnone. now apply (subseq_In unique features).
Qed.

Lemma cluster_step_total targetPoint siteGroups f :
  anchor_ok f ->
  exists siteGroups', cluster_step targetPoint siteGroups f = Return siteGroups'.
Proof.
  intros (Hwf & Hne & Hc). unfold cluster_step.
  assert (Hcc : exists c, center_coords f = Return c
                          /\ (2 <= List.length c)%nat).
  { unfold center_coords. destruct (feature_center f) as [c|].
    - exists c. split; [reflexivity|now apply Hc].
    - destruct (coordAll f) as [|c rest] eqn:Hcs; [congruence|].
      exists c. split; [reflexivity|].
      unfold well_formed in Hwf. rewrite Hcs in Hwf. now inversion Hwf. }
  destruct Hcc as (c & -> & Hlen). cbn [bind].
  destruct c as [|x [|y c]]; cbn in Hlen; try lia.
  unfold site_key, toFixed_at. cbn [nth_error bind].
  destruct (negb _); cbn [bind point List.length Nat.ltb Nat.leb];
    now eexists.
Qed.

Lemma cluster_total targetPoint features :
  Forall anchor_ok features ->
  exists siteGroups, cluster targetPoint features = Return siteGroups.
Proof.
  intros Hall. unfold cluster. generalize (@nil SiteGroup).
  induction Hall as [|f features Hf _ IH]; intros siteGroups; cbn [foldM].
  - now exists siteGroups.
  - destruct (cluster_step_total targetPoint siteGroups f Hf) as (next & ->).
    cbn [bind]. apply IH.
Qed.

(** The members of the sites are features of the input, and every site
    has one. *)
Lemma cluster_members targetPoint features siteGroups :
  cluster targetPoint features = Return siteGroups ->
  (forall g f, In g siteGroups -> In f (candidates g) -> In f features)
  /\ (forall g, In g siteGroups -> candidates g <> [])
  /\ (features <> [] -> siteGroups <> []).
Proof.
  intros Hc.
  assert (Hinit : clustered targetPoint [] []).
  { repeat split; constructor. }
  pose proof (foldM_cluster_perm _ _ [] [] siteGroups Hinit
                (Permutation_refl _) Hc) as Hperm.
  destruct (foldM_cluster_clustered _ _ [] [] siteGroups Hinit Hc)
    as (_ & Hsites & _).
  cbn [app] in *. rewrite Forall_forall in Hsites.
  split; [|split].
  - intros g f Hg Hf. apply (Permutation_in _ Hperm). apply in_concat.
    exists (candidates g). split; [now apply in_map|exact Hf].
  - intros g Hg. destruct (Hsites g Hg) as (_ & f0 & rest & c0 & -> & _).
    discriminate.
  - intros Hne ->. cbn in Hperm. apply Permutation_nil in Hperm. congruence.
Qed.

Lemma analyzeSectorGeometry_throws f towerCenter msg :
  well_formed f ->
  analyzeSectorGeometry f towerCenter = Throw msg ->
  has_extent f /\ centroid f = Throw msg.
Proof.
  intros Hwf. unfold analyzeSectorGeometry, has_extent.
  destruct (geometry f) as [[]|]; try discriminate.
  all: destruct (centroid f) as [c|msg'] eqn:Ec; cbn [bind];
    [|intros E; injection E as ->; split; [exact I|reflexivity]];
    (destruct (Qltb _ 2); [discriminate|]);
    rewrite (filterM_point
               (fun pc => Qltb 2 (turfDistance pc towerCenter meters)) _ Hwf);
    cbn [bind]; fold (far_vertices f towerCenter);
    (destruct (List.length (far_vertices f towerCenter) =? 0)%nat;
     [discriminate|]);
    rewrite (mapM_point
               (fun pc => normalizeAngle (Fin (turfBearing towerCenter pc))) _
               (far_vertices_well_formed f towerCenter Hwf));
    cbn [bind]; destruct (gap_loop _) as [[mg gs] ge];
    destruct (ltb mg (Fin 60)); discriminate.
Qed.

Lemma select_sector_throws searchLat searchLng site safeRank total msg :
  candidates site <> [] ->
  select_sector searchLat searchLng site safeRank total = Throw msg ->
  exists f,
    In f (candidates site)
    /\ analyzeSectorGeometry f (referencePoint site) = Throw msg.
Proof.
  intros Hne. unfold select_sector.
  destruct (mapM _ (candidates site)) as [evaluated|msg'] eqn:Hmap;
    cbn [bind].
  - destruct (mapM_nth _ _ _ Hmap) as [Hlen _].
    destruct (sort _ evaluated) as [|best rest] eqn:Hsort; [|discriminate].
    apply (f_equal (@List.length _)) in Hsort.
    rewrite sort_length, Hlen in Hsort.
    destruct (candidates site); [congruence|discriminate].
  - intros E. injection E as ->.
    apply mapM_throw_inv in Hmap as (f & Hf & Hev). exists f.
    split; [exact Hf|]. unfold evaluate in Hev.
    destruct (analyzeSectorGeometry f (referencePoint site)) as [m|msg'];
      cbn [bind] in Hev; [discriminate|congruence].
Qed.

(** On features fit for the analysis and for a whole rank, only an empty
    dataset and a centroid that cannot be computed make
    [performSpatialAnalysis] throw. *)
Lemma performSpatialAnalysis_throws searchLat searchLng features rank msg :
  Forall anchor_ok features -> (exists z, rank == inject_Z z) ->
  performSpatialAnalysis searchLat searchLng features rank = Throw msg ->
  (features = []
   /\ msg = "No features found in dataset to analyze."%string)
  \/ (msg = "coordinates must contain numbers"%string
      /\ exists f, In f features /\ has_extent f /\ centroid f = Throw msg).
Proof.
  intros Hok Hrank. unfold performSpatialAnalysis.
  destruct (List.length features =? 0)%nat eqn:E0.
  { intros E. injection E as <-. left. apply Nat.eqb_eq in E0.
    split; [now destruct features|reflexivity]. }
  assert (Hne : features <> []) by (intros ->; discriminate).
  set (fta := features_to_analyze searchLat searchLng features).
  assert (Hfta : Forall anchor_ok fta).
  { rewrite Forall_forall in Hok |- *. intros f Hf. apply Hok.
    now apply (features_to_analyze_incl searchLat searchLng). }
  assert (Hfne : fta <> []).
  { unfold fta, features_to_analyze.
    destruct (0 <? List.length (filter _ features))%nat eqn:E; [|exact Hne].
    apply Nat.ltb_lt in E. destruct (filter _ features);
      [cbn in E; lia|discriminate]. }
  destruct (cluster_total [searchLng; searchLat] fta Hfta) as (sg & Hc).
  rewrite Hc. cbn [bind].
  destruct (cluster_members _ _ _ Hc) as (Hmem & Hcand & Hsg).
  specialize (Hsg Hfne).
  set (sites := rank_sites sg).
  assert (Hlen : List.length sites = List.length sg) by apply sort_length.
  assert (Hpos : (0 < List.length sg)%nat)
    by (destruct sg; [congruence|cbn; lia]).
  destruct (safe_rank_whole rank (List.length sg) Hpos)
    as (z & Hz & Hzr & _); [right; right; exact Hrank|].
  rewrite Hlen.
  rewrite (array_get_integer sites _ (z - 1));
    [|rewrite Hz; unfold Z.sub; rewrite inject_Z_plus; reflexivity|lia].
  destruct (nth_error sites (Z.to_nat (z - 1))) as [site|] eqn:Hnth.
  2:{ apply nth_error_None in Hnth. lia. }
  assert (Hsite : In site sg).
  { apply (Permutation_in _
             (sort_perm (fun a b => Fin (distance a - distance b)) sg)).
    now apply nth_error_In in Hnth. }
  intros Hsel.
  apply select_sector_throws in Hsel as (f & Hf & Hrun);
    [|now apply Hcand].
  assert (Hin : In f features).
  { apply (features_to_analyze_incl searchLat searchLng).
    now apply (Hmem site f). }
  rewrite Forall_forall in Hok. destruct (Hok f Hin) as (Hwf & _).
  apply analyzeSectorGeometry_throws in Hrun as [Hext Hcen]; [|exact Hwf].
  right. split; [now apply (centroid_message f)|].
  exists f. now repeat split.
Qed.

(** X27: [performSpatialAnalysis] on what [parseGeoFile] returned, for
    features that came with longitudes and latitudes and without anchor
    and for a whole rank, throws in two cases only: the dataset is empty,
    or the centroid of a feature that is not a point cannot be computed.
    A missing site or a type error does not occur, and when every feature
    that is not a point has a centroid the analysis returns. *)
Theorem analysis_of_parsed_file searchLat searchLng features out rank :
  parseGeoFile features = Return out ->
  Forall well_formed features ->
  Forall (fun f => feature_center f = None) features ->
  (exists z, rank == inject_Z z) ->
  (forall msg,
      performSpatialAnalysis searchLat searchLng out rank = Throw msg ->
      (out = [] /\ msg = "No features found in dataset to analyze."%string)
      \/ (msg = "coordinates must contain numbers"%string
          /\ exists f, In f out /\ has_extent f /\ centroid f = Throw msg))
  /\ (out <> [] ->
      (forall f, In f out -> has_extent f -> throws (centroid f) = false) ->
      exists r,
        performSpatialAnalysis searchLat searchLng out rank = Return r).
Proof.
  intros Hparse Hwf Hnone Hrank.
  pose proof (parseGeoFile_anchor_ok features out Hwf Hnone Hparse) as Hok.
  split.
  - intros msg. now apply performSpatialAnalysis_throws.
  - intros Hne Hcen.
    destruct (performSpatialAnalysis searchLat searchLng out rank)
      as [r|msg] eqn:Hr; [now exists r|].
    apply performSpatialAnalysis_throws in Hr
      as [[-> _]|(_ & f & Hf & Hext & Hthrow)]; try assumption;
      [congruence|].
    specialize (Hcen f Hf Hext). rewrite Hthrow in Hcen. discriminate.
Qed.

End Pipeline.

(** A point and an octagon as they come out of a KML file. *)
Definition demo_raw : list Feature :=
  [mkFeature (Some (Point [0; 0.045])) None; demo_octagon].

Lemma analysis_of_parsed_file_witness :
  exists out r,
    parseGeoFile (H := plane_env) demo_raw = Return out
    /\ performSpatialAnalysis (H := plane_env) 0 0 out 1 = Return r.
Proof.
  destruct (parseGeoFile (H := plane_env) demo_raw) as [out|msg] eqn:Hout;
    [|vm_compute in Hout; discriminate].
  destruct (analysis_of_parsed_file (H := plane_env) 0 0 demo_raw out 1 Hout)
    as [_ Hret].
  - repeat constructor; cbn; lia.
  - repeat constructor.
  - exists 1%Z. reflexivity.
  - destruct Hret as (r & Hr).
    + vm_compute in Hout. injection Hout as <-. discriminate.
    + vm_compute in Hout. injection Hout as <-.
      intros f [<-|[<-|[]]] _; vm_compute; reflexivity.
    + exists out, r. split; [reflexivity|exact Hr].
Defined.

(** ** Coordinates typed in *)

Fixpoint take_while (p : ascii -> bool) (s : list ascii) : list ascii :=
  match s with
  | c :: s' => if p c then c :: take_while p s' else []
  | [] => []
  end.

Fixpoint drop_while (p : ascii -> bool) (s : list ascii) : list ascii :=
  match s with
  | c :: s' => if p c then drop_while p s' else s
  | [] => []
  end.

Lemma take_drop_while p s : take_while p s ++ drop_while p s = s.
Proof.
  induction s as [|c s IH]; cbn; [reflexivity|].
  destruct (p c); cbn; [now rewrite IH|reflexivity].
Qed.

Lemma take_while_Forall p s : Forall (fun c => p c = true) (take_while p s).
Proof.
  induction s as [|c s IH]; cbn; [constructor|].
  destruct (p c) eqn:E; now constructor.
Qed.

Lemma take_while_app p a rest :
  Forall (fun c => p c = true) a ->
  (rest = [] \/ exists c r, rest = c :: r /\ p c = false) ->
  take_while p (a ++ rest) = a /\ drop_while p (a ++ rest) = rest.
Proof.
  intros Ha Hrest. induction Ha as [|c a Hc _ IH]; cbn [app].
  - destruct Hrest as [->|(c & r & -> & Hc)]; cbn; [now split|].
    now rewrite Hc.
  - cbn. rewrite Hc. destruct IH as [-> ->]. now split.
Qed.

Lemma firstn_prefix {A : Type} (a b : list A) :
  firstn (List.length (a ++ b) - List.length b) (a ++ b) = a.
Proof.
  rewrite length_app, Nat.add_sub, firstn_app, Nat.sub_diag, firstn_all.
  cbn. apply app_nil_r.
Qed.

Lemma plus_loop_greedy p s k :
  (forall c s', p c = true -> k (c :: s') = None) ->
  plus_loop p s k
  = match take_while p s with
    | [] => None
    | _ :: _ => k (drop_while p s)
    end.
Proof.
  intros Hk. induction s as [|c s IH]; cbn; [reflexivity|].
  destruct (p c) eqn:Hc; [|reflexivity]. rewrite IH.
  destruct s as [|d s]; cbn; [reflexivity|].
  destruct (p d) eqn:Hd; [|reflexivity].
  destruct (k (drop_while p s)); [reflexivity|]. now apply Hk.
Qed.

(** The sign, the digits and the fraction at the head of [s], and the
    rest of [s]. *)
Definition split_unsigned (s : list ascii)
  : option (list ascii * list ascii * list ascii) :=
  match take_while is_digit s with
  | [] => None
  | int =>
      let s2 := drop_while is_digit s in
      match s2 with
      | c :: s3 =>
          if Ascii.eqb "." c
          then match take_while is_digit s3 with
               | [] => Some (int, [], s2)
               | fd => Some (int, c :: fd, drop_while is_digit s3)
               end
          else Some (int, [], s2)
      | [] => Some (int, [], [])
      end
  end.

Definition split_number (s : list ascii)
  : option (list ascii * list ascii * list ascii) :=
  match s with
  | c :: s' =>
      if Ascii.eqb "-" c
      then match split_unsigned s' with
           | Some (int, frac, rest) => Some (c :: int, frac, rest)
           | None => None
           end
      else split_unsigned s
  | [] => None
  end.

Definition split_coordinates (s : list ascii)
  : option (list ascii * list ascii) :=
  match split_number s with
  | Some (w1, f1, r1) =>
      match take_while is_separator r1 with
      | [] => None
      | _ :: _ =>
          match split_number (drop_while is_separator r1) with
          | Some (w2, f2, []) => Some (w1 ++ f1, w2 ++ f2)
          | _ => None
          end
      end
  | None => None
  end.

Lemma is_digit_chars c :
  is_digit c = true ->
  Ascii.eqb "." c = false /\ Ascii.eqb "-" c = false
  /\ is_separator c = false.
Proof.
  destruct c as [[] [] [] [] [] [] [] []]; cbn; intuition discriminate.
Qed.

Lemma dot_chars c :
  Ascii.eqb "." c = true ->
  is_digit c = false /\ Ascii.eqb "-" c = false /\ is_separator c = false.
Proof.
  intros E. apply Ascii.eqb_eq in E. subst c. now cbn.
Qed.

Lemma minus_chars c :
  Ascii.eqb "-" c = true ->
  is_digit c = false /\ Ascii.eqb "." c = false /\ is_separator c = false.
Proof.
  intros E. apply Ascii.eqb_eq in E. subst c. now cbn.
Qed.

Lemma split_unsigned_app s int frac rest :
  split_unsigned s = Some (int, frac, rest) -> s = int ++ frac ++ rest.
Proof.
  unfold split_unsigned. pose proof (take_drop_while is_digit s) as Hs.
  destruct (take_while is_digit s) as [|d ds]; [discriminate|].
  destruct (drop_while is_digit s) as [|c s3] eqn:Hd.
  - intros E. injection E as <- <- <-. now rewrite <- Hs.
  - destruct (Ascii.eqb "." c).
    + pose proof (take_drop_while is_digit s3) as Hs3.
      destruct (take_while is_digit s3) as [|e es].
      * intros E. injection E as <- <- <-. now rewrite <- Hs.
      * intros E. injection E as <- <- <-. rewrite <- Hs.
        rewrite <- Hs3 at 1. reflexivity.
    + intros E. injection E as <- <- <-. now rewrite <- Hs.
Qed.

Lemma split_number_app s whole frac rest :
  split_number s = Some (whole, frac, rest) -> s = whole ++ frac ++ rest.
Proof.
  unfold split_number. destruct s as [|c s]; [discriminate|].
  destruct (Ascii.eqb "-" c).
  - destruct (split_unsigned s) as [[[int fr] r]|] eqn:E; [|discriminate].
    intros E'. injection E' as <- <- <-.
    now rewrite (split_unsigned_app s int fr r E).
  - apply split_unsigned_app.
Qed.

Lemma pmatch_unsigned g start s caps k :
  (forall st c s' caps',
      is_digit c = true \/ Ascii.eqb "." c = true ->
      k st (c :: s') caps' = None) ->
  pmatch (PSeq (PPlus is_digit)
            (POpt (PGroup g (PSeq (PSet (Ascii.eqb ".")) (PPlus is_digit)))))
    start s caps k
  = match split_unsigned s with
    | Some (int, frac, rest) =>
        k false rest
          (match frac with [] => caps | _ :: _ => (g, frac) :: caps end)
    | None => None
    end.
Proof.
  intros Hk. cbn [pmatch]. unfold split_unsigned.
  rewrite plus_loop_greedy.
  2:{ intros c s' Hc. destruct (is_digit_chars c Hc) as (Hdot & _).
      rewrite Hdot. apply Hk. now left. }
  destruct (take_while is_digit s) as [|d ds]; [reflexivity|].
  destruct (drop_while is_digit s) as [|c s3]; [reflexivity|].
  destruct (Ascii.eqb "." c) eqn:Hdot.
  - rewrite plus_loop_greedy by (intros c' s' Hc'; apply Hk; now left).
    pose proof (take_drop_while is_digit s3) as Hs3.
    destruct (take_while is_digit s3) as [|e es].
    + rewrite (Hk false c s3 caps) by now right. reflexivity.
    + assert (Hf : firstn (List.length (c :: s3)
                            - List.length (drop_while is_digit s3)) (c :: s3)
                   = c :: e :: es).
      { replace (c :: s3) with ((c :: e :: es) ++ drop_while is_digit s3)
          by (cbn [app]; f_equal; exact Hs3).
        apply firstn_prefix. }
      rewrite Hf.
      destruct (k false (drop_while is_digit s3) _); [reflexivity|].
      apply Hk. now right.
  - reflexivity.
Qed.

Lemma pmatch_number g start s caps k :
  (forall st c s' caps',
      is_digit c = true \/ Ascii.eqb "." c = true ->
      k st (c :: s') caps' = None) ->
  pmatch (number_pattern g) start s caps k
  = match split_number s with
    | Some (whole, frac, rest) =>
        k false rest
          (match frac with [] => caps | _ :: _ => (g, frac) :: caps end)
    | None => None
    end.
Proof.
  intros Hk. unfold number_pattern.
  change (pmatch (PSeq (POpt (PSet (Ascii.eqb "-"))) ?r) start s caps k)
    with (match
             match s with
             | c :: s' =>
                 if Ascii.eqb "-" c then pmatch r false s' caps k else None
             | [] => None
             end
           with
           | Some caps' => Some caps'
           | None => pmatch r start s caps k
           end).
  unfold split_number. destruct s as [|c s].
  - now rewrite pmatch_unsigned.
  - rewrite !pmatch_unsigned by assumption.
    destruct (Ascii.eqb "-" c) eqn:Hm; [|reflexivity].
    destruct (minus_chars c Hm) as (Hd & _).
    assert (Hnone : split_unsigned (c :: s) = None).
    { unfold split_unsigned. cbn [take_while]. now rewrite Hd. }
    rewrite Hnone.
    destruct (split_unsigned s) as [[[int frac] rest]|]; [|reflexivity].
    now destruct (k false rest _).
Qed.

Lemma split_number_separator c s :
  is_separator c = true -> split_number (c :: s) = None.
Proof.
  intros Hc. unfold split_number, split_unsigned. cbn [take_while].
  destruct (Ascii.eqb "-" c) eqn:Hm.
  { destruct (minus_chars c Hm) as (_ & _ & Hs). congruence. }
  destruct (is_digit c) eqn:Hd; [|reflexivity].
  destruct (is_digit_chars c Hd) as (_ & _ & Hs). congruence.
Qed.

Lemma psearch_PBol r s : psearch (PSeq PBol r) false s = None.
Proof.
  induction s as [|c s IH]; cbn; [reflexivity|exact IH].
Qed.

(** The expression matches exactly the strings that split into two
    numbers around separators, and captures the numbers. *)
Lemma coordinate_regex_eval s :
  match split_coordinates s with
  | Some (a, b) =>
      exists caps,
        psearch coordinate_regex true s = Some caps
        /\ capture 1 caps = Some a /\ capture 3 caps = Some b
  | None => psearch coordinate_regex true s = None
  end.
Proof.
  assert (Hsearch : psearch coordinate_regex true s
                    = pmatch coordinate_regex true s []
                        (fun _ _ caps => Some caps)).
  { destruct s as [|c s]; cbn [psearch].
    - now destruct (pmatch _ _ _ _ _).
    - unfold coordinate_regex at 2. rewrite psearch_PBol.
      now destruct (pmatch _ _ _ _ _). }
  rewrite Hsearch. unfold coordinate_regex, split_coordinates.
  cbn [pmatch].
  rewrite pmatch_number.
  2:{ intros st c s' caps' [Hc|Hc]; cbn [plus_loop].
      - destruct (is_digit_chars c Hc) as (_ & _ & ->). reflexivity.
      - destruct (dot_chars c Hc) as (_ & _ & ->). reflexivity. }
  destruct (split_number s) as [[[w1 f1] r1]|] eqn:E1; [|reflexivity].
  pose proof (split_number_app s w1 f1 r1 E1) as Hs.
  rewrite plus_loop_greedy.
  2:{ intros c s' Hc. rewrite pmatch_number.
      - now rewrite (split_number_separator c s' Hc).
      - intros st c' s'' caps' _. reflexivity. }
  destruct (take_while is_separator r1) as [|c cs]; [reflexivity|].
  rewrite pmatch_number by (intros st c' s'' caps' _; reflexivity).
  destruct (split_number (drop_while is_separator r1))
    as [[[w2 f2] r2]|] eqn:E2; [|reflexivity].
  pose proof (split_number_app _ w2 f2 r2 E2) as Hs2.
  destruct r2 as [|c2 r2]; [|reflexivity].
  eexists. split; [reflexivity|].
  assert (Hcap1 : firstn (List.length s - List.length r1) s = w1 ++ f1).
  { rewrite Hs at 2. rewrite Hs at 1. rewrite (app_assoc w1 f1 r1).
    apply firstn_prefix. }
  assert (Hcap3 : firstn (List.length (drop_while is_separator r1)
                          - List.length (@nil ascii))
                    (drop_while is_separator r1) = w2 ++ f2).
  { rewrite Hs2 at 2. rewrite Hs2 at 1. rewrite (app_assoc w2 f2 []).
    apply firstn_prefix. }
  rewrite Hcap1, Hcap3.
  destruct f1, f2; cbn; split; reflexivity.
Qed.

(** One or more digits; a decimal number: an optional minus sign, digits
    and, optionally, a point with digits after it. *)
Definition digits (s : list ascii) : Prop :=
  s <> [] /\ Forall (fun c => is_digit c = true) s.

Definition fraction (s : list ascii) : Prop :=
  s = [] \/ exists fd, s = "."%char :: fd /\ digits fd.

Definition decimal (s : list ascii) : Prop :=
  exists sign int frac,
    s = sign ++ int ++ frac
    /\ (sign = [] \/ sign = ["-"%char])
    /\ digits int /\ fraction frac.

Lemma is_separator_chars c :
  is_separator c = true ->
  is_digit c = false /\ Ascii.eqb "." c = false /\ Ascii.eqb "-" c = false.
Proof.
  destruct c as [[] [] [] [] [] [] [] []]; cbn; intuition discriminate.
Qed.

Lemma split_unsigned_sound s int frac rest :
  split_unsigned s = Some (int, frac, rest) -> digits int /\ fraction frac.
Proof.
  unfold split_unsigned, digits, fraction.
  pose proof (take_while_Forall is_digit s) as Hint.
  destruct (take_while is_digit s) as [|d ds]; [discriminate|].
  destruct (drop_while is_digit s) as [|c s3].
  - intros E. injection E as <- <- <-. split; [now split|now left].
  - destruct (Ascii.eqb "." c) eqn:Hdot.
    + pose proof (take_while_Forall is_digit s3) as Hfd.
      destruct (take_while is_digit s3) as [|e es].
      * intros E. injection E as <- <- <-. split; [now split|now left].
      * intros E. injection E as <- <- <-. split; [now split|]. right.
        apply Ascii.eqb_eq in Hdot. subst c. exists (e :: es).
        now repeat split.
    + intros E. injection E as <- <- <-. split; [now split|now left].
Qed.

Lemma split_number_sound s whole frac rest :
  split_number s = Some (whole, frac, rest) -> decimal (whole ++ frac).
Proof.
  unfold split_number. destruct s as [|c s]; [discriminate|].
  destruct (Ascii.eqb "-" c) eqn:Hm.
  - destruct (split_unsigned s) as [[[int fr] r]|] eqn:E; [|discriminate].
    intros E'. injection E' as <- <- <-.
    apply Ascii.eqb_eq in Hm. subst c.
    destruct (split_unsigned_sound s int fr r E) as [Hi Hf].
    exists ["-"%char], int, fr.
    split; [reflexivity|]. split; [now right|]. split; assumption.
  - intros E. destruct (split_unsigned_sound _ _ _ _ E) as [Hi Hf].
    exists [], whole, frac.
    split; [reflexivity|]. split; [now left|]. split; assumption.
Qed.

Lemma split_unsigned_complete int frac rest :
  digits int -> fraction frac ->
  (rest = []
   \/ exists c r, rest = c :: r /\ is_digit c = false
                  /\ Ascii.eqb "." c = false) ->
  split_unsigned (int ++ frac ++ rest) = Some (int, frac, rest).
Proof.
  intros [Hne Hint] Hfrac Hrest. unfold split_unsigned.
  assert (Hnext : frac ++ rest = []
                  \/ exists c r, frac ++ rest = c :: r /\ is_digit c = false).
  { destruct Hfrac as [->|(fd & -> & _)].
    - destruct Hrest as [->|(c & r & -> & Hc & _)]; [now left|].
      right. now exists c, r.
    - right. exists "."%char, (fd ++ rest). now split. }
  destruct (take_while_app is_digit int (frac ++ rest) Hint Hnext) as [-> ->].
  destruct int as [|d ds]; [congruence|].
  destruct Hfrac as [->|(fd & -> & Hfne & Hfd)]; cbn [app].
  - destruct Hrest as [->|(c & r & -> & _ & Hdot)]; [reflexivity|].
    now rewrite Hdot.
  - cbn [Ascii.eqb Bool.eqb andb].
    assert (Hrest' : rest = []
                     \/ exists c r, rest = c :: r /\ is_digit c = false).
    { destruct Hrest as [->|(c & r & -> & Hc & _)]; [now left|].
      right. now exists c, r. }
    destruct (take_while_app is_digit fd rest Hfd Hrest') as [-> ->].
    destruct fd; [congruence|reflexivity].
Qed.

Lemma split_number_complete a rest :
  decimal a ->
  (rest = []
   \/ exists c r, rest = c :: r /\ is_digit c = false
                  /\ Ascii.eqb "." c = false) ->
  exists whole frac,
    split_number (a ++ rest) = Some (whole, frac, rest) /\ whole ++ frac = a.
Proof.
  intros (sign & int & frac & -> & Hsign & Hint & Hfrac) Hrest.
  pose proof (split_unsigned_complete int frac rest Hint Hfrac Hrest) as Hu.
  unfold split_number. destruct Hsign as [->| ->]; cbn [app].
  - destruct Hint as [Hne Hd]. destruct int as [|d ds]; [congruence|].
    cbn [app] in *. inversion Hd as [|? ? Hd1 _]; subst.
    destruct (is_digit_chars d Hd1) as (_ & -> & _).
    rewrite <- app_assoc, Hu.
    exists (d :: ds), frac. split; reflexivity.
  - cbn [Ascii.eqb Bool.eqb andb]. rewrite <- app_assoc, Hu.
    exists ("-"%char :: int), frac. split; reflexivity.
Qed.

Lemma decimal_head a :
  decimal a ->
  exists c r, a = c :: r /\ is_separator c = false.
Proof.
  intros (sign & int & frac & -> & Hsign & [Hne Hd] & _).
  destruct Hsign as [->| ->]; cbn [app].
  - destruct int as [|d ds]; [congruence|]. exists d, (ds ++ frac).
    split; [reflexivity|]. inversion Hd; subst.
    now destruct (is_digit_chars d) as (_ & _ & ->).
  - exists "-"%char, (int ++ frac). now split.
Qed.

(** The strings that split into coordinates: a decimal number, one or
    more separators, a decimal number. *)
Lemma split_coordinates_iff s a b :
  split_coordinates s = Some (a, b) <->
  exists sep,
    s = a ++ sep ++ b /\ decimal a /\ decimal b
    /\ sep <> [] /\ Forall (fun c => is_separator c = true) sep.
Proof.
  unfold split_coordinates. split.
  - destruct (split_number s) as [[[w1 f1] r1]|] eqn:E1; [|discriminate].
    pose proof (take_drop_while is_separator r1) as Hr1.
    pose proof (take_while_Forall is_separator r1) as Hsep.
    destruct (take_while is_separator r1) as [|c cs]; [discriminate|].
    destruct (split_number (drop_while is_separator r1))
      as [[[w2 f2] [|c2 r2]]|] eqn:E2; try discriminate.
    intros E. injection E as <- <-. exists (c :: cs).
    split.
    { rewrite (split_number_app s w1 f1 r1 E1), <- Hr1.
      rewrite (split_number_app _ w2 f2 [] E2), app_nil_r.
      now rewrite <- !app_assoc. }
    split; [exact (split_number_sound _ _ _ _ E1)|].
    split; [exact (split_number_sound _ _ _ _ E2)|].
    split; [discriminate|exact Hsep].
  - intros (sep & -> & Ha & Hb & Hne & Hsep).
    destruct sep as [|c cs]; [congruence|].
    assert (Hc : is_separator c = true) by now inversion Hsep.
    destruct (is_separator_chars c Hc) as (Hd & Hdot & _).
    destruct (split_number_complete a ((c :: cs) ++ b) Ha)
      as (w1 & f1 & -> & <-).
    { right. exists c, (cs ++ b). now split. }
    destruct (decimal_head b Hb) as (c2 & r2 & Eb & Hc2).
    destruct (take_while_app is_separator (c :: cs) b Hsep) as [-> ->].
    { right. now exists c2, r2. }
    destruct (split_number_complete b [] Hb) as (w2 & f2 & E2 & <-);
      [now left|].
    rewrite app_nil_r in E2. now rewrite E2.
Qed.

Lemma leb_abs_within x b :
  leb (abs x) (Fin b) = true <-> within (- b) b x.
Proof.
  destruct x as [q|sg|]; cbn [within].
  - apply leb_abs_Fin.
  - split; [discriminate|contradiction].
  - split; [discriminate|contradiction].
Qed.

(** X28: [parseCoordinateString] accepts exactly the inputs that, white
    space at both ends aside, consist of a decimal number, one or more
    commas or white space characters, and a decimal number (a number
    being an optional minus sign, digits and optionally a point followed
    by digits: no plus sign, no exponent, no bare point), with the first
    number within 90 and the second within 180 of zero; it returns the
    two numbers as latitude and longitude. *)
Theorem parseCoordinateString_accepts input lat lng :
  parseCoordinateString input = Some (lat, lng) <->
  exists a sep b,
    trim (list_ascii_of_string input) = a ++ sep ++ b
    /\ decimal a /\ decimal b
    /\ sep <> [] /\ Forall (fun c => is_separator c = true) sep
    /\ lat = parseFloat (string_of_list_ascii a)
    /\ lng = parseFloat (string_of_list_ascii b)
    /\ within (- (90)) 90 lat /\ within (- (180)) 180 lng.
Proof.
  unfold parseCoordinateString.
  pose proof (coordinate_regex_eval (trim (list_ascii_of_string input)))
    as Heval.
  destruct (split_coordinates (trim (list_ascii_of_string input)))
    as [[a b]|] eqn:Hsplit.
  - destruct Heval as (caps & -> & Hc1 & Hc3).
    unfold parseFloat_capture. rewrite Hc1, Hc3.
    assert (Huniq : forall a' sep' b',
               trim (list_ascii_of_string input) = a' ++ sep' ++ b' ->
               decimal a' -> decimal b' -> sep' <> [] ->
               Forall (fun c => is_separator c = true) sep' ->
               a' = a /\ b' = b).
    { intros a' sep' b' Hs' Ha' Hb' Hne' Hsep'.
      assert (E : split_coordinates (trim (list_ascii_of_string input))
                  = Some (a', b')).
      { apply split_coordinates_iff. now exists sep'. }
      rewrite Hsplit in E. now injection E as -> ->. }
    apply split_coordinates_iff in Hsplit as (sep & Hs & Ha & Hb & Hne & Hsep).
    destruct (leb (abs (parseFloat (string_of_list_ascii a))) (Fin 90))
      eqn:Hlat;
      destruct (leb (abs (parseFloat (string_of_list_ascii b))) (Fin 180))
        eqn:Hlng; cbn [andb]; split;
      try discriminate;
      try (intros E; injection E as <- <-; exists a, sep, b;
           apply leb_abs_within in Hlat, Hlng; now repeat split);
      intros (a' & sep' & b' & Hs' & Ha' & Hb' & Hne' & Hsep' & -> & ->
              & Hw1 & Hw2);
      destruct (Huniq a' sep' b' Hs' Ha' Hb' Hne' Hsep') as [-> ->];
      apply leb_abs_within in Hw1, Hw2; congruence.
  - rewrite Heval. split; [discriminate|].
    intros (a & sep & b & Hs & Ha & Hb & Hne & Hsep & _).
    assert (E : split_coordinates (trim (list_ascii_of_string input))
                = Some (a, b)).
    { apply split_coordinates_iff. now exists sep. }
    congruence.
Qed.

(** ** Coordinates in the search box *)

Definition digit_value (c : ascii) : Z := Z.of_nat (nat_of_ascii c - 48).

(** The number that the digits [ds] write after the digits of [acc]. *)
Definition digits_value (ds : list ascii) (acc : Z) : Z :=
  fold_left (fun acc c => (acc * 10 + digit_value c)%Z) ds acc.

Lemma is_digit_parse c :
  is_digit c = true ->
  digit_of c = Some (digit_value c)
  /\ is_space c = false /\ is_white c = false
  /\ Ascii.eqb c "," = false
  /\ Ascii.eqb "I" c = false
  /\ forall s, take_sign (c :: s) = (false, c :: s).
Proof.
  destruct c as [[] [] [] [] [] [] [] []]; cbn; try discriminate;
    intros _; repeat split.
Qed.

Lemma not_digit_parse c : is_digit c = false -> digit_of c = None.
Proof.
  destruct c as [[] [] [] [] [] [] [] []]; cbn; try discriminate;
    reflexivity.
Qed.

Lemma take_digits_app ds rest count acc :
  Forall (fun c => is_digit c = true) ds ->
  (rest = [] \/ exists c r, rest = c :: r /\ is_digit c = false) ->
  take_digits (ds ++ rest) count acc
  = ((count + List.length ds)%nat, digits_value ds acc, rest).
Proof.
  intros Hds Hrest. revert count acc.
  induction Hds as [|d ds Hd _ IH]; intros count acc; cbn [app].
  - rewrite Nat.add_0_r. cbn [digits_value fold_left].
    destruct Hrest as [->|(c & r & -> & Hc)]; [reflexivity|].
    cbn [take_digits]. now rewrite (not_digit_parse c Hc).
  - cbn [take_digits]. destruct (is_digit_parse d Hd) as (-> & _).
    rewrite IH. cbn [List.length digits_value fold_left].
    now rewrite Nat.add_succ_r.
Qed.

(** The value of a decimal number: sign, digits before and after the
    point. *)
Definition decimal_value (negative : bool) (int fd : list ascii) : Q :=
  let magnitude :=
    inject_Z (digits_value fd (digits_value int 0))
    * Qpower 10 (0 - Z.of_nat (List.length fd)) in
  if negative then - magnitude else magnitude.

Definition fraction_digits (frac : list ascii) : list ascii :=
  match frac with
  | [] => []
  | _ :: fd => fd
  end.

Definition is_negative (sign : list ascii) : bool :=
  match sign with
  | [] => false
  | _ => true
  end.

(** [parseFloat] reads a decimal number in full. *)
Lemma parseFloat_decimal_value sign int frac :
  (sign = [] \/ sign = ["-"%char]) -> digits int -> fraction frac ->
  parseFloat (string_of_list_ascii (sign ++ int ++ frac))
  = Fin (decimal_value (is_negative sign) int (fraction_digits frac)).
Proof.
  intros Hsign Hint Hfrac.
  unfold parseFloat. rewrite list_ascii_of_string_of_list_ascii.
  pose proof Hint as [Hne Hd]. destruct int as [|d ds]; [congruence|].
  assert (Hd1 : is_digit d = true) by now inversion Hd.
  destruct (is_digit_parse d Hd1) as (_ & Hsp & _ & _ & Hinf & Hts).
  assert (Hnext : frac = []
                  \/ exists c r, frac = c :: r /\ is_digit c = false).
  { destruct Hfrac as [->|(fd & -> & _)]; [now left|].
    right. now exists "."%char, fd. }
  assert (Hskip : skip_spaces ((d :: ds) ++ frac) = (d :: ds) ++ frac).
  { cbn [app skip_spaces]. now rewrite Hsp. }
  assert (Hstart : starts_with (list_ascii_of_string "Infinity")
                     ((d :: ds) ++ frac) = false).
  { cbn [list_ascii_of_string app starts_with]. now rewrite Hinf. }
  assert (Hhead : let '(negative, s) :=
                    take_sign (skip_spaces (sign ++ (d :: ds) ++ frac)) in
                  negative = is_negative sign /\ s = (d :: ds) ++ frac).
  { destruct Hsign as [->| ->].
    - cbn [app]. change (d :: ds ++ frac) with ((d :: ds) ++ frac).
      rewrite Hskip. cbn [app]. rewrite Hts. now split.
    - now split. }
  destruct (take_sign _) as [negative s]. destruct Hhead as [-> ->].
  rewrite Hstart, (take_digits_app (d :: ds) frac 0 0 Hd Hnext).
  cbn [Nat.add List.length].
  destruct Hfrac as [->|(fd & -> & Hfne & Hfd)].
  - reflexivity.
  - rewrite <- (app_nil_r fd) at 1.
    rewrite (take_digits_app fd [] 0 _ Hfd) by now left.
    reflexivity.
Qed.

Lemma parseCoordinateString_split input a b :
  split_coordinates (trim (list_ascii_of_string input)) = Some (a, b) ->
  parseCoordinateString input
  = let lat := parseFloat (string_of_list_ascii a) in
    let lng := parseFloat (string_of_list_ascii b) in
    if leb (abs lat) (Fin 90) && leb (abs lng) (Fin 180)
    then Some (lat, lng)
    else None.
Proof.
  intros Hsplit. unfold parseCoordinateString.
  pose proof (coordinate_regex_eval (trim (list_ascii_of_string input)))
    as Heval.
  rewrite Hsplit in Heval. destruct Heval as (caps & -> & Hc1 & Hc3).
  unfold parseFloat_capture. now rewrite Hc1, Hc3.
Qed.

(** Neither white space nor a comma. *)
Definition solid (c : ascii) : Prop := is_separator c = false.

Lemma solid_chars c :
  solid c -> is_white c = false /\ Ascii.eqb c ","%char = false.
Proof.
  unfold solid, is_separator. intros E.
  apply orb_false_iff in E as [E1 E2]. now split.
Qed.

Lemma white_chars c : is_white c = true -> Ascii.eqb c ","%char = false.
Proof.
  destruct c as [[] [] [] [] [] [] [] []]; cbn; try discriminate;
    reflexivity.
Qed.

Lemma decimal_solid a : decimal a -> a <> [] /\ Forall solid a.
Proof.
  intros (sign & int & frac & -> & Hsign & [Hne Hint] & Hfrac).
  assert (Hd : Forall solid int).
  { eapply Forall_impl; [|exact Hint]. intros c Hc.
    now destruct (is_digit_chars c Hc) as (_ & _ & ?). }
  split.
  { destruct sign; [destruct int; [congruence|discriminate]|discriminate]. }
  apply Forall_app. split.
  { destruct Hsign as [->| ->]; [constructor|].
    constructor; [reflexivity|constructor]. }
  apply Forall_app. split; [exact Hd|].
  destruct Hfrac as [->|(fd & -> & _ & Hfd)]; [constructor|].
  constructor; [reflexivity|].
  eapply Forall_impl; [|exact Hfd]. intros c Hc.
  now destruct (is_digit_chars c Hc) as (_ & _ & ?).
Qed.

Lemma trimStart_white w s :
  Forall (fun c => is_white c = true) w -> trimStart (w ++ s) = trimStart s.
Proof.
  induction 1 as [|c w Hc _ IH]; [reflexivity|].
  cbn [app trimStart]. now rewrite Hc.
Qed.

(** [trim] takes the white space off both ends of a text that begins
    and ends with another character. *)
Lemma trim_core w core w' :
  Forall (fun c => is_white c = true) w ->
  Forall (fun c => is_white c = true) w' ->
  (exists c s, core = c :: s /\ is_white c = false) ->
  (exists c s, rev core = c :: s /\ is_white c = false) ->
  trim (w ++ core ++ w') = core.
Proof.
  intros Hw Hw' (c & s & Hcore & Hc) (d & r & Hrev & Hd).
  unfold trim. rewrite (trimStart_white w _ Hw).
  assert (E : trimStart (core ++ w') = core ++ w').
  { rewrite Hcore. cbn [app trimStart]. now rewrite Hc. }
  rewrite E, rev_app_distr, trimStart_white by now apply Forall_rev.
  rewrite Hrev. cbn [trimStart]. rewrite Hd, <- Hrev.
  apply rev_involutive.
Qed.

Lemma solid_head a :
  a <> [] -> Forall solid a -> exists c s, a = c :: s /\ is_white c = false.
Proof.
  intros Hne Ha. destruct a as [|c s]; [congruence|].
  exists c, s. split; [reflexivity|].
  inversion Ha; subst. now apply solid_chars.
Qed.

Lemma solid_last a :
  a <> [] -> Forall solid a ->
  exists c s, rev a = c :: s /\ is_white c = false.
Proof.
  intros Hne Ha. apply solid_head; [|now apply Forall_rev].
  intros E. apply (f_equal (@rev ascii)) in E.
  rewrite rev_involutive in E. now apply Hne.
Qed.

(** The number of commas of a text. *)
Definition commas (s : list ascii) : nat :=
  List.length (filter (fun c => Ascii.eqb c ","%char) s).

Lemma commas_app s t : commas (s ++ t) = (commas s + commas t)%nat.
Proof. unfold commas. now rewrite filter_app, length_app. Qed.

Lemma commas_none s :
  Forall (fun c => Ascii.eqb c ","%char = false) s -> commas s = O.
Proof.
  induction 1 as [|c s Hc _ IH]; [reflexivity|].
  unfold commas in *. cbn [filter]. now rewrite Hc.
Qed.

Lemma commas_solid s : Forall solid s -> commas s = O.
Proof.
  intros H. apply commas_none. eapply Forall_impl; [|exact H].
  intros c Hc. now apply solid_chars.
Qed.

Lemma commas_white s :
  Forall (fun c => is_white c = true) s -> commas s = O.
Proof.
  intros H. apply commas_none. eapply Forall_impl; [|exact H].
  intros c Hc. now apply white_chars.
Qed.

Lemma split_comma_length s : List.length (split_comma s) = S (commas s).
Proof.
  induction s as [|c s IH]; [reflexivity|].
  unfold commas in *. cbn [split_comma filter].
  destruct (Ascii.eqb c ","%char); cbn [List.length]; [now rewrite IH|].
  destruct (split_comma s); [discriminate|exact IH].
Qed.

Lemma split_comma_app x y :
  commas x = O -> split_comma (x ++ ","%char :: y) = x :: split_comma y.
Proof.
  induction x as [|c x IH]; intros Hx; [reflexivity|].
  unfold commas in Hx. cbn [filter] in Hx. cbn [app split_comma].
  destruct (Ascii.eqb c ","%char); [discriminate|].
  now rewrite IH.
Qed.

Lemma split_comma_whole x : commas x = O -> split_comma x = [x].
Proof.
  induction x as [|c x IH]; intros Hx; [reflexivity|].
  unfold commas in Hx. cbn [filter] in Hx. cbn [split_comma].
  destruct (Ascii.eqb c ","%char); [discriminate|].
  now rewrite IH.
Qed.

Lemma existsb_comma s :
  existsb (Ascii.eqb ","%char) s = negb (commas s =? 0)%nat.
Proof.
  induction s as [|c s IH]; [reflexivity|].
  unfold commas in *. cbn [existsb filter].
  rewrite Ascii.eqb_sym. destruct (Ascii.eqb c ","%char); [reflexivity|].
  exact IH.
Qed.

Lemma one_comma sep :
  Forall (fun c => is_separator c = true) sep -> commas sep = 1%nat ->
  exists w1 w2,
    sep = w1 ++ ","%char :: w2
    /\ Forall (fun c => is_white c = true) w1
    /\ Forall (fun c => is_white c = true) w2.
Proof.
  induction 1 as [|c sep Hc Hsep IH]; [discriminate|].
  unfold commas in *. cbn [filter]. unfold is_separator in Hc.
  destruct (Ascii.eqb c ","%char) eqn:E; cbn [List.length]; intros Hn.
  - apply Ascii.eqb_eq in E. subst c. exists [], sep.
    split; [reflexivity|]. split; [constructor|].
    injection Hn as Hn. clear IH.
    induction Hsep as [|d sep Hd _ IH]; [constructor|].
    cbn [filter] in Hn. unfold is_separator in Hd.
    destruct (Ascii.eqb d ","%char); [discriminate|].
    constructor; [exact Hd|now apply IH].
  - destruct (IH Hn) as (w1 & w2 & -> & Hw1 & Hw2).
    exists (c :: w1), w2. split; [reflexivity|].
    split; [now constructor|exact Hw2].
Qed.

Lemma parseCoordinateString_decimals query w a sep b w' :
  list_ascii_of_string query = w ++ (a ++ sep ++ b) ++ w' ->
  Forall (fun c => is_white c = true) w ->
  Forall (fun c => is_white c = true) w' ->
  decimal a -> decimal b ->
  sep <> [] -> Forall (fun c => is_separator c = true) sep ->
  parseCoordinateString query
  = let lat := parseFloat (string_of_list_ascii a) in
    let lng := parseFloat (string_of_list_ascii b) in
    if leb (abs lat) (Fin 90) && leb (abs lng) (Fin 180)
    then Some (lat, lng)
    else None.
Proof.
  intros Hq Hw Hw' Ha Hb Hne Hsep.
  destruct (decimal_solid a Ha) as [Hane Hasolid].
  destruct (decimal_solid b Hb) as [Hbne Hbsolid].
  apply parseCoordinateString_split.
  replace (trim (list_ascii_of_string query)) with (a ++ sep ++ b).
  { apply split_coordinates_iff. now exists sep. }
  symmetry. rewrite Hq. apply trim_core; [exact Hw|exact Hw'| |].
  - destruct (solid_head a Hane Hasolid) as (c & s & -> & Hc).
    now exists c, (s ++ sep ++ b).
  - destruct (solid_last b Hbne Hbsolid) as (c & s & E & Hc).
    exists c, (s ++ rev (a ++ sep)).
    now rewrite app_assoc, rev_app_distr, E.
Qed.

(** Two decimal numbers with one comma between them, white space
    allowed everywhere but inside the numbers. *)
Lemma handleSearch_coords_one_comma query w a w1 w2 b w' :
  list_ascii_of_string query
  = w ++ (a ++ (w1 ++ ","%char :: w2) ++ b) ++ w' ->
  Forall (fun c => is_white c = true) w ->
  Forall (fun c => is_white c = true) w1 ->
  Forall (fun c => is_white c = true) w2 ->
  Forall (fun c => is_white c = true) w' ->
  decimal a -> decimal b ->
  handleSearch_coords query
  = Some (parseFloat (string_of_list_ascii a),
          parseFloat (string_of_list_ascii b)).
Proof.
  intros Hq Hw Hw1 Hw2 Hw' Ha Hb.
  assert (Hsep : Forall (fun c => is_separator c = true)
                   (w1 ++ ","%char :: w2)).
  { unfold is_separator. apply Forall_app. split; [|constructor].
    - eapply Forall_impl; [|exact Hw1]. intros c ->. apply orb_true_r.
    - reflexivity.
    - eapply Forall_impl; [|exact Hw2]. intros c ->. apply orb_true_r. }
  assert (Hne : w1 ++ ","%char :: w2 <> []) by now destruct w1.
  unfold handleSearch_coords.
  rewrite (parseCoordinateString_decimals query w a _ b w'
             Hq Hw Hw' Ha Hb Hne Hsep).
  cbv zeta.
  destruct (leb _ _ && leb _ _); [reflexivity|].
  destruct (decimal_solid a Ha) as [Hane Hasolid].
  destruct (decimal_solid b Hb) as [Hbne Hbsolid].
  assert (Hsplit : split_comma (list_ascii_of_string query)
                   = [w ++ a ++ w1; w2 ++ b ++ w']).
  { rewrite Hq.
    replace (w ++ (a ++ (w1 ++ ","%char :: w2) ++ b) ++ w')
      with ((w ++ a ++ w1) ++ ","%char :: (w2 ++ b ++ w'))
      by (rewrite <- !app_assoc; reflexivity).
    rewrite split_comma_app, split_comma_whole; [reflexivity| |].
    - rewrite !commas_app, (commas_white w2 Hw2),
        (commas_white w' Hw'), (commas_solid b Hbsolid). reflexivity.
    - rewrite !commas_app, (commas_white w Hw),
        (commas_white w1 Hw1), (commas_solid a Hasolid). reflexivity. }
  assert (Hhas : existsb (Ascii.eqb ","%char) (list_ascii_of_string query)
                 = true).
  { apply existsb_exists. exists ","%char. split; [|reflexivity].
    rewrite Hq. apply in_or_app. right. apply in_or_app. left.
    apply in_or_app. right. apply in_or_app. left.
    apply in_or_app. right. now left. }
  rewrite Hhas, Hsplit. cbn [map].
  rewrite (trim_core w a w1 Hw Hw1 (solid_head a Hane Hasolid)
             (solid_last a Hane Hasolid)).
  rewrite (trim_core w2 b w' Hw2 Hw' (solid_head b Hbne Hbsolid)
             (solid_last b Hbne Hbsolid)).
  destruct Ha as (sa & ia & fa & Ea & Hsa & Hia & Hfa).
  destruct Hb as (sb & ib & fb & Eb & Hsb & Hib & Hfb).
  rewrite Ea, Eb.
  rewrite (parseFloat_decimal_value sa ia fa Hsa Hia Hfa).
  rewrite (parseFloat_decimal_value sb ib fb Hsb Hib Hfb).
  reflexivity.
Qed.

(** X29: a query that is a decimal number, commas or white space and a
    decimal number, with white space around, is read by [handleSearch]
    as these two numbers when they are in range or when the separator
    holds exactly one comma: the split on the comma has no range check,
    so that it accepts a latitude beyond 90 or a longitude beyond 180,
    which [parseCoordinateString] has rejected.  Out of range without
    exactly one comma, the query itself gives no coordinates. *)
Theorem handleSearch_coords_decimals query w a sep b w' :
  list_ascii_of_string query = w ++ (a ++ sep ++ b) ++ w' ->
  Forall (fun c => is_white c = true) w ->
  Forall (fun c => is_white c = true) w' ->
  decimal a -> decimal b ->
  sep <> [] -> Forall (fun c => is_separator c = true) sep ->
  let lat := parseFloat (string_of_list_ascii a) in
  let lng := parseFloat (string_of_list_ascii b) in
  let in_range := leb (abs lat) (Fin 90) && leb (abs lng) (Fin 180) in
  parseCoordinateString query = (if in_range then Some (lat, lng) else None)
  /\ handleSearch_coords query
     = if in_range || (commas sep =? 1)%nat then Some (lat, lng) else None.
Proof.
  intros Hq Hw Hw' Ha Hb Hne Hsep lat lng in_range.
  pose proof (parseCoordinateString_decimals query w a sep b w'
                Hq Hw Hw' Ha Hb Hne Hsep) as Hparse.
  cbv zeta in Hparse. fold lat lng in_range in Hparse.
  split; [exact Hparse|].
  destruct (commas sep =? 1)%nat eqn:Hone.
  - rewrite orb_true_r. apply Nat.eqb_eq in Hone.
    destruct (one_comma sep Hsep Hone) as (w1 & w2 & -> & Hw1 & Hw2).
    now apply (handleSearch_coords_one_comma query w a w1 w2 b w').
  - rewrite orb_false_r. apply Nat.eqb_neq in Hone.
    unfold handleSearch_coords. rewrite Hparse.
    destruct in_range; [reflexivity|].
    destruct (decimal_solid a Ha) as [_ Hasolid].
    destruct (decimal_solid b Hb) as [_ Hbsolid].
    assert (Hcount : commas (list_ascii_of_string query) = commas sep).
    { rewrite Hq, !commas_app, (commas_white w Hw), (commas_white w' Hw'),
        (commas_solid a Hasolid), (commas_solid b Hbsolid). lia. }
    destruct (existsb _ _); [|reflexivity].
    pose proof (split_comma_length (list_ascii_of_string query)) as Hlen.
    rewrite Hcount in Hlen. rewrite <- (length_map trim) in Hlen.
    destruct (map trim _) as [|p0 [|p1 [|p2 ps]]]; try reflexivity.
    cbn [List.length] in Hlen. lia.
Qed.

Lemma handleSearch_coords_decimals_witness :
  parseCoordinateString "95, 200" = None
  /\ handleSearch_coords "95, 200" = Some (Fin 95, Fin 200).
Proof.
  assert (Hd : forall s, s = ["9"; "5"]%char \/ s = ["2"; "0"; "0"]%char ->
                         decimal s).
  { intros s Hs. exists [], s, []. rewrite app_nil_r.
    split; [reflexivity|]. split; [now left|]. split; [|now left].
    destruct Hs as [->| ->]; (split; [discriminate|]);
      repeat constructor. }
  destruct (handleSearch_coords_decimals "95, 200" []
              ["9"; "5"]%char [","; " "]%char ["2"; "0"; "0"]%char [])
    as [H1 H2].
  - reflexivity.
  - constructor.
  - constructor.
  - apply Hd. now left.
  - apply Hd. now right.
  - discriminate.
  - repeat constructor.
  - split.
    + rewrite H1. vm_compute. reflexivity.
    + rewrite H2. vm_compute. reflexivity.
Defined.

(** ** From a long press to a search *)

Lemma list_ascii_of_string_append s t :
  list_ascii_of_string (append s t)
  = list_ascii_of_string s ++ list_ascii_of_string t.
Proof.
  induction s as [|c s IH]; [reflexivity|].
  cbn [append list_ascii_of_string app]. now rewrite IH.
Qed.

Lemma length_list_ascii_of_string s :
  List.length (list_ascii_of_string s) = String.length s.
Proof.
  induction s as [|c s IH]; [reflexivity|].
  cbn [list_ascii_of_string List.length String.length]. now rewrite IH.
Qed.

Lemma pad_left_chars width s :
  list_ascii_of_string (pad_left width s)
  = repeat "0"%char (width - String.length s) ++ list_ascii_of_string s.
Proof.
  unfold pad_left. rewrite list_ascii_of_string_append. f_equal.
  induction (width - String.length s)%nat as [|k IH]; [reflexivity|].
  cbn [list_ascii_of_string repeat]. now rewrite IH.
Qed.

Lemma digits_value_acc ds acc :
  digits_value ds acc
  = (acc * 10 ^ Z.of_nat (List.length ds) + digits_value ds 0)%Z.
Proof.
  revert acc. induction ds as [|d ds IH]; intros acc.
  - cbn. lia.
  - cbn [digits_value fold_left List.length].
    fold (digits_value ds (acc * 10 + digit_value d)).
    fold (digits_value ds (0 * 10 + digit_value d)).
    rewrite (IH (acc * 10 + digit_value d)%Z),
      (IH (0 * 10 + digit_value d)%Z).
    rewrite Nat2Z.inj_succ, Z.pow_succ_r by lia. ring.
Qed.

Lemma digits_value_nonneg ds acc :
  (0 <= acc)%Z -> (0 <= digits_value ds acc)%Z.
Proof.
  revert acc. induction ds as [|d ds IH]; intros acc Hacc; [exact Hacc|].
  cbn [digits_value fold_left]. apply IH. unfold digit_value. lia.
Qed.

Lemma digits_value_zeros k acc :
  digits_value (repeat "0"%char k) acc = (acc * 10 ^ Z.of_nat k)%Z.
Proof.
  revert acc. induction k as [|k IH]; intros acc.
  - cbn. lia.
  - cbn [repeat digits_value fold_left].
    fold (digits_value (repeat "0"%char k) (acc * 10 + digit_value "0")).
    rewrite IH, Nat2Z.inj_succ, Z.pow_succ_r by lia.
    change (digit_value "0") with 0%Z. ring.
Qed.

(** The characters that print a decimal numeral. *)
Definition uint_chars (u : Decimal.uint) : list ascii :=
  list_ascii_of_string (NilEmpty.string_of_uint u).

Lemma uint_chars_digits u :
  Forall (fun c => is_digit c = true) (uint_chars u).
Proof.
  unfold uint_chars.
  induction u; cbn [NilEmpty.string_of_uint list_ascii_of_string];
    constructor; (reflexivity || assumption).
Qed.

Lemma uint_chars_value u v :
  Z.of_N (DecimalPos.Unsigned.of_lu (Decimal.revapp u v))
  = digits_value (uint_chars u) (Z.of_N (DecimalPos.Unsigned.of_lu v)).
Proof.
  unfold uint_chars. revert v.
  induction u; intros v;
    cbn [NilEmpty.string_of_uint list_ascii_of_string Decimal.revapp
           digits_value fold_left];
    [reflexivity|..];
    rewrite IHu; unfold digits_value; f_equal;
    cbn [DecimalPos.Unsigned.of_lu];
    rewrite ?N2Z.inj_add, N2Z.inj_mul;
    generalize (Z.of_N (DecimalPos.Unsigned.of_lu v)); intros z;
    match goal with
    | |- context [digit_value ?c] =>
        let d := eval vm_compute in (digit_value c) in
        change (digit_value c) with d
    end;
    change (Z.of_N 10) with 10%Z; cbn [Z.of_N]; lia.
Qed.

(** Printing a natural number gives digits that read as this number,
    without a zero in front unless the number is zero. *)
Lemma to_uint_chars m :
  let s := list_ascii_of_string (NilZero.string_of_uint (N.to_uint m)) in
  digits s /\ digits_value s 0 = Z.of_N m
  /\ forall k, (0 < k)%nat -> (Z.of_N m < 10 ^ Z.of_nat k)%Z ->
               (List.length s <= k)%nat.
Proof.
  assert (Hnorm : Decimal.unorm (N.to_uint m) = N.to_uint m).
  { rewrite <- DecimalN.Unsigned.to_of. f_equal.
    apply DecimalN.Unsigned.of_to. }
  assert (Hnil : N.to_uint m <> Decimal.Nil).
  { rewrite <- Hnorm. apply DecimalFacts.unorm_nonnil. }
  assert (Hs : list_ascii_of_string (NilZero.string_of_uint (N.to_uint m))
               = uint_chars (N.to_uint m)).
  { unfold uint_chars. now destruct (N.to_uint m). }
  cbv zeta. rewrite Hs.
  assert (Hval : digits_value (uint_chars (N.to_uint m)) 0 = Z.of_N m).
  { rewrite <- (DecimalN.Unsigned.of_to m) at 2.
    unfold N.of_uint. rewrite DecimalPos.Unsigned.of_uint_alt.
    unfold Decimal.rev. now rewrite uint_chars_value. }
  split; [|split; [exact Hval|]].
  { split; [|apply uint_chars_digits].
    unfold uint_chars. now destruct (N.to_uint m). }
  intros k Hk Hm. rewrite <- Hval in Hm.
  pose proof (DecimalFacts.nzhead_nonzero (N.to_uint m)) as Hhead.
  unfold Decimal.unorm in Hnorm.
  assert (Hlead : N.to_uint m = Decimal.D0 Decimal.Nil
                  \/ exists c cs, uint_chars (N.to_uint m) = c :: cs
                                  /\ (1 <= digit_value c)%Z).
  { destruct (Decimal.nzhead (N.to_uint m)) as [|u|u|u|u|u|u|u|u|u|u];
      try (right; rewrite <- Hnorm; unfold uint_chars;
           cbn [NilEmpty.string_of_uint list_ascii_of_string];
           eexists _, _; split; [reflexivity|now vm_compute]).
    - now left.
    - now destruct (Hhead u). }
  destruct Hlead as [E|(c & cs & E & Hc)].
  { rewrite E. cbn. lia. }
  rewrite E in Hm |- *. cbn [digits_value fold_left List.length] in Hm |- *.
  fold (digits_value cs (0 * 10 + digit_value c)) in Hm.
  rewrite digits_value_acc in Hm.
  pose proof (digits_value_nonneg cs 0 (Z.le_refl 0)) as Hcs.
  assert (Hpow : (10 ^ Z.of_nat (List.length cs) < 10 ^ Z.of_nat k)%Z).
  { assert (0 < 10 ^ Z.of_nat (List.length cs))%Z
      by (apply Z.pow_pos_nonneg; lia). nia. }
  apply Z.pow_lt_mono_r_iff in Hpow; lia.
Qed.

(** [x.toFixed(6)] is a decimal number that [parseFloat] reads back as a
    number within half a millionth of [x]. *)
Lemma toFixed_decimal x :
  decimal (list_ascii_of_string (toFixed x 6))
  /\ exists q,
       parseFloat (toFixed x 6) = Fin q /\ Qabs (q - x) <= 1 # 2000000.
Proof.
  set (n := Qfloor (Qabs x * inject_Z 1000000 + (1 # 2))).
  set (sign := if Qltb x 0 then ["-"%char] else []).
  set (int := list_ascii_of_string
                (NilZero.string_of_uint (N.to_uint (Z.to_N (n / 1000000))))).
  set (low := NilZero.string_of_uint (N.to_uint (Z.to_N (n mod 1000000)))).
  set (fd := repeat "0"%char (6 - String.length low)
             ++ list_ascii_of_string low).
  assert (Hchars : list_ascii_of_string (toFixed x 6)
                   = sign ++ int ++ "."%char :: fd).
  { unfold toFixed. change (10 ^ Z.of_nat 6)%Z with 1000000%Z.
    fold n. fold low.
    rewrite !list_ascii_of_string_append, pad_left_chars.
    unfold sign. now destruct (Qltb x 0). }
  assert (Hn : (0 <= n)%Z).
  { change 0%Z with (Qfloor 0). apply Qfloor_resp_le.
    change (inject_Z 1000000) with 1000000.
    pose proof (Qabs_nonneg x). lra. }
  assert (Hhi : (0 <= n / 1000000)%Z) by (apply Z.div_pos; lia).
  assert (Hlo : (0 <= n mod 1000000 < 1000000)%Z)
    by (apply Z.mod_pos_bound; lia).
  destruct (to_uint_chars (Z.to_N (n / 1000000))) as (Hint & Hintv & _).
  destruct (to_uint_chars (Z.to_N (n mod 1000000))) as (Hlow & Hlowv & Hlen).
  fold int in Hint, Hintv. fold low in Hlow, Hlowv, Hlen.
  rewrite Z2N.id in Hintv, Hlowv, Hlen by lia.
  assert (Hsix : (n mod 1000000 < 10 ^ Z.of_nat 6)%Z)
    by (change (10 ^ Z.of_nat 6)%Z with 1000000%Z; lia).
  specialize (Hlen 6%nat ltac:(lia) Hsix).
  rewrite length_list_ascii_of_string in Hlen.
  assert (Hfdlen : List.length fd = 6%nat).
  { unfold fd.
    rewrite length_app, repeat_length, length_list_ascii_of_string. lia. }
  assert (Hfd : digits fd).
  { split.
    - intros E. rewrite E in Hfdlen. discriminate.
    - unfold fd. apply Forall_app. split; [|apply Hlow].
      apply Forall_forall. intros c Hc.
      apply repeat_spec in Hc. now subst c. }
  assert (Hvalue : digits_value fd (digits_value int 0) = n).
  { unfold fd, digits_value at 1. rewrite fold_left_app.
    fold (digits_value (repeat "0"%char (6 - String.length low))
            (digits_value int 0)).
    rewrite digits_value_zeros.
    fold (digits_value (list_ascii_of_string low)
            (digits_value int 0 * 10 ^ Z.of_nat (6 - String.length low))).
    rewrite digits_value_acc, Hintv, Hlowv, <- Z.mul_assoc, <- Z.pow_add_r,
      length_list_ascii_of_string by lia.
    replace (Z.of_nat (6 - String.length low) + Z.of_nat (String.length low))%Z
      with 6%Z by lia.
    change (10 ^ 6)%Z with 1000000%Z.
    rewrite (Z.div_mod n 1000000) at 3 by lia. ring. }
  assert (Hsign : sign = [] \/ sign = ["-"%char]).
  { unfold sign. destruct (Qltb x 0); [now right|now left]. }
  assert (Hfrac : fraction ("."%char :: fd)).
  { right. now exists fd. }
  split.
  { rewrite Hchars. now exists sign, int, ("."%char :: fd). }
  rewrite <- (string_of_list_ascii_of_string (toFixed x 6)), Hchars.
  rewrite (parseFloat_decimal_value sign int _ Hsign Hint Hfrac).
  eexists. split; [reflexivity|].
  unfold decimal_value. cbn [fraction_digits]. rewrite Hvalue, Hfdlen.
  change (Qpower 10 (0 - Z.of_nat 6)) with (1 # 1000000).
  pose proof (Qfloor_le (Qabs x * inject_Z 1000000 + (1 # 2))) as Hle.
  pose proof (Qlt_floor (Qabs x * inject_Z 1000000 + (1 # 2))) as Hlt.
  fold n in Hle, Hlt. rewrite inject_Z_plus in Hlt.
  change (inject_Z 1) with 1 in Hlt.
  change (inject_Z 1000000) with 1000000 in Hle, Hlt.
  apply Qabs_Qle_condition.
  unfold sign, Qltb.
  destruct (Qle_bool 0 x) eqn:Hx; cbn [negb is_negative].
  - apply Qle_bool_iff in Hx.
    pose proof (Qabs_pos x Hx) as Habs.
    generalize dependent (Qabs x). intros ax; intros. lra.
  - assert (Hneg : x <= 0).
    { apply Qnot_lt_le. intros H. apply Qlt_le_weak in H.
      apply Qle_bool_iff in H. congruence. }
    pose proof (Qabs_neg x Hneg) as Habs.
    generalize dependent (Qabs x). intros ax; intros. lra.
Qed.

(** X30: the query that a long press on the map puts in the search box
    is read back by [handleSearch] from the text itself, at any latitude
    and longitude: each coordinate comes back within half a millionth of
    a degree of the point pressed. *)
Theorem long_press_round_trip lat lng :
  exists lat' lng',
    handleSearch_coords (handleMapLongPress_query lat lng)
    = Some (Fin lat', Fin lng')
    /\ Qabs (lat' - lat) <= 1 # 2000000
    /\ Qabs (lng' - lng) <= 1 # 2000000.
Proof.
  destruct (toFixed_decimal lat) as (Ha & lat' & Elat & Hlat).
  destruct (toFixed_decimal lng) as (Hb & lng' & Elng & Hlng).
  exists lat', lng'. split; [|now split].
  rewrite <- Elat, <- Elng.
  rewrite <- (string_of_list_ascii_of_string (toFixed lat 6)).
  rewrite <- (string_of_list_ascii_of_string (toFixed lng 6)).
  apply (handleSearch_coords_one_comma _ [] _ [] [" "%char] _ []);
    [|constructor|constructor|repeat constructor|constructor
     |exact Ha|exact Hb].
  unfold handleMapLongPress_query.
  rewrite !list_ascii_of_string_append, app_nil_r. reflexivity.
Qed.
